(** * Premium graphics widgets of Telegram Desktop

    A shallow embedding of [ui/effects/premium_graphics.cpp]: the animated
    counter bubble ([Bubble], [BubbleWidget]), the two-halves limit bar
    ([Line]), the accounts row ([AddAccountsRow]) and the list box
    ([ShowListBox]).

    Widgets are records, event handlers are functions from state to state,
    painting returns the list of painter commands it issues.  C++ [int] is
    [Z] with the conversions written out, [float64] is an interface with an
    IEEE-754 binary64 instance and a rounding-operator instance. *)

From Stdlib Require Import ZArith QArith Qround Qpower Lia Lqa Bool String.
From Stdlib Require Import DecimalString.
From Stdlib Require Import Floats.SpecFloat.
From stdpp Require Import base option list.

Local Open Scope Z_scope.

(** ** Integer conversions of the C++ code *)

Module CInt.

Definition int_min : Z := - 2 ^ 31.
Definition int_max : Z := 2 ^ 31 - 1.

(** Conversion of a wider integer to [int] keeps the low 32 bits. *)
Definition to_int (z : Z) : Z := (z + 2 ^ 31) mod 2 ^ 32 - 2 ^ 31.

(** Conversion to [size_t] (64 bits) is reduction modulo [2^64]. *)
Definition to_size_t (z : Z) : Z := z mod 2 ^ 64.

Definition in_int (z : Z) : bool := (int_min <=? z) && (z <=? int_max).

End CInt.

(** ** [std::clamp]

    [std::clamp(v, lo, hi)] with the comparison made explicit: [lo] when
    [v < lo], otherwise [hi] when [hi < v], otherwise [v] itself. *)

Definition clamp {T : Type} (less : T -> T -> bool) (v lo hi : T) : T :=
  if less v lo then lo else if less hi v then hi else v.

(** ** The [float64] interface *)

Class Float64 (F : Type) : Type := {
  flt : F -> F -> bool;            (* a < b *)
  fle : F -> F -> bool;            (* a <= b *)
  feq : F -> F -> bool;            (* a == b *)
  fadd : F -> F -> F;
  fsub : F -> F -> F;
  fmul : F -> F -> F;
  fdiv : F -> F -> F;
  of_int : Z -> F;                 (* int -> float64 *)
  trunc_int : F -> Z;              (* float64 -> int, toward zero *)
  flit : Q -> F                    (* a literal such as [0.75] *)
}.

Definition fzero {F} `{Float64 F} : F := flit (0 # 1).
Definition fone {F} `{Float64 F} : F := flit (1 # 1).
Definition ftwo {F} `{Float64 F} : F := flit (2 # 1).

(** Contextual conversion [float64 -> bool]: true unless the value
    compares equal to zero. *)
Definition to_bool {F} `{Float64 F} (x : F) : bool := negb (feq x fzero).

(** *** IEEE-754 binary64 *)

Module IEEE.

Definition prec : Z := 53.
Definition emax : Z := 1024.

Definition float64 : Type := spec_float.

Definition nan : float64 := S754_nan.

Definition is_nan (x : float64) : bool :=
  match x with S754_nan => true | _ => false end.

Definition of_Z (n : Z) : float64 := binary_normalize prec emax n 0 false.

(** Truncation toward zero.  Converting a NaN, an infinity or a value
    outside the range of [int] is undefined in C++; the model returns
    [INT_MIN] there, as the x86 conversion instruction does. *)
Definition to_Z (x : float64) : Z :=
  match x with
  | S754_zero _ => 0
  | S754_finite s m e =>
      let a := match e with
               | Zneg p => Z.shiftr (Zpos m) (Zpos p)
               | _ => Z.shiftl (Zpos m) e
               end in
      let z := cond_Zopp s a in
      if CInt.in_int z then z else CInt.int_min
  | _ => CInt.int_min
  end.

(** A literal [n/d] is the correctly rounded quotient. *)
Definition of_Q (q : Q) : float64 :=
  SFdiv prec emax (of_Z (Qnum q)) (of_Z (Zpos (Qden q))).

#[global] Instance binary64 : Float64 float64 := {|
  flt := SFltb;
  fle := SFleb;
  feq := SFeqb;
  fadd := SFadd prec emax;
  fsub := SFsub prec emax;
  fmul := SFmul prec emax;
  fdiv := SFdiv prec emax;
  of_int := of_Z;
  trunc_int := to_Z;
  flit := of_Q
|}.

(** [0 <= x <= 1] as a test on floats; false on NaN. *)
Definition in_unit_range (x : float64) : bool :=
  SFleb fzero x && SFleb x fone.

End IEEE.

(** *** Exact arithmetic followed by a rounding operator

    Finite [float64] values are rationals, every operation is the exact
    one followed by the rounding [rnd] of the format. *)

Module Rounded.

(** The rationals, as the floats of the format that rounds with [rnd]. *)
Definition float64 (rnd : Q -> Q) : Type := Q.

Definition Qltb (a b : Q) : bool := negb (Qle_bool b a).

(** Truncation of a rational toward zero. *)
Definition Qtrunc (q : Q) : Z := Z.quot (Qnum q) (Zpos (Qden q)).

Definition to_Z (q : Q) : Z :=
  let z := Qtrunc q in if CInt.in_int z then z else CInt.int_min.

#[global] Instance rounded (rnd : Q -> Q) : Float64 (float64 rnd) := {|
  flt := Qltb;
  fle := Qle_bool;
  feq := Qeq_bool;
  fadd a b := rnd (a + b)%Q;
  fsub a b := rnd (a - b)%Q;
  fmul a b := rnd (a * b)%Q;
  fdiv a b := rnd (a / b)%Q;
  of_int n := rnd (inject_Z n);
  trunc_int := to_Z;
  flit q := rnd q
|}.

(** What the proofs need of a rounding: it is monotone, and it leaves
    unchanged the quotients [n / 2^k] of an integer of the [int] range by
    a power of two up to [2^32], all of which binary64 represents. *)
Record valid_rounding (rnd : Q -> Q) : Prop := {
  rnd_mono : forall x y : Q, (x <= y)%Q -> (rnd x <= rnd y)%Q;
  rnd_dyadic : forall (n : Z) (k : nat),
    CInt.in_int n = true -> (k <= 32)%nat ->
    (rnd (inject_Z n / inject_Z (2 ^ Z.of_nat k))
     == inject_Z n / inject_Z (2 ^ Z.of_nat k))%Q
}.

(** The progress of the counter in the animation callback, and the float
    the callback truncates: [0 + progress * currentCounter]. *)
Definition progress (rnd : Q -> Q) (step v : Q) : Q :=
  clamp Qltb (rnd (v / step)%Q) (rnd 0%Q) (rnd 1%Q).

Definition scaled (rnd : Q -> Q) (step v : Q) (current : Z) : Q :=
  rnd (rnd (inject_Z 0)
       + rnd (progress rnd step v * rnd (inject_Z current)))%Q.

(** Two roundings: none at all, and rounding down to a multiple of
    [2^-64]. *)
Definition exact (x : Q) : Q := x.

Definition fixed64 (x : Q) : Q :=
  (inject_Z (Qfloor (x * inject_Z (2 ^ 64))) / inject_Z (2 ^ 64))%Q.

End Rounded.

(** *** The value of a binary64 float and rounding to nearest even

    A finite float [(s, m, e)] is the rational [(-1)^s * m * 2^e];
    [round64] is the rounding of a rational to the nearest float of the
    format, ties to even, written on the rationals. *)

Definition pow2 (e : Z) : Q := (2 ^ e)%Q.

Definition fexp64 (e : Z) : Z := SpecFloat.fexp 53 1024 e.

Definition mag (x : Q) : Z :=
  let k := Z.log2 (Qnum x) - Z.log2 (Zpos (Qden x)) in
  if Qle_bool (pow2 k) x then k + 1 else k.

Definition cexp (x : Q) : Z := fexp64 (mag x).

Definition rne (t : Q) : Z :=
  let f := Qfloor t in
  match (t - inject_Z f ?= 1 # 2)%Q with
  | Lt => f
  | Eq => if Z.even f then f else f + 1
  | Gt => f + 1
  end.

Definition round_pos (x : Q) : Q :=
  (inject_Z (rne (x / pow2 (cexp x))) * pow2 (cexp x))%Q.

Definition round64 (x : Q) : Q :=
  match (x ?= 0)%Q with
  | Gt => round_pos x
  | Eq => 0%Q
  | Lt => (- round_pos (- x))%Q
  end.

(** Where a non-negative rational lies between an integer and the next. *)
Definition loc_of (t : Q) : location :=
  let d := (t - inject_Z (Qfloor t))%Q in
  if Qeq_bool d 0 then loc_Exact else loc_Inexact (d ?= 1 # 2)%Q.

Definition Loc (t : Q) : shr_record := shr_record_of_loc (Qfloor t) (loc_of t).

(** The value of a float; zero for what is not finite. *)
Definition B2Q (f : spec_float) : Q :=
  match f with
  | S754_finite s m e =>
      ((if s then - (1) else 1) * inject_Z (Zpos m) * pow2 e)%Q
  | _ => 0%Q
  end.

(** A zero or a positive finite float. *)
Definition nonneg (f : spec_float) : bool :=
  match f with
  | S754_zero _ => true
  | S754_finite false _ _ => true
  | _ => false
  end.

Definition valid64 (f : spec_float) : bool := valid_binary 53 1024 f.

(** ** Geometry and painting primitives of the toolkit *)

Record QSize := { sz_width : Z; sz_height : Z }.

(** [QSize::isEmpty]: either dimension is less than or equal to zero. *)
Definition QSize_isEmpty (s : QSize) : bool :=
  (sz_width s <=? 0) || (sz_height s <=? 0).

Definition QSize_scale (s : QSize) (k : Z) : QSize :=
  {| sz_width := sz_width s * k; sz_height := sz_height s * k |}.

Definition QSize_add (a b : QSize) : QSize :=
  {| sz_width := sz_width a + sz_width b;
     sz_height := sz_height a + sz_height b |}.

Record QMargins := { m_left : Z; m_top : Z; m_right : Z; m_bottom : Z }.

Record QRect := { r_x : Z; r_y : Z; r_width : Z; r_height : Z }.

Definition QRect_size (r : QRect) : QSize :=
  {| sz_width := r_width r; sz_height := r_height r |}.

(** [rect - margins] *)
Definition QRect_shrink (r : QRect) (m : QMargins) : QRect :=
  {| r_x := r_x r + m_left m;
     r_y := r_y r + m_top m;
     r_width := r_width r - m_left m - m_right m;
     r_height := r_height r - m_top m - m_bottom m |}.

(** [center().x()]: the mean of the first and the last column. *)
Definition QRect_center_x (r : QRect) : Z :=
  Z.quot (r_x r + (r_x r + r_width r - 1)) 2.

(** [setLeft] moves the left edge and keeps the right one. *)
Definition QRect_setLeft (x : Z) (r : QRect) : QRect :=
  {| r_x := x; r_y := r_y r;
     r_width := r_x r + r_width r - x; r_height := r_height r |}.

(** [setRight] moves the last column and keeps the left edge. *)
Definition QRect_setRight (x : Z) (r : QRect) : QRect :=
  {| r_x := r_x r; r_y := r_y r;
     r_width := x - r_x r + 1; r_height := r_height r |}.

(** The quotient [num / float64(den)] at which a gradient is sampled. *)
Record Ratio := { ratio_num : Z; ratio_den : Z }.

Inductive GradientStops :=
| ButtonGradientStops
| FullHeightGradientStopsMirrored.

Inductive Color :=
| StyleColor (name : string)
| Transparent
| GradientColorAt (stops : GradientStops) (extent : Z) (at_ : Ratio).

(** [QLinearGradient(0, 0, dx, dy)] with its colour stops. *)
Record QLinearGradient := {
  lg_dx : Z;
  lg_dy : Z;
  lg_stops : list (Q * Color)
}.

Definition QLinearGradient_default : QLinearGradient :=
  {| lg_dx := 1; lg_dy := 1;
     lg_stops := [] |}.

Inductive QBrush :=
| NoBrush
| SolidBrush (c : Color)
| GradientBrush (g : QLinearGradient).

(** A pixmap is described by its device size and what was painted on it. *)
Inductive Shape :=
| RoundedRect (r : QRect) (xr yr : Z)
| PlainRect (r : QRect)
| TextIn (r : QRect) (text : string).

Record Fill := { fill_shapes : list Shape; fill_brush : QBrush }.

Record QPixmap := {
  pm_size : QSize;
  pm_ratio : Z;
  pm_painted : list Fill
}.

Definition QPixmap_null : QPixmap :=
  {| pm_size := {| sz_width := 0; sz_height := 0 |};
     pm_ratio := 1; pm_painted := [] |}.

(** Which edge a text is placed from: [drawLeft] or [drawRight]. *)
Inductive TextAlign := FromLeft | FromRight.

Inductive PathCmd (F : Type) :=
| MoveTo (x y : F)
| LineTo (x y : F).
Arguments MoveTo {F} x y.
Arguments LineTo {F} x y.

Inductive PaintOp (F : Type) :=
| OpTranslate (dx dy : Z)
| OpScale (sx sy : F)
| OpRotate (angle : F)
| OpSetPen (b : QBrush) (width : Z)
| OpSetBrush (b : QBrush)
| OpDrawPath (tail : list (PathCmd F)) (body : QRect) (radius : Z)
| OpPaintIcon (x y outerw : Z)
| OpPaintNumbers (text : string) (x y outerw : Z)
| OpDrawPixmap (x y : Z) (pm : QPixmap)
| OpDrawText (text : string) (align : TextAlign) (elided : bool)
    (x top availableWidth outerw : Z).
Arguments OpTranslate {F} dx dy.
Arguments OpScale {F} sx sy.
Arguments OpRotate {F} angle.
Arguments OpSetPen {F} b width.
Arguments OpSetBrush {F} _.
Arguments OpDrawPath {F} tail body radius.
Arguments OpPaintIcon {F} x y outerw.
Arguments OpPaintNumbers {F} text x y outerw.
Arguments OpDrawPixmap {F} x y pm.
Arguments OpDrawText {F} text align elided x top availableWidth outerw.

(** ** Style constants

    The values of the [st::] constants come from the generated style
    files; the widgets take them as a parameter. *)

Record Style := {
  premiumBubbleFontHeight : Z;
  premiumBubblePadding : QMargins;
  premiumBubbleTailSize : QSize;
  premiumBubbleHeight : Z;
  premiumBubbleTextSkip : Z;
  premiumBubblePenWidth : Z;
  premiumBubbleWidthLimit : Z;
  premiumBubbleSkip : Z;
  premiumBubbleSlideDuration : Z;
  boxRowPadding : QMargins;
  requestsAcceptButtonHeight : Z;
  buttonRadius : Z;
  premiumLineTextSkip : Z;
  semiboldTextHeight : Z;
  (** width a label takes when laid out in a given width *)
  labelWidth : string -> Z -> Z;
  premiumAccountsHeight : Z;
  premiumAccountsLabelPadding : QMargins;
  premiumAccountsLabelSize : QSize;
  premiumAccountsLabelRadius : Z;
  settingsPremiumPreviewTitlePadding : QMargins;
  settingsPremiumPreviewAboutPadding : QMargins;
  settingsPremiumPreviewLinePadding : QMargins;
  boxWideWidth : Z;
  (** height of a flat label showing a text *)
  flatLabelHeight : string -> Z;
  DevicePixelRatio : Z;
  (** width of a text in the bubble font *)
  textWidth : string -> Z;
  (** widest the number animation gets between two texts *)
  numbersMaxWidth : string -> string -> Z
}.

Definition kBubbleRadiusSubtractor : Z := 2.

(** ** [ComputeGradient]

    [fullGradientWidth] is the width of the parent of [content]. *)

Record Content := { content_width : Z; content_parent_width : Z }.

Definition ComputeGradient (content : Content) (left width : Z)
  : QLinearGradient :=
  let fullGradientWidth := content_parent_width content in
  let fullFinal := fullGradientWidth in
  let left := left + Z.quot (fullGradientWidth - content_width content) 2 in
  {| lg_dx := width; lg_dy := 0;
     lg_stops :=
       [ (0 # 1, GradientColorAt ButtonGradientStops fullGradientWidth
                   {| ratio_num := left; ratio_den := fullFinal |});
         (1 # 1, GradientColorAt ButtonGradientStops fullGradientWidth
                   {| ratio_num := left + width; ratio_den := fullFinal |}) ]%Q |}.

(** ** [Bubble] *)

Record Icon := { icon_width : Z; icon_height : Z }.

(** The number animation keeps the text it shows and its value. *)
Record NumbersAnimation := { na_text : string; na_value : Z }.

Record Bubble (F : Type) := {
  _textFactory : Z -> string;
  _icon : Icon;
  _numberAnimation : NumbersAnimation;
  _tailSize : QSize;
  _height : Z;
  _textTop : Z;
  _premiumPossible : bool;
  _counter : Z;
  _tailEdge : F
}.
Arguments _textFactory {F} _.
Arguments _icon {F} _.
Arguments _numberAnimation {F} _.
Arguments _tailSize {F} _.
Arguments _height {F} _.
Arguments _textTop {F} _.
Arguments _premiumPossible {F} _.
Arguments _counter {F} _.
Arguments _tailEdge {F} _.

Section BubbleOps.

Context {F : Type} `{Float64 F} (st : Style).

(** The constructor: the counter starts at [-1], the tail edge at [0.],
    the number animation shows the text of [0]. *)
Definition Bubble_new (textFactory : Z -> string) (icon : Icon)
    (premiumPossible : bool) : Bubble F :=
  let tailSize := premiumBubbleTailSize st in
  let height := premiumBubbleHeight st + sz_height tailSize in
  {| _textFactory := textFactory;
     _icon := icon;
     _numberAnimation := {| na_text := textFactory 0; na_value := 0 |};
     _tailSize := tailSize;
     _height := height;
     _textTop :=
       Z.quot (height - sz_height tailSize - premiumBubbleFontHeight st) 2;
     _premiumPossible := premiumPossible;
     _counter := -1;
     _tailEdge := fzero |}.

Definition counter (b : Bubble F) : Z := _counter b.

Definition height (b : Bubble F) : Z := _height b.

Definition bubbleRadius (b : Bubble F) : Z :=
  Z.quot (_height b - sz_height (_tailSize b)) 2 - kBubbleRadiusSubtractor.

Definition filledWidth (b : Bubble F) : Z :=
  m_left (premiumBubblePadding st)
  + icon_width (_icon b)
  + premiumBubbleTextSkip st
  + m_right (premiumBubblePadding st).

Definition width (b : Bubble F) : Z :=
  filledWidth b + textWidth st (na_text (_numberAnimation b)).

Definition countMaxWidth (b : Bubble F) (maxCounter : Z) : Z :=
  filledWidth b
  + numbersMaxWidth st (_textFactory b 0) (_textFactory b maxCounter).

Definition setCounter (value : Z) (b : Bubble F) : Bubble F :=
  if negb (_counter b =? value) then
    {| _textFactory := _textFactory b;
       _icon := _icon b;
       _numberAnimation :=
         {| na_text := _textFactory b value; na_value := value |};
       _tailSize := _tailSize b;
       _height := _height b;
       _textTop := _textTop b;
       _premiumPossible := _premiumPossible b;
       _counter := value;
       _tailEdge := _tailEdge b |}
  else b.

Definition setTailEdge (edge : F) (b : Bubble F) : Bubble F :=
  {| _textFactory := _textFactory b;
     _icon := _icon b;
     _numberAnimation := _numberAnimation b;
     _tailSize := _tailSize b;
     _height := _height b;
     _textTop := _textTop b;
     _premiumPossible := _premiumPossible b;
     _counter := _counter b;
     _tailEdge := clamp flt edge fzero fone |}.

(** [std::max(a, b)] *)
Definition fmax (a b : F) : F := if flt a b then b else a.

Definition paintBubble (b : Bubble F) (r : QRect) (brush : QBrush)
  : list (PaintOp F) :=
  if _counter b <? 0 then []
  else
    let penWidth := premiumBubblePenWidth st in
    let penWidthHalf := Z.quot penWidth 2 in
    let tailH := sz_height (_tailSize b) in
    let tailW := sz_width (_tailSize b) in
    let bubbleRect := QRect_shrink r
      {| m_left := penWidthHalf; m_top := penWidthHalf;
         m_right := penWidthHalf; m_bottom := tailH + penWidthHalf |} in
    let radius := bubbleRadius b in
    let tailWHalf := fdiv (of_int tailW) ftwo in
    let progress := _tailEdge b in
    let tailTop := r_y bubbleRect + r_height bubbleRect in
    let halfW := fmul (of_int (r_width bubbleRect)) (flit (1 # 2)) in
    let tailLeftFull :=
      fsub (fadd (of_int (r_x bubbleRect)) halfW) tailWHalf in
    let tailLeft :=
      fsub (fadd (of_int (r_x bubbleRect))
                 (fmul halfW (fadd progress fone)))
           tailWHalf in
    let tailCenter := fadd tailLeft tailWHalf in
    let tailRight :=
      let max := r_x bubbleRect + r_width bubbleRect in
      let right := fadd tailLeft (of_int tailW) in
      let bottomMax := max - radius in
      if flt (of_int bottomMax) right
      then fmax tailCenter (of_int bottomMax)
      else right in
    let pathTail :=
      if _premiumPossible b then
        [ MoveTo tailLeftFull (of_int tailTop);
          LineTo tailLeft (of_int tailTop);
          LineTo tailCenter (of_int (tailTop + tailH));
          LineTo tailRight (of_int tailTop);
          LineTo tailRight (of_int (tailTop - radius));
          MoveTo tailLeftFull (of_int tailTop) ]
      else [] in
    let iconLeft := r_x r + m_left (premiumBubblePadding st) in
    [ OpSetPen brush penWidth;
      OpSetBrush brush;
      OpDrawPath pathTail bubbleRect radius;
      OpSetPen (SolidBrush (StyleColor "activeButtonFg")) 1;
      OpPaintIcon iconLeft
        (r_y bubbleRect
         + Z.quot (r_height bubbleRect - icon_height (_icon b)) 2)
        (r_width bubbleRect);
      OpPaintNumbers (na_text (_numberAnimation b))
        (iconLeft + icon_width (_icon b) + premiumBubbleTextSkip st)
        (r_y r + _textTop b)
        (Z.quot (width b) 2) ].

End BubbleOps.

(** The mutating operations of a bubble, to speak of sequences of them. *)
Inductive BubbleOp (F : Type) :=
| SetCounter (value : Z)
| SetTailEdge (edge : F).
Arguments SetCounter {F} value.
Arguments SetTailEdge {F} edge.

Definition Bubble_apply {F : Type} `{Float64 F} (b : Bubble F)
    (op : BubbleOp F) : Bubble F :=
  match op with
  | SetCounter value => setCounter value b
  | SetTailEdge edge => setTailEdge edge b
  end.

Definition Bubble_run {F : Type} `{Float64 F} (ops : list (BubbleOp F))
    (b : Bubble F) : Bubble F :=
  fold_left Bubble_apply ops b.

(** ** [BubbleWidget] *)

(** A running [Ui::Animations::Simple]: the arguments of [start], the
    edge value its callback captured and the value of the last tick. *)
Record Animation (F : Type) := {
  anim_from : F;
  anim_to : F;
  anim_duration : F;
  anim_bubbleEdge : F;
  anim_value : F
}.
Arguments anim_from {F} _.
Arguments anim_to {F} _.
Arguments anim_duration {F} _.
Arguments anim_bubbleEdge {F} _.
Arguments anim_value {F} _.

Record BubbleWidget (F : Type) := {
  _currentCounter : Z;
  _maxCounter : Z;
  _bubble : Bubble F;
  _maxBubbleWidth : Z;
  w_premiumPossible : bool;
  _appearanceAnimation : option (Animation F);
  _spaceForDeflection : QSize;
  _cachedGradient : QLinearGradient;
  _deflection : F;
  _ignoreDeflection : bool;
  _stepBeforeDeflection : F;
  _stepAfterDeflection : F;
  (** the widget itself: position, size, pending repaints *)
  w_x : Z;
  w_y : Z;
  w_size : QSize;
  w_updates : nat;
  (** the parent container and its own parent *)
  w_parent : Content;
  (** events the [take(1)] subscription on [showFinishes] still accepts *)
  w_showFinishesLeft : nat;
  (** how many times the appearance animation was started *)
  w_animationStarts : nat
}.
Arguments _currentCounter {F} _.
Arguments _maxCounter {F} _.
Arguments _bubble {F} _.
Arguments _maxBubbleWidth {F} _.
Arguments w_premiumPossible {F} _.
Arguments _appearanceAnimation {F} _.
Arguments _spaceForDeflection {F} _.
Arguments _cachedGradient {F} _.
Arguments _deflection {F} _.
Arguments _ignoreDeflection {F} _.
Arguments _stepBeforeDeflection {F} _.
Arguments _stepAfterDeflection {F} _.
Arguments w_x {F} _.
Arguments w_y {F} _.
Arguments w_size {F} _.
Arguments w_updates {F} _.
Arguments w_parent {F} _.
Arguments w_showFinishesLeft {F} _.
Arguments w_animationStarts {F} _.

Inductive Event (F : Type) :=
| ShowFinished                (* an event on the [showFinishes] producer *)
| AnimationTick (value : F)   (* the animation calls back with a value *)
| AnimationFinished           (* last callback, at [to]; animation stops *)
| Paint.                      (* the toolkit delivers a paint event *)
Arguments ShowFinished {F}.
Arguments AnimationTick {F} value.
Arguments AnimationFinished {F}.
Arguments Paint {F}.

Definition is_ShowFinished {F : Type} (ev : Event F) : bool :=
  match ev with
  | ShowFinished => true
  | _ => false
  end.

Section BubbleWidgetOps.

Context {F : Type} `{Float64 F} (st : Style).

Definition kDeflectionSmall : F := flit (20 # 1).
Definition kDeflection : F := flit (30 # 1).
Definition kStepBeforeDeflection : F := flit (3 # 4).
Definition kStepAfterDeflection : F :=
  fadd kStepBeforeDeflection
       (fdiv (fsub fone kStepBeforeDeflection) ftwo).

Definition resizeTo (w h : Z) (bw : BubbleWidget F) : BubbleWidget F :=
  let space := {| sz_width := premiumBubbleSkip st;
                  sz_height := premiumBubbleSkip st |} in
  {| _currentCounter := _currentCounter bw;
     _maxCounter := _maxCounter bw;
     _bubble := _bubble bw;
     _maxBubbleWidth := _maxBubbleWidth bw;
     w_premiumPossible := w_premiumPossible bw;
     _appearanceAnimation := _appearanceAnimation bw;
     _spaceForDeflection := space;
     _cachedGradient := _cachedGradient bw;
     _deflection := if premiumBubbleWidthLimit st <? w
                    then kDeflectionSmall else kDeflection;
     _ignoreDeflection := _ignoreDeflection bw;
     _stepBeforeDeflection := _stepBeforeDeflection bw;
     _stepAfterDeflection := _stepAfterDeflection bw;
     w_x := w_x bw;
     w_y := w_y bw;
     w_size := QSize_add {| sz_width := w; sz_height := h |} space;
     w_updates := w_updates bw;
     w_parent := w_parent bw;
     w_showFinishesLeft := w_showFinishesLeft bw;
     w_animationStarts := w_animationStarts bw |}.

(** The constructor.  The subscription on [showFinishes] goes through
    [take(1)], so it accepts one event. *)
Definition BubbleWidget_new (parent : Content) (textFactory : Z -> string)
    (current maxCounter : Z) (premiumPossible : bool) (icon : Icon)
  : BubbleWidget F :=
  let bubble := Bubble_new st textFactory icon premiumPossible in
  resizeTo (width st bubble) (height bubble)
    {| _currentCounter := current;
       _maxCounter := maxCounter;
       _bubble := bubble;
       _maxBubbleWidth := countMaxWidth st bubble maxCounter;
       w_premiumPossible := premiumPossible;
       _appearanceAnimation := None;
       _spaceForDeflection := {| sz_width := 0; sz_height := 0 |};
       _cachedGradient := QLinearGradient_default;
       _deflection := kDeflection;
       _ignoreDeflection := false;
       _stepBeforeDeflection := kStepBeforeDeflection;
       _stepAfterDeflection := kStepAfterDeflection;
       w_x := 0;
       w_y := 0;
       w_size := {| sz_width := 0; sz_height := 0 |};
       w_updates := 0;
       w_parent := parent;
       w_showFinishesLeft := 1;
       w_animationStarts := 0 |}.

Definition moveEndPoint (bw : BubbleWidget F) : F :=
  fdiv (of_int (_currentCounter bw)) (of_int (_maxCounter bw)).

Definition computeLeft (bw : BubbleWidget F) (pointRatio animProgress : F)
  : F :=
  let padding := boxRowPadding st in
  let halfWidth := Z.quot (_maxBubbleWidth bw) 2 in
  let left := m_left padding in
  let right := m_right padding in
  fadd (fsub (fmul (fmul (of_int (content_width (w_parent bw)
                                   - left - right))
                         pointRatio)
                   animProgress)
             (of_int halfWidth))
       (of_int left).

Definition computeEdge (bw : BubbleWidget F) : Z :=
  content_width (w_parent bw)
  - m_right (boxRowPadding st)
  - _maxBubbleWidth bw.

Definition checkBubbleEdges (bw : BubbleWidget F) : F :=
  let finish := computeLeft bw (moveEndPoint bw) fone in
  let edge := of_int (computeEdge bw) in
  if fle edge finish
  then fdiv (fsub finish edge) (fdiv (of_int (_maxBubbleWidth bw)) ftwo)
  else fzero.

End BubbleWidgetOps.

Section BubbleWidgetEvents.

Context {F : Type} `{Float64 F} (st : Style).

(** What one call of the animation callback changes: the position, the
    bubble and the pending repaints. *)
Definition with_frame (x y : Z) (b : Bubble F) (value : F)
    (bw : BubbleWidget F) : BubbleWidget F :=
  {| _currentCounter := _currentCounter bw;
     _maxCounter := _maxCounter bw;
     _bubble := b;
     _maxBubbleWidth := _maxBubbleWidth bw;
     w_premiumPossible := w_premiumPossible bw;
     _appearanceAnimation :=
       match _appearanceAnimation bw with
       | Some a => Some {| anim_from := anim_from a;
                           anim_to := anim_to a;
                           anim_duration := anim_duration a;
                           anim_bubbleEdge := anim_bubbleEdge a;
                           anim_value := value |}
       | None => None
       end;
     _spaceForDeflection := _spaceForDeflection bw;
     _cachedGradient := _cachedGradient bw;
     _deflection := _deflection bw;
     _ignoreDeflection := _ignoreDeflection bw;
     _stepBeforeDeflection := _stepBeforeDeflection bw;
     _stepAfterDeflection := _stepAfterDeflection bw;
     w_x := x;
     w_y := y;
     w_size := w_size bw;
     w_updates := S (w_updates bw);
     w_parent := w_parent bw;
     w_showFinishesLeft := w_showFinishesLeft bw;
     w_animationStarts := w_animationStarts bw |}.

(** The counter the animation callback computes for a value. *)
Definition counterAt (bw : BubbleWidget F) (value : F) : Z :=
  let counterProgress :=
    clamp flt (fdiv value (_stepAfterDeflection bw)) fzero fone in
  trunc_int (fadd (of_int 0)
                  (fmul counterProgress (of_int (_currentCounter bw)))).

(** The callback given to [_appearanceAnimation.start]. *)
Definition appearanceCallback (bubbleEdge value : F) (bw : BubbleWidget F)
  : BubbleWidget F :=
  let moveProgress :=
    clamp flt (fdiv value (_stepBeforeDeflection bw)) fzero fone in
  let left :=
    fsub (computeLeft st bw (moveEndPoint bw) moveProgress)
         (fmul (fdiv (of_int (_maxBubbleWidth bw)) ftwo) bubbleEdge) in
  let counter := counterAt bw value in
  let edgeProgress := fmul value bubbleEdge in
  with_frame (trunc_int left) 0
    (setTailEdge edgeProgress (setCounter counter (_bubble bw)))
    value bw.

(** The handler of the first [showFinishes] event. *)
Definition startAppearance (bw : BubbleWidget F) : BubbleWidget F :=
  let bubbleEdge := checkBubbleEdges st bw in
  let ignoreDeflection := to_bool bubbleEdge in
  {| _currentCounter := _currentCounter bw;
     _maxCounter := _maxCounter bw;
     _bubble := _bubble bw;
     _maxBubbleWidth := _maxBubbleWidth bw;
     w_premiumPossible := w_premiumPossible bw;
     _appearanceAnimation :=
       Some {| anim_from := fzero;
               anim_to := fone;
               anim_duration :=
                 fmul (of_int (premiumBubbleSlideDuration st))
                      (if ignoreDeflection
                       then kStepBeforeDeflection else fone);
               anim_bubbleEdge := bubbleEdge;
               anim_value := fzero |};
     _spaceForDeflection := _spaceForDeflection bw;
     _cachedGradient := _cachedGradient bw;
     _deflection := _deflection bw;
     _ignoreDeflection := ignoreDeflection;
     _stepBeforeDeflection :=
       if ignoreDeflection then fone else _stepBeforeDeflection bw;
     _stepAfterDeflection :=
       if ignoreDeflection then fone else _stepAfterDeflection bw;
     w_x := w_x bw;
     w_y := w_y bw;
     w_size := w_size bw;
     w_updates := w_updates bw;
     w_parent := w_parent bw;
     w_showFinishesLeft := w_showFinishesLeft bw;
     w_animationStarts := S (w_animationStarts bw) |}.

Definition with_showFinishesLeft (n : nat) (bw : BubbleWidget F)
  : BubbleWidget F :=
  {| _currentCounter := _currentCounter bw;
     _maxCounter := _maxCounter bw;
     _bubble := _bubble bw;
     _maxBubbleWidth := _maxBubbleWidth bw;
     w_premiumPossible := w_premiumPossible bw;
     _appearanceAnimation := _appearanceAnimation bw;
     _spaceForDeflection := _spaceForDeflection bw;
     _cachedGradient := _cachedGradient bw;
     _deflection := _deflection bw;
     _ignoreDeflection := _ignoreDeflection bw;
     _stepBeforeDeflection := _stepBeforeDeflection bw;
     _stepAfterDeflection := _stepAfterDeflection bw;
     w_x := w_x bw;
     w_y := w_y bw;
     w_size := w_size bw;
     w_updates := w_updates bw;
     w_parent := w_parent bw;
     w_showFinishesLeft := n;
     w_animationStarts := w_animationStarts bw |}.

(** Modelled from the spec: [rpl::take(1)] is library code outside this
    file; the widget reacts to the first event delivered on
    [showFinishes] and to no later one. *)
Definition onShowFinishes (bw : BubbleWidget F) : BubbleWidget F :=
  match w_showFinishesLeft bw with
  | O => bw
  | S n => with_showFinishesLeft n (startAppearance bw)
  end.

Definition with_animation (a : option (Animation F))
    (g : QLinearGradient) (bw : BubbleWidget F) : BubbleWidget F :=
  {| _currentCounter := _currentCounter bw;
     _maxCounter := _maxCounter bw;
     _bubble := _bubble bw;
     _maxBubbleWidth := _maxBubbleWidth bw;
     w_premiumPossible := w_premiumPossible bw;
     _appearanceAnimation := a;
     _spaceForDeflection := _spaceForDeflection bw;
     _cachedGradient := g;
     _deflection := _deflection bw;
     _ignoreDeflection := _ignoreDeflection bw;
     _stepBeforeDeflection := _stepBeforeDeflection bw;
     _stepAfterDeflection := _stepAfterDeflection bw;
     w_x := w_x bw;
     w_y := w_y bw;
     w_size := w_size bw;
     w_updates := w_updates bw;
     w_parent := w_parent bw;
     w_showFinishesLeft := w_showFinishesLeft bw;
     w_animationStarts := w_animationStarts bw |}.

(** A tick of the running animation; no callback is installed before
    [start]. *)
Definition onAnimationTick (value : F) (bw : BubbleWidget F)
  : BubbleWidget F :=
  match _appearanceAnimation bw with
  | Some a => appearanceCallback (anim_bubbleEdge a) value bw
  | None => bw
  end.

(** The last tick delivers [to], then the animation is gone. *)
Definition onAnimationFinished (bw : BubbleWidget F) : BubbleWidget F :=
  match _appearanceAnimation bw with
  | Some a =>
      with_animation None (_cachedGradient bw)
        (appearanceCallback (anim_bubbleEdge a) (anim_to a) bw)
  | None => bw
  end.

Definition paintEvent (bw : BubbleWidget F)
  : BubbleWidget F * list (PaintOp F) :=
  if counter (_bubble bw) <=? 0 then (bw, [])
  else
    let padding :=
      {| m_left := 0;
         m_top := sz_height (_spaceForDeflection bw);
         m_right := sz_width (_spaceForDeflection bw);
         m_bottom := 0 |} in
    let rect := {| r_x := 0; r_y := 0;
                   r_width := sz_width (w_size bw);
                   r_height := sz_height (w_size bw) |} in
    let bubbleRect := QRect_shrink rect padding in
    let '(bw', transform) :=
      match _appearanceAnimation bw with
      | Some a =>
          let gradient :=
            ComputeGradient (w_parent bw) (w_x bw) (r_width bubbleRect) in
          let progress := anim_value a in
          let scaleProgress :=
            clamp flt (fdiv progress (_stepBeforeDeflection bw))
                  fzero fone in
          let scale := scaleProgress in
          let rotationProgress :=
            clamp flt
              (fdiv (fsub progress (_stepBeforeDeflection bw))
                    (fsub fone (_stepBeforeDeflection bw)))
              fzero fone in
          let rotationProgressReverse :=
            clamp flt
              (fdiv (fsub progress (_stepAfterDeflection bw))
                    (fsub fone (_stepAfterDeflection bw)))
              fzero fone in
          let offsetX := r_x bubbleRect + Z.quot (r_width bubbleRect) 2 in
          let offsetY := r_y bubbleRect + r_height bubbleRect in
          (with_animation (Some a) gradient bw,
           [ OpTranslate offsetX offsetY; OpScale scale scale ]
           ++ (if _ignoreDeflection bw then []
               else [ OpRotate
                        (fsub (fmul rotationProgress (_deflection bw))
                              (fmul rotationProgressReverse
                                    (_deflection bw))) ])
           ++ [ OpTranslate (- offsetX) (- offsetY) ])
      | None => (bw, [])
      end in
    (bw',
     transform
     ++ paintBubble st (_bubble bw') bubbleRect
          (if w_premiumPossible bw'
           then GradientBrush (_cachedGradient bw')
           else SolidBrush (StyleColor "windowBgActive"))).

(** [_appearanceAnimation.animating()] *)
Definition animating (bw : BubbleWidget F) : bool :=
  match _appearanceAnimation bw with
  | Some _ => true
  | None => false
  end.

(** One event, with the painter commands it caused. *)
Definition handle (ev : Event F) (bw : BubbleWidget F)
  : BubbleWidget F * list (PaintOp F) :=
  match ev with
  | ShowFinished => (onShowFinishes bw, [])
  | AnimationTick v => (onAnimationTick v bw, [])
  | AnimationFinished => (onAnimationFinished bw, [])
  | Paint => paintEvent bw
  end.

Fixpoint run (evs : list (Event F)) (bw : BubbleWidget F)
  : BubbleWidget F * list (PaintOp F) :=
  match evs with
  | [] => (bw, [])
  | ev :: rest =>
      let '(bw1, ops1) := handle ev bw in
      let '(bw2, ops2) := run rest bw1 in
      (bw2, ops1 ++ ops2)
  end.

End BubbleWidgetEvents.

(** ** [Line] *)

Record Line := {
  _leftWidth : Z;
  _rightWidth : Z;
  _leftPixmap : QPixmap;
  _rightPixmap : QPixmap;
  _leftText : string;
  _rightText : string;
  _rightLabel : string;
  _leftLabel : string;
  _overrideBrush : option QBrush;
  (** the widget itself: size, vertical position, pending repaints *)
  l_size : QSize;
  l_y : Z;
  l_updates : nat;
  (** width of the parent widget *)
  l_parent_width : Z
}.

Section LineOps.

Context (st : Style).

Definition Line_content (l : Line) : Content :=
  {| content_width := sz_width (l_size l);
     content_parent_width := l_parent_width l |}.

Definition setColorOverride (brush : QBrush) (l : Line) : Line :=
  {| _leftWidth := _leftWidth l;
     _rightWidth := _rightWidth l;
     _leftPixmap := _leftPixmap l;
     _rightPixmap := _rightPixmap l;
     _leftText := _leftText l;
     _rightText := _rightText l;
     _rightLabel := _rightLabel l;
     _leftLabel := _leftLabel l;
     _overrideBrush := match brush with
                       | NoBrush => None
                       | _ => Some brush
                       end;
     l_size := l_size l;
     l_y := l_y l;
     l_updates := l_updates l;
     l_parent_width := l_parent_width l |}.

(** The left pixmap [recache] paints for a left width and a size. *)
Definition recacheLeft (leftWidth : Z) (s : QSize) : QPixmap :=
  let r := {| r_x := 0; r_y := 0;
              r_width := leftWidth; r_height := sz_height s |} in
  let halfRect := QRect_setLeft (QRect_center_x r) r in
  {| pm_size := QSize_scale (QRect_size r) (DevicePixelRatio st);
     pm_ratio := DevicePixelRatio st;
     pm_painted :=
       [ {| fill_shapes := [ RoundedRect r (buttonRadius st)
                               (buttonRadius st);
                             PlainRect halfRect ];
            fill_brush :=
              SolidBrush (StyleColor "windowShadowFgFallback") |} ] |}.

(** The right pixmap, painted after the left one has been stored. *)
Definition recacheRight (l : Line) (leftPixmap : QPixmap) (s : QSize)
  : QPixmap :=
  let r := {| r_x := 0; r_y := 0;
              r_width := _leftWidth l; r_height := sz_height s |} in
  let halfRect := QRect_setRight (QRect_center_x r) r in
  let brush :=
    match _overrideBrush l with
    | Some b => b
    | None =>
        GradientBrush
          (ComputeGradient (Line_content l)
             (Z.quot (sz_width (pm_size leftPixmap))
                     (DevicePixelRatio st) + r_x r)
             (r_width r))
    end in
  {| pm_size := QSize_scale (QRect_size r) (DevicePixelRatio st);
     pm_ratio := DevicePixelRatio st;
     pm_painted :=
       [ {| fill_shapes := [ RoundedRect r (buttonRadius st)
                               (buttonRadius st);
                             PlainRect halfRect ];
            fill_brush := brush |} ] |}.

Definition recache (s : QSize) (l : Line) : Line :=
  let leftPixmap := recacheLeft (_leftWidth l) s in
  {| _leftWidth := _leftWidth l;
     _rightWidth := _rightWidth l;
     _leftPixmap := leftPixmap;
     _rightPixmap := recacheRight l leftPixmap s;
     _leftText := _leftText l;
     _rightText := _rightText l;
     _rightLabel := _rightLabel l;
     _leftLabel := _leftLabel l;
     _overrideBrush := _overrideBrush l;
     l_size := l_size l;
     l_y := l_y l;
     l_updates := l_updates l;
     l_parent_width := l_parent_width l |}.

Definition with_widths (leftWidth rightWidth : Z) (l : Line) : Line :=
  {| _leftWidth := leftWidth;
     _rightWidth := rightWidth;
     _leftPixmap := _leftPixmap l;
     _rightPixmap := _rightPixmap l;
     _leftText := _leftText l;
     _rightText := _rightText l;
     _rightLabel := _rightLabel l;
     _leftLabel := _leftLabel l;
     _overrideBrush := _overrideBrush l;
     l_size := l_size l;
     l_y := l_y l;
     l_updates := l_updates l;
     l_parent_width := l_parent_width l |}.

Definition Line_update (l : Line) : Line :=
  {| _leftWidth := _leftWidth l;
     _rightWidth := _rightWidth l;
     _leftPixmap := _leftPixmap l;
     _rightPixmap := _rightPixmap l;
     _leftText := _leftText l;
     _rightText := _rightText l;
     _rightLabel := _rightLabel l;
     _leftLabel := _leftLabel l;
     _overrideBrush := _overrideBrush l;
     l_size := l_size l;
     l_y := l_y l;
     l_updates := S (l_updates l);
     l_parent_width := l_parent_width l |}.

(** The subscriber of [sizeValue()]. *)
Definition onSizeValue (s : QSize) (l : Line) : Line :=
  if QSize_isEmpty s then l
  else
    let leftWidth := Z.quot (sz_width s) 2 in
    let rightWidth := sz_width s - leftWidth in
    Line_update (recache s (with_widths leftWidth rightWidth l)).

Definition with_size (s : QSize) (l : Line) : Line :=
  {| _leftWidth := _leftWidth l;
     _rightWidth := _rightWidth l;
     _leftPixmap := _leftPixmap l;
     _rightPixmap := _rightPixmap l;
     _leftText := _leftText l;
     _rightText := _rightText l;
     _rightLabel := _rightLabel l;
     _leftLabel := _leftLabel l;
     _overrideBrush := _overrideBrush l;
     l_size := s;
     l_y := l_y l;
     l_updates := l_updates l;
     l_parent_width := l_parent_width l |}.

(** A resize of the widget: the toolkit stores the new size, then
    [sizeValue()] delivers it. *)
Definition Line_resize (s : QSize) (l : Line) : Line :=
  onSizeValue s (with_size s l).

(** [Line(parent, max, min)] for a widget created with width
    [width0]; subscribing to [sizeValue()] delivers the current size. *)
Definition Line_new (parentWidth width0 : Z) (max min : string) : Line :=
  Line_resize
    {| sz_width := width0; sz_height := requestsAcceptButtonHeight st |}
    {| _leftWidth := 0;
       _rightWidth := 0;
       _leftPixmap := QPixmap_null;
       _rightPixmap := QPixmap_null;
       _leftText := "lng_premium_free";
       _rightText := "lng_premium";
       _rightLabel := max;
       _leftLabel := min;
       _overrideBrush := None;
       l_size := {| sz_width := width0; sz_height := 0 |};
       l_y := 0;
       l_updates := 0;
       l_parent_width := parentWidth |}.

(** [Line(parent, max, textFactory, min)] *)
Definition Line_new_counts (parentWidth width0 : Z) (max : Z)
    (textFactory : Z -> string) (min : Z) : Line :=
  Line_new parentWidth width0
    (if max =? 0 then EmptyString else textFactory max)
    (if min =? 0 then EmptyString else textFactory min).

Definition Line_paintEvent {F : Type} (l : Line) : list (PaintOp F) :=
  let textPadding := premiumLineTextSkip st in
  let textTop :=
    Z.quot (sz_height (l_size l) - semiboldTextHeight st) 2 in
  [ OpDrawPixmap 0 0 (_leftPixmap l);
    OpDrawPixmap (_leftWidth l) 0 (_rightPixmap l);
    OpSetPen (SolidBrush (StyleColor "windowFg")) 1;
    OpDrawText (_leftLabel l) FromRight false
      textPadding textTop (_leftWidth l - textPadding) (_leftWidth l);
    OpDrawText (_leftText l) FromLeft false
      textPadding textTop (_leftWidth l - textPadding) (_leftWidth l);
    OpSetPen (SolidBrush (StyleColor "activeButtonFg")) 1;
    OpDrawText (_rightLabel l) FromRight false
      textPadding textTop (_rightWidth l - textPadding)
      (sz_width (l_size l));
    OpDrawText (_rightText l) FromLeft true
      (_leftWidth l + textPadding) textTop
      (_rightWidth l - labelWidth st (_rightLabel l) (_rightWidth l)
       - textPadding * 2)
      (_rightWidth l) ].

End LineOps.

(** ** [AddAccountsRow] *)

Record AbstractButton := {
  btn_x : Z;
  btn_y : Z;
  btn_size : QSize;
  (** the index the clicked callback captured, once one is set *)
  btn_clicked : option Z
}.

Record RoundImageCheckbox := {
  cb_checked : bool;
  cb_colorOverride : option QBrush
}.

Record Account := {
  widget : AbstractButton;
  checkbox : RoundImageCheckbox;
  name : string;
  badge : QPixmap
}.

(** Modelled from the spec: [Ui::RadiobuttonGroup] is declared outside
    this file.  The group keeps an integer value; setting the value stores
    it and calls the changed callback with the new value. *)
Record RadiobuttonGroup := {
  rg_value : Z;
  rg_hasValue : bool;
  rg_changedCallback : option (Z -> list Account -> list Account)
}.

Record AccountsRowEntry := { entry_name : string }.

Record AccountsRowArgs := {
  args_group : RadiobuttonGroup;
  args_imageRadius : Z;
  args_selectWidth : Z;
  args_entries : list AccountsRowEntry
}.

(** The row: [state->accounts], the shared group and what the lambdas
    captured. *)
Record AccountsRow := {
  accounts : list Account;
  group : RadiobuttonGroup;
  container : Content;
  imageRadius : Z;
  checkSelectWidth : Z
}.

Inductive RowEvent :=
| Clicked (position : nat)         (* the button of an account is clicked *)
| ContainerSize (size : QSize).    (* [container->sizeValue()] fires *)

Section AccountsRowOps.

Context (st : Style).

(** Whether the group leaves out the callback when it is given the
    value it already has; the row is correct either way. *)
Context (skipUnchanged : bool).

Definition setChecked (checked : bool) (c : RoundImageCheckbox)
  : RoundImageCheckbox :=
  {| cb_checked := checked; cb_colorOverride := cb_colorOverride c |}.

Definition Checkbox_setColorOverride (brush : QBrush)
    (c : RoundImageCheckbox) : RoundImageCheckbox :=
  {| cb_checked := cb_checked c; cb_colorOverride := Some brush |}.

Definition with_checkbox (c : RoundImageCheckbox) (a : Account) : Account :=
  {| widget := widget a; checkbox := c; name := name a; badge := badge a |}.

(** Modelled from the spec: see [RadiobuttonGroup]. *)
Definition RadiobuttonGroup_setValue (value : Z)
    (g : RadiobuttonGroup) (accs : list Account)
  : RadiobuttonGroup * list Account :=
  if skipUnchanged && rg_hasValue g && (rg_value g =? value)
  then (g, accs)
  else
    ({| rg_value := value;
        rg_hasValue := true;
        rg_changedCallback := rg_changedCallback g |},
     match rg_changedCallback g with
     | Some callback => callback value accs
     | None => accs
     end).

Definition setChangedCallback
    (callback : Z -> list Account -> list Account) (g : RadiobuttonGroup)
  : RadiobuttonGroup :=
  {| rg_value := rg_value g;
     rg_hasValue := rg_hasValue g;
     rg_changedCallback := Some callback |}.

(** The lambda given to [group->setChangedCallback]. *)
Definition changedCallback (value : Z) (accs : list Account)
  : list Account :=
  imap (fun i a =>
          with_checkbox (setChecked (Z.of_nat i =? value) (checkbox a)) a)
       accs.

Definition cacheBadge (cont : Content) (center : Z) : QPixmap :=
  let padding := premiumAccountsLabelPadding st in
  let size :=
    QSize_add (premiumAccountsLabelSize st)
      {| sz_width := m_left padding + m_right padding;
         sz_height := m_top padding + m_bottom padding |} in
  let rectOut := {| r_x := 0; r_y := 0;
                    r_width := sz_width size;
                    r_height := sz_height size |} in
  let rectIn := QRect_shrink rectOut padding in
  let radius := premiumAccountsLabelRadius st in
  let left := center - Z.quot (r_width rectIn) 2 in
  {| pm_size := QSize_scale size (DevicePixelRatio st);
     pm_ratio := DevicePixelRatio st;
     pm_painted :=
       [ {| fill_shapes := [ RoundedRect rectOut radius radius ];
            fill_brush := SolidBrush (StyleColor "premiumButtonFg") |};
         {| fill_shapes := [ RoundedRect rectIn (Z.quot radius 2)
                               (Z.quot radius 2) ];
            fill_brush :=
              GradientBrush (ComputeGradient cont left (r_width rectIn)) |};
         {| fill_shapes := [ TextIn rectIn "+1" ];
            fill_brush := SolidBrush (StyleColor "premiumButtonFg") |} ] |}.

(** One turn of the loop over [args.entries]. *)
Definition addAccount (g : RadiobuttonGroup) (accs : list Account)
    (entry : AccountsRowEntry) : list Account :=
  let pushed :=
    accs ++ [ {| widget := {| btn_x := 0; btn_y := 0;
                              btn_size := {| sz_width := 0;
                                             sz_height := 0 |};
                              btn_clicked := None |};
                 checkbox := {| cb_checked := false;
                                cb_colorOverride := None |};
                 name := entry_name entry;
                 badge := QPixmap_null |} ] in
  let index := Z.of_nat (length pushed) - 1 in
  alter (fun a =>
           {| widget := {| btn_x := btn_x (widget a);
                           btn_y := btn_y (widget a);
                           btn_size := btn_size (widget a);
                           btn_clicked := Some index |};
              checkbox := setChecked (index =? rg_value g) (checkbox a);
              name := name a;
              badge := badge a |})
        (Z.to_nat index) pushed.

Definition AddAccountsRow (cont : Content) (args : AccountsRowArgs)
  : AccountsRow :=
  {| accounts := fold_left (addAccount (args_group args))
                           (args_entries args) [];
     group := setChangedCallback changedCallback (args_group args);
     container := cont;
     imageRadius := args_imageRadius args;
     checkSelectWidth := args_selectWidth args |}.

(** [left + (columnWidth - photoWidth) / 2], given to a parameter of type
    [int]: [left] and [columnWidth] are [size_t], so [photoWidth] is
    converted to [size_t] and the arithmetic is unsigned. *)
Definition photoLeft (left columnWidth photoWidth : Z) : Z :=
  CInt.to_int
    (CInt.to_size_t
       (left
        + CInt.to_size_t (columnWidth - CInt.to_size_t photoWidth) / 2)).

(** [left + columnWidth / 2], given to a parameter of type [int]. *)
Definition badgeCenter (left columnWidth : Z) : Z :=
  CInt.to_int (CInt.to_size_t (left + columnWidth / 2)).

(** The layout of account [i] in the [sizeValue] handler; [columnWidth]
    is a [size_t], so the arithmetic on it is unsigned. *)
Definition layoutAccount (row : AccountsRow) (cont : Content)
    (size : QSize) (columnWidth : Z) (i : nat) (a : Account) : Account :=
  let left := CInt.to_size_t (columnWidth * CInt.to_size_t (Z.of_nat i)) in
  let photoWidth := (imageRadius row + checkSelectWidth row) * 2 in
  {| widget := {| btn_x := CInt.to_int left;
                  btn_y := 0;
                  btn_size := {| sz_width := CInt.to_int columnWidth;
                                 sz_height := sz_height size |};
                  btn_clicked := btn_clicked (widget a) |};
     checkbox :=
       Checkbox_setColorOverride
         (GradientBrush
            (ComputeGradient cont (photoLeft left columnWidth photoWidth)
               photoWidth))
         (checkbox a);
     name := name a;
     badge := cacheBadge cont (badgeCenter left columnWidth) |}.

(** The subscriber of [container->sizeValue()].  The division by the
    number of accounts has no result when there is none. *)
Definition onContainerSize (size : QSize) (row : AccountsRow)
  : option AccountsRow :=
  let count := Z.of_nat (length (accounts row)) in
  if count =? 0 then None
  else
    let cont := {| content_width := sz_width size;
                   content_parent_width :=
                     content_parent_width (container row) |} in
    let columnWidth := CInt.to_size_t (sz_width size) / count in
    Some {| accounts :=
              imap (layoutAccount row cont size columnWidth)
                   (accounts row);
            group := group row;
            container := cont;
            imageRadius := imageRadius row;
            checkSelectWidth := checkSelectWidth row |}.

(** A click on the button at a position runs the callback set on it. *)
Definition onClicked (position : nat) (row : AccountsRow) : AccountsRow :=
  match accounts row !! position with
  | Some a =>
      match btn_clicked (widget a) with
      | Some index =>
          let '(g, accs) :=
            RadiobuttonGroup_setValue index (group row) (accounts row) in
          {| accounts := accs;
             group := g;
             container := container row;
             imageRadius := imageRadius row;
             checkSelectWidth := checkSelectWidth row |}
      | None => row
      end
  | None => row
  end.

Definition row_handle (ev : RowEvent) (row : AccountsRow)
  : option AccountsRow :=
  match ev with
  | Clicked position => Some (onClicked position row)
  | ContainerSize size => onContainerSize size row
  end.

Fixpoint row_run (evs : list RowEvent) (row : AccountsRow)
  : option AccountsRow :=
  match evs with
  | [] => Some row
  | ev :: rest =>
      match row_handle ev row with
      | Some row' => row_run rest row'
      | None => None
      end
  end.

End AccountsRowOps.

(** What the row keeps true of its accounts: the button at position [j]
    sets the group to [j], and its checkbox is checked when [j] is the
    value of the group. *)
Definition accounts_ok (value : Z) (accs : list Account) : Prop :=
  forall (j : nat) (a : Account),
    accs !! j = Some a ->
    btn_clicked (widget a) = Some (Z.of_nat j)
    /\ cb_checked (checkbox a) = (Z.of_nat j =? value).

Definition row_ok (row : AccountsRow) : Prop :=
  rg_changedCallback (group row) = Some changedCallback
  /\ accounts_ok (rg_value (group row)) (accounts row).

(** ** [ProcessTextFactory] and [ShowListBox] *)

(** [QString::number(n)] *)
Definition QString_number (n : Z) : string :=
  NilZero.string_of_int (Z.to_int n).

Definition ProcessTextFactory (phrase : option (Z -> string))
  : Z -> string :=
  match phrase with
  | Some f => f
  | None => QString_number
  end.

Record ListEntry := {
  subtitle : string;
  description : string;
  leftNumber : Z;
  rightNumber : Z;
  customRightText : option string
}.

(** The vertical layout of the box: the lines added so far, in order, and
    the height filled so far. *)
Record ListBox := {
  box_lines : list Line;
  box_height : Z;
  box_contentWidth : Z;
  box_title : option string;
  box_width : option Z
}.

(** How a call ends: normally, or at a failed [Assert] with the state
    reached by then. *)
Inductive Outcome (A : Type) :=
| Done (a : A)
| AssertionFailed (a : A).
Arguments Done {A} a.
Arguments AssertionFailed {A} a.

Section ListBoxOps.

Context (st : Style).

(** The text factory the loop gives to each [Line]. *)
Definition entryTextFactory (entry : ListEntry) (n : Z) : string :=
  match customRightText entry with
  | Some text =>
      if n =? rightNumber entry then text
      else ProcessTextFactory None n
  | None => ProcessTextFactory None n
  end.

Definition with_y (y : Z) (l : Line) : Line :=
  {| _leftWidth := _leftWidth l;
     _rightWidth := _rightWidth l;
     _leftPixmap := _leftPixmap l;
     _rightPixmap := _rightPixmap l;
     _leftText := _leftText l;
     _rightText := _rightText l;
     _rightLabel := _rightLabel l;
     _leftLabel := _leftLabel l;
     _overrideBrush := _overrideBrush l;
     l_size := l_size l;
     l_y := y;
     l_updates := l_updates l;
     l_parent_width := l_parent_width l |}.

Definition with_parent_width (w : Z) (l : Line) : Line :=
  {| _leftWidth := _leftWidth l;
     _rightWidth := _rightWidth l;
     _leftPixmap := _leftPixmap l;
     _rightPixmap := _rightPixmap l;
     _leftText := _leftText l;
     _rightText := _rightText l;
     _rightLabel := _rightLabel l;
     _leftLabel := _leftLabel l;
     _overrideBrush := _overrideBrush l;
     l_size := l_size l;
     l_y := l_y l;
     l_updates := l_updates l;
     l_parent_width := w |}.

(** One turn of the loop over [entries]: two labels and a line are
    added below what is there, each inside its padding. *)
Definition addEntry (box : ListBox) (entry : ListEntry) : ListBox :=
  let titlePadding := settingsPremiumPreviewTitlePadding st in
  let descriptionPadding := settingsPremiumPreviewAboutPadding st in
  let linePadding := settingsPremiumPreviewLinePadding st in
  let afterTitle :=
    box_height box + m_top titlePadding
    + flatLabelHeight st (subtitle entry) + m_bottom titlePadding in
  let afterDescription :=
    afterTitle + m_top descriptionPadding
    + flatLabelHeight st (description entry)
    + m_bottom descriptionPadding in
  let limitRow :=
    with_y (afterDescription + m_top linePadding)
      (Line_new_counts st (box_contentWidth box)
         (box_contentWidth box - m_left linePadding - m_right linePadding)
         (rightNumber entry) (entryTextFactory entry)
         (leftNumber entry)) in
  {| box_lines := box_lines box ++ [ limitRow ];
     box_height :=
       l_y limitRow + sz_height (l_size limitRow) + m_bottom linePadding;
     box_contentWidth := box_contentWidth box;
     box_title := box_title box;
     box_width := box_width box |}.

(** The colour override of one line in the last loop. *)
Definition lineGradient (from to : Z) (l : Line) : QLinearGradient :=
  let pointTop := l_y l - from in
  let pointBottom := pointTop + sz_height (l_size l) in
  {| lg_dx := 0;
     lg_dy := pointBottom - pointTop;
     lg_stops :=
       [ (0 # 1, GradientColorAt FullHeightGradientStopsMirrored
                   (to - from)
                   {| ratio_num := pointTop; ratio_den := to - from |});
         (1 # 10, GradientColorAt FullHeightGradientStopsMirrored
                    (to - from)
                    {| ratio_num := pointBottom;
                       ratio_den := to - from |}) ]%Q |}.

Definition colorLines (lines : list Line) : list Line :=
  match lines, last lines with
  | front :: _, Some back =>
      let from := l_y front in
      let to := l_y back + sz_height (l_size back) in
      map (fun l => setColorOverride (GradientBrush (lineGradient from to l))
                      l)
          lines
  | _, _ => lines
  end.

(** [content->resizeToWidth(w)]: the layout gives each line the new
    width less the padding of the line. *)
Definition resizeToWidth (w : Z) (box : ListBox) : ListBox :=
  let linePadding := settingsPremiumPreviewLinePadding st in
  {| box_lines :=
       map (fun l =>
              Line_resize st
                {| sz_width := w - m_left linePadding - m_right linePadding;
                   sz_height := sz_height (l_size l) |}
                (with_parent_width w l))
           (box_lines box);
     box_height := box_height box;
     box_contentWidth := w;
     box_title := box_title box;
     box_width := box_width box |}.

Definition ShowListBox (contentWidth : Z) (entries : list ListEntry)
  : Outcome ListBox :=
  let added :=
    fold_left addEntry entries
      {| box_lines := [];
         box_height := 0;
         box_contentWidth := contentWidth;
         box_title := None;
         box_width := None |} in
  let built := resizeToWidth (box_height added) added in
  if negb (2 <? Z.of_nat (length (box_lines built)))
  then AssertionFailed built
  else
    Done {| box_lines := colorLines (box_lines built);
            box_height :=
              box_height built
              + m_bottom (settingsPremiumPreviewLinePadding st);
            box_contentWidth := box_contentWidth built;
            box_title :=
              Some "lng_premium_summary_subtitle_double_limits"%string;
            box_width := Some (boxWideWidth st) |}.

End ListBoxOps.

(** A line that has been given no colour override. *)
Definition uncolored (l : Line) : Prop := _overrideBrush l = None.

(** A bubble operation that passes no NaN. *)
Definition edge_not_nan (op : BubbleOp IEEE.float64) : Prop :=
  match op with
  | SetCounter _ => True
  | SetTailEdge e => IEEE.is_nan e = false
  end.

(** ** Sample values, for the examples below *)

Module Sample.

Definition margins (l t r b : Z) : QMargins :=
  {| m_left := l; m_top := t; m_right := r; m_bottom := b |}.

Definition size (w h : Z) : QSize := {| sz_width := w; sz_height := h |}.

Definition style : Style :=
  {| premiumBubbleFontHeight := 18;
     premiumBubblePadding := margins 14 0 16 0;
     premiumBubbleTailSize := size 21 7;
     premiumBubbleHeight := 40;
     premiumBubbleTextSkip := 5;
     premiumBubblePenWidth := 1;
     premiumBubbleWidthLimit := 80;
     premiumBubbleSkip := 8;
     premiumBubbleSlideDuration := 1000;
     boxRowPadding := margins 22 0 22 0;
     requestsAcceptButtonHeight := 32;
     buttonRadius := 4;
     premiumLineTextSkip := 11;
     semiboldTextHeight := 18;
     labelWidth := fun text _ => 8 * Z.of_nat (String.length text);
     premiumAccountsHeight := 105;
     premiumAccountsLabelPadding := margins 2 2 2 2;
     premiumAccountsLabelSize := size 26 20;
     premiumAccountsLabelRadius := 12;
     settingsPremiumPreviewTitlePadding := margins 24 13 24 3;
     settingsPremiumPreviewAboutPadding := margins 24 0 24 11;
     settingsPremiumPreviewLinePadding := margins 22 8 22 8;
     boxWideWidth := 364;
     flatLabelHeight := fun _ => 18;
     DevicePixelRatio := 1;
     textWidth := fun text => 9 * Z.of_nat (String.length text);
     numbersMaxWidth := fun a b =>
       9 * Z.of_nat (Nat.max (String.length a) (String.length b)) |}.

Definition icon : Icon := {| icon_width := 20; icon_height := 20 |}.

Definition parent : Content :=
  {| content_width := 320; content_parent_width := 364 |}.

Definition bubble : Bubble IEEE.float64 :=
  Bubble_new style QString_number icon true.

Definition bubbleWidget (current maxCounter : Z)
  : BubbleWidget IEEE.float64 :=
  BubbleWidget_new style parent QString_number current maxCounter true
    icon.

End Sample.

(** ** Further code of the file *)

(** [pixmap.width() / style::DevicePixelRatio()]: the width a pixmap
    covers when it is drawn. *)
Definition QPixmap_logicalWidth (pm : QPixmap) : Z :=
  Z.quot (sz_width (pm_size pm)) (pm_ratio pm).

(** The brushes a pixmap was filled with, in order. *)
Definition QPixmap_brushes (pm : QPixmap) : list QBrush :=
  map fill_brush (pm_painted pm).

(** A bubble operation that gives the counter a value other than the
    [-1] it starts with. *)
Definition changes_counter {F : Type} (op : BubbleOp F) : bool :=
  match op with
  | SetCounter value => negb (value =? -1)
  | SetTailEdge _ => false
  end.

(** [AddLimitRow(parent, max, min)]: the line the layout is given. *)
Definition AddLimitRow (st : Style) (parentWidth width0 : Z)
    (max min : string) : Line :=
  Line_new st parentWidth width0 max min.

(** [AddLimitRow(parent, max, phrase, min)] *)
Definition AddLimitRow_counts (st : Style) (parentWidth width0 : Z)
    (max : Z) (phrase : option (Z -> string)) (min : Z) : Line :=
  let factory := ProcessTextFactory phrase in
  AddLimitRow st parentWidth width0
    (if max =? 0 then EmptyString else factory max)
    (if min =? 0 then EmptyString else factory min).

(** The number animation shows the text of the counter. *)
Definition in_sync {F : Type} (b : Bubble F) : Prop :=
  na_value (_numberAnimation b) = _counter b
  /\ na_text (_numberAnimation b) = _textFactory b (_counter b).

(** The state the constructor leaves: the counter is [-1], the text is
    the one of [0]. *)
Definition untouched {F : Type} (b : Bubble F) : Prop :=
  _counter b = -1
  /\ na_value (_numberAnimation b) = 0
  /\ na_text (_numberAnimation b) = _textFactory b 0.


(** Lines laid out from top to bottom: each has a positive height and
    ends where the next one starts, or above. *)
Fixpoint stacked (lines : list Line) : bool :=
  match lines with
  | [] => true
  | a :: rest =>
      (0 <? sz_height (l_size a))
      && match rest with
         | [] => true
         | b :: _ => l_y a + sz_height (l_size a) <=? l_y b
         end
      && stacked rest
  end.

(** How many checkboxes of the accounts are checked. *)
Definition checkedCount (accs : list Account) : nat :=
  length (List.filter (fun a => cb_checked (checkbox a)) accs).

(** Three accounts and a group whose value is [0]. *)
Definition sampleAccountsArgs : AccountsRowArgs :=
  {| args_group := {| rg_value := 0; rg_hasValue := true;
                      rg_changedCallback := None |};
     args_imageRadius := 27;
     args_selectWidth := 2;
     args_entries := [ {| entry_name := "first" |};
                       {| entry_name := "second" |};
                       {| entry_name := "third" |} ] |}.

(** What the paint handler of the button of an account asks of the
    painter. *)
Inductive AccountPaintOp :=
| ApPaintCheckbox (c : RoundImageCheckbox) (x y outerWidth : Z)
| ApDrawBadge (x y : Z) (pm : QPixmap)
| ApSetPenColor (color : Color)
| ApSetNoBrush
| ApDrawNameElided (text : string) (left top width outerWidth lines : Z).

Section AccountPaint.

Context (st : Style).

(** [st::premiumAccountsNameTop], and the [QSize / qreal] of the
    toolkit. *)
Context (premiumAccountsNameTop : Z) (QSize_divide : QSize -> Z -> QSize).

(** The subscriber of [widget->paintRequest()] of an account. *)
Definition paintAccount (row : AccountsRow) (a : Account)
  : list AccountPaintOp :=
  let width := sz_width (btn_size (widget a)) in
  let left := Z.quot (width - imageRadius row * 2) 2 in
  let photoTop := checkSelectWidth row in
  let badgeSize := QSize_divide (pm_size (badge a)) (DevicePixelRatio st) in
  [ ApPaintCheckbox (checkbox a) left photoTop width;
    ApDrawBadge (Z.quot (width - sz_width badgeSize) 2)
      (photoTop + imageRadius row * 2 - Z.quot (sz_height badgeSize) 2)
      (badge a);
    ApSetPenColor (StyleColor "nameFg");
    ApSetNoBrush;
    ApDrawNameElided (name a) 0
      (photoTop + imageRadius row * 2 + premiumAccountsNameTop)
      width width 2 ].

End AccountPaint.

(** What a painter command shows of [premiumPossible]: the tail of the
    bubble path and the brush. *)
Definition premium_op {F : Type} (premiumPossible : bool) (op : PaintOp F)
  : Prop :=
  match op with
  | OpDrawPath tail _ _ =>
      if premiumPossible then length tail = 6%nat else tail = []
  | OpSetBrush b =>
      if premiumPossible then exists g, b = GradientBrush g
      else b = SolidBrush (StyleColor "windowBgActive")
  | _ => True
  end.

(** Both records of [premiumPossible] of a widget are [p]. *)
Definition premium_is {F : Type} (p : bool) (bw : BubbleWidget F) : Prop :=
  w_premiumPossible bw = p /\ _premiumPossible (_bubble bw) = p.

Section Deflection.

Context {F : Type} `{Float64 F}.

(** The angle [paintEvent] rotates by, for the two steps, a deflection
    and the progress of the animation. *)
Definition deflectionAngle (stepBefore stepAfter deflection progress : F)
  : F :=
  fsub (fmul (clamp flt (fdiv (fsub progress stepBefore)
                              (fsub fone stepBefore)) fzero fone)
             deflection)
       (fmul (clamp flt (fdiv (fsub progress stepAfter)
                              (fsub fone stepAfter)) fzero fone)
             deflection).

(** A rotation by the angle of the two constant steps. *)
Definition rotate_op (op : PaintOp F) : Prop :=
  match op with
  | OpRotate angle =>
      exists progress deflection : F,
        (deflection = kDeflection \/ deflection = kDeflectionSmall)
        /\ angle = deflectionAngle kStepBeforeDeflection kStepAfterDeflection
                     deflection progress
  | _ => True
  end.

(** The two states of the steps: the constants, or [1.] for both once the
    handler of [showFinishes] found a bubble edge. *)
Definition steps_state (bw : BubbleWidget F) : Prop :=
  (_ignoreDeflection bw = false
   /\ _stepBeforeDeflection bw = kStepBeforeDeflection
   /\ _stepAfterDeflection bw = kStepAfterDeflection)
  \/ (_ignoreDeflection bw = true
      /\ _stepBeforeDeflection bw = fone
      /\ _stepAfterDeflection bw = fone
      /\ w_showFinishesLeft bw = O).

Definition deflection_state (bw : BubbleWidget F) : Prop :=
  steps_state bw
  /\ (_deflection bw = kDeflection \/ _deflection bw = kDeflectionSmall)
  /\ (w_showFinishesLeft bw <= 1)%nat.

End Deflection.

(** A binary64 value of [[0, 1]], as the animation delivers them. *)
Definition unit_value (v : IEEE.float64) : Prop :=
  valid64 v = true /\ IEEE.in_unit_range v = true.

Definition unit_tick (ev : Event IEEE.float64) : Prop :=
  match ev with
  | AnimationTick v => unit_value v
  | _ => True
  end.

(** A scaling by the same factor of [[0, 1]] in both directions. *)
Definition scale_op (op : PaintOp IEEE.float64) : Prop :=
  match op with
  | OpScale sx sy => sx = sy /\ unit_value sx
  | _ => True
  end.

(** The last value of a running animation is of [[0, 1]]. *)
Definition anim_unit (bw : BubbleWidget IEEE.float64) : Prop :=
  forall a, _appearanceAnimation bw = Some a -> unit_value (anim_value a).



(** The subscriber of [_bubble.widthChanges()] in the constructor of
    [BubbleWidget]. *)
Definition onWidthChanges {F : Type} `{Float64 F} (st : Style)
    (bw : BubbleWidget F) : BubbleWidget F :=
  resizeTo st (width st (_bubble bw)) (height (_bubble bw)) bw.

(** ** [AddBubbleRow] *)

(** The container of the row, a widget of fixed height, and the bubble
    widget in it. *)
Record BubbleRow (F : Type) := {
  br_container : QSize;
  br_bubble : BubbleWidget F
}.
Arguments br_container {F} _.
Arguments br_bubble {F} _.

(** The subscriber of the sizes of the container and of the bubble
    widget: [container->resize(parentSize.width(), size.height())]. *)
Definition onSizes (parentSize size : QSize) : QSize :=
  {| sz_width := sz_width parentSize; sz_height := sz_height size |}.

(** [AddBubbleRow], for the width the layout gives the container; the
    container is created with the height [0]. *)
Definition AddBubbleRow {F : Type} `{Float64 F} (st : Style)
    (layoutWidth containerWidth : Z) (min current max : Z)
    (premiumPossible : bool) (phrase : option (Z -> string)) (icon : Icon)
  : BubbleRow F :=
  let container := {| sz_width := containerWidth; sz_height := 0 |} in
  let bubble :=
    BubbleWidget_new st
      {| content_width := containerWidth;
         content_parent_width := layoutWidth |}
      (ProcessTextFactory phrase) current max premiumPossible icon in
  {| br_container := onSizes container (w_size bubble);
     br_bubble := bubble |}.

(** *** Signed binary64 values *)

(** A zero or a finite float of the format, of either sign. *)
Definition finite64 (f : spec_float) : bool :=
  valid64 f
  && match f with
     | S754_zero _ | S754_finite _ _ _ => true
     | _ => false
     end.

(** A finite float whose value is at most [b] in magnitude. *)
Definition within (b : Z) (f : spec_float) : Prop :=
  finite64 f = true
  /\ (- inject_Z b <= B2Q f)%Q /\ (B2Q f <= inject_Z b)%Q.

(** The horizontal coordinate of a path command. *)
Definition cmd_x {F : Type} (c : PathCmd F) : F :=
  match c with MoveTo x _ | LineTo x _ => x end.

(** * Properties *)

(** ** The tail edge of a bubble *)

Module TailEdge.

Import IEEE.

Lemma fzero_is : (fzero : float64) = S754_zero false.
Proof. reflexivity. Qed.

Lemma fone_is : (fone : float64) = S754_finite false 4503599627370496 (-52).
Proof. vm_compute. reflexivity. Qed.

(** On floats that are not NaN, [not (a < b)] gives [b <= a]. *)
Lemma SFcompare_antisym (a b : float64) (c : comparison) :
  SFcompare a b = Some c -> SFcompare b a = Some (CompOpp c).
Proof.
  destruct a as [sa | sa | | sa ma ea], b as [sb | sb | | sb mb eb];
    cbn [SFcompare]; try discriminate;
    try (destruct sa; intros [= <-]; reflexivity);
    try (destruct sb; intros [= <-]; reflexivity);
    try (destruct sa, sb; intros [= <-]; reflexivity);
    try (intros [= <-]; reflexivity).
  intros [= <-]. f_equal.
  assert (Hm : Pos.compare_cont Eq mb ma
               = CompOpp (Pos.compare_cont Eq ma mb))
    by (symmetry; apply (Pos.compare_cont_antisym ma mb Eq)).
  rewrite (Z.compare_antisym ea eb).
  destruct sa, sb; try reflexivity;
    destruct (ea ?= eb); cbn [CompOpp]; try reflexivity;
    rewrite Hm; destruct (Pos.compare_cont Eq ma mb); reflexivity.
Qed.

Lemma SFcompare_defined (a b : float64) :
  is_nan a = false -> is_nan b = false -> exists c, SFcompare a b = Some c.
Proof.
  destruct a, b; cbn [is_nan SFcompare]; intros; try discriminate; eauto.
Qed.

Lemma not_SFltb_SFleb (a b : float64) :
  is_nan a = false -> is_nan b = false ->
  SFltb a b = false -> SFleb b a = true.
Proof.
  intros Ha Hb. destruct (SFcompare_defined a b Ha Hb) as [c Hc].
  unfold SFltb, SFleb. rewrite (SFcompare_antisym _ _ _ Hc), Hc.
  destruct c; cbn [CompOpp]; congruence.
Qed.

Lemma SFleb_refl (a : float64) : is_nan a = false -> SFleb a a = true.
Proof.
  destruct a as [ s | s | | s m e ]; cbn [is_nan]; try discriminate;
    intros _; unfold SFleb; cbn [SFcompare]; try (destruct s; reflexivity).
  rewrite Z.compare_refl, Pos.compare_cont_refl. destruct s; reflexivity.
Qed.

(** [std::clamp] between two ordered bounds, on a float that is not
    NaN, lies between the bounds. *)
Lemma clamp_between (e lo hi : float64) :
  is_nan e = false -> is_nan lo = false -> is_nan hi = false ->
  SFleb lo hi = true ->
  SFleb lo (clamp SFltb e lo hi) && SFleb (clamp SFltb e lo hi) hi = true.
Proof.
  intros He Hlo Hhi Hle. unfold clamp.
  destruct (SFltb e lo) eqn:H1.
  - rewrite (SFleb_refl lo Hlo), Hle. reflexivity.
  - destruct (SFltb hi e) eqn:H2.
    + rewrite (SFleb_refl hi Hhi), Hle. reflexivity.
    + rewrite (not_SFltb_SFleb e lo He Hlo H1),
              (not_SFltb_SFleb hi e Hhi He H2).
      reflexivity.
Qed.

(** The clamp of a float that is not NaN lies in [[0, 1]]. *)
Lemma clamp_in_unit_range (e : float64) :
  is_nan e = false -> in_unit_range (clamp flt e fzero fone) = true.
Proof.
  intros He.
  apply (clamp_between e fzero fone He); vm_compute; reflexivity.
Qed.

(** The clamp of NaN is NaN: both comparisons of [std::clamp] fail. *)
Lemma clamp_nan : clamp flt nan (fzero : float64) fone = nan.
Proof. reflexivity. Qed.

Lemma setCounter_tailEdge (v : Z) (b : Bubble float64) :
  _tailEdge (setCounter v b) = _tailEdge b.
Proof. unfold setCounter. destruct (negb _); reflexivity. Qed.

Lemma run_in_unit_range (ops : list (BubbleOp float64)) :
  forall b : Bubble float64,
    Forall edge_not_nan ops ->
    in_unit_range (_tailEdge b) = true ->
    in_unit_range (_tailEdge (Bubble_run ops b)) = true.
Proof.
  induction ops as [ | op ops IH ]; intros b Hops Hb; [ exact Hb | ].
  inversion Hops as [ | ? ? Hop Hrest ]; subst.
  cbn [Bubble_run fold_left]. apply IH; [ exact Hrest | ].
  destruct op as [ v | e ]; cbn [Bubble_apply].
  - rewrite setCounter_tailEdge. exact Hb.
  - apply clamp_in_unit_range. exact Hop.
Qed.

End TailEdge.

(** C1, as amended.  [Bubble::setTailEdge] stores [clamp(e, 0, 1)] for every
    float [e]; the tail edge starts at [0.] and, after any sequence of
    [setCounter] and [setTailEdge] calls whose edge arguments are not NaN,
    lies in the range [[0, 1]]. *)
Theorem tail_edge_in_unit_range
    (st : Style) (textFactory : Z -> string) (icon : Icon)
    (premiumPossible : bool)
    (ops : list (BubbleOp IEEE.float64)) (e : IEEE.float64)
    (Hops : Forall edge_not_nan ops)
    (He : IEEE.is_nan e = false) :
  let b := Bubble_run ops (Bubble_new st textFactory icon premiumPossible) in
  _tailEdge (Bubble_new (F := IEEE.float64) st textFactory icon
               premiumPossible) = fzero
  /\ IEEE.in_unit_range (_tailEdge b) = true
  /\ _tailEdge (setTailEdge e b) = clamp flt e fzero fone
  /\ IEEE.in_unit_range (_tailEdge (setTailEdge e b)) = true.
Proof.
  intros b. split; [ reflexivity | ]. split; [ | split ].
  - apply TailEdge.run_in_unit_range; [ exact Hops | reflexivity ].
  - reflexivity.
  - apply TailEdge.clamp_in_unit_range. exact He.
Qed.

Lemma tail_edge_in_unit_range_witness :
  let e : IEEE.float64 := flit (3 # 2) in
  let b := Bubble_run [ SetTailEdge (flit (1 # 4)); SetCounter 7 ]
                      Sample.bubble in
  _tailEdge Sample.bubble = fzero
  /\ IEEE.in_unit_range (_tailEdge b) = true
  /\ _tailEdge (setTailEdge e b) = clamp flt e fzero fone
  /\ IEEE.in_unit_range (_tailEdge (setTailEdge e b)) = true.
Proof.
  apply (tail_edge_in_unit_range Sample.style QString_number Sample.icon true
           [ SetTailEdge (flit (1 # 4)); SetCounter 7 ] (flit (3 # 2))).
  - repeat constructor.
  - reflexivity.
Defined.

(** C1 as stated fails on NaN: [setTailEdge] stores the clamp of its
    argument, and the clamp of NaN is NaN, which is not in [[0, 1]]. *)
Lemma tail_edge_nan_counterexample :
  let b := setTailEdge IEEE.nan Sample.bubble in
  _tailEdge b = clamp flt IEEE.nan fzero fone
  /\ _tailEdge b = IEEE.nan
  /\ IEEE.in_unit_range (_tailEdge b) = false.
Proof. repeat split. Qed.

(** ** The counter during the appearance animation *)

Module CounterProgress.

Import Rounded.

Lemma Qltb_true (a b : Q) : Qltb a b = true <-> (a < b)%Q.
Proof.
  unfold Qltb. rewrite negb_true_iff, <- not_true_iff_false, Qle_bool_iff.
  split; [ apply Qnot_le_lt | apply Qlt_not_le ].
Qed.

Lemma Qltb_false (a b : Q) : Qltb a b = false <-> (b <= a)%Q.
Proof.
  unfold Qltb. rewrite negb_false_iff. apply Qle_bool_iff.
Qed.

(** [std::clamp] on an ordered pair of bounds. *)
Lemma clamp_Q_between (x lo hi : Q) :
  (lo <= hi)%Q -> (lo <= clamp Qltb x lo hi <= hi)%Q.
Proof.
  intros Hle. unfold clamp.
  destruct (Qltb x lo) eqn:H1; [ split; [ apply Qle_refl | exact Hle ] | ].
  destruct (Qltb hi x) eqn:H2; [ split; [ exact Hle | apply Qle_refl ] | ].
  apply Qltb_false in H1, H2. split; assumption.
Qed.

Lemma clamp_Q_mono (x y lo hi : Q) :
  (lo <= hi)%Q -> (x <= y)%Q -> (clamp Qltb x lo hi <= clamp Qltb y lo hi)%Q.
Proof.
  intros Hle Hxy. unfold clamp.
  destruct (Qltb x lo) eqn:X1, (Qltb y lo) eqn:Y1;
    try destruct (Qltb hi x) eqn:X2; try destruct (Qltb hi y) eqn:Y2;
    repeat match goal with
           | H : Qltb _ _ = true |- _ => apply Qltb_true in H
           | H : Qltb _ _ = false |- _ => apply Qltb_false in H
           end; lra.
Qed.

Lemma clamp_Q_top (x lo hi : Q) :
  (lo <= hi)%Q -> (hi <= x)%Q -> (clamp Qltb x lo hi == hi)%Q.
Proof.
  intros Hle Hx. unfold clamp.
  destruct (Qltb x lo) eqn:H1; [ apply Qltb_true in H1; lra | ].
  destruct (Qltb hi x) eqn:H2; [ reflexivity | ].
  apply Qltb_false in H2. lra.
Qed.

(** Truncation toward zero of a rational that is not negative. *)
Lemma Qtrunc_floor (x : Q) : (0 <= x)%Q -> Qtrunc x = Qfloor x.
Proof.
  destruct x as [n d]. unfold Qle, Qtrunc, Qfloor. cbn. intros Hn.
  apply Z.quot_div_nonneg; lia.
Qed.

Lemma Qtrunc_mono (x y : Q) :
  (0 <= x)%Q -> (x <= y)%Q -> Qtrunc x <= Qtrunc y.
Proof.
  intros Hx Hxy. rewrite !Qtrunc_floor by lra. apply Qfloor_resp_le, Hxy.
Qed.

Lemma Qtrunc_inject (x : Q) (n : Z) : 0 <= n -> (x == inject_Z n)%Q -> Qtrunc x = n.
Proof.
  intros Hn Hx. rewrite Qtrunc_floor.
  - rewrite Hx. apply Qfloor_Z.
  - rewrite Hx. change 0%Q with (inject_Z 0). rewrite <- Zle_Qle. exact Hn.
Qed.

Lemma exact_valid : Rounded.valid_rounding Rounded.exact.
Proof.
  split; [ intros x y Hxy; exact Hxy | intros n k _ _; apply Qeq_refl ].
Qed.

Lemma fixed64_valid : Rounded.valid_rounding Rounded.fixed64.
Proof.
  assert (Hpos : (0 < inject_Z (2 ^ 64))%Q) by reflexivity.
  split.
  - intros x y Hxy. unfold Rounded.fixed64.
    apply Qmult_le_compat_r.
    + rewrite <- Zle_Qle. apply Qfloor_resp_le.
      apply Qmult_le_compat_r; [ exact Hxy | apply Qlt_le_weak, Hpos ].
    + apply Qlt_le_weak, Qinv_lt_0_compat, Hpos.
  - intros n k _ Hk. unfold Rounded.fixed64.
    set (p := 2 ^ Z.of_nat k). set (q := 2 ^ (64 - Z.of_nat k)).
    assert (Hp : 0 < p) by (apply Z.pow_pos_nonneg; lia).
    assert (Hq : 0 < q) by (apply Z.pow_pos_nonneg; lia).
    assert (Hpq : 2 ^ 64 = p * q).
    { unfold p, q. rewrite <- Z.pow_add_r by lia. f_equal. lia. }
    assert (Hp' : ~ (inject_Z p == 0)%Q).
    { change 0%Q with (inject_Z 0). rewrite inject_Z_injective. lia. }
    assert (Hq' : ~ (inject_Z q == 0)%Q).
    { change 0%Q with (inject_Z 0). rewrite inject_Z_injective. lia. }
    assert (E : (inject_Z n / inject_Z p * inject_Z (2 ^ 64)
                 == inject_Z (n * q))%Q).
    { rewrite Hpq, !inject_Z_mult. field. exact Hp'. }
    rewrite E, Qfloor_Z, Hpq, !inject_Z_mult. field. split; assumption.
Qed.

Section Rounding.

Variable rnd : Q -> Q.
Hypothesis Hrnd : valid_rounding rnd.

Lemma rnd_proper (x y : Q) : (x == y)%Q -> (rnd x == rnd y)%Q.
Proof.
  intros Hxy. apply Qle_antisym; apply (rnd_mono rnd Hrnd); rewrite Hxy; apply Qle_refl.
Qed.

Lemma rnd_int (n : Z) : CInt.in_int n = true -> (rnd (inject_Z n) == inject_Z n)%Q.
Proof.
  intros Hn. pose proof (rnd_dyadic rnd Hrnd n 0 Hn ltac:(lia)) as H.
  change (inject_Z (2 ^ Z.of_nat 0)) with 1%Q in H.
  rewrite <- (rnd_proper (inject_Z n / 1) (inject_Z n)) by (field).
  rewrite H. field.
Qed.

Lemma rnd_eighths (n : Z) : CInt.in_int n = true -> (rnd (n # 8) == n # 8)%Q.
Proof.
  intros Hn. pose proof (rnd_dyadic rnd Hrnd n 3 Hn ltac:(lia)) as H.
  change (inject_Z (2 ^ Z.of_nat 3)) with 8%Q in H.
  assert (E : (n # 8 == inject_Z n / 8)%Q).
  { rewrite (Qmake_Qdiv n 8). reflexivity. }
  rewrite (rnd_proper _ _ E), H. symmetry. exact E.
Qed.

Local Abbreviation RF := (float64 rnd).

Lemma rnd_zero : ((fzero : RF) == 0)%Q.
Proof. apply (rnd_int 0). reflexivity. Qed.

Lemma rnd_one : ((fone : RF) == 1)%Q.
Proof. apply (rnd_int 1). reflexivity. Qed.

Lemma rnd_two : ((ftwo : RF) == 2)%Q.
Proof. apply (rnd_int 2). reflexivity. Qed.

Lemma kStepBeforeDeflection_value : ((kStepBeforeDeflection : RF) == 3 # 4)%Q.
Proof.
  unfold kStepBeforeDeflection. cbn [flit rounded].
  rewrite (rnd_proper (3 # 4) (6 # 8)) by reflexivity.
  rewrite (rnd_eighths 6) by reflexivity. reflexivity.
Qed.

Lemma kStepAfterDeflection_value : ((kStepAfterDeflection : RF) == 7 # 8)%Q.
Proof.
  unfold kStepAfterDeflection. cbn [fadd fsub fdiv rounded].
  pose proof kStepBeforeDeflection_value as Hb.
  pose proof rnd_one as H1. pose proof rnd_two as H2.
  assert (Ha : (rnd ((fone : RF) - (kStepBeforeDeflection : RF)) == 2 # 8)%Q).
  { rewrite (rnd_proper _ (2 # 8)).
    - apply rnd_eighths. reflexivity.
    - rewrite H1, Hb. reflexivity. }
  assert (Hq : (rnd (rnd ((fone : RF) - (kStepBeforeDeflection : RF))
                          / (ftwo : RF))
                == 1 # 8)%Q).
  { rewrite (rnd_proper _ (1 # 8)).
    - apply rnd_eighths. reflexivity.
    - rewrite Ha, H2. reflexivity. }
  rewrite (rnd_proper _ (7 # 8)).
  - apply rnd_eighths. reflexivity.
  - rewrite Hq. rewrite Hb at 1. reflexivity.
Qed.

Local Abbreviation progress := (Rounded.progress rnd).
Local Abbreviation scaled := (Rounded.scaled rnd).

Lemma progress_between (step v : Q) : (0 <= progress step v <= 1)%Q.
Proof.
  pose proof rnd_zero as H0. pose proof rnd_one as H1.
  unfold fzero, fone in H0, H1. cbn [flit rounded] in H0, H1.
  pose proof (clamp_Q_between (rnd (v / step)) (rnd 0) (rnd 1)) as H.
  unfold Rounded.progress. lra.
Qed.

Lemma div_le_div (step v v' : Q) :
  (0 < step)%Q -> (v <= v')%Q -> (v / step <= v' / step)%Q.
Proof.
  intros Hs Hv. unfold Qdiv. apply Qmult_le_compat_r; [ exact Hv | ].
  apply Qlt_le_weak, Qinv_lt_0_compat, Hs.
Qed.

Lemma progress_mono (step v v' : Q) :
  (0 < step)%Q -> (v <= v')%Q -> (progress step v <= progress step v')%Q.
Proof.
  intros Hs Hv. unfold Rounded.progress.
  pose proof rnd_zero as H0. pose proof rnd_one as H1.
  unfold fzero, fone in H0, H1. cbn [flit rounded] in H0, H1.
  apply clamp_Q_mono; [ lra | ].
  apply (rnd_mono rnd Hrnd), div_le_div; assumption.
Qed.

Lemma progress_saturates (step v : Q) :
  (0 < step)%Q -> (step <= v)%Q -> (progress step v == 1)%Q.
Proof.
  intros Hs Hv. unfold Rounded.progress.
  pose proof rnd_zero as H0. pose proof rnd_one as H1.
  unfold fzero, fone in H0, H1. cbn [flit rounded] in H0, H1.
  rewrite clamp_Q_top; [ exact H1 | lra | ].
  apply (rnd_mono rnd Hrnd).
  apply Qle_shift_div_l; [ exact Hs | lra ].
Qed.

Lemma counterAt_unfold (bw : BubbleWidget RF) (v : RF) :
  counterAt bw v
  = to_Z (scaled (_stepAfterDeflection bw) v (_currentCounter bw)).
Proof. reflexivity. Qed.

Section Scaled.

Variables (step : Q) (current : Z).
Hypothesis Hstep : (0 < step)%Q.
Hypothesis Hcur : 0 <= current <= CInt.int_max.

Lemma in_int_current : CInt.in_int current = true.
Proof.
  unfold CInt.in_int, CInt.int_min, CInt.int_max in *.
  apply andb_true_intro. split; apply Z.leb_le; lia.
Qed.

Lemma current_nonneg : (0 <= inject_Z current)%Q.
Proof. change 0%Q with (inject_Z 0). rewrite <- Zle_Qle. lia. Qed.

Lemma scaled_mono (v v' : Q) :
  (v <= v')%Q -> (scaled step v current <= scaled step v' current)%Q.
Proof.
  intros Hv. unfold Rounded.scaled.
  pose proof (rnd_int current in_int_current) as Hc.
  pose proof current_nonneg as Hn.
  pose proof (progress_mono step v v' Hstep Hv) as Hp.
  apply (rnd_mono rnd Hrnd), Qplus_le_r, (rnd_mono rnd Hrnd).
  apply Qmult_le_compat_r; [ exact Hp | lra ].
Qed.

Lemma scaled_between (v : Q) :
  (0 <= scaled step v current <= inject_Z current)%Q.
Proof.
  unfold Rounded.scaled.
  pose proof (rnd_int current in_int_current) as Hc.
  pose proof (rnd_int 0 eq_refl) as H0. change (inject_Z 0) with 0%Q in H0.
  change (inject_Z 0) with 0%Q.
  pose proof current_nonneg as Hn.
  pose proof (progress_between step v) as [Hp0 Hp1].
  assert (Hlo : (0 <= progress step v * rnd (inject_Z current))%Q).
  { apply Qmult_le_0_compat; lra. }
  assert (Hhi : (progress step v * rnd (inject_Z current)
                 <= inject_Z current)%Q).
  { rewrite Hc. rewrite <- (Qmult_1_l (inject_Z current)) at 2.
    apply Qmult_le_compat_r; assumption. }
  pose proof (rnd_mono rnd Hrnd _ _ Hlo) as Hlo'.
  pose proof (rnd_mono rnd Hrnd _ _ Hhi) as Hhi'.
  assert (Hsum0 : (0 <= rnd 0 + rnd (Rounded.progress rnd step v
                                   * rnd (inject_Z current)))%Q) by lra.
  assert (Hsum1 : (rnd 0 + rnd (Rounded.progress rnd step v
                                * rnd (inject_Z current))
                   <= inject_Z current)%Q) by lra.
  pose proof (rnd_mono rnd Hrnd _ _ Hsum0) as Hs0.
  pose proof (rnd_mono rnd Hrnd _ _ Hsum1) as Hs1.
  split; lra.
Qed.

Lemma scaled_saturates (v : Q) :
  (step <= v)%Q -> (scaled step v current == inject_Z current)%Q.
Proof.
  intros Hv. unfold Rounded.scaled.
  pose proof (rnd_int current in_int_current) as Hc.
  pose proof (rnd_int 0 eq_refl) as H0. change (inject_Z 0) with 0%Q in *.
  pose proof (progress_saturates step v Hstep Hv) as Hp.
  assert (Hm : (rnd (Rounded.progress rnd step v * rnd (inject_Z current))
                == inject_Z current)%Q).
  { rewrite (rnd_proper _ (inject_Z current)); [ exact Hc | ].
    rewrite Hp, Hc. apply Qmult_1_l. }
  rewrite (rnd_proper _ (inject_Z current)); [ exact Hc | ].
  rewrite Hm, H0. apply Qplus_0_l.
Qed.

Lemma to_Z_scaled (v : Q) :
  to_Z (scaled step v current) = Qtrunc (scaled step v current)
  /\ 0 <= Qtrunc (scaled step v current) <= current.
Proof.
  pose proof (scaled_between v) as [Hlo Hhi].
  assert (Hr : 0 <= Qtrunc (scaled step v current) <= current).
  { rewrite Qtrunc_floor by exact Hlo.
    pose proof (Qfloor_resp_le _ _ Hlo) as F0.
    pose proof (Qfloor_resp_le _ _ Hhi) as F1.
    change 0%Q with (inject_Z 0) in F0. rewrite Qfloor_Z in F0, F1.
    split; assumption. }
  split; [ | exact Hr ].
  unfold to_Z. replace (CInt.in_int _) with true; [ reflexivity | ].
  symmetry. unfold CInt.in_int, CInt.int_min, CInt.int_max in *.
  apply andb_true_intro. split; apply Z.leb_le; lia.
Qed.

End Scaled.

(** The counter the callback computes, for a step in [(0, 1]]. *)
Lemma counterAt_properties (bw : BubbleWidget RF) (v v' : Q) :
  (0 < _stepAfterDeflection bw)%Q ->
  0 <= _currentCounter bw <= CInt.int_max ->
  (v <= v')%Q ->
  0 <= counterAt bw v <= _currentCounter bw
  /\ counterAt bw v <= counterAt bw v'
  /\ ((_stepAfterDeflection bw <= v)%Q ->
      counterAt bw v = _currentCounter bw).
Proof.
  intros Hs Hc Hv. rewrite !counterAt_unfold.
  destruct (to_Z_scaled (_stepAfterDeflection bw) _ Hc v) as [-> Hr].
  destruct (to_Z_scaled (_stepAfterDeflection bw) _ Hc v') as [-> _].
  split; [ exact Hr | split ].
  - apply Qtrunc_mono.
    + apply (scaled_between (_stepAfterDeflection bw) _ Hc v).
    + apply scaled_mono; assumption.
  - intros Hsat. apply Qtrunc_inject; [ lia | ].
    apply scaled_saturates; assumption.
Qed.

End Rounding.

(** [setCounter] leaves the bubble with the counter it is given. *)
Lemma setCounter_counter {F : Type} `{Float64 F} (value : Z) (b : Bubble F) :
  _counter (setCounter value b) = value.
Proof.
  unfold setCounter. destruct (_counter b =? value) eqn:E; cbn; [ | reflexivity ].
  apply Z.eqb_eq, E.
Qed.

Section Reachable.

Context {F : Type} `{Float64 F} (st : Style).

Lemma appearanceCallback_fields (edge value : F) (bw : BubbleWidget F) :
  let bw' := appearanceCallback st edge value bw in
  _currentCounter bw' = _currentCounter bw
  /\ _stepAfterDeflection bw' = _stepAfterDeflection bw
  /\ counter (_bubble bw') = counterAt bw value.
Proof.
  cbn. repeat split.
  unfold counter, setTailEdge. cbn. apply setCounter_counter.
Qed.

Lemma paintEvent_fields (bw : BubbleWidget F) :
  _currentCounter (fst (paintEvent st bw)) = _currentCounter bw
  /\ _stepAfterDeflection (fst (paintEvent st bw)) = _stepAfterDeflection bw.
Proof.
  unfold paintEvent. destruct (counter (_bubble bw) <=? 0); [ split; reflexivity | ].
  destruct (_appearanceAnimation bw); split; reflexivity.
Qed.

Lemma handle_fields (ev : Event F) (bw : BubbleWidget F) :
  _currentCounter (fst (handle st ev bw)) = _currentCounter bw
  /\ (_stepAfterDeflection (fst (handle st ev bw)) = _stepAfterDeflection bw
      \/ _stepAfterDeflection (fst (handle st ev bw)) = fone).
Proof.
  destruct ev as [ | v | | ]; cbn [handle fst].
  - unfold onShowFinishes. destruct (w_showFinishesLeft bw); [ auto | ].
    cbn. split; [ reflexivity | ].
    destruct (to_bool (checkBubbleEdges st bw)); auto.
  - unfold onAnimationTick. destruct (_appearanceAnimation bw); auto.
  - unfold onAnimationFinished. destruct (_appearanceAnimation bw); auto.
  - destruct (paintEvent_fields bw) as [-> ->]. auto.
Qed.

Lemma run_fields (evs : list (Event F)) :
  forall bw : BubbleWidget F,
    _currentCounter (fst (run st evs bw)) = _currentCounter bw
    /\ (_stepAfterDeflection (fst (run st evs bw)) = _stepAfterDeflection bw
        \/ _stepAfterDeflection (fst (run st evs bw)) = fone).
Proof.
  induction evs as [ | ev evs IH ]; intros bw; [ cbn; auto | ].
  cbn [run]. destruct (handle st ev bw) as [bw1 ops1] eqn:E1.
  destruct (run st evs bw1) as [bw2 ops2] eqn:E2. cbn [fst].
  destruct (IH bw1) as [Hc Hs]. rewrite E2 in Hc, Hs. cbn [fst] in Hc, Hs.
  destruct (handle_fields ev bw) as [Hc1 Hs1].
  rewrite E1 in Hc1, Hs1. cbn [fst] in Hc1, Hs1.
  split; [ congruence | ].
  destruct Hs as [ -> | -> ]; auto.
Qed.

(** A running animation runs to [1.]. *)
Lemma handle_anim_to (ev : Event F) (bw : BubbleWidget F) :
  (forall a, _appearanceAnimation bw = Some a -> anim_to a = fone) ->
  forall a, _appearanceAnimation (fst (handle st ev bw)) = Some a ->
            anim_to a = fone.
Proof.
  intros Hinv a. destruct ev as [ | v | | ]; cbn [handle fst].
  - unfold onShowFinishes. destruct (w_showFinishesLeft bw); [ apply Hinv | ].
    cbn. intros [= <-]. reflexivity.
  - unfold onAnimationTick.
    destruct (_appearanceAnimation bw) as [ a0 | ] eqn:E; [ | rewrite E; discriminate ].
    cbn. rewrite E. intros [= <-]. cbn. apply Hinv. reflexivity.
  - unfold onAnimationFinished.
    destruct (_appearanceAnimation bw) as [ a0 | ] eqn:E; [ | rewrite E; discriminate ].
    cbn. discriminate.
  - unfold paintEvent. destruct (counter (_bubble bw) <=? 0); [ apply Hinv | ].
    destruct (_appearanceAnimation bw) as [ a0 | ] eqn:E; cbn.
    + intros [= <-]. apply Hinv. reflexivity.
    + rewrite E. discriminate.
Qed.

Lemma run_anim_to (evs : list (Event F)) :
  forall bw : BubbleWidget F,
    (forall a, _appearanceAnimation bw = Some a -> anim_to a = fone) ->
    forall a, _appearanceAnimation (fst (run st evs bw)) = Some a ->
              anim_to a = fone.
Proof.
  induction evs as [ | ev evs IH ]; intros bw Hinv; [ exact Hinv | ].
  cbn [run]. pose proof (handle_anim_to ev bw Hinv) as H1.
  destruct (handle st ev bw) as [bw1 ops1]. cbn [fst] in H1.
  specialize (IH bw1 H1).
  destruct (run st evs bw1) as [bw2 ops2]. exact IH.
Qed.

End Reachable.
End CounterProgress.

(** In the model that rounds with any valid rounding: while the
    appearance animation of a [BubbleWidget] runs, a tick
    with a value [v] in [[0, 1]] sets the counter of the bubble to
    [int(0 + clamp(v / _stepAfterDeflection, 0, 1) * _currentCounter)];
    that counter lies between 0 and the target, does not decrease when [v]
    grows, and is the target itself at the value [1.], which the last
    callback of the animation delivers. *)
Theorem counter_follows_rounding
    (rnd : Q -> Q) (Hrnd : Rounded.valid_rounding rnd)
    (st : Style) (parent : Content) (textFactory : Z -> string)
    (current maxCounter : Z) (premiumPossible : bool) (icon : Icon)
    (evs : list (Event (Rounded.float64 rnd)))
    (v v' : Rounded.float64 rnd)
    (Hcur : 0 <= current <= CInt.int_max)
    (Hv : (0 <= v)%Q /\ (v <= v')%Q /\ (v' <= 1)%Q)
    (Hrun : animating
              (fst (run st evs
                      (BubbleWidget_new st parent textFactory current
                         maxCounter premiumPossible icon))) = true) :
  let bw := fst (run st evs
                   (BubbleWidget_new st parent textFactory current
                      maxCounter premiumPossible icon)) in
  counter (_bubble (onAnimationTick st v bw)) = counterAt bw v
  /\ 0 <= counterAt bw v <= current
  /\ counterAt bw v <= counterAt bw v'
  /\ counterAt bw fone = current
  /\ counter (_bubble (onAnimationFinished st bw)) = current.
Proof.
  intros bw. destruct Hv as (Hv0 & Hvv & Hv1).
  set (bw0 := BubbleWidget_new st parent textFactory current maxCounter
                premiumPossible icon) in *.
  destruct (CounterProgress.run_fields st evs bw0) as [Hc Hs].
  fold bw in Hc, Hs. change (_currentCounter bw0) with current in Hc.
  change (_stepAfterDeflection bw0)
    with (kStepAfterDeflection : Rounded.float64 rnd) in Hs.
  pose proof (CounterProgress.kStepAfterDeflection_value rnd Hrnd) as Hk.
  pose proof (CounterProgress.rnd_one rnd Hrnd) as H1.
  assert (Hstep : (0 < _stepAfterDeflection bw)%Q
                  /\ (_stepAfterDeflection bw
                      <= (fone : Rounded.float64 rnd))%Q).
  { destruct Hs as [ -> | -> ]; rewrite ?Hk, H1; split; reflexivity || lra. }
  destruct Hstep as [Hs0 Hs1].
  assert (Hcur' : 0 <= _currentCounter bw <= CInt.int_max) by (rewrite Hc; exact Hcur).
  destruct (CounterProgress.counterAt_properties rnd Hrnd bw v v' Hs0 Hcur' Hvv)
    as (Hb & Hm & _).
  destruct (CounterProgress.counterAt_properties rnd Hrnd bw
              (fone : Rounded.float64 rnd) (fone : Rounded.float64 rnd)
              Hs0 Hcur' (Qle_refl _)) as (_ & _ & Hend).
  specialize (Hend Hs1). rewrite Hc in Hb, Hend.
  unfold animating in Hrun. fold bw0 in Hrun. fold bw in Hrun.
  destruct (_appearanceAnimation bw) as [ a | ] eqn:Ea; [ | discriminate ].
  assert (Hto : anim_to a = fone).
  { apply (CounterProgress.run_anim_to st evs bw0); [ discriminate | exact Ea ]. }
  repeat split; try assumption; try apply Hb.
  - unfold onAnimationTick. rewrite Ea.
    apply (CounterProgress.appearanceCallback_fields st).
  - unfold onAnimationFinished. rewrite Ea. cbn [with_animation _bubble].
    destruct (CounterProgress.appearanceCallback_fields st (anim_bubbleEdge a)
                (anim_to a) bw) as (_ & _ & ->).
    rewrite Hto. exact Hend.
Qed.

Lemma counter_follows_rounding_witness :
  let bw : BubbleWidget (Rounded.float64 Rounded.exact) :=
    fst (run Sample.style [ ShowFinished; AnimationTick (flit (1 # 4)) ]
           (BubbleWidget_new Sample.style Sample.parent QString_number 57 100
              true Sample.icon)) in
  counter (_bubble (onAnimationTick Sample.style (flit (1 # 2)) bw))
  = counterAt bw (flit (1 # 2))
  /\ 0 <= counterAt bw (flit (1 # 2)) <= 57
  /\ counterAt bw (flit (1 # 2)) <= counterAt bw (flit (3 # 4))
  /\ counterAt bw fone = 57
  /\ counter (_bubble (onAnimationFinished Sample.style bw)) = 57.
Proof.
  apply (counter_follows_rounding Rounded.exact).
  - exact CounterProgress.exact_valid.
  - vm_compute. split; discriminate.
  - repeat split; vm_compute; discriminate.
  - vm_compute. reflexivity.
Defined.

(** ** binary64 arithmetic refines the rounding model *)

Module Pow2.

Lemma pow2_pos (e : Z) : (0 < pow2 e)%Q.
Proof. apply Qpower_0_lt. reflexivity. Qed.

Lemma pow2_nonzero (e : Z) : ~ (pow2 e == 0)%Q.
Proof. pose proof (pow2_pos e). lra. Qed.

Lemma pow2_add (a b : Z) : (pow2 (a + b) == pow2 a * pow2 b)%Q.
Proof. apply Qpower_plus. discriminate. Qed.

Lemma pow2_sub (a b : Z) : (pow2 (a - b) == pow2 a / pow2 b)%Q.
Proof.
  replace a with ((a - b) + b) at 2 by ring.
  rewrite pow2_add. field. apply pow2_nonzero.
Qed.

Lemma pow2_0 : (pow2 0 == 1)%Q.
Proof. reflexivity. Qed.

Lemma pow2_1 : (pow2 1 == 2)%Q.
Proof. reflexivity. Qed.

Lemma pow2_succ (a : Z) : (pow2 (a + 1) == 2 * pow2 a)%Q.
Proof. rewrite pow2_add, pow2_1. ring. Qed.

Lemma pow2_lt (a b : Z) : a < b -> (pow2 a < pow2 b)%Q.
Proof. intros H. apply Qpower_lt_compat_l; [ exact H | reflexivity ]. Qed.

Lemma pow2_le (a b : Z) : a <= b -> (pow2 a <= pow2 b)%Q.
Proof. intros H. apply Qpower_le_compat_l; [ exact H | discriminate ]. Qed.

Lemma pow2_lt_inv (a b : Z) : (pow2 a < pow2 b)%Q -> a < b.
Proof. intros H. apply (Qpower_lt_compat_l_inv 2); [ exact H | reflexivity ]. Qed.

Lemma pow2_le_inv (a b : Z) : (pow2 a <= pow2 b)%Q -> a <= b.
Proof. intros H. apply (Qpower_le_compat_l_inv 2); [ exact H | reflexivity ]. Qed.

Lemma pow2_Z (e : Z) : 0 <= e -> (pow2 e == inject_Z (2 ^ e))%Q.
Proof. intros H. unfold pow2. rewrite Zpower_Qpower by exact H. reflexivity. Qed.

End Pow2.

Module Mag.
Import Pow2.

(** [mag x] is the [d] with [2^(d-1) <= x < 2^d]. *)
Lemma mag_spec (x : Q) :
  (0 < x)%Q -> (pow2 (mag x - 1) <= x)%Q /\ (x < pow2 (mag x))%Q.
Proof.
  intros Hx. destruct x as [n d]. unfold mag. cbn [Qnum Qden].
  assert (Hn : 0 < n) by (unfold Qlt in Hx; cbn in Hx; lia).
  set (ln := Z.log2 n). set (ld := Z.log2 (Zpos d)).
  pose proof (Z.log2_spec n Hn) as [Hn1 Hn2]. fold ln in Hn1, Hn2.
  pose proof (Z.log2_spec (Zpos d) eq_refl) as [Hd1 Hd2]. fold ld in Hd1, Hd2.
  pose proof (Z.log2_nonneg n) as Hln. fold ln in Hln.
  pose proof (Z.log2_nonneg (Zpos d)) as Hld. fold ld in Hld.
  assert (Hq : (n # d == inject_Z n / inject_Z (Zpos d))%Q)
    by apply Qmake_Qdiv.
  assert (Hdpos : (0 < inject_Z (Zpos d))%Q) by reflexivity.
  assert (Hn1' : (pow2 ln <= inject_Z n)%Q)
    by (rewrite pow2_Z by lia; rewrite <- Zle_Qle; exact Hn1).
  assert (Hn2' : (inject_Z n < pow2 (ln + 1))%Q)
    by (rewrite pow2_Z by lia; rewrite <- Zlt_Qlt; exact Hn2).
  assert (Hd1' : (pow2 ld <= inject_Z (Zpos d))%Q)
    by (rewrite pow2_Z by lia; rewrite <- Zle_Qle; exact Hd1).
  assert (Hd2' : (inject_Z (Zpos d) < pow2 (ld + 1))%Q)
    by (rewrite pow2_Z by lia; rewrite <- Zlt_Qlt; exact Hd2).
  pose proof (pow2_pos ld) as Pld. pose proof (pow2_pos (ln - ld)) as Pk.
  assert (Hlo : (pow2 (ln - ld - 1) < n # d)%Q).
  { rewrite Hq. apply Qlt_shift_div_l; [ exact Hdpos | ].
    apply Qlt_le_trans with (pow2 (ln - ld - 1) * pow2 (ld + 1))%Q.
    - apply Qmult_lt_l; [ apply pow2_pos | exact Hd2' ].
    - rewrite <- pow2_add. replace (ln - ld - 1 + (ld + 1)) with ln by ring.
      exact Hn1'. }
  assert (Hhi : (n # d < pow2 (ln - ld + 1))%Q).
  { rewrite Hq. apply Qlt_shift_div_r; [ exact Hdpos | ].
    apply Qlt_le_trans with (pow2 (ln + 1)); [ exact Hn2' | ].
    replace (ln + 1) with (ln - ld + 1 + ld) by ring. rewrite pow2_add.
    apply Qmult_le_l; [ apply pow2_pos | exact Hd1' ]. }
  destruct (Qle_bool (pow2 (ln - ld)) (n # d)) eqn:E.
  - apply Qle_bool_iff in E.
    replace (ln - ld + 1 - 1) with (ln - ld) by ring. split; assumption.
  - assert (E' : (n # d < pow2 (ln - ld))%Q).
    { apply Qnot_le_lt. intros H. apply Qle_bool_iff in H. congruence. }
    split; [ apply Qlt_le_weak, Hlo | exact E' ].
Qed.

Lemma mag_unique (x : Q) (d : Z) :
  (pow2 (d - 1) <= x)%Q -> (x < pow2 d)%Q -> mag x = d.
Proof.
  intros H1 H2.
  assert (Hx : (0 < x)%Q) by (pose proof (pow2_pos (d - 1)); lra).
  destruct (mag_spec x Hx) as [M1 M2].
  assert (A : mag x - 1 < d) by (apply pow2_lt_inv; lra).
  assert (B : d - 1 < mag x) by (apply pow2_lt_inv; lra).
  lia.
Qed.

Lemma mag_mono (x y : Q) : (0 < x)%Q -> (x <= y)%Q -> mag x <= mag y.
Proof.
  intros Hx Hxy. assert (Hy : (0 < y)%Q) by lra.
  destruct (mag_spec x Hx) as [X1 X2]. destruct (mag_spec y Hy) as [Y1 Y2].
  assert (A : mag x - 1 < mag y) by (apply pow2_lt_inv; lra).
  lia.
Qed.

Lemma mag_eq (x y : Q) : (0 < x)%Q -> (x == y)%Q -> mag x = mag y.
Proof.
  intros Hx Hxy. destruct (mag_spec x Hx) as [X1 X2]. symmetry.
  apply mag_unique; rewrite <- Hxy; assumption.
Qed.

End Mag.

Module Nearest.

Lemma rne_bounds (t : Q) : Qfloor t <= rne t <= Qfloor t + 1.
Proof.
  unfold rne. destruct (Qcompare_spec (t - inject_Z (Qfloor t)) (1 # 2));
    try destruct (Z.even (Qfloor t)); lia.
Qed.

Lemma rne_mono (t u : Q) : (t <= u)%Q -> rne t <= rne u.
Proof.
  intros Htu. pose proof (Qfloor_resp_le _ _ Htu) as Hf.
  destruct (Z.eq_dec (Qfloor t) (Qfloor u)) as [E | N].
  - unfold rne. rewrite <- E.
    destruct (Qcompare_spec (t - inject_Z (Qfloor t)) (1 # 2)),
             (Qcompare_spec (u - inject_Z (Qfloor t)) (1 # 2));
      try destruct (Z.even (Qfloor t)); try lia; lra.
  - pose proof (rne_bounds t). pose proof (rne_bounds u). lia.
Qed.

Lemma rne_Z (n : Z) : rne (inject_Z n) = n.
Proof.
  unfold rne. rewrite Qfloor_Z.
  destruct (Qcompare_spec (inject_Z n - inject_Z n) (1 # 2)); try reflexivity; lra.
Qed.

Lemma rne_eq (t u : Q) : (t == u)%Q -> rne t = rne u.
Proof.
  intros H. apply Z.le_antisymm; apply rne_mono; rewrite H; apply Qle_refl.
Qed.

Lemma rne_int (t : Q) (n : Z) : (t == inject_Z n)%Q -> rne t = n.
Proof. intros H. rewrite (rne_eq _ _ H). apply rne_Z. Qed.

Lemma rne_ge (t : Q) (n : Z) : (inject_Z n <= t)%Q -> n <= rne t.
Proof. intros H. rewrite <- (rne_Z n). apply rne_mono, H. Qed.

Lemma rne_le (t : Q) (n : Z) : (t <= inject_Z n)%Q -> rne t <= n.
Proof. intros H. rewrite <- (rne_Z n). apply rne_mono, H. Qed.

End Nearest.

Module Round.
Import Pow2 Mag Nearest.

Lemma fexp64_eq (e : Z) : fexp64 e = Z.max (e - 53) (-1074).
Proof. reflexivity. Qed.

Lemma fexp64_mono (a b : Z) : a <= b -> fexp64 a <= fexp64 b.
Proof. rewrite !fexp64_eq. lia. Qed.

Lemma scale_bounds (x : Q) :
  (0 < x)%Q ->
  (x / pow2 (cexp x) < inject_Z (2 ^ 53))%Q
  /\ (-1074 < cexp x -> (inject_Z (2 ^ 52) <= x / pow2 (cexp x))%Q).
Proof.
  intros Hx. destruct (mag_spec x Hx) as [M1 M2].
  pose proof (pow2_pos (cexp x)) as Pc.
  unfold cexp in *. rewrite fexp64_eq in *. split.
  - apply Qlt_shift_div_r; [ exact Pc | ].
    rewrite <- pow2_Z, <- pow2_add by lia.
    apply Qlt_le_trans with (pow2 (mag x)); [ exact M2 | ].
    apply pow2_le. lia.
  - intros Hc. apply Qle_shift_div_l; [ exact Pc | ].
    rewrite <- pow2_Z, <- pow2_add by lia.
    apply Qle_trans with (pow2 (mag x - 1)); [ | exact M1 ].
    apply pow2_le. lia.
Qed.

Lemma round_pos_nonneg (x : Q) : (0 < x)%Q -> (0 <= round_pos x)%Q.
Proof.
  intros Hx. unfold round_pos. pose proof (pow2_pos (cexp x)) as Pc.
  apply Qmult_le_0_compat; [ | lra ].
  change 0%Q with (inject_Z 0). rewrite <- Zle_Qle. apply rne_ge.
  apply Qle_shift_div_l; [ exact Pc | ]. change (inject_Z 0) with 0%Q. lra.
Qed.

Lemma round_pos_mono (x y : Q) :
  (0 < x)%Q -> (x <= y)%Q -> (round_pos x <= round_pos y)%Q.
Proof.
  intros Hx Hxy. assert (Hy : (0 < y)%Q) by lra.
  pose proof (fexp64_mono _ _ (mag_mono x y Hx Hxy)) as Hc.
  fold (cexp x) (cexp y) in Hc.
  pose proof (pow2_pos (cexp x)) as Px. pose proof (pow2_pos (cexp y)) as Py.
  unfold round_pos.
  destruct (Z.eq_dec (cexp x) (cexp y)) as [E | N].
  - rewrite E. apply Qmult_le_compat_r; [ | lra ].
    rewrite <- Zle_Qle. apply rne_mono.
    apply Qmult_le_compat_r; [ exact Hxy | ].
    apply Qlt_le_weak, Qinv_lt_0_compat, Py.
  - assert (Hlt : cexp x + 1 <= cexp y) by lia.
    destruct (scale_bounds x Hx) as [X1 _].
    destruct (scale_bounds y Hy) as [_ Y2].
    assert (Hcy : -1074 < cexp y).
    { pose proof (fexp64_eq (mag x)). pose proof (fexp64_eq (mag y)).
      unfold cexp in *. lia. }
    specialize (Y2 Hcy).
    apply Qle_trans with (inject_Z (2 ^ 53) * pow2 (cexp x))%Q.
    + apply Qmult_le_compat_r; [ | lra ].
      rewrite <- Zle_Qle. apply rne_le. lra.
    + apply Qle_trans with (inject_Z (2 ^ 52) * pow2 (cexp y))%Q.
      * rewrite <- !pow2_Z, <- !pow2_add by lia. apply pow2_le. lia.
      * apply Qmult_le_compat_r; [ | lra ].
        rewrite <- Zle_Qle. apply rne_ge. exact Y2.
Qed.

Lemma round_pos_eq (x y : Q) :
  (0 < x)%Q -> (x == y)%Q -> (round_pos x == round_pos y)%Q.
Proof.
  intros Hx Hxy. apply Qle_antisym; apply round_pos_mono; lra.
Qed.

Lemma round64_mono (x y : Q) : (x <= y)%Q -> (round64 x <= round64 y)%Q.
Proof.
  intros Hxy. unfold round64.
  destruct (Qcompare_spec x 0) as [Ex | Lx | Gx],
           (Qcompare_spec y 0) as [Ey | Ly | Gy]; try lra.
  - apply round_pos_nonneg, Gy.
  - pose proof (round_pos_nonneg (- x)). lra.
  - assert (H : (round_pos (- y) <= round_pos (- x))%Q)
      by (apply round_pos_mono; lra).
    lra.
  - pose proof (round_pos_nonneg (- x)).
    pose proof (round_pos_nonneg y). lra.
  - apply round_pos_mono; assumption.
Qed.

End Round.

Import Pow2 Mag Nearest Round.

Module Shift.

Lemma frac_bounds (t : Q) : (0 <= t - inject_Z (Qfloor t) < 1)%Q.
Proof.
  pose proof (Qfloor_le t) as F1. pose proof (Qlt_floor t) as F2.
  rewrite inject_Z_plus in F2. change (inject_Z 1) with 1%Q in F2. lra.
Qed.

Lemma Qfloor_unique (t : Q) (n : Z) :
  (inject_Z n <= t)%Q -> (t < inject_Z n + 1)%Q -> Qfloor t = n.
Proof.
  intros H1 H2. pose proof (Qfloor_le t) as F1. pose proof (Qlt_floor t) as F2.
  rewrite inject_Z_plus in F2. change (inject_Z 1) with 1%Q in F2.
  assert (A : (inject_Z n < inject_Z (Qfloor t) + 1)%Q) by lra.
  assert (B : (inject_Z (Qfloor t) < inject_Z n + 1)%Q) by lra.
  change 1%Q with (inject_Z 1) in A, B. rewrite <- inject_Z_plus in A, B.
  rewrite <- Zlt_Qlt in A, B. lia.
Qed.

Lemma loc_of_eq (t u : Q) : (t == u)%Q -> loc_of t = loc_of u.
Proof.
  intros H. unfold loc_of. rewrite (Qfloor_comp _ _ H).
  assert (E : (t - inject_Z (Qfloor u) == u - inject_Z (Qfloor u))%Q)
    by (rewrite H; reflexivity).
  rewrite (Qeqb_comp _ _ E 0%Q 0%Q (Qeq_refl 0)).
  rewrite (Qcompare_comp _ _ E (1 # 2) (1 # 2) (Qeq_refl _)). reflexivity.
Qed.

Lemma Loc_eq (t u : Q) : (t == u)%Q -> Loc t = Loc u.
Proof.
  intros H. unfold Loc. rewrite (Qfloor_comp _ _ H), (loc_of_eq _ _ H).
  reflexivity.
Qed.

Lemma loc_of_Z (n : Z) : loc_of (inject_Z n) = loc_Exact.
Proof.
  unfold loc_of. rewrite Qfloor_Z.
  replace (Qeq_bool (inject_Z n - inject_Z n) 0) with true; [ reflexivity | ].
  symmetry. apply Qeq_bool_iff. ring.
Qed.

Lemma Loc_Z (n : Z) : Loc (inject_Z n) = shr_record_of_loc n loc_Exact.
Proof. unfold Loc. rewrite Qfloor_Z, loc_of_Z. reflexivity. Qed.

Lemma loc_roundtrip (m : Z) (l : location) :
  loc_of_shr_record (shr_record_of_loc m l) = l.
Proof. destruct l as [ | [ | | ] ]; reflexivity. Qed.

(** Rounding a located value to nearest even is [rne]. *)
Lemma round_nearest_even_Loc (t : Q) :
  round_nearest_even (shr_m (Loc t)) (loc_of_shr_record (Loc t)) = rne t.
Proof.
  unfold Loc. rewrite loc_roundtrip.
  replace (shr_m (shr_record_of_loc (Qfloor t) (loc_of t))) with (Qfloor t)
    by (destruct (loc_of t) as [ | [ | | ] ]; reflexivity).
  unfold loc_of, rne.
  destruct (Qeq_bool (t - inject_Z (Qfloor t)) 0) eqn:E.
  - apply Qeq_bool_iff in E. cbn [round_nearest_even].
    destruct (Qcompare_spec (t - inject_Z (Qfloor t)) (1 # 2)); try lra.
    reflexivity.
  - cbn [round_nearest_even].
    destruct (t - inject_Z (Qfloor t) ?= 1 # 2)%Q; reflexivity.
Qed.

(** One shift to the right, on the record. *)
Lemma shr_1_spec (m : Z) (r s : bool) :
  0 <= m ->
  shr_1 {| shr_m := m; shr_r := r; shr_s := s |}
  = {| shr_m := m / 2; shr_r := Z.odd m; shr_s := r || s |}.
Proof.
  intros Hm. destruct m as [ | [ p | p | ] | p ]; try lia; cbn [shr_1].
  - reflexivity.
  - f_equal. rewrite Pos2Z.inj_xI.
    apply (Z.div_unique _ _ _ 1); lia.
  - f_equal. rewrite Pos2Z.inj_xO.
    apply (Z.div_unique _ _ _ 0); lia.
  - reflexivity.
Qed.

Lemma loc_of_spec (t : Q) :
  let d := (t - inject_Z (Qfloor t))%Q in
  match loc_of t with
  | loc_Exact => (d == 0)%Q
  | loc_Inexact Lt => (0 < d < 1 # 2)%Q
  | loc_Inexact Eq => (d == 1 # 2)%Q
  | loc_Inexact Gt => (1 # 2 < d)%Q
  end.
Proof.
  intros d. pose proof (frac_bounds t) as Hd. fold d in Hd.
  unfold loc_of. fold d.
  destruct (Qeq_bool d 0) eqn:E.
  - apply Qeq_bool_iff, E.
  - apply Qeq_bool_neq in E.
    destruct (Qcompare_spec d (1 # 2)); try assumption. lra.
Qed.

Lemma Qfloor_half (t : Q) : (0 <= t)%Q -> Qfloor (t / 2) = Qfloor t / 2.
Proof.
  intros Ht. pose proof (frac_bounds t) as Hd.
  set (f := Qfloor t) in *.
  pose proof (Z.div_mod f 2 ltac:(lia)) as Hf.
  pose proof (Z.mod_pos_bound f 2 ltac:(lia)) as Hb.
  apply Qfloor_unique.
  - assert (H : (inject_Z (f / 2) * 2 <= inject_Z f)%Q).
    { change 2%Q with (inject_Z 2). rewrite <- inject_Z_mult, <- Zle_Qle. lia. }
    apply Qle_shift_div_l; lra.
  - assert (H : (inject_Z f + 1 <= (inject_Z (f / 2) + 1) * 2)%Q).
    { change 2%Q with (inject_Z 2). change 1%Q with (inject_Z 1).
      rewrite <- !inject_Z_plus, <- inject_Z_mult, <- Zle_Qle. lia. }
    apply Qlt_shift_div_r; lra.
Qed.

(** One shift to the right halves the located value. *)
Lemma shr_1_Loc (t : Q) : (0 <= t)%Q -> shr_1 (Loc t) = Loc (t / 2).
Proof.
  intros Ht.
  assert (Hf0 : 0 <= Qfloor t).
  { rewrite <- (Qfloor_Z 0). apply Qfloor_resp_le. exact Ht. }
  pose proof (loc_of_spec t) as Ls. pose proof (loc_of_spec (t / 2)) as Lh.
  pose proof (frac_bounds t) as Hd.
  cbv zeta in Ls, Lh. rewrite (Qfloor_half t Ht) in Lh.
  unfold Loc. rewrite (Qfloor_half t Ht).
  set (f := Qfloor t) in *.
  pose proof (Z.div_mod f 2 ltac:(lia)) as Hf.
  assert (Hfq : (inject_Z f == 2 * inject_Z (f / 2) + inject_Z (f mod 2))%Q).
  { change 2%Q with (inject_Z 2).
    rewrite <- inject_Z_mult, <- inject_Z_plus. rewrite <- Hf. reflexivity. }
  assert (Hodd : f mod 2 = if Z.odd f then 1 else 0) by apply Zmod_odd.
  assert (Hsplit : (2 * (t / 2 - inject_Z (f / 2))
                    == inject_Z (f mod 2) + (t - inject_Z f))%Q)
    by (rewrite Hfq; field).
  clear Hfq Hf.
  destruct (loc_of t) as [ | [ | | ] ];
    cbn [shr_record_of_loc]; rewrite (shr_1_spec f _ _ Hf0);
    destruct (Z.odd f); rewrite Hodd in Hsplit;
    destruct (loc_of (t / 2)) as [ | [ | | ] ];
    cbn [shr_record_of_loc orb]; try reflexivity;
    change (inject_Z 1) with 1%Q in Hsplit;
    change (inject_Z 0) with 0%Q in Hsplit;
    cbv iota beta in Ls, Lh;
    exfalso; lra.
Qed.

Lemma iter_shr_1_Loc (p : positive) :
  forall t : Q,
    (0 <= t)%Q -> SpecFloat.iter_pos shr_1 p (Loc t) = Loc (t / pow2 (Zpos p)).
Proof.
  induction p as [ p IH | p IH | ]; intros t Ht; cbn [SpecFloat.iter_pos].
  - assert (Hh : (0 <= t / 2)%Q) by (apply Qle_shift_div_l; lra).
    pose proof (pow2_pos (Zpos p)) as Pp.
    assert (Hq : (0 <= t / 2 / pow2 (Zpos p))%Q)
      by (apply Qle_shift_div_l; lra).
    rewrite (shr_1_Loc t Ht), (IH _ Hh), (IH _ Hq).
    apply Loc_eq. rewrite Pos2Z.inj_xI.
    replace (2 * Z.pos p + 1) with (Z.pos p + Z.pos p + 1) by ring.
    rewrite !pow2_add, pow2_1. field. apply pow2_nonzero.
  - pose proof (pow2_pos (Zpos p)) as Pp.
    assert (Hq : (0 <= t / pow2 (Zpos p))%Q)
      by (apply Qle_shift_div_l; lra).
    rewrite (IH _ Ht), (IH _ Hq).
    apply Loc_eq. rewrite Pos2Z.inj_xO.
    replace (2 * Z.pos p) with (Z.pos p + Z.pos p) by ring.
    rewrite !pow2_add. field. apply pow2_nonzero.
  - rewrite (shr_1_Loc t Ht). apply Loc_eq. rewrite pow2_1. reflexivity.
Qed.

Lemma shr_Loc (t : Q) (e n : Z) :
  (0 <= t)%Q -> 0 <= n ->
  shr (Loc t) e n = (Loc (t / pow2 n), e + n).
Proof.
  intros Ht Hn. destruct n as [ | p | p ]; try lia; cbn [shr].
  - rewrite Z.add_0_r. f_equal. apply Loc_eq. rewrite pow2_0. field.
  - rewrite (iter_shr_1_Loc p t Ht). reflexivity.
Qed.

Lemma digits2_spec (p : positive) :
  2 ^ (Zpos (digits2_pos p) - 1) <= Zpos p < 2 ^ Zpos (digits2_pos p).
Proof.
  induction p as [ p IH | p IH | ]; cbn [digits2_pos].
  - rewrite Pos2Z.inj_succ, (Pos2Z.inj_xI p).
    replace (Z.succ (Zpos (digits2_pos p)) - 1)
      with (Z.succ (Zpos (digits2_pos p) - 1)) by lia.
    rewrite !Z.pow_succ_r; [ | lia | lia ]. lia.
  - rewrite Pos2Z.inj_succ, (Pos2Z.inj_xO p).
    replace (Z.succ (Zpos (digits2_pos p)) - 1)
      with (Z.succ (Zpos (digits2_pos p) - 1)) by lia.
    rewrite !Z.pow_succ_r; [ | lia | lia ]. lia.
  - cbn. lia.
Qed.

Lemma Zdigits2_spec (m : Z) :
  0 < m -> 2 ^ (Zdigits2 m - 1) <= m < 2 ^ Zdigits2 m.
Proof.
  intros Hm. destruct m as [ | p | p ]; try lia. apply digits2_spec.
Qed.

Lemma Zdigits2_pos (m : Z) : 0 < m -> 0 < Zdigits2 m.
Proof. intros Hm. destruct m; try lia. reflexivity. Qed.

Lemma Zdigits2_unique (m d : Z) :
  0 < d -> 2 ^ (d - 1) <= m < 2 ^ d -> Zdigits2 m = d.
Proof.
  intros Hd [H1 H2].
  assert (Hm : 0 < m) by (pose proof (Z.pow_pos_nonneg 2 (d - 1)); lia).
  pose proof (Zdigits2_spec m Hm) as [D1 D2].
  pose proof (Zdigits2_pos m Hm) as Dp.
  assert (A : Zdigits2 m - 1 < d).
  { apply (Z.pow_lt_mono_r_iff 2); lia. }
  assert (B : d - 1 < Zdigits2 m).
  { apply (Z.pow_lt_mono_r_iff 2); lia. }
  lia.
Qed.

(** The magnitude of a value located at [t], at exponent [e]. *)
Lemma mag_located (t : Q) (e : Z) :
  (1 <= t)%Q -> mag (t * pow2 e) = Zdigits2 (Qfloor t) + e.
Proof.
  intros Ht.
  assert (Hf : 0 < Qfloor t).
  { apply Z.lt_le_trans with 1; [ lia | ].
    rewrite <- (Qfloor_Z 1). apply Qfloor_resp_le. exact Ht. }
  pose proof (Zdigits2_spec _ Hf) as [D1 D2].
  pose proof (Zdigits2_pos _ Hf) as Dp.
  pose proof (Qfloor_le t) as F1. pose proof (Qlt_floor t) as F2.
  pose proof (pow2_pos e) as Pe.
  apply mag_unique.
  - replace (Zdigits2 (Qfloor t) + e - 1)
      with (Zdigits2 (Qfloor t) - 1 + e) by ring.
    rewrite pow2_add. apply Qmult_le_compat_r; [ | lra ].
    rewrite pow2_Z by lia.
    apply Qle_trans with (inject_Z (Qfloor t)); [ | exact F1 ].
    rewrite <- Zle_Qle. exact D1.
  - rewrite pow2_add. apply Qmult_lt_compat_r; [ exact Pe | ].
    rewrite pow2_Z by lia.
    apply Qlt_le_trans with (inject_Z (Qfloor t + 1)); [ exact F2 | ].
    rewrite <- Zle_Qle. lia.
Qed.

End Shift.

Import Shift.

Module RoundAux.

Lemma shr_record_of_Loc (t : Q) :
  shr_record_of_loc (Qfloor t) (loc_of t) = Loc t.
Proof. reflexivity. Qed.

Lemma shr_m_Loc (t : Q) : shr_m (Loc t) = Qfloor t.
Proof. unfold Loc. destruct (loc_of t) as [ | [ | | ] ]; reflexivity. Qed.

(** The exponent the code shifts to is the canonical exponent of the
    value, when the value has at least the precision of the format. *)
Lemma shift_exponent (t : Q) (ex : Z) :
  (0 < t)%Q -> ex <= cexp (t * pow2 ex) ->
  fexp64 (Zdigits2 (Qfloor t) + ex) = cexp (t * pow2 ex).
Proof.
  intros Ht Hex. destruct (Qlt_le_dec t 1) as [Hlt | Hge].
  - assert (Hf : Qfloor t = 0).
    { apply Qfloor_unique; change (inject_Z 0) with 0%Q; lra. }
    rewrite Hf. cbn [Zdigits2]. rewrite Z.add_0_l.
    pose proof (pow2_pos ex) as Pe.
    assert (Hx : (0 < t * pow2 ex)%Q) by (apply Qmult_lt_0_compat; lra).
    destruct (mag_spec _ Hx) as [M1 M2].
    assert (Hm : mag (t * pow2 ex) - 1 < ex).
    { apply pow2_lt_inv. apply Qle_lt_trans with (t * pow2 ex)%Q; [ exact M1 | ].
      rewrite <- (Qmult_1_l (pow2 ex)) at 2.
      apply Qmult_lt_compat_r; assumption. }
    unfold cexp in *. rewrite !fexp64_eq. rewrite fexp64_eq in Hex. lia.
  - unfold cexp. rewrite (mag_located t ex Hge). reflexivity.
Qed.

Lemma shr_fexp_Loc (t : Q) (ex : Z) :
  (0 < t)%Q -> ex <= cexp (t * pow2 ex) ->
  shr_fexp 53 1024 (Qfloor t) ex (loc_of t)
  = (Loc (t * pow2 ex / pow2 (cexp (t * pow2 ex))), cexp (t * pow2 ex)).
Proof.
  intros Ht Hex. unfold shr_fexp.
  change (SpecFloat.fexp 53 1024) with fexp64.
  rewrite (shift_exponent t ex Ht Hex), shr_record_of_Loc.
  rewrite shr_Loc by lra || lia.
  f_equal; [ | lia ].
  apply Loc_eq. rewrite pow2_sub. field.
  split; apply pow2_nonzero.
Qed.

(** The second shift: a rounded mantissa of 54 bits loses one. *)
Lemma shr_fexp_rounded (m e : Z) :
  0 <= m <= 2 ^ 53 -> -1074 <= e -> (-1074 < e -> 2 ^ 52 <= m) ->
  shr_fexp 53 1024 m e loc_Exact
  = if m =? 2 ^ 53
    then (shr_record_of_loc (2 ^ 52) loc_Exact, e + 1)
    else (shr_record_of_loc m loc_Exact, e).
Proof.
  intros Hm He Hn. unfold shr_fexp.
  change (SpecFloat.fexp 53 1024) with fexp64.
  destruct (Z.eqb_spec m (2 ^ 53)) as [ -> | Hne ].
  - replace (fexp64 (Zdigits2 (2 ^ 53) + e) - e) with 1
      by (change (Zdigits2 (2 ^ 53)) with 54; rewrite fexp64_eq; lia).
    reflexivity.
  - destruct (Z.eq_dec m 0) as [ -> | Hpos ].
    + cbn [Zdigits2]. rewrite fexp64_eq.
      destruct (Z.max (0 + e - 53) (-1074) - e) eqn:E; try lia; reflexivity.
    + assert (Hd : Zdigits2 m <= 53).
      { pose proof (Zdigits2_spec m ltac:(lia)) as [D1 _].
        pose proof (Zdigits2_pos m ltac:(lia)) as Dp.
        assert (A : Zdigits2 m - 1 < 53).
        { apply (Z.pow_lt_mono_r_iff 2); lia. }
        lia. }
      assert (Hd' : -1074 < e -> Zdigits2 m = 53).
      { intros H. apply Zdigits2_unique; [ lia | ]. specialize (Hn H).
        change (53 - 1) with 52. lia. }
      rewrite fexp64_eq.
      destruct (Z.max (Zdigits2 m + e - 53) (-1074) - e) eqn:E;
        try reflexivity. exfalso.
      destruct (Z.eq_dec e (-1074)) as [ -> | He' ]; [ lia | ].
      rewrite Hd' in E by lia. lia.
Qed.

Lemma canonical_rounded (m e : Z) :
  0 < m < 2 ^ 53 -> -1074 <= e -> (-1074 < e -> 2 ^ 52 <= m) ->
  fexp64 (Zdigits2 m + e) = e.
Proof.
  intros Hm He Hn.
  assert (Hd : Zdigits2 m <= 53).
  { pose proof (Zdigits2_spec m ltac:(lia)) as [D1 _].
    pose proof (Zdigits2_pos m ltac:(lia)) as Dp.
    assert (A : Zdigits2 m - 1 < 53).
    { apply (Z.pow_lt_mono_r_iff 2); lia. }
    lia. }
  rewrite fexp64_eq.
  destruct (Z.eq_dec e (-1074)) as [ -> | He' ]; [ lia | ].
  assert (Hd' : Zdigits2 m = 53).
  { apply Zdigits2_unique; [ lia | ]. change (53 - 1) with 52. lia. }
  lia.
Qed.

(** [binary_round_aux] on a located positive value rounds it. *)
Lemma binary_round_aux_correct (t : Q) (ex : Z) :
  (0 < t)%Q ->
  ex <= cexp (t * pow2 ex) ->
  cexp (t * pow2 ex) <= 970 ->
  let z := binary_round_aux 53 1024 false (Qfloor t) ex (loc_of t) in
  nonneg z = true /\ valid64 z = true
  /\ (B2Q z == round_pos (t * pow2 ex))%Q.
Proof.
  intros Ht Hex Hmax z. unfold z, binary_round_aux.
  rewrite (shr_fexp_Loc t ex Ht Hex).
  pose proof (pow2_pos ex) as Pe.
  assert (Hx : (0 < t * pow2 ex)%Q) by (apply Qmult_lt_0_compat; lra).
  set (x := (t * pow2 ex)%Q) in *. set (e' := cexp x) in *.
  pose proof (pow2_pos e') as Pe'.
  rewrite round_nearest_even_Loc.
  set (m1 := rne (x / pow2 e')).
  destruct (scale_bounds x Hx) as [S1 S2]. fold e' in S1, S2.
  assert (Hm1 : 0 <= m1 <= 2 ^ 53).
  { split; [ apply rne_ge | apply rne_le; lra ].
    apply Qle_shift_div_l; [ exact Pe' | ]. change (inject_Z 0) with 0%Q. lra. }
  assert (He' : -1074 <= e') by (unfold e', cexp; rewrite fexp64_eq; lia).
  assert (Hn : -1074 < e' -> 2 ^ 52 <= m1)
    by (intros H; apply rne_ge, S2, H).
  rewrite (shr_fexp_rounded m1 e' Hm1 He' Hn).
  unfold round_pos. fold e'. fold m1.
  destruct (Z.eqb_spec m1 (2 ^ 53)) as [E | Hne ].
  - cbn [shr_record_of_loc shr_m].
    change (2 ^ 52) with (Zpos (2 ^ 52)).
    replace (e' + 1 <=? 1024 - 53) with true by (symmetry; apply Z.leb_le; lia).
    split; [ reflexivity | ]. split.
    + unfold valid64, valid_binary, bounded, canonical_mantissa.
      change (SpecFloat.fexp 53 1024) with fexp64.
      change (Zpos (digits2_pos (2 ^ 52))) with 53.
      rewrite fexp64_eq.
      apply andb_true_intro. split; [ apply Z.eqb_eq | apply Z.leb_le ]; lia.
    + cbn [B2Q]. rewrite E, pow2_succ.
      change (inject_Z (2 ^ 53)) with (2 * inject_Z (Zpos (2 ^ 52)))%Q. ring.
  - cbn [shr_record_of_loc shr_m].
    destruct m1 as [ | p | p ] eqn:Em; try lia.
    + split; [ reflexivity | ]. split; [ reflexivity | ].
      cbn [B2Q]. change (inject_Z 0) with 0%Q. ring.
    + replace (e' <=? 1024 - 53) with true by (symmetry; apply Z.leb_le; lia).
      split; [ reflexivity | ]. split.
      * unfold valid64, valid_binary, bounded, canonical_mantissa.
        change (SpecFloat.fexp 53 1024) with fexp64.
        change (Zpos (digits2_pos p)) with (Zdigits2 (Zpos p)).
        rewrite (canonical_rounded (Zpos p) e') by (try lia; exact Hn).
        apply andb_true_intro. split; [ apply Z.eqb_eq | apply Z.leb_le ]; lia.
      * cbn [B2Q]. ring.
Qed.

End RoundAux.

Import RoundAux.

Module Ops.

Lemma round64_pos (x : Q) : (0 < x)%Q -> round64 x = round_pos x.
Proof.
  intros Hx. unfold round64.
  destruct (Qcompare_spec x 0); try reflexivity; lra.
Qed.

Lemma round64_zero (x : Q) : (x == 0)%Q -> round64 x = 0%Q.
Proof.
  intros Hx. unfold round64.
  destruct (Qcompare_spec x 0); try reflexivity; lra.
Qed.

(** What validity says of a finite float. *)
Lemma valid_finite (s : bool) (m : positive) (e : Z) :
  valid64 (S754_finite s m e) = true ->
  fexp64 (Zdigits2 (Zpos m) + e) = e /\ e <= 971 /\ -1074 <= e
  /\ Zdigits2 (Zpos m) <= 53
  /\ (-1074 < e -> Zdigits2 (Zpos m) = 53).
Proof.
  unfold valid64, valid_binary, bounded, canonical_mantissa.
  change (SpecFloat.fexp 53 1024) with fexp64. cbn [Zdigits2].
  intros H. apply andb_true_iff in H. destruct H as [H1 H2].
  apply Z.eqb_eq in H1. apply Z.leb_le in H2.
  split; [ exact H1 | ]. rewrite fexp64_eq in H1. lia.
Qed.

Lemma B2Q_finite_pos (m : positive) (e : Z) :
  (0 < B2Q (S754_finite false m e))%Q.
Proof.
  cbn [B2Q]. pose proof (pow2_pos e).
  apply Qmult_lt_0_compat; [ | assumption ]. reflexivity.
Qed.

Lemma B2Q_nonneg (f : spec_float) : nonneg f = true -> (0 <= B2Q f)%Q.
Proof.
  destruct f as [ s | s | | s m e ]; try destruct s; cbn [nonneg];
    try discriminate; intros _; try apply Qle_refl.
  apply Qlt_le_weak, B2Q_finite_pos.
Qed.

(** The magnitude of a positive finite float. *)
Lemma mag_finite (m : positive) (e : Z) :
  mag (B2Q (S754_finite false m e)) = Zdigits2 (Zpos m) + e.
Proof.
  cbn [B2Q].
  rewrite (mag_eq _ (inject_Z (Zpos m) * pow2 e)).
  - rewrite <- (Qfloor_Z (Zpos m)) at 2. apply mag_located.
    change 1%Q with (inject_Z 1). rewrite <- Zle_Qle. lia.
  - apply (B2Q_finite_pos m e).
  - ring.
Qed.

Lemma digits_mul (a b : positive) :
  Zdigits2 (Zpos a) + Zdigits2 (Zpos b) - 1 <= Zdigits2 (Zpos (a * b)).
Proof.
  pose proof (Zdigits2_spec (Zpos a) eq_refl) as [A1 A2].
  pose proof (Zdigits2_spec (Zpos b) eq_refl) as [B1 B2].
  pose proof (Zdigits2_spec (Zpos (a * b)) eq_refl) as [C1 C2].
  pose proof (Zdigits2_pos (Zpos a) eq_refl) as Ap.
  pose proof (Zdigits2_pos (Zpos b) eq_refl) as Bp.
  pose proof (Zdigits2_pos (Zpos (a * b)) eq_refl) as Cp.
  assert (H : 2 ^ (Zdigits2 (Zpos a) - 1 + (Zdigits2 (Zpos b) - 1))
              < 2 ^ Zdigits2 (Zpos (a * b))).
  { rewrite Z.pow_add_r by lia. rewrite Pos2Z.inj_mul in C2.
    apply Z.le_lt_trans with (Zpos a * Zpos b); [ | exact C2 ].
    apply Z.mul_le_mono_nonneg; try assumption; apply Z.pow_nonneg; lia. }
  apply Z.pow_lt_mono_r_iff in H; lia.
Qed.

(** [SFmul] on two valid floats that are not negative rounds the
    product, as long as the product is far from overflow. *)
Lemma SFmul_correct (a b : spec_float) :
  nonneg a = true -> nonneg b = true ->
  valid64 a = true -> valid64 b = true ->
  (B2Q a * B2Q b < pow2 1000)%Q ->
  let z := SFmul 53 1024 a b in
  nonneg z = true /\ valid64 z = true
  /\ (B2Q z == round64 (B2Q a * B2Q b))%Q.
Proof.
  intros Na Nb Va Vb Hsmall z.
  destruct a as [ sa | sa | | sa ma ea ]; try discriminate;
    try (destruct sa; try discriminate);
    destruct b as [ sb | sb | | sb mb eb ]; try discriminate;
    try (destruct sb; try discriminate);
    try (unfold z; cbn [SFmul]; split; [ reflexivity | ];
         split; [ reflexivity | ]; cbn [B2Q];
         rewrite round64_zero by ring; reflexivity).
  unfold z. cbn [SFmul xorb].
  set (t := inject_Z (Zpos (ma * mb))).
  assert (Ht : (0 < t)%Q) by reflexivity.
  assert (Hx : (B2Q (S754_finite false ma ea) * B2Q (S754_finite false mb eb)
                == t * pow2 (ea + eb))%Q).
  { cbn [B2Q]. unfold t. rewrite Pos2Z.inj_mul, inject_Z_mult, pow2_add. ring. }
  pose proof (B2Q_finite_pos ma ea) as Pa. pose proof (B2Q_finite_pos mb eb) as Pb.
  assert (Hpos : (0 < t * pow2 (ea + eb))%Q)
    by (rewrite <- Hx; apply Qmult_lt_0_compat; assumption).
  assert (Hmag : mag (t * pow2 (ea + eb)) = Zdigits2 (Zpos (ma * mb)) + (ea + eb)).
  { unfold t. rewrite <- (Qfloor_Z (Zpos (ma * mb))) at 2. apply mag_located.
    change 1%Q with (inject_Z 1). rewrite <- Zle_Qle. lia. }
  destruct (valid_finite _ _ _ Va) as (Ca & Ba & La & Da & Na').
  destruct (valid_finite _ _ _ Vb) as (Cb & Bb & Lb & Db & Nb').
  pose proof (digits_mul ma mb) as Hd.
  assert (Hex : ea + eb <= cexp (t * pow2 (ea + eb))).
  { unfold cexp. rewrite Hmag, fexp64_eq.
    destruct (Z.eq_dec ea (-1074)) as [ Ea | Ea ];
      destruct (Z.eq_dec eb (-1074)) as [ Eb | Eb ].
    - lia.
    - rewrite Nb' in Hd by lia.
      pose proof (Zdigits2_pos (Zpos ma) eq_refl). lia.
    - rewrite Na' in Hd by lia.
      pose proof (Zdigits2_pos (Zpos mb) eq_refl). lia.
    - rewrite Na', Nb' in Hd by lia. lia. }
  assert (Hmax : cexp (t * pow2 (ea + eb)) <= 970).
  { assert (M : mag (t * pow2 (ea + eb)) <= 1000).
    { destruct (mag_spec _ Hpos) as [M1 _].
      assert (A : mag (t * pow2 (ea + eb)) - 1 < 1000).
      { apply pow2_lt_inv. rewrite Hx in Hsmall. lra. }
      lia. }
    unfold cexp. rewrite fexp64_eq. lia. }
  pose proof (binary_round_aux_correct t (ea + eb) Ht Hex Hmax) as H.
  cbv zeta in H. unfold t in H. rewrite Qfloor_Z, loc_of_Z in H. fold t in H.
  destruct H as (H1 & H2 & H3).
  split; [ exact H1 | ]. split; [ exact H2 | ].
  rewrite H3. rewrite round64_pos by (apply Qmult_lt_0_compat; assumption).
  apply round_pos_eq; [ exact Hpos | symmetry; exact Hx ].
Qed.

(** The location the division computes from the remainder. *)
Lemma new_location_spec (m r : Z) (d : positive) :
  0 <= r < Zpos d -> m mod Zpos d = r ->
  loc_of (inject_Z m / inject_Z (Zpos d)) = new_location (Zpos d) r.
Proof.
  intros Hr Hm.
  assert (Hf : Qfloor (inject_Z m / inject_Z (Zpos d)) = m / Zpos d)
    by (symmetry; apply Zdiv_Qdiv).
  pose proof (Z.div_mod m (Zpos d) ltac:(lia)) as Hdm. rewrite Hm in Hdm.
  assert (Hfrac : (inject_Z m / inject_Z (Zpos d)
                   - inject_Z (m / Zpos d) == r # d)%Q).
  { rewrite (Qmake_Qdiv r d). rewrite Hdm at 1.
    rewrite inject_Z_plus, inject_Z_mult. field. discriminate. }
  unfold loc_of. rewrite Hf.
  rewrite (Qeqb_comp _ _ Hfrac 0%Q 0%Q (Qeq_refl 0)).
  rewrite (Qcompare_comp _ _ Hfrac (1 # 2) (1 # 2) (Qeq_refl _)).
  unfold new_location.
  destruct (Z.eq_dec r 0) as [ -> | Hne ].
  - destruct (Z.even (Zpos d)); reflexivity.
  - replace (Qeq_bool (r # d) 0) with false.
    2:{ symmetry. apply not_true_iff_false. intros H.
        apply Qeq_bool_iff in H. unfold Qeq in H. cbn in H. lia. }
    unfold Qcompare. cbn [Qnum Qden]. rewrite Z.mul_1_l.
    replace (r * 2) with (2 * r) by ring.
    destruct (Z.even (Zpos d)) eqn:Ev;
      unfold new_location_even, new_location_odd;
      replace (r =? 0) with false by (symmetry; apply Z.eqb_neq; exact Hne);
      [ reflexivity | ].
    f_equal.
    assert (Hodd : Z.odd (Zpos d) = true)
      by (rewrite <- Z.negb_even, Ev; reflexivity).
    apply Z.odd_spec in Hodd. destruct Hodd as [k Hk].
    destruct (Z.compare_spec (2 * r + 1) (Zpos d));
      destruct (Z.compare_spec (2 * r) (Zpos d)); try reflexivity; lia.
Qed.

Lemma div_eucl_div_mod (a b : Z) : Z.div_eucl a b = (a / b, a mod b).
Proof.
  unfold Z.div, Z.modulo. destruct (Z.div_eucl a b). reflexivity.
Qed.

(** [SFdiv] of a valid float that is not negative by a valid positive
    one rounds the quotient, as long as it is far from overflow. *)
Lemma SFdiv_correct (a b : spec_float) :
  nonneg a = true -> nonneg b = true ->
  valid64 a = true -> valid64 b = true ->
  (0 < B2Q b)%Q ->
  (B2Q a / B2Q b < pow2 1000)%Q ->
  let z := SFdiv 53 1024 a b in
  nonneg z = true /\ valid64 z = true
  /\ (B2Q z == round64 (B2Q a / B2Q b))%Q.
Proof.
  intros Na Nb Va Vb Hb Hsmall z.
  destruct b as [ sb | sb | | sb mb eb ]; try discriminate;
    try (cbn [B2Q] in Hb; lra).
  destruct sb; try discriminate.
  destruct a as [ sa | sa | | sa ma ea ]; try discriminate.
  { unfold z. cbn [SFdiv]. split; [ reflexivity | ].
    split; [ reflexivity | ]. cbn [B2Q].
    rewrite round64_zero; [ reflexivity | ]. unfold Qdiv. ring. }
  destruct sa; try discriminate.
  unfold z. cbn [SFdiv xorb]. unfold SFdiv_core_binary.
  change (SpecFloat.fexp 53 1024) with fexp64.
  set (d1 := Zdigits2 (Zpos ma)). set (d2 := Zdigits2 (Zpos mb)).
  set (e' := Z.min (fexp64 (d1 + ea - (d2 + eb))) (ea - eb)).
  set (s := ea - eb - e').
  assert (Hs : 0 <= s) by (unfold s, e'; lia).
  set (m' := match s with
             | 0 => Zpos ma
             | Zpos _ => Z.shiftl (Zpos ma) s
             | Zneg _ => 0
             end).
  assert (Hm' : m' = Zpos ma * 2 ^ s).
  { unfold m'. clearbody s. destruct s as [ | p | p ].
    - rewrite Z.pow_0_r, Z.mul_1_r. reflexivity.
    - apply Z.shiftl_mul_pow2. lia.
    - lia. }
  rewrite (div_eucl_div_mod m' (Zpos mb)).
  pose proof (Z.mod_pos_bound m' (Zpos mb) eq_refl) as Hr.
  set (t := (inject_Z m' / inject_Z (Zpos mb))%Q).
  assert (P2 : 0 < 2 ^ s) by (apply Z.pow_pos_nonneg; lia).
  assert (Hmpos : 0 < m') by (rewrite Hm'; lia).
  assert (Ht : (0 < t)%Q).
  { unfold t. apply Qlt_shift_div_l; [ reflexivity | ].
    rewrite Qmult_0_l. change 0%Q with (inject_Z 0). rewrite <- Zlt_Qlt. exact Hmpos. }
  pose proof (pow2_pos ea) as Pea. pose proof (pow2_pos eb) as Peb.
  pose proof (pow2_pos e') as Pe'.
  assert (Hx : (B2Q (S754_finite false ma ea) / B2Q (S754_finite false mb eb)
                == t * pow2 e')%Q).
  { cbn [B2Q]. unfold t. rewrite Hm', inject_Z_mult, <- (pow2_Z s) by exact Hs.
    replace ea with (s + e' + eb) at 1 by (unfold s; ring).
    rewrite !pow2_add. field.
    repeat split; try apply pow2_nonzero; discriminate. }
  pose proof (B2Q_finite_pos ma ea) as Pa.
  assert (Hpos : (0 < t * pow2 e')%Q) by (apply Qmult_lt_0_compat; assumption).
  destruct (valid_finite _ _ _ Va) as (Ca & Ba & La & Da & Na').
  destruct (valid_finite _ _ _ Vb) as (Cb & Bb & Lb & Db & Nb').
  assert (Hmag : d1 + ea - (d2 + eb) <= mag (t * pow2 e')).
  { destruct (mag_spec _ Hpos) as [_ M2].
    assert (A : d1 + ea - (d2 + eb) - 1 < mag (t * pow2 e')).
    { apply pow2_lt_inv. apply Qlt_trans with (t * pow2 e')%Q; [ | exact M2 ].
      rewrite <- Hx. cbn [B2Q].
      pose proof (Zdigits2_spec (Zpos ma) eq_refl) as [A1 _].
      pose proof (Zdigits2_spec (Zpos mb) eq_refl) as [_ B2].
      pose proof (Zdigits2_pos (Zpos ma) eq_refl) as Ap.
      pose proof (Zdigits2_pos (Zpos mb) eq_refl) as Bp.
      fold d1 in A1, Ap. fold d2 in B2, Bp.
      assert (A1' : (pow2 (d1 - 1) <= inject_Z (Zpos ma))%Q)
        by (rewrite pow2_Z by lia; rewrite <- Zle_Qle; exact A1).
      assert (B2' : (inject_Z (Zpos mb) < pow2 d2)%Q)
        by (rewrite pow2_Z by lia; rewrite <- Zlt_Qlt; exact B2).
      apply Qlt_shift_div_l.
      - apply Qmult_lt_0_compat; [ | exact Peb ]. reflexivity.
      - apply Qlt_le_trans with (pow2 (d1 + ea - (d2 + eb) - 1) * (pow2 d2 * pow2 eb))%Q.
        + apply Qmult_lt_l; [ apply pow2_pos | ].
          rewrite !Qmult_1_l. apply Qmult_lt_compat_r; assumption.
        + rewrite <- !pow2_add.
          replace (d1 + ea - (d2 + eb) - 1 + (d2 + eb)) with (d1 - 1 + ea) by ring.
          rewrite pow2_add, Qmult_1_l.
          apply Qmult_le_compat_r; [ exact A1' | lra ]. }
    lia. }
  assert (Hex : e' <= cexp (t * pow2 e')).
  { unfold cexp. eapply Z.le_trans; [ apply Z.le_min_l | ].
    apply fexp64_mono, Hmag. }
  assert (Hmax : cexp (t * pow2 e') <= 970).
  { assert (M : mag (t * pow2 e') <= 1000).
    { destruct (mag_spec _ Hpos) as [M1 _].
      assert (A : mag (t * pow2 e') - 1 < 1000).
      { apply pow2_lt_inv. rewrite Hx in Hsmall. lra. }
      lia. }
    unfold cexp. rewrite fexp64_eq. lia. }
  pose proof (binary_round_aux_correct t e' Ht Hex Hmax) as H.
  cbv zeta in H.
  assert (Hq : Qfloor t = m' / Zpos mb) by (symmetry; apply Zdiv_Qdiv).
  assert (Hl : loc_of t = new_location (Zpos mb) (m' mod Zpos mb))
    by (apply new_location_spec; [ exact Hr | reflexivity ]).
  rewrite Hq, Hl in H.
  destruct H as (H1 & H2 & H3).
  split; [ exact H1 | ]. split; [ exact H2 | ].
  rewrite H3. rewrite round64_pos.
  - apply round_pos_eq; [ exact Hpos | symmetry; exact Hx ].
  - rewrite Hx. exact Hpos.
Qed.

End Ops.

Import Ops.

Module Order.

(** Of two valid positive floats, the one with the smaller exponent is
    the smaller. *)
Lemma canonical_lt (ma mb : positive) (ea eb : Z) :
  valid64 (S754_finite false ma ea) = true ->
  valid64 (S754_finite false mb eb) = true ->
  ea < eb ->
  (B2Q (S754_finite false ma ea) < B2Q (S754_finite false mb eb))%Q.
Proof.
  intros Va Vb Hlt.
  destruct (valid_finite _ _ _ Va) as (Ca & Ba & La & Da & Na).
  destruct (valid_finite _ _ _ Vb) as (Cb & Bb & Lb & Db & Nb).
  pose proof (Zdigits2_spec (Zpos ma) eq_refl) as [_ A2].
  pose proof (Zdigits2_spec (Zpos mb) eq_refl) as [B1 _].
  rewrite Nb in B1 by lia.
  assert (A2' : Zpos ma < 2 ^ 53).
  { apply Z.lt_le_trans with (2 ^ Zdigits2 (Zpos ma)); [ exact A2 | ].
    apply Z.pow_le_mono_r; lia. }
  cbn [B2Q]. rewrite !Qmult_1_l.
  pose proof (pow2_pos ea) as Pa. pose proof (pow2_pos eb) as Pb.
  apply Qlt_le_trans with (inject_Z (2 ^ 53) * pow2 ea)%Q.
  - apply Qmult_lt_compat_r; [ exact Pa | ]. rewrite <- Zlt_Qlt. exact A2'.
  - apply Qle_trans with (inject_Z (2 ^ 52) * pow2 eb)%Q.
    + rewrite <- !pow2_Z, <- !pow2_add by lia. apply pow2_le. lia.
    + apply Qmult_le_compat_r; [ | lra ]. rewrite <- Zle_Qle. exact B1.
Qed.

Lemma same_exponent (ma mb : positive) (e : Z) :
  (B2Q (S754_finite false ma e) ?= B2Q (S754_finite false mb e))%Q
  = Pos.compare ma mb.
Proof.
  cbn [B2Q]. pose proof (pow2_pos e) as Pe.
  destruct (Pos.compare_spec ma mb) as [ -> | Hlt | Hgt ].
  - apply Qeq_alt. reflexivity.
  - apply Qlt_alt. rewrite !Qmult_1_l.
    apply Qmult_lt_compat_r; [ exact Pe | ]. rewrite <- Zlt_Qlt. lia.
  - apply Qgt_alt. rewrite !Qmult_1_l.
    apply Qmult_lt_compat_r; [ exact Pe | ]. rewrite <- Zlt_Qlt. lia.
Qed.

(** The comparison of the floats is the comparison of their values. *)
Lemma SFcompare_correct (a b : spec_float) :
  nonneg a = true -> nonneg b = true ->
  valid64 a = true -> valid64 b = true ->
  SFcompare a b = Some (B2Q a ?= B2Q b)%Q.
Proof.
  intros Na Nb Va Vb.
  destruct a as [ sa | sa | | sa ma ea ]; try discriminate;
    try (destruct sa; try discriminate);
    destruct b as [ sb | sb | | sb mb eb ]; try discriminate;
    try (destruct sb; try discriminate);
    cbn [SFcompare]; f_equal;
    try reflexivity;
    try (symmetry; apply Qlt_alt; apply (B2Q_finite_pos mb eb));
    try (symmetry; apply Qgt_alt; apply (B2Q_finite_pos ma ea)).
  destruct (Z.compare_spec ea eb) as [ -> | Hlt | Hgt ].
  - symmetry. apply same_exponent.
  - symmetry. apply Qlt_alt. apply canonical_lt; assumption.
  - symmetry. apply Qgt_alt. apply canonical_lt; assumption.
Qed.

Lemma SFltb_correct (a b : spec_float) :
  nonneg a = true -> nonneg b = true ->
  valid64 a = true -> valid64 b = true ->
  SFltb a b = negb (Qle_bool (B2Q b) (B2Q a)).
Proof.
  intros Na Nb Va Vb. unfold SFltb.
  rewrite (SFcompare_correct a b Na Nb Va Vb).
  destruct (Qcompare_spec (B2Q a) (B2Q b)) as [ E | L | G ].
  - symmetry. apply negb_false_iff, Qle_bool_iff. lra.
  - symmetry. apply negb_true_iff, not_true_iff_false.
    intros H. apply Qle_bool_iff in H. lra.
  - symmetry. apply negb_false_iff, Qle_bool_iff. lra.
Qed.

Lemma SFleb_correct (a b : spec_float) :
  nonneg a = true -> nonneg b = true ->
  valid64 a = true -> valid64 b = true ->
  SFleb a b = Qle_bool (B2Q a) (B2Q b).
Proof.
  intros Na Nb Va Vb. unfold SFleb.
  rewrite (SFcompare_correct a b Na Nb Va Vb).
  destruct (Qcompare_spec (B2Q a) (B2Q b)) as [ E | L | G ].
  - symmetry. apply Qle_bool_iff. lra.
  - symmetry. apply Qle_bool_iff. lra.
  - symmetry. apply not_true_iff_false.
    intros H. apply Qle_bool_iff in H. lra.
Qed.

End Order.

Module Exact.

(** A value with at most 53 bits above the least exponent is kept. *)
Lemma round_pos_exact (m : positive) (e : Z) :
  Zdigits2 (Zpos m) <= 53 -> -1074 <= e ->
  (round_pos (inject_Z (Zpos m) * pow2 e) == inject_Z (Zpos m) * pow2 e)%Q.
Proof.
  intros Hd He. set (x := (inject_Z (Zpos m) * pow2 e)%Q).
  assert (Hmag : mag x = Zdigits2 (Zpos m) + e).
  { unfold x. rewrite <- (Qfloor_Z (Zpos m)) at 2. apply mag_located.
    change 1%Q with (inject_Z 1). rewrite <- Zle_Qle. lia. }
  unfold round_pos. set (c := cexp x).
  assert (Hc : c <= e) by (unfold c, cexp; rewrite Hmag, fexp64_eq; lia).
  assert (Hs : (x / pow2 c == inject_Z (Zpos m * 2 ^ (e - c)))%Q).
  { unfold x. rewrite inject_Z_mult, <- pow2_Z, pow2_sub by lia.
    field. repeat split; apply pow2_nonzero. }
  rewrite (rne_int _ _ Hs).
  unfold x. rewrite inject_Z_mult, <- pow2_Z, pow2_sub by lia.
  field. repeat split; apply pow2_nonzero.
Qed.

Lemma round64_exact (f : spec_float) :
  nonneg f = true -> valid64 f = true -> (round64 (B2Q f) == B2Q f)%Q.
Proof.
  intros Nf Vf.
  destruct f as [ s | s | | s m e ]; try discriminate;
    try (cbn [B2Q]; rewrite round64_zero; reflexivity).
  destruct s; try discriminate.
  destruct (valid_finite _ _ _ Vf) as (C & B & L & D & N).
  rewrite round64_pos by apply B2Q_finite_pos.
  cbn [B2Q]. rewrite (round_pos_eq _ (inject_Z (Zpos m) * pow2 e)).
  - rewrite round_pos_exact by assumption. ring.
  - apply (B2Q_finite_pos m e).
  - ring.
Qed.

Lemma round64_opp (x : Q) : (round64 (- x) == - round64 x)%Q.
Proof.
  unfold round64.
  destruct (Qcompare_spec x 0) as [ E | L | G ],
           (Qcompare_spec (- x) 0) as [ E' | L' | G' ]; try lra.
  apply Qopp_comp, round_pos_eq; lra || ring.
Qed.

Lemma round64_eq (x y : Q) : (x == y)%Q -> (round64 x == round64 y)%Q.
Proof.
  intros H. apply Qle_antisym; apply round64_mono; rewrite H; apply Qle_refl.
Qed.

Lemma pos_digits_bound (p : positive) (k : Z) :
  0 <= k -> Zpos p < 2 ^ k -> Zdigits2 (Zpos p) <= k.
Proof.
  intros Hk Hp. pose proof (Zdigits2_spec (Zpos p) eq_refl) as [D1 _].
  pose proof (Zdigits2_pos (Zpos p) eq_refl) as Dp.
  assert (A : Zdigits2 (Zpos p) - 1 < k).
  { apply (Z.pow_lt_mono_r_iff 2); lia. }
  lia.
Qed.

(** Quotients of a 53-bit integer by a power of two stay as they are. *)
Lemma round64_dyadic (n k : Z) :
  - 2 ^ 53 < n < 2 ^ 53 -> 0 <= k <= 1074 ->
  (round64 (inject_Z n / inject_Z (2 ^ k))
   == inject_Z n / inject_Z (2 ^ k))%Q.
Proof.
  intros Hn Hk.
  assert (E : forall p : positive,
             (inject_Z (Zpos p) / inject_Z (2 ^ k)
              == inject_Z (Zpos p) * pow2 (- k))%Q).
  { intros p. rewrite <- pow2_Z by lia.
    replace (- k) with (0 - k) by ring. rewrite pow2_sub, pow2_0. field.
    apply pow2_nonzero. }
  assert (P : forall p : positive,
             Zpos p < 2 ^ 53 ->
             (round64 (inject_Z (Zpos p) / inject_Z (2 ^ k))
              == inject_Z (Zpos p) / inject_Z (2 ^ k))%Q).
  { intros p Hp. rewrite (round64_eq _ _ (E p)), E.
    rewrite round64_pos.
    - apply round_pos_exact; [ apply pos_digits_bound; lia | lia ].
    - pose proof (pow2_pos (- k)).
      apply Qmult_lt_0_compat; [ reflexivity | assumption ]. }
  destruct n as [ | p | p ].
  - rewrite round64_zero; [ | unfold Qdiv; ring ]. unfold Qdiv. ring.
  - apply P. lia.
  - assert (En : (inject_Z (Zneg p) / inject_Z (2 ^ k)
                  == - (inject_Z (Zpos p) / inject_Z (2 ^ k)))%Q).
    { change (Zneg p) with (- Zpos p). rewrite inject_Z_opp.
      unfold Qdiv. ring. }
    rewrite (round64_eq _ _ En), round64_opp, En, P by lia. reflexivity.
Qed.

End Exact.

Import Order Exact.

Module Convert.

Lemma iter_xO (d : positive) :
  forall m : positive, Zpos (Pos.iter xO m d) = Zpos m * 2 ^ Zpos d.
Proof.
  induction d as [ | d IH ] using Pos.peano_ind; intros m.
  - cbn. lia.
  - rewrite Pos.iter_succ, Pos2Z.inj_xO, IH, Pos2Z.inj_succ.
    rewrite Z.pow_succ_r by lia. ring.
Qed.

Lemma shl_align_spec (m : positive) (e e' : Z) :
  snd (shl_align m e e') = Z.min e e'
  /\ Zpos (fst (shl_align m e e'))
     = Zpos m * 2 ^ (e - snd (shl_align m e e')).
Proof.
  unfold shl_align. destruct (e' - e) as [ | d | d ] eqn:E; cbn [fst snd].
  - split; [ lia | ]. rewrite Z.sub_diag. lia.
  - split; [ lia | ]. rewrite Z.sub_diag. lia.
  - split; [ lia | ]. rewrite iter_xO. f_equal. f_equal. lia.
Qed.

(** The conversion of an integer of at most 53 bits is exact. *)
Lemma of_Z_correct (n : Z) :
  0 <= n < 2 ^ 53 ->
  nonneg (IEEE.of_Z n) = true /\ valid64 (IEEE.of_Z n) = true
  /\ (B2Q (IEEE.of_Z n) == inject_Z n)%Q.
Proof.
  intros Hn. destruct n as [ | m | m ]; try lia.
  { repeat split. }
  unfold IEEE.of_Z, binary_normalize, binary_round.
  change IEEE.prec with 53. change IEEE.emax with 1024.
  change (SpecFloat.fexp 53 1024) with fexp64.
  change (Zpos (digits2_pos m)) with (Zdigits2 (Zpos m)).
  pose proof (pos_digits_bound m 53 ltac:(lia) ltac:(lia)) as Hd.
  pose proof (Zdigits2_pos (Zpos m) eq_refl) as Dp.
  destruct (shl_align_spec m 0 (fexp64 (Zdigits2 (Zpos m) + 0))) as [He Hm].
  destruct (shl_align m 0 (fexp64 (Zdigits2 (Zpos m) + 0))) as [mz ez].
  cbn [fst snd] in He, Hm.
  rewrite Z.add_0_r, fexp64_eq in He.
  assert (Hez : -53 <= ez <= 0) by lia.
  set (t := inject_Z (Zpos mz)).
  assert (Ht : (0 < t)%Q) by reflexivity.
  assert (Hx : (t * pow2 ez == inject_Z (Zpos m) * pow2 0)%Q).
  { unfold t. rewrite Hm, inject_Z_mult, <- pow2_Z by lia.
    rewrite <- Qmult_assoc, <- !pow2_add. replace (0 - ez + ez) with 0 by ring.
    reflexivity. }
  assert (Hpos : (0 < t * pow2 ez)%Q).
  { pose proof (pow2_pos ez). apply Qmult_lt_0_compat; assumption. }
  assert (Hmag : mag (t * pow2 ez) = Zdigits2 (Zpos m)).
  { rewrite (mag_eq _ _ Hpos Hx).
    rewrite <- (Qfloor_Z (Zpos m)) at 2. rewrite mag_located; [ lia | ].
    change 1%Q with (inject_Z 1). rewrite <- Zle_Qle. lia. }
  assert (Hex : ez <= cexp (t * pow2 ez))
    by (unfold cexp; rewrite Hmag, fexp64_eq; lia).
  assert (Hmax : cexp (t * pow2 ez) <= 970)
    by (unfold cexp; rewrite Hmag, fexp64_eq; lia).
  pose proof (binary_round_aux_correct t ez Ht Hex Hmax) as H.
  cbv zeta in H. unfold t in H. rewrite Qfloor_Z, loc_of_Z in H. fold t in H.
  destruct H as (H1 & H2 & H3).
  split; [ exact H1 | ]. split; [ exact H2 | ].
  rewrite H3, (round_pos_eq _ _ Hpos Hx), round_pos_exact by lia.
  rewrite pow2_0. ring.
Qed.

(** The truncation of a float that is not negative is the truncation of
    its value. *)
Lemma to_Z_correct (f : spec_float) :
  nonneg f = true -> IEEE.to_Z f = Rounded.to_Z (B2Q f).
Proof.
  intros Nf. pose proof (B2Q_nonneg f Nf) as Hf.
  unfold Rounded.to_Z. rewrite (CounterProgress.Qtrunc_floor _ Hf).
  destruct f as [ s | s | | s m e ]; try discriminate.
  - reflexivity.
  - destruct s; try discriminate. unfold IEEE.to_Z. cbn [cond_Zopp].
    match goal with
    | |- (if CInt.in_int ?a then _ else _) = (if CInt.in_int ?b then _ else _)
      => replace b with a; [ reflexivity | ]
    end.
    cbn [B2Q]. destruct e as [ | p | p ].
    + rewrite Z.shiftl_0_r. symmetry.
      rewrite (Qfloor_comp _ (inject_Z (Zpos m))); [ apply Qfloor_Z | ].
      rewrite pow2_0. ring.
    + rewrite Z.shiftl_mul_pow2 by lia. symmetry.
      rewrite (Qfloor_comp _ (inject_Z (Zpos m * 2 ^ Zpos p)));
        [ apply Qfloor_Z | ].
      rewrite inject_Z_mult, <- pow2_Z by lia. ring.
    + rewrite Z.shiftr_div_pow2 by lia. rewrite Zdiv_Qdiv.
      apply Qfloor_comp. rewrite <- pow2_Z by lia.
      change (Zneg p) with (0 - Zpos p). rewrite pow2_sub, pow2_0. field.
      apply pow2_nonzero.
Qed.

End Convert.

Import Convert.

Module Binary64.

(** Round-to-nearest-even of binary64 is a rounding the model accepts. *)
Lemma round64_valid : Rounded.valid_rounding round64.
Proof.
  split.
  - apply round64_mono.
  - intros n k Hn Hk. apply round64_dyadic; [ | lia ].
    unfold CInt.in_int, CInt.int_min, CInt.int_max in Hn.
    apply andb_prop in Hn. destruct Hn as [H1 H2].
    apply Z.leb_le in H1, H2. lia.
Qed.

Lemma fzero_value : (fzero : spec_float) = S754_zero false.
Proof. vm_compute. reflexivity. Qed.

Lemma fone_value :
  (fone : spec_float) = S754_finite false 4503599627370496 (-52).
Proof. vm_compute. reflexivity. Qed.

Lemma kStepAfterDeflection_binary64 :
  (kStepAfterDeflection : spec_float)
  = S754_finite false 7881299347898368 (-53).
Proof. vm_compute. reflexivity. Qed.

Lemma fone_B2Q : (B2Q (S754_finite false 4503599627370496 (-52)) == 1)%Q.
Proof. vm_compute. reflexivity. Qed.

Lemma kStepAfterDeflection_B2Q :
  (B2Q (S754_finite false 7881299347898368 (-53)) == 7 # 8)%Q.
Proof. vm_compute. reflexivity. Qed.

(** A float of the unit range is a zero or a positive finite float. *)
Lemma in_unit_range_nonneg (v : IEEE.float64) :
  IEEE.in_unit_range v = true -> nonneg v = true.
Proof.
  unfold IEEE.in_unit_range. rewrite fzero_value, fone_value.
  destruct v as [ s | s | | s m e ]; try destruct s; try reflexivity;
    intros H; apply andb_prop in H; destruct H as [H1 H2];
    try discriminate H1; try discriminate H2.
Qed.

Lemma in_unit_range_value (v : IEEE.float64) :
  IEEE.in_unit_range v = true -> valid64 v = true -> (0 <= B2Q v <= 1)%Q.
Proof.
  intros Hr Hv. pose proof (in_unit_range_nonneg v Hr) as Nv.
  split; [ apply B2Q_nonneg, Nv | ].
  unfold IEEE.in_unit_range in Hr. apply andb_prop in Hr. destruct Hr as [_ H].
  rewrite fone_value, SFleb_correct in H by (reflexivity || assumption).
  apply Qle_bool_iff in H. rewrite fone_B2Q in H. exact H.
Qed.

(** Adding to the float of [0] leaves a float that is not negative as it
    is. *)
Lemma SFadd_zero (m : spec_float) :
  nonneg m = true -> B2Q (SFadd 53 1024 (S754_zero false) m) = B2Q m.
Proof.
  destruct m as [ s | s | | s m e ]; try discriminate; intros _.
  - destruct s; reflexivity.
  - reflexivity.
Qed.

(** [std::clamp] to the unit range, on floats and on their values. *)
Lemma clamp_unit (q : spec_float) :
  nonneg q = true -> valid64 q = true ->
  let p := clamp SFltb q (fzero : spec_float) (fone : spec_float) in
  nonneg p = true /\ valid64 p = true
  /\ (B2Q p == clamp Rounded.Qltb (B2Q q) (round64 0) (round64 1))%Q.
Proof.
  intros Nq Vq. rewrite fzero_value, fone_value. unfold clamp.
  rewrite !SFltb_correct by (reflexivity || assumption).
  fold (Rounded.Qltb (B2Q q) (B2Q (S754_zero false))).
  fold (Rounded.Qltb (B2Q (S754_finite false 4503599627370496 (-52))) (B2Q q)).
  assert (H0 : (round64 0 == B2Q (S754_zero false))%Q)
    by (rewrite round64_zero; reflexivity).
  assert (H1 : (round64 1 == B2Q (S754_finite false 4503599627370496 (-52)))%Q).
  { rewrite <- (round64_exact (S754_finite false 4503599627370496 (-52)))
      by reflexivity.
    apply round64_eq. symmetry. apply fone_B2Q. }
  destruct (Rounded.Qltb (B2Q q) (B2Q (S754_zero false))) eqn:E0;
    destruct (Rounded.Qltb (B2Q q) (round64 0)) eqn:F0.
  - split; [ | split ]; try reflexivity; symmetry; exact H0.
  - apply CounterProgress.Qltb_true in E0.
    apply CounterProgress.Qltb_false in F0. rewrite H0 in F0.
    exfalso. apply (Qlt_not_le _ _ E0 F0).
  - apply CounterProgress.Qltb_false in E0.
    apply CounterProgress.Qltb_true in F0. rewrite H0 in F0.
    exfalso. apply (Qlt_not_le _ _ F0 E0).
  - destruct (Rounded.Qltb (B2Q (S754_finite false 4503599627370496 (-52)))
                (B2Q q)) eqn:E1;
      destruct (Rounded.Qltb (round64 1) (B2Q q)) eqn:F1.
    + split; [ | split ]; try reflexivity; symmetry; exact H1.
    + apply CounterProgress.Qltb_true in E1.
      apply CounterProgress.Qltb_false in F1. rewrite H1 in F1.
      exfalso. apply (Qlt_not_le _ _ E1 F1).
    + apply CounterProgress.Qltb_false in E1.
      apply CounterProgress.Qltb_true in F1. rewrite H1 in F1.
      exfalso. apply (Qlt_not_le _ _ F1 E1).
    + split; [ | split ]; try assumption. reflexivity.
Qed.

Lemma to_Z_eq (x y : Q) : (x == y)%Q -> (0 <= x)%Q ->
  Rounded.to_Z x = Rounded.to_Z y.
Proof.
  intros E Hx. unfold Rounded.to_Z.
  rewrite !CounterProgress.Qtrunc_floor by (rewrite <- ?E; exact Hx).
  rewrite (Qfloor_comp _ _ E). reflexivity.
Qed.

End Binary64.

Import Binary64.

Module Simulation.

Lemma SFadd_zero_nonneg (m : spec_float) :
  nonneg m = true -> nonneg (SFadd 53 1024 (S754_zero false) m) = true.
Proof.
  destruct m as [ s | s | | s m e ]; try discriminate; intros H.
  - destruct s; reflexivity.
  - exact H.
Qed.

Lemma clamp_Q_eq (x y lo hi : Q) :
  (lo <= hi)%Q -> (x == y)%Q ->
  (clamp Rounded.Qltb x lo hi == clamp Rounded.Qltb y lo hi)%Q.
Proof.
  intros Hle E.
  apply Qle_antisym; apply CounterProgress.clamp_Q_mono;
    try exact Hle; rewrite E; apply Qle_refl.
Qed.

Lemma small_lt_pow2 (x : Q) : (x <= inject_Z (2 ^ 31))%Q -> (x < pow2 1000)%Q.
Proof.
  intros H. apply (Qle_lt_trans _ _ _ H).
  rewrite <- pow2_Z by lia. apply pow2_lt. lia.
Qed.

(** The counter of the callback on binary64 is the one of the model that
    rounds to nearest even. *)
Lemma counterAt_binary64 (bw : BubbleWidget IEEE.float64) (v : IEEE.float64) :
  nonneg (_stepAfterDeflection bw) = true ->
  valid64 (_stepAfterDeflection bw) = true ->
  (1 # 2 <= B2Q (_stepAfterDeflection bw))%Q ->
  0 <= _currentCounter bw <= CInt.int_max ->
  IEEE.in_unit_range v = true -> valid64 v = true ->
  counterAt bw v
  = Rounded.to_Z (Rounded.scaled round64 (B2Q (_stepAfterDeflection bw))
                    (B2Q v) (_currentCounter bw)).
Proof.
  intros Ns Vs Hs Hc Hr Vv.
  pose proof (in_unit_range_nonneg v Hr) as Nv.
  pose proof (in_unit_range_value v Hr Vv) as [Hv0 Hv1].
  unfold counterAt. cbn [fdiv fmul fadd of_int trunc_int flt IEEE.binary64].
  change IEEE.prec with 53. change IEEE.emax with 1024.
  set (step := _stepAfterDeflection bw) in *.
  set (cur := _currentCounter bw) in *.
  unfold CInt.int_max in Hc.
  assert (Hq : (B2Q v / B2Q step <= 2)%Q).
  { apply Qle_shift_div_r; lra. }
  destruct (SFdiv_correct v step Nv Ns Vv Vs ltac:(lra)) as (Nq & Vq & Eq).
  { apply small_lt_pow2. apply (Qle_trans _ _ _ Hq).
    change 2%Q with (inject_Z 2). rewrite <- Zle_Qle. lia. }
  destruct (clamp_unit _ Nq Vq) as (Np & Vp & Ep).
  change (@fzero spec_float IEEE.binary64)
    with (@fzero IEEE.float64 IEEE.binary64) in *.
  change (@fone spec_float IEEE.binary64)
    with (@fone IEEE.float64 IEEE.binary64) in *.
  set (p := clamp SFltb (SFdiv 53 1024 v step) fzero fone) in *.
  assert (Ep' : (B2Q p == Rounded.progress round64 (B2Q step) (B2Q v))%Q).
  { apply (Qeq_trans _ _ _ Ep).
    unfold Rounded.progress. apply clamp_Q_eq; [ | exact Eq ].
    apply round64_mono. discriminate. }
  pose proof (CounterProgress.progress_between round64 round64_valid
                (B2Q step) (B2Q v)) as [Hp0 Hp1].
  destruct (of_Z_correct cur ltac:(lia)) as (Nc & Vc & Ec).
  assert (Hc0 : (0 <= inject_Z cur)%Q)
    by (change 0%Q with (inject_Z 0); rewrite <- Zle_Qle; lia).
  assert (Hc1 : (inject_Z cur <= inject_Z (2 ^ 31))%Q)
    by (rewrite <- Zle_Qle; lia).
  assert (Hpc : (B2Q p * B2Q (IEEE.of_Z cur) <= inject_Z (2 ^ 31))%Q).
  { rewrite Ec, Ep'. apply (Qle_trans _ (1 * inject_Z cur)); [ | lra ].
    apply Qmult_le_compat_r; assumption. }
  destruct (SFmul_correct p (IEEE.of_Z cur) Np Nc Vp Vc (small_lt_pow2 _ Hpc))
    as (Nm & Vm & Em).
  set (m := SFmul 53 1024 p (IEEE.of_Z cur)) in *.
  change (IEEE.of_Z 0) with (S754_zero false).
  rewrite to_Z_correct by (apply SFadd_zero_nonneg, Nm).
  rewrite SFadd_zero by exact Nm.
  apply to_Z_eq; [ | apply B2Q_nonneg, Nm ].
  unfold Rounded.scaled.
  assert (Ecur : (round64 (inject_Z cur) == inject_Z cur)%Q).
  { apply (CounterProgress.rnd_int round64 round64_valid).
    unfold CInt.in_int, CInt.int_min, CInt.int_max.
    apply andb_true_intro. split; apply Z.leb_le; lia. }
  assert (Ex : (round64 (Rounded.progress round64 (B2Q step) (B2Q v)
                         * round64 (inject_Z cur)) == B2Q m)%Q).
  { rewrite Em. apply round64_eq. rewrite Ecur, Ep', Ec. reflexivity. }
  apply (Qeq_trans _ (round64 (B2Q m)));
    [ symmetry; apply round64_exact; assumption | ].
  apply round64_eq.
  apply (Qeq_trans _ (0 + B2Q m)); [ ring | ].
  apply Qplus_comp; [ reflexivity | symmetry; exact Ex ].
Qed.

End Simulation.

Import Simulation.

Module Steps.

(** The two values [_stepAfterDeflection] takes. *)
Lemma step_facts (s : IEEE.float64) :
  s = kStepAfterDeflection \/ s = fone ->
  nonneg s = true /\ valid64 s = true
  /\ (1 # 2 <= B2Q s)%Q /\ (0 < B2Q s)%Q /\ (B2Q s <= 1)%Q.
Proof.
  intros [ -> | -> ].
  - change (@kStepAfterDeflection IEEE.float64 IEEE.binary64)
      with (@kStepAfterDeflection spec_float IEEE.binary64).
    rewrite kStepAfterDeflection_binary64, kStepAfterDeflection_B2Q.
    repeat split; discriminate.
  - change (@fone IEEE.float64 IEEE.binary64)
      with (@fone spec_float IEEE.binary64).
    rewrite fone_value, fone_B2Q. repeat split; discriminate.
Qed.

Lemma fone_in_unit_range : IEEE.in_unit_range fone = true.
Proof. vm_compute. reflexivity. Qed.

Lemma fone_valid : valid64 (fone : spec_float) = true.
Proof. vm_compute. reflexivity. Qed.

End Steps.



(** ** The appearance animation and the paint guards *)

Module Appearance.

Section Traces.

Context {F : Type} `{Float64 F} (st : Style).

Lemma run_app (evs1 evs2 : list (Event F)) :
  forall bw : BubbleWidget F,
    run st (evs1 ++ evs2) bw
    = let '(bw1, ops1) := run st evs1 bw in
      let '(bw2, ops2) := run st evs2 bw1 in
      (bw2, ops1 ++ ops2).
Proof.
  induction evs1 as [ | ev evs1 IH ]; intros bw; cbn [run app].
  - destruct (run st evs2 bw). reflexivity.
  - destruct (handle st ev bw) as [bw1 ops1]. rewrite IH.
    destruct (run st evs1 bw1) as [bw2 ops2].
    destruct (run st evs2 bw2) as [bw3 ops3].
    rewrite app_assoc. reflexivity.
Qed.

Lemma run_app_fst (evs1 evs2 : list (Event F)) (bw : BubbleWidget F) :
  fst (run st (evs1 ++ evs2) bw) = fst (run st evs2 (fst (run st evs1 bw))).
Proof.
  rewrite run_app. destruct (run st evs1 bw) as [bw1 ops1]. cbn [fst].
  destruct (run st evs2 bw1). reflexivity.
Qed.

(** Events other than [showFinishes] leave the subscription and the
    number of starts alone. *)
Lemma handle_other (ev : Event F) (bw : BubbleWidget F) :
  is_ShowFinished ev = false ->
  w_showFinishesLeft (fst (handle st ev bw)) = w_showFinishesLeft bw
  /\ w_animationStarts (fst (handle st ev bw)) = w_animationStarts bw.
Proof.
  destruct ev as [ | v | | ]; cbn [is_ShowFinished handle fst];
    [ discriminate | | | ]; intros _.
  - unfold onAnimationTick. destruct (_appearanceAnimation bw); auto.
  - unfold onAnimationFinished. destruct (_appearanceAnimation bw); auto.
  - unfold paintEvent. destruct (counter (_bubble bw) <=? 0); [ auto | ].
    destruct (_appearanceAnimation bw); auto.
Qed.

Lemma run_other (evs : list (Event F)) :
  forall bw : BubbleWidget F,
    Forall (fun ev => is_ShowFinished ev = false) evs ->
    w_showFinishesLeft (fst (run st evs bw)) = w_showFinishesLeft bw
    /\ w_animationStarts (fst (run st evs bw)) = w_animationStarts bw.
Proof.
  induction evs as [ | ev evs IH ]; intros bw Hevs; [ auto | ].
  inversion Hevs as [ | ? ? Hev Hrest ]; subst. cbn [run].
  destruct (handle_other ev bw Hev) as [H1 H2].
  destruct (handle st ev bw) as [bw1 ops1]. cbn [fst] in H1, H2.
  destruct (IH bw1 Hrest) as [H3 H4].
  destruct (run st evs bw1) as [bw2 ops2]. cbn [fst] in *.
  split; congruence.
Qed.

(** Once the subscription is used up, nothing starts the animation. *)
Lemma handle_used_up (ev : Event F) (bw : BubbleWidget F) :
  w_showFinishesLeft bw = O ->
  w_showFinishesLeft (fst (handle st ev bw)) = O
  /\ w_animationStarts (fst (handle st ev bw)) = w_animationStarts bw.
Proof.
  intros Hleft. destruct (is_ShowFinished ev) eqn:E.
  - destruct ev; try discriminate. cbn [handle fst].
    unfold onShowFinishes. rewrite Hleft. auto.
  - destruct (handle_other ev bw E) as [-> ->]. auto.
Qed.

Lemma run_used_up (evs : list (Event F)) :
  forall bw : BubbleWidget F,
    w_showFinishesLeft bw = O ->
    w_animationStarts (fst (run st evs bw)) = w_animationStarts bw.
Proof.
  induction evs as [ | ev evs IH ]; intros bw Hleft; [ reflexivity | ].
  cbn [run]. destruct (handle_used_up ev bw Hleft) as [H1 H2].
  destruct (handle st ev bw) as [bw1 ops1]. cbn [fst] in H1, H2.
  specialize (IH bw1 H1).
  destruct (run st evs bw1) as [bw2 ops2]. cbn [fst] in *. congruence.
Qed.

(** The two guards. *)
Lemma paintBubble_negative (b : Bubble F) (r : QRect) (brush : QBrush) :
  _counter b < 0 -> paintBubble st b r brush = [].
Proof.
  intros Hb. unfold paintBubble.
  destruct (_counter b <? 0) eqn:E; [ reflexivity | ].
  apply Z.ltb_ge in E. lia.
Qed.

Lemma paintEvent_not_positive (bw : BubbleWidget F) :
  counter (_bubble bw) <= 0 -> paintEvent st bw = (bw, []).
Proof.
  intros Hbw. unfold paintEvent.
  destruct (counter (_bubble bw) <=? 0) eqn:E; [ reflexivity | ].
  apply Z.leb_gt in E. lia.
Qed.

(** With a positive counter the widget does paint. *)
Lemma paintEvent_positive (bw : BubbleWidget F) :
  0 < counter (_bubble bw) -> snd (paintEvent st bw) <> [].
Proof.
  intros Hbw. unfold paintEvent.
  destruct (counter (_bubble bw) <=? 0) eqn:E; [ apply Z.leb_le in E; lia | ].
  assert (Hp : forall bw' : BubbleWidget F,
             _bubble bw' = _bubble bw ->
             forall r brush, paintBubble st (_bubble bw') r brush <> []).
  { intros bw' -> r brush. unfold paintBubble. unfold counter in Hbw.
    destruct (_counter (_bubble bw) <? 0) eqn:E'; [ apply Z.ltb_lt in E'; lia | ].
    discriminate. }
  destruct (_appearanceAnimation bw); cbn [snd]; intros Habs;
    apply app_eq_nil in Habs; destruct Habs as [_ Habs];
    revert Habs; apply Hp; reflexivity.
Qed.

Lemma handle_paints (ev : Event F) (bw : BubbleWidget F) :
  snd (handle st ev bw) <> [] ->
  ev = Paint /\ 0 < counter (_bubble bw).
Proof.
  destruct ev as [ | v | | ]; cbn [handle snd]; try congruence.
  intros Hops. split; [ reflexivity | ].
  destruct (Z.leb_spec (counter (_bubble bw)) 0) as [Hle | Hgt]; [ | exact Hgt ].
  rewrite (paintEvent_not_positive bw Hle) in Hops. cbn in Hops. congruence.
Qed.

Lemma run_paints (evs : list (Event F)) :
  forall bw : BubbleWidget F,
    snd (run st evs bw) = []
    \/ exists pre post,
         evs = pre ++ Paint :: post
         /\ 0 < counter (_bubble (fst (run st pre bw))).
Proof.
  induction evs as [ | ev evs IH ]; intros bw; [ left; reflexivity | ].
  cbn [run]. pose proof (handle_paints ev bw) as Hh.
  destruct (handle st ev bw) as [bw1 ops1] eqn:E1. cbn [snd] in Hh.
  specialize (IH bw1).
  destruct (run st evs bw1) as [bw2 ops2] eqn:E2. cbn [snd] in *.
  destruct ops1 as [ | op ops1 ].
  - destruct IH as [ -> | (pre & post & -> & Hpos) ]; [ left; reflexivity | ].
    right. exists (ev :: pre), post. split; [ reflexivity | ].
    cbn [run]. rewrite E1. destruct (run st pre bw1). exact Hpos.
  - right. destruct Hh as [-> Hpos]; [ discriminate | ].
    exists [], evs. split; [ reflexivity | exact Hpos ].
Qed.

End Traces.

End Appearance.

(** C7.  The appearance animation of a [BubbleWidget] is not started by
    any event before the first one on [showFinishes]; that event starts it,
    running from [0.] to [1.]; no later event starts it again. *)
Theorem appearance_starts_once
    {F : Type} `{Float64 F}
    (st : Style) (parent : Content) (textFactory : Z -> string)
    (current maxCounter : Z) (premiumPossible : bool) (icon : Icon)
    (pre post : list (Event F))
    (Hpre : Forall (fun ev => is_ShowFinished ev = false) pre) :
  let bw0 := BubbleWidget_new st parent textFactory current maxCounter
               premiumPossible icon in
  let before := fst (run st pre bw0) in
  let started := fst (run st (pre ++ [ ShowFinished ]) bw0) in
  let later := fst (run st (pre ++ ShowFinished :: post) bw0) in
  w_animationStarts before = O
  /\ w_animationStarts started = 1%nat
  /\ (exists a, _appearanceAnimation started = Some a
                /\ anim_from a = fzero /\ anim_to a = fone)
  /\ w_animationStarts later = 1%nat.
Proof.
  intros bw0 before started later.
  destruct (Appearance.run_other st pre bw0 Hpre) as [Hleft Hstarts].
  fold before in Hleft, Hstarts.
  change (w_showFinishesLeft bw0) with 1%nat in Hleft.
  change (w_animationStarts bw0) with O in Hstarts.
  assert (Hs : started = onShowFinishes st before).
  { unfold started. rewrite Appearance.run_app_fst. reflexivity. }
  assert (Hs1 : w_animationStarts started = 1%nat
                /\ w_showFinishesLeft started = O
                /\ exists a, _appearanceAnimation started = Some a
                             /\ anim_from a = fzero /\ anim_to a = fone).
  { rewrite Hs. unfold onShowFinishes. rewrite Hleft. cbn.
    rewrite Hstarts. repeat split. eexists. repeat split. }
  destruct Hs1 as (Hn & Hl & Ha).
  repeat split; try assumption.
  unfold later.
  change (pre ++ ShowFinished :: post) with (pre ++ [ ShowFinished ] ++ post).
  rewrite app_assoc, Appearance.run_app_fst. fold started.
  rewrite (Appearance.run_used_up st post started Hl). exact Hn.
Qed.

Lemma appearance_starts_once_witness :
  let bw0 := Sample.bubbleWidget 57 100 in
  let pre := [ Paint; AnimationTick (flit (1 # 2)) ] in
  let post := [ AnimationTick (flit (1 # 2)); ShowFinished; Paint;
                AnimationFinished; ShowFinished ] in
  w_animationStarts (fst (run Sample.style pre bw0)) = O
  /\ w_animationStarts
       (fst (run Sample.style (pre ++ [ ShowFinished ]) bw0)) = 1%nat
  /\ (exists a,
        _appearanceAnimation
          (fst (run Sample.style (pre ++ [ ShowFinished ]) bw0)) = Some a
        /\ anim_from a = fzero /\ anim_to a = fone)
  /\ w_animationStarts
       (fst (run Sample.style (pre ++ ShowFinished :: post) bw0)) = 1%nat.
Proof.
  apply (appearance_starts_once Sample.style Sample.parent QString_number
           57 100 true Sample.icon).
  repeat constructor.
Defined.

(** C8.  [Bubble::paintBubble] paints nothing while the counter is
    negative, and the counter starts at [-1]; [BubbleWidget::paintEvent]
    paints nothing while the counter is at most [0]; so whenever a run of
    the widget has painted anything, a paint event found the counter
    positive. *)
Theorem not_painted_before_positive
    {F : Type} `{Float64 F}
    (st : Style) (parent : Content) (textFactory : Z -> string)
    (current maxCounter : Z) (premiumPossible : bool) (icon : Icon)
    (evs : list (Event F))
    (b : Bubble F) (r : QRect) (brush : QBrush) (bw : BubbleWidget F)
    (Hb : _counter b < 0)
    (Hbw : counter (_bubble bw) <= 0) :
  let bw0 := BubbleWidget_new st parent textFactory current maxCounter
               premiumPossible icon in
  _counter (Bubble_new (F := F) st textFactory icon premiumPossible) = -1
  /\ paintBubble st b r brush = []
  /\ paintEvent st bw = (bw, [])
  /\ (snd (run st evs bw0) = []
      \/ exists pre post,
           evs = pre ++ Paint :: post
           /\ 0 < counter (_bubble (fst (run st pre bw0)))).
Proof.
  intros bw0. split; [ reflexivity | ].
  split; [ apply Appearance.paintBubble_negative, Hb | ].
  split; [ apply Appearance.paintEvent_not_positive, Hbw | ].
  apply Appearance.run_paints.
Qed.

Lemma not_painted_before_positive_witness :
  let bw0 := Sample.bubbleWidget 57 100 in
  let evs := [ Paint; ShowFinished; Paint; AnimationTick fzero; Paint ] in
  _counter Sample.bubble = -1
  /\ paintBubble Sample.style Sample.bubble
       {| r_x := 0; r_y := 0; r_width := 64; r_height := 47 |} NoBrush = []
  /\ paintEvent Sample.style bw0 = (bw0, [])
  /\ (snd (run Sample.style evs bw0) = []
      \/ exists pre post,
           evs = pre ++ Paint :: post
           /\ 0 < counter (_bubble (fst (run Sample.style pre bw0)))).
Proof.
  apply (not_painted_before_positive Sample.style Sample.parent
           QString_number 57 100 true Sample.icon).
  - reflexivity.
  - vm_compute. discriminate.
Defined.

(** ** The two halves of a line *)

Module Halves.

Section LineFacts.

Context (st : Style).

Lemma not_empty (s : QSize) :
  QSize_isEmpty s = false <-> 0 < sz_width s /\ 0 < sz_height s.
Proof.
  unfold QSize_isEmpty. rewrite orb_false_iff, !Z.leb_gt. reflexivity.
Qed.

(** A size event with a size that is not empty. *)
Lemma onSizeValue_not_empty (s : QSize) (l : Line) :
  QSize_isEmpty s = false ->
  onSizeValue st s l
  = Line_update
      (recache st s
         (with_widths (Z.quot (sz_width s) 2)
                      (sz_width s - Z.quot (sz_width s) 2) l)).
Proof. intros Hs. unfold onSizeValue. rewrite Hs. reflexivity. Qed.

(** A size event with an empty size changes nothing. *)
Lemma onSizeValue_empty (s : QSize) (l : Line) :
  QSize_isEmpty s = true -> onSizeValue st s l = l.
Proof. intros Hs. unfold onSizeValue. rewrite Hs. reflexivity. Qed.

Lemma half_width (w : Z) : 0 < w -> Z.quot w 2 = w / 2.
Proof. intros Hw. apply Z.quot_div_nonneg; lia. Qed.

Lemma resize_keeps_override (s : QSize) (l : Line) :
  _overrideBrush (Line_resize st s l) = _overrideBrush l.
Proof.
  unfold Line_resize, onSizeValue.
  destruct (QSize_isEmpty s); reflexivity.
Qed.

(** A resize to a size that is not empty, in full. *)
Lemma Line_resize_not_empty (s : QSize) (l : Line) :
  QSize_isEmpty s = false ->
  Line_resize st s l
  = Line_update
      (recache st s
         (with_widths (sz_width s / 2) (sz_width s - sz_width s / 2)
                      (with_size s l))).
Proof.
  intros Hs. unfold Line_resize. rewrite (onSizeValue_not_empty s _ Hs).
  rewrite half_width; [ reflexivity | ].
  apply not_empty in Hs. tauto.
Qed.

End LineFacts.

End Halves.

(** C4, as amended.  When a [Line] is resized to a size that is not empty,
    both cached pixmaps are painted anew by [recache] for the new size,
    whatever they held before, and a repaint is requested.  A resize to an
    empty size leaves the pixmaps and the widths as they were. *)
Theorem line_resize_recaches
    (st : Style) (l : Line) (s : QSize)
    (Hs : QSize_isEmpty s = false) :
  let l' := Line_resize st s l in
  let half := sz_width s / 2 in
  let leftPixmap := recacheLeft st half s in
  l' = Line_update
         (recache st s (with_widths half (sz_width s - half)
                          (with_size s l)))
  /\ _leftPixmap l' = leftPixmap
  /\ _rightPixmap l'
     = recacheRight st (with_widths half (sz_width s - half) (with_size s l))
         leftPixmap s
  /\ pm_size (_leftPixmap l')
     = {| sz_width := half * DevicePixelRatio st;
          sz_height := sz_height s * DevicePixelRatio st |}
  /\ pm_size (_rightPixmap l') = pm_size (_leftPixmap l')
  /\ l_updates l' = S (l_updates l)
  /\ (forall e : QSize,
        QSize_isEmpty e = true ->
        Line_resize st e l' = with_size e l').
Proof.
  intros l' half leftPixmap.
  pose proof (Halves.Line_resize_not_empty st s l Hs) as Hl.
  fold l' half in Hl.
  split; [ exact Hl | ]. rewrite Hl.
  repeat split.
  intros e He. unfold Line_resize.
  apply Halves.onSizeValue_empty. exact He.
Qed.

Lemma line_resize_recaches_witness :
  let l := Line_new Sample.style 364 320 "100" "50" in
  let s := {| sz_width := 301; sz_height := 32 |} in
  let l' := Line_resize Sample.style s l in
  let leftPixmap := recacheLeft Sample.style 150 s in
  l' = Line_update
         (recache Sample.style s (with_widths 150 151 (with_size s l)))
  /\ _leftPixmap l' = leftPixmap
  /\ _rightPixmap l'
     = recacheRight Sample.style (with_widths 150 151 (with_size s l))
         leftPixmap s
  /\ pm_size (_leftPixmap l') = {| sz_width := 150; sz_height := 32 |}
  /\ pm_size (_rightPixmap l') = pm_size (_leftPixmap l')
  /\ l_updates l' = S (l_updates l)
  /\ (forall e : QSize,
        QSize_isEmpty e = true ->
        Line_resize Sample.style e l' = with_size e l').
Proof.
  apply (line_resize_recaches Sample.style
           (Line_new Sample.style 364 320 "100" "50")
           {| sz_width := 301; sz_height := 32 |}).
  reflexivity.
Defined.

(** C4 as stated fails on a resize to an empty size: the handler returns
    at once, both pixmaps still hold what was painted for the old size and
    no repaint is requested. *)
Lemma line_resize_empty_counterexample :
  let l := Line_new Sample.style 364 320 "100" "50" in
  let s := {| sz_width := 0; sz_height := 32 |} in
  let l' := Line_resize Sample.style s l in
  l_size l' = s
  /\ _leftPixmap l' = _leftPixmap l
  /\ _rightPixmap l' = _rightPixmap l
  /\ pm_size (_leftPixmap l') = {| sz_width := 160; sz_height := 32 |}
  /\ _leftPixmap l' <> recacheLeft Sample.style (Z.quot 0 2) s
  /\ l_updates l' = l_updates l.
Proof.
  cbv zeta. repeat split. intros Habs.
  apply (f_equal pm_size) in Habs. vm_compute in Habs. discriminate.
Qed.



(** ** The accounts row *)

Module Row.

Lemma to_int_small (z : Z) : 0 <= z <= CInt.int_max -> CInt.to_int z = z.
Proof.
  unfold CInt.to_int, CInt.int_max. intros Hz.
  rewrite Z.mod_small; lia.
Qed.

Lemma to_size_t_small (z : Z) : 0 <= z < 2 ^ 64 -> CInt.to_size_t z = z.
Proof. intros Hz. apply Z.mod_small, Hz. Qed.

(** The construction loop. *)
Lemma length_addAccount (g : RadiobuttonGroup) (accs : list Account)
    (entry : AccountsRowEntry) :
  length (addAccount g accs entry) = S (length accs).
Proof.
  unfold addAccount. rewrite length_alter, length_app. cbn. lia.
Qed.

Lemma addAccount_ok (g : RadiobuttonGroup) (accs : list Account)
    (entry : AccountsRowEntry) :
  accounts_ok (rg_value g) accs ->
  accounts_ok (rg_value g) (addAccount g accs entry).
Proof.
  intros Hok j a. unfold addAccount.
  rewrite length_app. cbn [length].
  replace (Z.to_nat (Z.of_nat (length accs + 1) - 1)) with (length accs) by lia.
  replace (Z.of_nat (length accs + 1) - 1) with (Z.of_nat (length accs)) by lia.
  destruct (decide (length accs = j)) as [ <- | Hne ].
  - rewrite list_lookup_alter_eq, lookup_app_r by lia.
    rewrite Nat.sub_diag. cbn. intros [= <-]. cbn. auto.
  - rewrite list_lookup_alter_ne by exact Hne.
    intros Hj. pose proof (lookup_lt_Some _ _ _ Hj) as Hlt.
    rewrite length_app in Hlt. cbn in Hlt.
    rewrite lookup_app_l in Hj by lia. apply Hok, Hj.
Qed.

Lemma fold_addAccount (g : RadiobuttonGroup) (entries : list AccountsRowEntry) :
  forall accs : list Account,
    accounts_ok (rg_value g) accs ->
    accounts_ok (rg_value g) (fold_left (addAccount g) entries accs)
    /\ length (fold_left (addAccount g) entries accs)
       = (length accs + length entries)%nat.
Proof.
  induction entries as [ | entry entries IH ]; intros accs Hok; cbn [fold_left].
  - split; [ exact Hok | cbn; lia ].
  - destruct (IH _ (addAccount_ok g accs entry Hok)) as [H1 H2].
    split; [ exact H1 | ]. rewrite H2, length_addAccount. cbn. lia.
Qed.

Lemma AddAccountsRow_ok (cont : Content) (args : AccountsRowArgs) :
  row_ok (AddAccountsRow cont args)
  /\ length (accounts (AddAccountsRow cont args))
     = length (args_entries args).
Proof.
  destruct (fold_addAccount (args_group args) (args_entries args) [])
    as [H1 H2].
  { intros j a Hj. rewrite lookup_nil in Hj. discriminate. }
  split; [ split; [ reflexivity | exact H1 ] | exact H2 ].
Qed.

Section Events.

Context (st : Style) (skipUnchanged : bool).

Lemma changedCallback_ok (value v : Z) (accs : list Account) :
  accounts_ok v accs -> accounts_ok value (changedCallback value accs).
Proof.
  intros Hok j a. unfold changedCallback. rewrite list_lookup_imap.
  destruct (accs !! j) as [ a0 | ] eqn:Ej; cbn; [ | discriminate ].
  intros [= <-]. cbn. split; [ apply (Hok j a0 Ej) | reflexivity ].
Qed.

Lemma onContainerSize_ok (size : QSize) (row row' : AccountsRow) :
  onContainerSize st size row = Some row' ->
  (row_ok row -> row_ok row')
  /\ length (accounts row') = length (accounts row).
Proof.
  unfold onContainerSize.
  destruct (Z.of_nat (length (accounts row)) =? 0); [ discriminate | ].
  intros [= <-]. cbn [accounts group]. split.
  - intros [Hcb Hok]. split; [ exact Hcb | ].
    intros j a. cbn [accounts group]. rewrite list_lookup_imap.
    destruct (accounts row !! j) as [ a0 | ] eqn:Ej; cbn; [ | discriminate ].
    intros [= <-]. cbn. apply (Hok j a0 Ej).
  - apply length_imap.
Qed.

Lemma onClicked_ok (position : nat) (row : AccountsRow) :
  row_ok row ->
  row_ok (onClicked skipUnchanged position row)
  /\ length (accounts (onClicked skipUnchanged position row))
     = length (accounts row).
Proof.
  intros Hrow. unfold onClicked.
  destruct (accounts row !! position) as [ a | ]; [ | auto ].
  destruct (btn_clicked (widget a)) as [ index | ]; [ | auto ].
  unfold RadiobuttonGroup_setValue.
  destruct (skipUnchanged && rg_hasValue (group row)
            && (rg_value (group row) =? index)); [ auto | ].
  destruct Hrow as [Hcb Hok]. rewrite Hcb. cbn. split.
  - split; [ reflexivity | ].
    cbn. apply (changedCallback_ok index _ _ Hok).
  - apply length_imap.
Qed.

(** A click on a button of the row, by what it leaves behind. *)
Lemma onClicked_checks (position : nat) (row : AccountsRow) :
  row_ok row ->
  (position < length (accounts row))%nat ->
  rg_value (group (onClicked skipUnchanged position row))
  = Z.of_nat position.
Proof.
  intros [Hcb Hok] Hpos. unfold onClicked.
  destruct (lookup_lt_is_Some_2 _ _ Hpos) as [a Ha]. rewrite Ha.
  destruct (Hok position a Ha) as [-> _].
  unfold RadiobuttonGroup_setValue.
  destruct (skipUnchanged && rg_hasValue (group row)
            && (rg_value (group row) =? Z.of_nat position)) eqn:E.
  - cbn. apply andb_true_iff in E. destruct E as [_ E].
    apply Z.eqb_eq, E.
  - reflexivity.
Qed.

Lemma row_run_ok (evs : list RowEvent) :
  forall row row' : AccountsRow,
    row_ok row ->
    row_run st skipUnchanged evs row = Some row' ->
    row_ok row' /\ length (accounts row') = length (accounts row).
Proof.
  induction evs as [ | ev evs IH ]; intros row row' Hrow; cbn [row_run].
  - intros [= <-]. auto.
  - destruct (row_handle st skipUnchanged ev row) as [ row1 | ] eqn:E1;
      [ | discriminate ].
    intros Hrun.
    assert (H1 : row_ok row1 /\ length (accounts row1) = length (accounts row)).
    { destruct ev as [ position | size ]; cbn [row_handle] in E1.
      - injection E1 as <-. apply onClicked_ok, Hrow.
      - destruct (onContainerSize_ok size row row1 E1) as [Hk Hl]. auto. }
    destruct H1 as [Hrow1 Hlen1].
    destruct (IH row1 row' Hrow1 Hrun) as [H2 H3].
    split; [ exact H2 | congruence ].
Qed.

(** The layout of one account, for a width in the range of [int]. *)
Lemma layout_arith (w count i : Z) :
  0 <= w <= CInt.int_max -> 0 <= i < count ->
  let columnWidth := CInt.to_size_t w / count in
  let left := CInt.to_size_t (columnWidth * CInt.to_size_t i) in
  columnWidth = w / count
  /\ left = i * (w / count)
  /\ CInt.to_int columnWidth = w / count
  /\ CInt.to_int left = i * (w / count)
  /\ badgeCenter left columnWidth = i * (w / count) + w / count / 2.
Proof.
  intros Hw Hi columnWidth left. unfold CInt.int_max in Hw.
  assert (Hcw : columnWidth = w / count).
  { unfold columnWidth. rewrite to_size_t_small; [ reflexivity | lia ]. }
  assert (Hq : 0 <= w / count) by (apply Z.div_pos; lia).
  assert (Hm : count * (w / count) <= w) by (apply Z.mul_div_le; lia).
  assert (Hil : 0 <= i * (w / count) /\ i * (w / count) + w / count <= w) by nia.
  assert (Hleft : left = i * (w / count)).
  { unfold left. rewrite Hcw.
    destruct (Z.eq_dec (w / count) 0) as [ -> | Hne ].
    - rewrite Z.mul_0_l, Z.mul_0_r. reflexivity.
    - assert (count <= w) by nia.
      rewrite (to_size_t_small i) by lia.
      rewrite to_size_t_small by nia. lia. }
  assert (Hh : 0 <= w / count / 2 <= w / count).
  { split; [ apply Z.div_pos; lia | ].
    apply Z.div_le_upper_bound; lia. }
  split; [ exact Hcw | ]. split; [ exact Hleft | ].
  rewrite Hleft, Hcw. unfold badgeCenter.
  split; [ apply to_int_small; unfold CInt.int_max; lia | ].
  split; [ apply to_int_small; unfold CInt.int_max; lia | ].
  rewrite to_size_t_small by lia.
  apply to_int_small. unfold CInt.int_max. lia.
Qed.

(** With a photo no wider than the column, the unsigned subtraction does
    not wrap. *)
Lemma photoLeft_fits (left columnWidth photoWidth : Z) :
  0 <= photoWidth <= columnWidth ->
  0 <= left -> left + columnWidth <= CInt.int_max ->
  photoLeft left columnWidth photoWidth
  = left + (columnWidth - photoWidth) / 2.
Proof.
  unfold CInt.int_max. intros Hp Hl Hlc. unfold photoLeft.
  assert (Hh : 0 <= (columnWidth - photoWidth) / 2 <= columnWidth).
  { split; [ apply Z.div_pos; lia | ].
    apply Z.div_le_upper_bound; lia. }
  rewrite (to_size_t_small photoWidth) by lia.
  rewrite (to_size_t_small (columnWidth - photoWidth)) by lia.
  rewrite to_size_t_small by lia.
  apply to_int_small. unfold CInt.int_max. lia.
Qed.

End Events.

End Row.

(** C3.  In the row built by [AddAccountsRow], after any events, a click
    on the button at position [i] sets the value of the group to [i], and
    of the checkboxes of the row the one at position [i] is checked and no
    other. *)
Theorem click_checks_exactly_one
    (st : Style) (skipUnchanged : bool) (cont : Content)
    (args : AccountsRowArgs) (evs : list RowEvent) (row : AccountsRow)
    (i : nat)
    (Hrun : row_run st skipUnchanged evs (AddAccountsRow cont args)
            = Some row)
    (Hi : (i < length (args_entries args))%nat) :
  let row' := onClicked skipUnchanged i row in
  rg_value (group row') = Z.of_nat i
  /\ length (accounts row') = length (args_entries args)
  /\ (exists a, accounts row' !! i = Some a
                /\ cb_checked (checkbox a) = true)
  /\ (forall (j : nat) (a : Account),
        accounts row' !! j = Some a ->
        (cb_checked (checkbox a) = true <-> j = i)).
Proof.
  intros row'.
  destruct (Row.AddAccountsRow_ok cont args) as [Hrow0 Hlen0].
  destruct (Row.row_run_ok st skipUnchanged evs _ _ Hrow0 Hrun)
    as [Hrow Hlen].
  destruct (Row.onClicked_ok skipUnchanged i row Hrow) as [[Hcb Hok] Hlen'].
  fold row' in Hcb, Hok, Hlen'.
  assert (Hval : rg_value (group row') = Z.of_nat i).
  { apply Row.onClicked_checks; [ exact Hrow | lia ]. }
  rewrite Hval in Hok.
  split; [ exact Hval | ]. split; [ lia | ]. split.
  - destruct (lookup_lt_is_Some_2 (accounts row') i) as [a Ha]; [ lia | ].
    exists a. split; [ exact Ha | ].
    destruct (Hok i a Ha) as [_ ->]. apply Z.eqb_refl.
  - intros j a Ha. destruct (Hok j a Ha) as [_ ->].
    rewrite Z.eqb_eq. lia.
Qed.

Lemma click_checks_exactly_one_witness :
  let args :=
    {| args_group := {| rg_value := 0; rg_hasValue := true;
                        rg_changedCallback := None |};
       args_imageRadius := 27;
       args_selectWidth := 2;
       args_entries := [ {| entry_name := "first" |};
                         {| entry_name := "second" |};
                         {| entry_name := "third" |} ] |} in
  let row :=
    onClicked true 2 (onClicked true 0 (AddAccountsRow Sample.parent args)) in
  let row' := onClicked true 1 row in
  rg_value (group row') = 1
  /\ length (accounts row') = 3%nat
  /\ (exists a, accounts row' !! 1%nat = Some a
                /\ cb_checked (checkbox a) = true)
  /\ (forall (j : nat) (a : Account),
        accounts row' !! j = Some a ->
        (cb_checked (checkbox a) = true <-> j = 1%nat)).
Proof.
  apply (click_checks_exactly_one Sample.style true Sample.parent
           {| args_group := {| rg_value := 0; rg_hasValue := true;
                               rg_changedCallback := None |};
              args_imageRadius := 27;
              args_selectWidth := 2;
              args_entries := [ {| entry_name := "first" |};
                                {| entry_name := "second" |};
                                {| entry_name := "third" |} ] |}
           [ Clicked 0; Clicked 2 ]).
  - reflexivity.
  - cbn. lia.
Defined.



(** C10.  The row has one account per entry, and the size handler divides
    the width by their number: without entries the division has no
    result, for every size; with at least one entry it has one. *)
Theorem accounts_row_needs_entries
    (st : Style) (cont : Content) (g : RadiobuttonGroup)
    (radius selectWidth : Z)
    (entry : AccountsRowEntry) (entries : list AccountsRowEntry)
    (size : QSize) :
  let args_of := fun es => {| args_group := g;
                              args_imageRadius := radius;
                              args_selectWidth := selectWidth;
                              args_entries := es |} in
  length (accounts (AddAccountsRow cont (args_of (entry :: entries))))
  = length (entry :: entries)
  /\ accounts (AddAccountsRow cont (args_of [])) = []
  /\ onContainerSize st size (AddAccountsRow cont (args_of [])) = None
  /\ exists row',
       onContainerSize st size
         (AddAccountsRow cont (args_of (entry :: entries))) = Some row'.
Proof.
  intros args_of.
  destruct (Row.AddAccountsRow_ok cont (args_of (entry :: entries)))
    as [_ Hlen].
  split; [ exact Hlen | ]. split; [ reflexivity | ]. split; [ reflexivity | ].
  unfold onContainerSize. rewrite Hlen. cbn [length args_entries args_of].
  destruct (Z.of_nat (S (length entries)) =? 0) eqn:E.
  - apply Z.eqb_eq in E. lia.
  - eexists. reflexivity.
Qed.

(** ** The list box *)

Module ListBoxFacts.

Section Build.

Context (st : Style).

Lemma addEntry_lines (box : ListBox) (entry : ListEntry) :
  length (box_lines (addEntry st box entry)) = S (length (box_lines box))
  /\ (Forall uncolored (box_lines box) ->
      Forall uncolored (box_lines (addEntry st box entry))).
Proof.
  unfold addEntry. cbn [box_lines]. split.
  - rewrite length_app. cbn. lia.
  - intros Hu. apply Forall_app. split; [ exact Hu | ].
    constructor; [ | constructor ].
    unfold uncolored, with_y, Line_new_counts, Line_new. cbn [_overrideBrush].
    apply Halves.resize_keeps_override.
Qed.

Lemma fold_addEntry_lines (entries : list ListEntry) :
  forall box : ListBox,
    length (box_lines (fold_left (addEntry st) entries box))
    = (length (box_lines box) + length entries)%nat
    /\ (Forall uncolored (box_lines box) ->
        Forall uncolored (box_lines (fold_left (addEntry st) entries box))).
Proof.
  induction entries as [ | entry entries IH ]; intros box; cbn [fold_left].
  - split; [ cbn; lia | auto ].
  - destruct (IH (addEntry st box entry)) as [H1 H2].
    destruct (addEntry_lines box entry) as [H3 H4].
    split; [ rewrite H1, H3; cbn; lia | auto ].
Qed.

Lemma fold_addEntry_title (entries : list ListEntry) :
  forall box : ListBox,
    box_title (fold_left (addEntry st) entries box) = box_title box
    /\ box_width (fold_left (addEntry st) entries box) = box_width box.
Proof.
  induction entries as [ | entry entries IH ]; intros box; cbn [fold_left].
  - auto.
  - destruct (IH (addEntry st box entry)) as [-> ->]. auto.
Qed.

Lemma resizeToWidth_lines (w : Z) (box : ListBox) :
  length (box_lines (resizeToWidth st w box)) = length (box_lines box)
  /\ (Forall uncolored (box_lines box) ->
      Forall uncolored (box_lines (resizeToWidth st w box))).
Proof.
  unfold resizeToWidth. cbn [box_lines]. split; [ apply length_map | ].
  intros Hu. apply Forall_map. eapply Forall_impl; [ exact Hu | ].
  intros l Hl. unfold uncolored in *. cbn.
  rewrite Halves.resize_keeps_override. exact Hl.
Qed.

(** With more than two entries the assertion holds and every line gets
    its colour. *)
Lemma ShowListBox_done (contentWidth : Z) (entries : list ListEntry) :
  (2 < length entries)%nat ->
  exists box : ListBox,
    ShowListBox st contentWidth entries = Done box
    /\ length (box_lines box) = length entries
    /\ Forall (fun l => exists g, _overrideBrush l = Some (GradientBrush g))
              (box_lines box).
Proof.
  intros Hn. unfold ShowListBox.
  set (box0 := {| box_lines := []; box_height := 0;
                  box_contentWidth := contentWidth;
                  box_title := None; box_width := None |}).
  set (added := fold_left (addEntry st) entries box0).
  destruct (fold_addEntry_lines entries box0) as [Hlen _].
  fold added in Hlen. cbn [box0 box_lines length] in Hlen.
  destruct (resizeToWidth_lines (box_height added) added) as [Hlen' _].
  set (built := resizeToWidth st (box_height added) added) in *.
  destruct (2 <? Z.of_nat (length (box_lines built))) eqn:E;
    [ | apply Z.ltb_ge in E; lia ].
  cbn [negb]. eexists. split; [ reflexivity | ]. cbn [box_lines].
  unfold colorLines.
  destruct (box_lines built) as [ | front rest ] eqn:El; [ cbn in Hlen'; lia | ].
  destruct (last (front :: rest)) as [ back | ] eqn:Eb.
  - split; [ rewrite length_map; lia | ].
    apply Forall_map, Forall_forall. intros l _. eexists. reflexivity.
  - apply last_None in Eb. discriminate.
Qed.

End Build.

End ListBoxFacts.

(** C9.  [ShowListBox] builds one line per entry and then asserts that
    there are more than two: with two entries or fewer the call ends at
    the failed assertion, and no line has been given a colour by then. *)
Theorem list_box_needs_three_entries
    (st : Style) (contentWidth : Z) (entries : list ListEntry)
    (Hn : (length entries <= 2)%nat) :
  exists box : ListBox,
    ShowListBox st contentWidth entries = AssertionFailed box
    /\ length (box_lines box) = length entries
    /\ Forall uncolored (box_lines box)
    /\ box_title box = None
    /\ box_width box = None.
Proof.
  unfold ShowListBox.
  set (box0 := {| box_lines := []; box_height := 0;
                  box_contentWidth := contentWidth;
                  box_title := None; box_width := None |}).
  set (added := fold_left (addEntry st) entries box0).
  destruct (ListBoxFacts.fold_addEntry_lines st entries box0) as [Hlen Hu].
  fold added in Hlen, Hu. cbn [box0 box_lines length] in Hlen, Hu.
  destruct (ListBoxFacts.resizeToWidth_lines st (box_height added) added)
    as [Hlen' Hu'].
  destruct (ListBoxFacts.fold_addEntry_title st entries box0) as [Ht Hw].
  fold added in Ht, Hw. cbn [box0 box_title box_width] in Ht, Hw.
  destruct (2 <? Z.of_nat (length (box_lines
              (resizeToWidth st (box_height added) added)))) eqn:E.
  - apply Z.ltb_lt in E. lia.
  - cbn [negb]. eexists. split; [ reflexivity | ].
    split; [ lia | ]. split; [ apply Hu', Hu; constructor | ].
    cbn. auto.
Qed.

Lemma list_box_needs_three_entries_witness :
  exists box : ListBox,
    ShowListBox Sample.style 364
      [ {| subtitle := "Channels"; description := "Join more channels";
           leftNumber := 500; rightNumber := 1000;
           customRightText := None |};
        {| subtitle := "Folders"; description := "Organize your chats";
           leftNumber := 10; rightNumber := 20;
           customRightText := None |} ]
    = AssertionFailed box
    /\ length (box_lines box) = 2%nat
    /\ Forall uncolored (box_lines box)
    /\ box_title box = None
    /\ box_width box = None.
Proof.
  apply (list_box_needs_three_entries Sample.style 364
           [ {| subtitle := "Channels"; description := "Join more channels";
                leftNumber := 500; rightNumber := 1000;
                customRightText := None |};
             {| subtitle := "Folders"; description := "Organize your chats";
                leftNumber := 10; rightNumber := 20;
                customRightText := None |} ]).
  cbn. lia.
Defined.

(** * Further properties *)

(** ** The number a bubble shows *)

Module BubbleFacts.

Section Ops.

Context {F : Type} `{Float64 F}.

Lemma Bubble_run_snoc (ops : list (BubbleOp F)) (op : BubbleOp F)
    (b : Bubble F) :
  Bubble_run (ops ++ [ op ]) b = Bubble_apply (Bubble_run ops b) op.
Proof. unfold Bubble_run. rewrite fold_left_app. reflexivity. Qed.

Lemma Bubble_apply_textFactory (b : Bubble F) (op : BubbleOp F) :
  _textFactory (Bubble_apply b op) = _textFactory b.
Proof.
  destruct op as [ value | edge ]; cbn; [ | reflexivity ].
  unfold setCounter. destruct (negb (_counter b =? value)); reflexivity.
Qed.

Lemma Bubble_run_textFactory (ops : list (BubbleOp F)) :
  forall b : Bubble F, _textFactory (Bubble_run ops b) = _textFactory b.
Proof.
  induction ops as [ | op ops IH ]; intros b; [ reflexivity | ].
  change (Bubble_run (op :: ops) b) with (Bubble_run ops (Bubble_apply b op)).
  rewrite IH. apply Bubble_apply_textFactory.
Qed.

Lemma setCounter_in_sync (value : Z) (b : Bubble F) :
  in_sync b \/ (untouched b /\ value <> -1) ->
  in_sync (setCounter value b).
Proof.
  intros Hb. unfold setCounter.
  destruct (_counter b =? value) eqn:E; cbn [negb].
  - apply Z.eqb_eq in E. destruct Hb as [ Hs | [(Hc & _) Hv] ];
      [ exact Hs | congruence ].
  - split; reflexivity.
Qed.

Lemma setCounter_untouched (b : Bubble F) :
  untouched b -> untouched (setCounter (-1) b).
Proof.
  intros Hb. unfold setCounter. destruct Hb as (Hc & Hb).
  rewrite Hc. cbn. split; [ exact Hc | exact Hb ].
Qed.

Lemma Bubble_run_sync (ops : list (BubbleOp F)) :
  forall b : Bubble F,
    untouched b ->
    if existsb changes_counter ops
    then in_sync (Bubble_run ops b)
    else untouched (Bubble_run ops b).
Proof.
  induction ops as [ | op ops IH ] using rev_ind; intros b Hb; [ exact Hb | ].
  rewrite Bubble_run_snoc, existsb_app. cbn [existsb]. rewrite orb_false_r.
  specialize (IH b Hb).
  destruct op as [ value | edge ]; cbn [changes_counter Bubble_apply].
  - destruct (existsb changes_counter ops); cbn [orb].
    + apply setCounter_in_sync. left. exact IH.
    + destruct (value =? -1) eqn:E; cbn [negb].
      * apply Z.eqb_eq in E. subst value. apply setCounter_untouched, IH.
      * apply Z.eqb_neq in E. apply setCounter_in_sync. right. auto.
  - rewrite orb_false_r. destruct (existsb changes_counter ops); exact IH.
Qed.

End Ops.

End BubbleFacts.

(** X1.  The number a bubble shows follows its counter: once an operation
    has given the counter a value other than the initial [-1], the number
    animation holds the current counter and the text the factory makes of
    it, whatever operations follow; before that the counter is [-1] and the
    text is the one of [0]. *)
Theorem number_follows_counter
    {F : Type} `{Float64 F}
    (st : Style) (textFactory : Z -> string) (icon : Icon)
    (premiumPossible : bool) (ops : list (BubbleOp F)) :
  let b := Bubble_run ops (Bubble_new st textFactory icon premiumPossible) in
  if existsb changes_counter ops
  then na_value (_numberAnimation b) = _counter b
       /\ na_text (_numberAnimation b) = textFactory (_counter b)
  else _counter b = -1
       /\ na_value (_numberAnimation b) = 0
       /\ na_text (_numberAnimation b) = textFactory 0.
Proof.
  intros b.
  pose proof (BubbleFacts.Bubble_run_sync ops
                (Bubble_new st textFactory icon premiumPossible)) as Hb.
  pose proof (BubbleFacts.Bubble_run_textFactory ops
                (Bubble_new st textFactory icon premiumPossible)) as Ht.
  fold b in Hb, Ht. cbn [Bubble_new _textFactory] in Ht.
  unfold in_sync, untouched in Hb. rewrite Ht in Hb.
  apply Hb. repeat split.
Qed.

(** ** What the two pixmaps of a line cover *)

Module LinePaint.

Section Pixmaps.

Context (st : Style).

Lemma half_twice (w : Z) :
  w / 2 + w / 2 = if Z.even w then w else w - 1.
Proof.
  pose proof (Z.div_mod w 2 ltac:(lia)) as Hd.
  rewrite Zmod_even in Hd. destruct (Z.even w); lia.
Qed.

(** A resize keeps the four texts of a line. *)
Lemma resize_keeps_texts (s : QSize) (l : Line) :
  _rightLabel (Line_resize st s l) = _rightLabel l
  /\ _leftLabel (Line_resize st s l) = _leftLabel l
  /\ _rightText (Line_resize st s l) = _rightText l
  /\ _leftText (Line_resize st s l) = _leftText l.
Proof.
  unfold Line_resize, onSizeValue.
  destruct (QSize_isEmpty s); repeat split.
Qed.

End Pixmaps.

End LinePaint.

(** X2.  After a resize of a [Line] to a size of width [w] that is not
    empty, both pixmaps are [w / 2] wide when drawn, the right one as well
    although its region is [w - w / 2] wide: drawn at [x = w / 2] it ends at
    [w] when [w] is even and at [w - 1] when [w] is odd, one column short of
    the widget. *)
Theorem line_pixmaps_cover
    (st : Style) (l : Line) (s : QSize)
    (Hs : QSize_isEmpty s = false)
    (Hd : 0 < DevicePixelRatio st) :
  let l' := Line_resize st s l in
  let w := sz_width s in
  QPixmap_logicalWidth (_leftPixmap l') = w / 2
  /\ QPixmap_logicalWidth (_rightPixmap l') = w / 2
  /\ _leftWidth l' + QPixmap_logicalWidth (_rightPixmap l')
     = (if Z.even w then w else w - 1)
  /\ _leftWidth l' + _rightWidth l' = w.
Proof.
  intros l' w.
  pose proof (Halves.Line_resize_not_empty st s l Hs) as Hl.
  fold l' w in Hl. rewrite Hl.
  unfold QPixmap_logicalWidth. cbn.
  rewrite !Z.quot_mul by lia.
  repeat split; [ apply LinePaint.half_twice | lia ].
Qed.

Lemma line_pixmaps_cover_witness :
  let l' := Line_resize Sample.style {| sz_width := 301; sz_height := 32 |}
              (Line_new Sample.style 364 320 "100" "50") in
  QPixmap_logicalWidth (_leftPixmap l') = 301 / 2
  /\ QPixmap_logicalWidth (_rightPixmap l') = 301 / 2
  /\ _leftWidth l' + QPixmap_logicalWidth (_rightPixmap l')
     = (if Z.even 301 then 301 else 301 - 1)
  /\ _leftWidth l' + _rightWidth l' = 301.
Proof.
  apply (line_pixmaps_cover Sample.style
           (Line_new Sample.style 364 320 "100" "50")
           {| sz_width := 301; sz_height := 32 |}).
  - reflexivity.
  - reflexivity.
Defined.

(** X3.  [Line::setColorOverride] stores the brush and paints nothing: the
    pixmaps are as they were and no repaint is requested.  The next resize
    to a size that is not empty paints the right pixmap with the stored
    brush; after an override with [Qt::NoBrush] it paints it with the
    gradient of the slice that starts at [w / 2] and is [w / 2] wide.  The
    left pixmap is filled with [windowShadowFgFallback] in both cases. *)
Theorem line_override_fills_on_recache
    (st : Style) (l : Line) (s : QSize) (brush : QBrush)
    (Hs : QSize_isEmpty s = false)
    (Hd : 0 < DevicePixelRatio st) :
  let l1 := setColorOverride brush l in
  let l2 := Line_resize st s l1 in
  let w := sz_width s in
  _leftPixmap l1 = _leftPixmap l
  /\ _rightPixmap l1 = _rightPixmap l
  /\ l_updates l1 = l_updates l
  /\ QPixmap_brushes (_leftPixmap l2)
     = [ SolidBrush (StyleColor "windowShadowFgFallback") ]
  /\ QPixmap_brushes (_rightPixmap l2)
     = [ match brush with
         | NoBrush =>
             GradientBrush
               (ComputeGradient
                  {| content_width := w;
                     content_parent_width := l_parent_width l |}
                  (w / 2) (w / 2))
         | _ => brush
         end ].
Proof.
  intros l1 l2 w.
  pose proof (Halves.Line_resize_not_empty st s l1 Hs) as Hl.
  fold l2 w in Hl. rewrite Hl.
  split; [ reflexivity | ]. split; [ reflexivity | ].
  split; [ reflexivity | ]. split; [ reflexivity | ].
  unfold QPixmap_brushes. cbn.
  destruct brush as [ | c | g ]; cbn; try reflexivity.
  rewrite Z.quot_mul by lia. rewrite Z.add_0_r. reflexivity.
Qed.

Lemma line_override_fills_on_recache_witness :
  let l := Line_new Sample.style 364 320 "100" "50" in
  let s := {| sz_width := 301; sz_height := 32 |} in
  let brush := SolidBrush (StyleColor "windowBgActive") in
  let l1 := setColorOverride brush l in
  let l2 := Line_resize Sample.style s l1 in
  _leftPixmap l1 = _leftPixmap l
  /\ _rightPixmap l1 = _rightPixmap l
  /\ l_updates l1 = l_updates l
  /\ QPixmap_brushes (_leftPixmap l2)
     = [ SolidBrush (StyleColor "windowShadowFgFallback") ]
  /\ QPixmap_brushes (_rightPixmap l2) = [ brush ].
Proof.
  apply (line_override_fills_on_recache Sample.style
           (Line_new Sample.style 364 320 "100" "50")
           {| sz_width := 301; sz_height := 32 |}
           (SolidBrush (StyleColor "windowBgActive"))).
  - reflexivity.
  - reflexivity.
Defined.

(** ** The labels of a limit row *)

Module Labels.

(** [QString::number] never gives the empty string. *)
Lemma QString_number_not_empty (n : Z) : QString_number n <> EmptyString.
Proof.
  unfold QString_number, NilZero.string_of_int, NilZero.string_of_uint.
  destruct (Z.to_int n) as [ d | d ]; destruct d; discriminate.
Qed.

Lemma count_label_empty (n : Z) :
  (if n =? 0 then EmptyString else QString_number n) = EmptyString
  <-> n = 0.
Proof.
  destruct (n =? 0) eqn:E.
  - apply Z.eqb_eq in E. tauto.
  - apply Z.eqb_neq in E. split; [ | tauto ].
    intros Habs. exfalso. apply (QString_number_not_empty n Habs).
Qed.

Lemma Line_new_labels (st : Style) (parentWidth width0 : Z)
    (max min : string) :
  _rightLabel (Line_new st parentWidth width0 max min) = max
  /\ _leftLabel (Line_new st parentWidth width0 max min) = min.
Proof.
  unfold Line_new.
  destruct (LinePaint.resize_keeps_texts st
              {| sz_width := width0;
                 sz_height := requestsAcceptButtonHeight st |}
              {| _leftWidth := 0; _rightWidth := 0;
                 _leftPixmap := QPixmap_null; _rightPixmap := QPixmap_null;
                 _leftText := "lng_premium_free";
                 _rightText := "lng_premium";
                 _rightLabel := max; _leftLabel := min;
                 _overrideBrush := None;
                 l_size := {| sz_width := width0; sz_height := 0 |};
                 l_y := 0; l_updates := 0;
                 l_parent_width := parentWidth |})
    as (Hr & Hl & _).
  rewrite Hr, Hl. split; reflexivity.
Qed.

End Labels.

(** X4.  [AddLimitRow] with two counts builds the line that [Line] builds
    from the counts and the factory of the phrase: the right label is the
    text of [max] and the left one the text of [min], except that a count
    of [0] gets no label at all.  Without a phrase the text is the decimal
    number, so a label is empty exactly when its count is [0]. *)
Theorem limit_row_labels
    (st : Style) (parentWidth width0 max min : Z)
    (phrase : option (Z -> string)) :
  let row := AddLimitRow_counts st parentWidth width0 max phrase min in
  let plain := AddLimitRow_counts st parentWidth width0 max None min in
  row = Line_new_counts st parentWidth width0 max
          (ProcessTextFactory phrase) min
  /\ _rightLabel row
     = (if max =? 0 then EmptyString else ProcessTextFactory phrase max)
  /\ _leftLabel row
     = (if min =? 0 then EmptyString else ProcessTextFactory phrase min)
  /\ (_rightLabel plain = EmptyString <-> max = 0)
  /\ (_leftLabel plain = EmptyString <-> min = 0).
Proof.
  intros row plain. split; [ reflexivity | ].
  unfold row, plain, AddLimitRow_counts, AddLimitRow.
  split; [ apply Labels.Line_new_labels | ].
  split; [ apply Labels.Line_new_labels | ].
  destruct (Labels.Line_new_labels st parentWidth width0
              (if max =? 0 then EmptyString else ProcessTextFactory None max)
              (if min =? 0 then EmptyString else ProcessTextFactory None min))
    as [-> ->].
  split; apply Labels.count_label_empty.
Qed.

(** ** The lines of the list box *)

Module ListBoxLines.

Section Build.

Context (st : Style).

(** The labels the line of an entry gets. *)
Lemma entry_line_labels (box : ListBox) (entry : ListEntry) :
  exists l : Line,
    box_lines (addEntry st box entry) = box_lines box ++ [ l ]
    /\ _rightLabel l
       = (if rightNumber entry =? 0 then EmptyString
          else entryTextFactory entry (rightNumber entry))
    /\ _leftLabel l
       = (if leftNumber entry =? 0 then EmptyString
          else entryTextFactory entry (leftNumber entry)).
Proof.
  unfold addEntry. cbn [box_lines]. eexists. split; [ reflexivity | ].
  unfold with_y, Line_new_counts. cbn [_rightLabel _leftLabel].
  apply Labels.Line_new_labels.
Qed.

Lemma fold_addEntry_prefix (entries : list ListEntry) :
  forall box : ListBox,
    exists rest : list Line,
      box_lines (fold_left (addEntry st) entries box) = box_lines box ++ rest.
Proof.
  induction entries as [ | entry entries IH ]; intros box; cbn [fold_left].
  - exists []. rewrite app_nil_r. reflexivity.
  - destruct (IH (addEntry st box entry)) as [rest Hrest].
    destruct (entry_line_labels box entry) as (l & Hl & _).
    rewrite Hl in Hrest. exists (l :: rest).
    rewrite Hrest, <- app_assoc. reflexivity.
Qed.

Lemma fold_addEntry_labels (entries : list ListEntry) :
  forall (box : ListBox) (i : nat) (entry : ListEntry),
    entries !! i = Some entry ->
    exists l : Line,
      box_lines (fold_left (addEntry st) entries box)
        !! (length (box_lines box) + i)%nat = Some l
      /\ _rightLabel l
         = (if rightNumber entry =? 0 then EmptyString
            else entryTextFactory entry (rightNumber entry))
      /\ _leftLabel l
         = (if leftNumber entry =? 0 then EmptyString
            else entryTextFactory entry (leftNumber entry)).
Proof.
  induction entries as [ | e entries IH ]; intros box i entry Hi;
    [ rewrite lookup_nil in Hi; discriminate | ].
  cbn [fold_left]. destruct i as [ | i ].
  - cbn in Hi. injection Hi as ->.
    destruct (entry_line_labels box entry) as (l & Hl & Hlabels).
    destruct (fold_addEntry_prefix entries (addEntry st box entry))
      as [rest Hrest].
    exists l. split; [ | exact Hlabels ].
    rewrite Hrest, Hl, <- app_assoc, Nat.add_0_r.
    rewrite lookup_app_r by lia. rewrite Nat.sub_diag. reflexivity.
  - cbn in Hi. destruct (IH (addEntry st box e) i entry Hi) as (l & Hl & Hlabels).
    exists l. split; [ | exact Hlabels ].
    destruct (ListBoxFacts.addEntry_lines st box e) as [Hlen _].
    rewrite Hlen in Hl.
    replace (length (box_lines box) + S i)%nat
      with (S (length (box_lines box)) + i)%nat by lia.
    exact Hl.
Qed.

(** The text the factory of an entry makes of a number. *)
Lemma entryTextFactory_right (entry : ListEntry) :
  entryTextFactory entry (rightNumber entry)
  = match customRightText entry with
    | Some text => text
    | None => QString_number (rightNumber entry)
    end.
Proof.
  unfold entryTextFactory. destruct (customRightText entry); [ | reflexivity ].
  rewrite Z.eqb_refl. reflexivity.
Qed.

End Build.

End ListBoxLines.

(** X5.  With more than two entries [ShowListBox] runs to its end: the box
    holds one line per entry, in the order of the entries; the line of an
    entry is labelled on the right with the custom right text of the entry,
    or else with its right number, and on the left with its left number
    (with the custom text instead when the two numbers are equal), a number
    [0] giving no label; every line has been given a gradient brush as its
    colour; the title and the width of the box are set. *)
Theorem list_box_lines_follow_entries
    (st : Style) (contentWidth : Z) (entries : list ListEntry)
    (Hn : (2 < length entries)%nat) :
  exists box : ListBox,
    ShowListBox st contentWidth entries = Done box
    /\ length (box_lines box) = length entries
    /\ box_title box
       = Some "lng_premium_summary_subtitle_double_limits"%string
    /\ box_width box = Some (boxWideWidth st)
    /\ forall (i : nat) (entry : ListEntry),
         entries !! i = Some entry ->
         exists l : Line,
           box_lines box !! i = Some l
           /\ _rightLabel l
              = (if rightNumber entry =? 0 then EmptyString
                 else match customRightText entry with
                      | Some text => text
                      | None => QString_number (rightNumber entry)
                      end)
           /\ _leftLabel l
              = (if leftNumber entry =? 0 then EmptyString
                 else match customRightText entry with
                      | Some text =>
                          if leftNumber entry =? rightNumber entry
                          then text
                          else QString_number (leftNumber entry)
                      | None => QString_number (leftNumber entry)
                      end)
           /\ exists g, _overrideBrush l = Some (GradientBrush g).
Proof.
  unfold ShowListBox.
  set (box0 := {| box_lines := []; box_height := 0;
                  box_contentWidth := contentWidth;
                  box_title := None; box_width := None |}).
  set (added := fold_left (addEntry st) entries box0).
  destruct (ListBoxFacts.fold_addEntry_lines st entries box0) as [Hlen _].
  fold added in Hlen. cbn [box0 box_lines length] in Hlen.
  destruct (ListBoxFacts.resizeToWidth_lines st (box_height added) added)
    as [Hlen' _].
  set (built := resizeToWidth st (box_height added) added) in *.
  destruct (2 <? Z.of_nat (length (box_lines built))) eqn:E;
    [ | apply Z.ltb_ge in E; lia ].
  cbn [negb]. eexists. split; [ reflexivity | ].
  cbn [box_lines box_title box_width].
  assert (Hcol : exists from to,
             colorLines (box_lines built)
             = map (fun l => setColorOverride
                               (GradientBrush (lineGradient from to l)) l)
                   (box_lines built)).
  { unfold colorLines.
    destruct (box_lines built) as [ | front rest ] eqn:El;
      [ cbn in Hlen'; lia | ].
    destruct (last (front :: rest)) as [ back | ] eqn:Eb.
    - eexists. eexists. reflexivity.
    - apply last_None in Eb. discriminate. }
  destruct Hcol as (from & to & Hcol). rewrite Hcol.
  split; [ rewrite length_map; lia | ].
  split; [ reflexivity | ]. split; [ reflexivity | ].
  intros i entry Hi.
  destruct (ListBoxLines.fold_addEntry_labels st entries box0 i entry Hi)
    as (l & Hl & Hr & Hll).
  fold added in Hl. cbn [box0 box_lines length Nat.add] in Hl.
  rewrite ListBoxLines.entryTextFactory_right in Hr.
  eexists. split.
  - change (map ?f ?x) with (f <$> x). rewrite list_lookup_fmap.
    unfold built, resizeToWidth. cbn [box_lines].
    change (map ?f ?x) with (f <$> x). rewrite list_lookup_fmap, Hl.
    reflexivity.
  - cbn [setColorOverride _rightLabel _leftLabel _overrideBrush].
    destruct (LinePaint.resize_keeps_texts st
                {| sz_width := box_height added
                               - m_left (settingsPremiumPreviewLinePadding st)
                               - m_right (settingsPremiumPreviewLinePadding st);
                   sz_height := sz_height (l_size l) |}
                (with_parent_width (box_height added) l))
      as (-> & -> & _).
    cbn [with_parent_width _rightLabel _leftLabel].
    split; [ exact Hr | ]. split; [ | eexists; reflexivity ].
    rewrite Hll. unfold entryTextFactory.
    destruct (leftNumber entry =? 0); [ reflexivity | ].
    destruct (customRightText entry); reflexivity.
Qed.

Lemma list_box_lines_follow_entries_witness :
  let entries :=
    [ {| subtitle := "Channels"; description := "Join more channels";
         leftNumber := 500; rightNumber := 1000;
         customRightText := None |};
      {| subtitle := "Folders"; description := "Organize your chats";
         leftNumber := 10; rightNumber := 20;
         customRightText := None |};
      {| subtitle := "Upload size"; description := "Send larger files";
         leftNumber := 2; rightNumber := 4;
         customRightText := Some "4 GB"%string |} ] in
  exists box : ListBox,
    ShowListBox Sample.style 364 entries = Done box
    /\ length (box_lines box) = 3%nat
    /\ box_title box
       = Some "lng_premium_summary_subtitle_double_limits"%string
    /\ box_width box = Some 364
    /\ forall (i : nat) (entry : ListEntry),
         entries !! i = Some entry ->
         exists l : Line,
           box_lines box !! i = Some l
           /\ _rightLabel l
              = (if rightNumber entry =? 0 then EmptyString
                 else match customRightText entry with
                      | Some text => text
                      | None => QString_number (rightNumber entry)
                      end)
           /\ _leftLabel l
              = (if leftNumber entry =? 0 then EmptyString
                 else match customRightText entry with
                      | Some text =>
                          if leftNumber entry =? rightNumber entry
                          then text
                          else QString_number (leftNumber entry)
                      | None => QString_number (leftNumber entry)
                      end)
           /\ exists g, _overrideBrush l = Some (GradientBrush g).
Proof.
  apply (list_box_lines_follow_entries Sample.style 364
           [ {| subtitle := "Channels"; description := "Join more channels";
                leftNumber := 500; rightNumber := 1000;
                customRightText := None |};
             {| subtitle := "Folders"; description := "Organize your chats";
                leftNumber := 10; rightNumber := 20;
                customRightText := None |};
             {| subtitle := "Upload size"; description := "Send larger files";
                leftNumber := 2; rightNumber := 4;
                customRightText := Some "4 GB"%string |} ]).
  cbn. lia.
Defined.

(** ** The colours of the lines *)

Module Colors.

Lemma stacked_cons (a : Line) (rest : list Line) :
  stacked (a :: rest) = true ->
  0 < sz_height (l_size a)
  /\ stacked rest = true
  /\ forall b, rest !! 0%nat = Some b ->
               l_y a + sz_height (l_size a) <= l_y b.
Proof.
  cbn [stacked]. intros Hs.
  apply andb_prop in Hs. destruct Hs as [Hs H3].
  apply andb_prop in Hs. destruct Hs as [H1 H2].
  apply Z.ltb_lt in H1. split; [ exact H1 | ]. split; [ exact H3 | ].
  intros b Hb. destruct rest as [ | c rest ]; [ discriminate | ].
  cbn in Hb. injection Hb as ->. apply Z.leb_le, H2.
Qed.

Lemma stacked_height (lines : list Line) :
  stacked lines = true ->
  forall (i : nat) (a : Line),
    lines !! i = Some a -> 0 < sz_height (l_size a).
Proof.
  induction lines as [ | x rest IH ]; intros Hs i a Ha;
    [ rewrite lookup_nil in Ha; discriminate | ].
  destruct (stacked_cons x rest Hs) as (Hx & Hrest & _).
  destruct i as [ | i ]; cbn in Ha.
  - injection Ha as <-. exact Hx.
  - apply (IH Hrest i a Ha).
Qed.

(** In stacked lines an earlier line starts and ends no lower than a
    later one. *)
Lemma stacked_le (lines : list Line) :
  stacked lines = true ->
  forall (i j : nat) (a b : Line),
    (i <= j)%nat -> lines !! i = Some a -> lines !! j = Some b ->
    l_y a <= l_y b
    /\ l_y a + sz_height (l_size a) <= l_y b + sz_height (l_size b).
Proof.
  induction lines as [ | x rest IH ]; intros Hs i j a b Hij Ha Hb;
    [ rewrite lookup_nil in Ha; discriminate | ].
  destruct (stacked_cons x rest Hs) as (Hx & Hrest & Hnext).
  destruct i as [ | i ], j as [ | j ]; cbn in Ha, Hb; try lia.
  - injection Ha as <-. injection Hb as <-. lia.
  - injection Ha as <-.
    destruct rest as [ | c rest' ]; [ destruct j; discriminate | ].
    specialize (Hnext c eq_refl).
    pose proof (stacked_height (c :: rest') Hrest 0 c eq_refl) as Hc.
    destruct (IH Hrest 0%nat j c b ltac:(lia) eq_refl Hb) as [H1 H2].
    lia.
  - apply (IH Hrest i j a b); [ lia | assumption | assumption ].
Qed.

Lemma colorLines_map (lines : list Line) (front back : Line) :
  head lines = Some front -> last lines = Some back ->
  colorLines lines
  = map (fun l =>
           setColorOverride
             (GradientBrush
                (lineGradient (l_y front)
                   (l_y back + sz_height (l_size back)) l)) l)
        lines.
Proof.
  intros Hf Hb. unfold colorLines.
  destruct lines as [ | x rest ]; [ discriminate | ].
  cbn in Hf. injection Hf as ->. rewrite Hb. reflexivity.
Qed.

End Colors.

(** X6.  The last loop of [ShowListBox] gives every line a gradient of its
    own height whose two colours are sampled from one gradient that spans
    from the top of the first line to the bottom of the last.  For lines
    laid out from top to bottom that span is positive, so the ratios have a
    divisor that is not zero, and every line samples at its top and bottom
    offsets, which lie within the span: at [0] for the top of the first
    line and at the whole span for the bottom of the last. *)
Theorem color_lines_sample_within_span
    (lines : list Line) (front back : Line)
    (Hf : head lines = Some front)
    (Hb : last lines = Some back)
    (Hst : stacked lines = true) :
  let from := l_y front in
  let to := l_y back + sz_height (l_size back) in
  0 < to - from
  /\ length (colorLines lines) = length lines
  /\ (forall (i : nat) (l : Line),
        lines !! i = Some l ->
        let top := l_y l - from in
        let bottom := top + sz_height (l_size l) in
        colorLines lines !! i
        = Some (setColorOverride
                  (GradientBrush
                     {| lg_dx := 0;
                        lg_dy := sz_height (l_size l);
                        lg_stops :=
                          [ (0 # 1,
                             GradientColorAt FullHeightGradientStopsMirrored
                               (to - from)
                               {| ratio_num := top;
                                  ratio_den := to - from |});
                            (1 # 10,
                             GradientColorAt FullHeightGradientStopsMirrored
                               (to - from)
                               {| ratio_num := bottom;
                                  ratio_den := to - from |}) ]%Q |}) l)
        /\ 0 <= top /\ top < bottom /\ bottom <= to - from)
  /\ l_y front - from = 0
  /\ l_y back - from + sz_height (l_size back) = to - from.
Proof.
  intros from to.
  assert (Hf' : lines !! 0%nat = Some front).
  { destruct lines; [ discriminate | exact Hf ]. }
  assert (Hb' : lines !! pred (length lines) = Some back).
  { rewrite <- last_lookup. exact Hb. }
  pose proof (Colors.stacked_height lines Hst _ _ Hb') as Hhb.
  destruct (Colors.stacked_le lines Hst 0 (pred (length lines)) front back
              ltac:(lia) Hf' Hb') as [Hfb _].
  split; [ unfold to, from; lia | ].
  rewrite (Colors.colorLines_map lines front back Hf Hb).
  split; [ apply length_map | ].
  split; [ | unfold to, from; lia ].
  intros i l Hl top bottom.
  pose proof (lookup_lt_Some _ _ _ Hl) as Hlt.
  pose proof (Colors.stacked_height lines Hst _ _ Hl) as Hh.
  destruct (Colors.stacked_le lines Hst 0 i front l ltac:(lia) Hf' Hl)
    as [H1 _].
  destruct (Colors.stacked_le lines Hst i (pred (length lines)) l back
              ltac:(lia) Hl Hb') as [_ H2].
  split.
  - change (map ?f ?x) with (f <$> x). rewrite list_lookup_fmap, Hl.
    cbn [fmap option_fmap option_map]. unfold lineGradient.
    fold from to top. fold bottom.
    replace (bottom - top) with (sz_height (l_size l))
      by (unfold bottom; lia).
    reflexivity.
  - unfold bottom, top, to, from. lia.
Qed.

Lemma color_lines_sample_within_span_witness :
  let line := fun y => with_y y (Line_new Sample.style 364 320 "100" "50") in
  let lines := [ line 52; line 144; line 236 ] in
  let from := 52 in
  let to := 236 + 32 in
  0 < to - from
  /\ length (colorLines lines) = length lines
  /\ (forall (i : nat) (l : Line),
        lines !! i = Some l ->
        let top := l_y l - from in
        let bottom := top + sz_height (l_size l) in
        colorLines lines !! i
        = Some (setColorOverride
                  (GradientBrush
                     {| lg_dx := 0;
                        lg_dy := sz_height (l_size l);
                        lg_stops :=
                          [ (0 # 1,
                             GradientColorAt FullHeightGradientStopsMirrored
                               (to - from)
                               {| ratio_num := top;
                                  ratio_den := to - from |});
                            (1 # 10,
                             GradientColorAt FullHeightGradientStopsMirrored
                               (to - from)
                               {| ratio_num := bottom;
                                  ratio_den := to - from |}) ]%Q |}) l)
        /\ 0 <= top /\ top < bottom /\ bottom <= to - from)
  /\ 52 - from = 0
  /\ 236 - from + 32 = to - from.
Proof.
  apply (color_lines_sample_within_span
           [ with_y 52 (Line_new Sample.style 364 320 "100" "50");
             with_y 144 (Line_new Sample.style 364 320 "100" "50");
             with_y 236 (Line_new Sample.style 364 320 "100" "50") ]
           (with_y 52 (Line_new Sample.style 364 320 "100" "50"))
           (with_y 236 (Line_new Sample.style 364 320 "100" "50"))).
  - reflexivity.
  - reflexivity.
  - reflexivity.
Defined.

(** ** The columns of the accounts row *)

Module Columns.

Section Layout.

Context (st : Style).

(** The size handler on a row that has accounts. *)
Lemma onContainerSize_some (size : QSize) (row : AccountsRow) :
  (0 < length (accounts row))%nat ->
  onContainerSize st size row
  = Some {| accounts :=
              imap (layoutAccount st row
                      {| content_width := sz_width size;
                         content_parent_width :=
                           content_parent_width (container row) |}
                      size
                      (CInt.to_size_t (sz_width size)
                       / Z.of_nat (length (accounts row))))
                   (accounts row);
            group := group row;
            container :=
              {| content_width := sz_width size;
                 content_parent_width :=
                   content_parent_width (container row) |};
            imageRadius := imageRadius row;
            checkSelectWidth := checkSelectWidth row |}.
Proof.
  intros Hn. unfold onContainerSize.
  destruct (Z.of_nat (length (accounts row)) =? 0) eqn:E;
    [ apply Z.eqb_eq in E; lia | reflexivity ].
Qed.

(** Where the handler puts the button of account [i]. *)
Lemma layout_button (size : QSize) (row row' : AccountsRow) (i : nat)
    (a : Account) :
  0 <= sz_width size <= CInt.int_max ->
  onContainerSize st size row = Some row' ->
  accounts row' !! i = Some a ->
  let columnWidth := sz_width size / Z.of_nat (length (accounts row)) in
  btn_x (widget a) = Z.of_nat i * columnWidth
  /\ sz_width (btn_size (widget a)) = columnWidth
  /\ (i < length (accounts row))%nat.
Proof.
  intros Hw Hrow Ha columnWidth.
  unfold onContainerSize in Hrow.
  destruct (Z.of_nat (length (accounts row)) =? 0) eqn:E; [ discriminate | ].
  injection Hrow as <-. cbn [accounts] in Ha.
  rewrite list_lookup_imap in Ha.
  destruct (accounts row !! i) as [ a0 | ] eqn:Ei; [ | discriminate ].
  cbn in Ha. injection Ha as <-.
  pose proof (lookup_lt_Some _ _ _ Ei) as Hlt.
  destruct (Row.layout_arith (sz_width size)
              (Z.of_nat (length (accounts row))) (Z.of_nat i) Hw
              ltac:(lia)) as (Hcw & Hleft & Hcw' & Hleft' & _).
  cbn [layoutAccount widget btn_x btn_size sz_width].
  rewrite Hleft', Hcw'. auto.
Qed.

(** The handler reads of an account its button callback, its name and
    whether it is checked, and nothing else. *)
Lemma onContainerSize_reads (size : QSize) (row r : AccountsRow)
    (f : nat -> Account -> Account) :
  (0 < length (accounts row))%nat ->
  imageRadius r = imageRadius row ->
  checkSelectWidth r = checkSelectWidth row ->
  group r = group row ->
  content_parent_width (container r)
  = content_parent_width (container row) ->
  accounts r = imap f (accounts row) ->
  (forall i a, btn_clicked (widget (f i a)) = btn_clicked (widget a)
               /\ name (f i a) = name a
               /\ cb_checked (checkbox (f i a)) = cb_checked (checkbox a)) ->
  onContainerSize st size r = onContainerSize st size row.
Proof.
  intros Hn Hr Hc Hg Hp Ha Hf.
  assert (Hnr : (0 < length (accounts r))%nat)
    by (rewrite Ha, length_imap; exact Hn).
  rewrite (onContainerSize_some size r Hnr), (onContainerSize_some size row Hn).
  rewrite Hp, Hg, Hr, Hc. f_equal. f_equal.
  rewrite Ha, length_imap.
  apply list_eq. intros i. rewrite !list_lookup_imap.
  destruct (accounts row !! i) as [ a | ]; [ | reflexivity ].
  cbn [fmap option_fmap option_map]. f_equal.
  destruct (Hf i a) as (Hb & Hname & Hck).
  unfold layoutAccount. rewrite Hr, Hc, Hb, Hname.
  unfold Checkbox_setColorOverride. rewrite Hck. reflexivity.
Qed.

End Layout.

End Columns.

(** X7.  The size handler of the accounts row lays the buttons out as
    columns of one width, [w / count], side by side from the left edge in
    the order of the accounts: every column lies inside the container, a
    column ends where the next one starts, and what is left over at the
    right edge is less than [count] pixels. *)
Theorem accounts_columns_tile
    (st : Style) (row : AccountsRow) (size : QSize)
    (Hw : 0 <= sz_width size <= CInt.int_max)
    (Hn : (0 < length (accounts row))%nat) :
  let count := Z.of_nat (length (accounts row)) in
  let columnWidth := sz_width size / count in
  exists row' : AccountsRow,
    onContainerSize st size row = Some row'
    /\ length (accounts row') = length (accounts row)
    /\ (forall (i : nat) (a : Account),
          accounts row' !! i = Some a ->
          sz_width (btn_size (widget a)) = columnWidth
          /\ 0 <= btn_x (widget a)
          /\ btn_x (widget a) + columnWidth <= sz_width size)
    /\ (forall (i : nat) (a b : Account),
          accounts row' !! i = Some a ->
          accounts row' !! S i = Some b ->
          btn_x (widget a) + sz_width (btn_size (widget a))
          = btn_x (widget b))
    /\ 0 <= sz_width size - count * columnWidth < count.
Proof.
  intros count columnWidth.
  pose proof (Columns.onContainerSize_some st size row Hn) as Hrow.
  eexists. split; [ exact Hrow | ].
  assert (Hc : 0 < count) by (unfold count; lia).
  assert (Hq : 0 <= columnWidth) by (apply Z.div_pos; lia).
  assert (Hm : count * columnWidth <= sz_width size)
    by (apply Z.mul_div_le; lia).
  pose proof (Z.mod_pos_bound (sz_width size) count Hc) as Hmod.
  pose proof (Z.div_mod (sz_width size) count ltac:(lia)) as Hdm.
  fold columnWidth in Hdm.
  split; [ apply length_imap | ]. split; [ | split ].
  - intros i a Ha.
    destruct (Columns.layout_button st size row _ i a Hw Hrow Ha)
      as (Hx & Hwd & Hlt).
    fold count columnWidth in Hx, Hwd. rewrite Hx, Hwd.
    split; [ reflexivity | ]. split; nia.
  - intros i a b Ha Hb.
    destruct (Columns.layout_button st size row _ i a Hw Hrow Ha)
      as (Hx & Hwd & _).
    destruct (Columns.layout_button st size row _ (S i) b Hw Hrow Hb)
      as (Hx' & _ & _).
    fold count columnWidth in Hx, Hwd, Hx'. rewrite Hx, Hwd, Hx'. lia.
  - lia.
Qed.

Lemma accounts_columns_tile_witness :
  let row := AddAccountsRow Sample.parent sampleAccountsArgs in
  let size := {| sz_width := 320; sz_height := 105 |} in
  exists row' : AccountsRow,
    onContainerSize Sample.style size row = Some row'
    /\ length (accounts row') = 3%nat
    /\ (forall (i : nat) (a : Account),
          accounts row' !! i = Some a ->
          sz_width (btn_size (widget a)) = 320 / 3
          /\ 0 <= btn_x (widget a)
          /\ btn_x (widget a) + 320 / 3 <= 320)
    /\ (forall (i : nat) (a b : Account),
          accounts row' !! i = Some a ->
          accounts row' !! S i = Some b ->
          btn_x (widget a) + sz_width (btn_size (widget a))
          = btn_x (widget b))
    /\ 0 <= 320 - 3 * (320 / 3) < 3.
Proof.
  apply (accounts_columns_tile Sample.style
           (AddAccountsRow Sample.parent sampleAccountsArgs)
           {| sz_width := 320; sz_height := 105 |}).
  - vm_compute. split; discriminate.
  - vm_compute. lia.
Defined.

(** X8.  The layout of the accounts row depends on the last size only: a
    size event after another leaves the row that the later event alone
    would have left; so a size event that repeats the size changes
    nothing. *)
Theorem accounts_relayout_last_size_wins
    (st : Style) (row : AccountsRow) (s1 s2 : QSize)
    (Hn : (0 < length (accounts row))%nat) :
  exists r1 r2 : AccountsRow,
    onContainerSize st s1 row = Some r1
    /\ onContainerSize st s2 r1 = Some r2
    /\ onContainerSize st s2 row = Some r2
    /\ onContainerSize st s2 r2 = Some r2.
Proof.
  pose proof (Columns.onContainerSize_some st s1 row Hn) as H1.
  set (r1 := {| accounts := _ |}) in H1.
  assert (Hn1 : (0 < length (accounts r1))%nat)
    by (unfold r1; cbn [accounts]; rewrite length_imap; exact Hn).
  pose proof (Columns.onContainerSize_some st s2 r1 Hn1) as H2.
  set (r2 := {| accounts := _ |}) in H2.
  exists r1, r2. split; [ exact H1 | ]. split; [ exact H2 | ].
  assert (H3 : onContainerSize st s2 r1 = onContainerSize st s2 row).
  { eapply (Columns.onContainerSize_reads st s2 row r1); try reflexivity;
      [ exact Hn | ].
    intros i a. repeat split. }
  assert (H4 : onContainerSize st s2 r2 = onContainerSize st s2 r1).
  { eapply (Columns.onContainerSize_reads st s2 r1 r2); try reflexivity;
      [ exact Hn1 | ].
    intros i a. repeat split. }
  split; [ congruence | congruence ].
Qed.

Lemma accounts_relayout_last_size_wins_witness :
  let row := AddAccountsRow Sample.parent sampleAccountsArgs in
  let s1 := {| sz_width := 320; sz_height := 105 |} in
  let s2 := {| sz_width := 400; sz_height := 105 |} in
  exists r1 r2 : AccountsRow,
    onContainerSize Sample.style s1 row = Some r1
    /\ onContainerSize Sample.style s2 r1 = Some r2
    /\ onContainerSize Sample.style s2 row = Some r2
    /\ onContainerSize Sample.style s2 r2 = Some r2.
Proof.
  apply (accounts_relayout_last_size_wins Sample.style
           (AddAccountsRow Sample.parent sampleAccountsArgs)
           {| sz_width := 320; sz_height := 105 |}
           {| sz_width := 400; sz_height := 105 |}).
  vm_compute. lia.
Defined.

(** ** Which checkboxes are checked *)

Module Checks.

(** Of accounts whose checkbox at position [j] is checked when
    [off + j] is the value, one is checked when the value is the position
    of an account, and none otherwise. *)
Lemma checkedCount_offset (value : Z) (accs : list Account) :
  forall off : nat,
    (forall (j : nat) (a : Account),
       accs !! j = Some a ->
       cb_checked (checkbox a) = (Z.of_nat (off + j) =? value)) ->
    checkedCount accs
    = if (Z.of_nat off <=? value) && (value <? Z.of_nat (off + length accs))
      then 1%nat else 0%nat.
Proof.
  induction accs as [ | a accs IH ]; intros off Hok.
  - cbn. rewrite Nat.add_0_r.
    destruct (Z.of_nat off <=? value) eqn:E1;
      destruct (value <? Z.of_nat off) eqn:E2; try reflexivity.
    apply Z.leb_le in E1. apply Z.ltb_lt in E2. lia.
  - unfold checkedCount. cbn [List.filter].
    pose proof (Hok 0%nat a eq_refl) as Ha. rewrite Nat.add_0_r in Ha.
    assert (Hrest : forall (j : nat) (b : Account),
               accs !! j = Some b ->
               cb_checked (checkbox b) = (Z.of_nat (S off + j) =? value)).
    { intros j b Hb. rewrite (Hok (S j) b Hb). f_equal. f_equal. lia. }
    specialize (IH (S off) Hrest). unfold checkedCount in IH.
    rewrite Ha. cbn [length].
    destruct (Z.of_nat off =? value) eqn:E.
    + apply Z.eqb_eq in E. cbn [length]. rewrite IH.
      destruct (Z.of_nat (S off) <=? value) eqn:E1;
        [ apply Z.leb_le in E1; lia | ].
      cbn [andb].
      destruct (Z.of_nat off <=? value) eqn:E2;
        [ | apply Z.leb_gt in E2; lia ].
      destruct (value <? Z.of_nat (off + S (length accs))) eqn:E3;
        [ reflexivity | apply Z.ltb_ge in E3; lia ].
    + apply Z.eqb_neq in E. rewrite IH.
      replace (S off + length accs)%nat with (off + S (length accs))%nat
        by lia.
      destruct (Z.of_nat (S off) <=? value) eqn:E1;
        destruct (Z.of_nat off <=? value) eqn:E2; try reflexivity.
      * apply Z.leb_le in E1. apply Z.leb_gt in E2. lia.
      * apply Z.leb_gt in E1. apply Z.leb_le in E2. lia.
Qed.

Lemma checkedCount_ok (value : Z) (accs : list Account) :
  accounts_ok value accs ->
  checkedCount accs
  = if (0 <=? value) && (value <? Z.of_nat (length accs))
    then 1%nat else 0%nat.
Proof.
  intros Hok. apply (checkedCount_offset value accs 0).
  intros j a Ha. apply (Hok j a Ha).
Qed.

Lemma changedCallback_keeps (value : Z) (accs : list Account) :
  length (changedCallback value accs) = length accs
  /\ forall (j : nat) (a : Account),
       changedCallback value accs !! j = Some a ->
       exists a0 : Account,
         accs !! j = Some a0
         /\ widget a = widget a0 /\ name a = name a0 /\ badge a = badge a0
         /\ cb_colorOverride (checkbox a) = cb_colorOverride (checkbox a0)
         /\ cb_checked (checkbox a) = (Z.of_nat j =? value).
Proof.
  unfold changedCallback. split; [ apply length_imap | ].
  intros j a. rewrite list_lookup_imap.
  destruct (accs !! j) as [ a0 | ]; cbn; [ | discriminate ].
  intros [= <-]. exists a0. repeat split.
Qed.

End Checks.

(** X9.  The checkboxes of the accounts row mirror the value of the
    group.  In the row [AddAccountsRow] builds, the checkbox of an account
    is checked exactly when its position is the value the group has then:
    one checkbox is checked when that value is the position of an account,
    none when it is not.  The changed callback of the group does the same
    for the value it is called with, and leaves the buttons, the names, the
    badges and the colours alone. *)
Theorem accounts_checks_mirror_group
    (cont : Content) (args : AccountsRowArgs) (value : Z) :
  let row := AddAccountsRow cont args in
  let n := Z.of_nat (length (args_entries args)) in
  let changed := changedCallback value (accounts row) in
  (forall (j : nat) (a : Account),
     accounts row !! j = Some a ->
     cb_checked (checkbox a) = (Z.of_nat j =? rg_value (args_group args)))
  /\ checkedCount (accounts row)
     = (if (0 <=? rg_value (args_group args))
           && (rg_value (args_group args) <? n)
        then 1%nat else 0%nat)
  /\ length changed = length (accounts row)
  /\ (forall (j : nat) (a : Account),
        changed !! j = Some a ->
        exists a0 : Account,
          accounts row !! j = Some a0
          /\ widget a = widget a0 /\ name a = name a0 /\ badge a = badge a0
          /\ cb_colorOverride (checkbox a) = cb_colorOverride (checkbox a0)
          /\ cb_checked (checkbox a) = (Z.of_nat j =? value))
  /\ checkedCount changed
     = (if (0 <=? value) && (value <? n) then 1%nat else 0%nat).
Proof.
  intros row n changed.
  destruct (Row.AddAccountsRow_ok cont args) as [[_ Hok] Hlen].
  fold row in Hok, Hlen. cbn [AddAccountsRow group setChangedCallback rg_value]
    in Hok.
  destruct (Checks.changedCallback_keeps value (accounts row))
    as [Hlen' Hkeep].
  fold changed in Hlen', Hkeep.
  split; [ intros j a Ha; apply (Hok j a Ha) | ].
  split; [ rewrite (Checks.checkedCount_ok _ _ Hok), Hlen; reflexivity | ].
  split; [ exact Hlen' | ]. split; [ exact Hkeep | ].
  rewrite (Checks.checkedCount_ok value changed).
  - rewrite Hlen', Hlen. reflexivity.
  - apply (Row.changedCallback_ok value _ _ Hok).
Qed.

(** ** The photo of an account and its gradient *)

Module Photo.

(** The unsigned arithmetic of the photo offset, for any photo width of
    the [int] range: the subtraction may wrap, the conversion to [int]
    undoes it. *)
Lemma photoLeft_floor (left columnWidth photoWidth : Z) :
  0 <= left -> 0 <= columnWidth -> left + columnWidth <= CInt.int_max ->
  0 <= photoWidth <= CInt.int_max ->
  photoLeft left columnWidth photoWidth
  = left + (columnWidth - photoWidth) / 2.
Proof.
  unfold CInt.int_max. intros Hl Hc Hlc Hp.
  destruct (Z_le_gt_dec photoWidth columnWidth) as [ Hfit | Hwide ].
  - apply Row.photoLeft_fits; unfold CInt.int_max; lia.
  - unfold photoLeft.
    rewrite (Row.to_size_t_small photoWidth) by lia.
    assert (Hd : - 2 ^ 31 <= (columnWidth - photoWidth) / 2 < 0).
    { split.
      - apply Z.div_le_lower_bound; lia.
      - apply Z.div_lt_upper_bound; lia. }
    assert (Hwrap : CInt.to_size_t (columnWidth - photoWidth)
                    = 2 ^ 64 + (columnWidth - photoWidth)).
    { unfold CInt.to_size_t.
      rewrite <- (Z.mod_add _ 1) by lia.
      rewrite Z.mod_small by lia. lia. }
    rewrite Hwrap.
    replace (2 ^ 64 + (columnWidth - photoWidth))
      with (columnWidth - photoWidth + 2 ^ 63 * 2) by lia.
    rewrite Z.div_add by lia.
    rewrite Row.to_size_t_small by lia.
    unfold CInt.to_int.
    replace (left + ((columnWidth - photoWidth) / 2 + 2 ^ 63) + 2 ^ 31)
      with (left + (columnWidth - photoWidth) / 2 + 2 ^ 31
            + 2 ^ 31 * 2 ^ 32) by lia.
    rewrite Z.mod_add by lia. rewrite Z.mod_small by lia. lia.
Qed.

End Photo.

(** X10.  In the size handler of the accounts row the offset of the photo
    gradient is computed in unsigned arithmetic.  For a column inside the
    [int] range and any photo width of that range the offset given to
    [ComputeGradient] is [left + floor((columnWidth - photoWidth) / 2)],
    also when the photo is wider than the column and the unsigned
    subtraction wraps around. *)
Theorem photo_offset_survives_wrap
    (left columnWidth photoWidth : Z)
    (Hl : 0 <= left) (Hc : 0 <= columnWidth)
    (Hlc : left + columnWidth <= CInt.int_max)
    (Hp : 0 <= photoWidth <= CInt.int_max) :
  photoLeft left columnWidth photoWidth
  = left + (columnWidth - photoWidth) / 2
  /\ CInt.to_size_t (columnWidth - CInt.to_size_t photoWidth)
     = (if columnWidth <? photoWidth
        then 2 ^ 64 + columnWidth - photoWidth
        else columnWidth - photoWidth).
Proof.
  split; [ apply Photo.photoLeft_floor; assumption | ].
  unfold CInt.int_max in *.
  rewrite (Row.to_size_t_small photoWidth) by lia.
  destruct (columnWidth <? photoWidth) eqn:E.
  - apply Z.ltb_lt in E. unfold CInt.to_size_t.
    rewrite <- (Z.mod_add _ 1) by lia.
    rewrite Z.mod_small by lia. lia.
  - apply Z.ltb_ge in E. apply Row.to_size_t_small. lia.
Qed.

Lemma photo_offset_survives_wrap_witness :
  photoLeft 212 40 58 = 212 + (40 - 58) / 2
  /\ CInt.to_size_t (40 - CInt.to_size_t 58)
     = (if 40 <? 58 then 2 ^ 64 + 40 - 58 else 40 - 58).
Proof.
  apply (photo_offset_survives_wrap 212 40 58).
  - lia.
  - lia.
  - vm_compute. discriminate.
  - vm_compute. split; discriminate.
Defined.

(** X11.  The size handler and the paint handler of an account agree on
    where the photo is.  After a size event, for an account whose column
    holds the photo, the paint handler paints the checkbox at the offset
    [x] that centres the photo in the column, within one pixel, and
    [checkSelectWidth] below the top; the gradient the size handler gave
    the checkbox is the slice of the container that starts
    [checkSelectWidth] to the left of the photo and ends [checkSelectWidth]
    to the right of it. *)
Theorem photo_gradient_surrounds_photo
    (st : Style) (nameTop : Z) (divide : QSize -> Z -> QSize)
    (row : AccountsRow) (size : QSize) (i : nat) (a : Account)
    (Hw : 0 <= sz_width size <= CInt.int_max)
    (Ha : accounts row !! i = Some a)
    (Hr : 0 <= imageRadius row)
    (Hs : 0 <= checkSelectWidth row)
    (Hp : (imageRadius row + checkSelectWidth row) * 2 <= CInt.int_max)
    (Hfit : imageRadius row * 2
            <= sz_width size / Z.of_nat (length (accounts row))) :
  let columnWidth := sz_width size / Z.of_nat (length (accounts row)) in
  let x := (columnWidth - imageRadius row * 2) / 2 in
  let cont := {| content_width := sz_width size;
                 content_parent_width :=
                   content_parent_width (container row) |} in
  exists (row' : AccountsRow) (a' : Account) (rest : list AccountPaintOp),
    onContainerSize st size row = Some row'
    /\ accounts row' !! i = Some a'
    /\ paintAccount st nameTop divide row' a'
       = ApPaintCheckbox (checkbox a') x (checkSelectWidth row) columnWidth
         :: rest
    /\ cb_colorOverride (checkbox a')
       = Some (GradientBrush
                 (ComputeGradient cont
                    (btn_x (widget a') + x - checkSelectWidth row)
                    (checkSelectWidth row + imageRadius row * 2
                     + checkSelectWidth row)))
    /\ 0 <= columnWidth - (x + imageRadius row * 2 + x) <= 1.
Proof.
  intros columnWidth x cont.
  pose proof (lookup_lt_Some _ _ _ Ha) as Hlt.
  set (count := Z.of_nat (length (accounts row))) in *.
  assert (Hi : 0 <= Z.of_nat i < count) by (unfold count; lia).
  destruct (Row.layout_arith (sz_width size) count (Z.of_nat i) Hw Hi)
    as (Hcw & Hleft & Hcw' & Hleft' & _).
  assert (Hq : 0 <= columnWidth) by (apply Z.div_pos; lia).
  assert (Hm : count * columnWidth <= sz_width size)
    by (apply Z.mul_div_le; lia).
  assert (Hil : 0 <= Z.of_nat i * columnWidth
                /\ Z.of_nat i * columnWidth + columnWidth <= sz_width size)
    by nia.
  unfold CInt.int_max in Hw, Hp.
  rewrite (Columns.onContainerSize_some st size row ltac:(lia)).
  eexists. eexists. eexists. split; [ reflexivity | ].
  cbn [accounts]. rewrite list_lookup_imap, Ha.
  cbn [fmap option_fmap option_map]. split; [ reflexivity | ].
  fold count.
  unfold paintAccount, layoutAccount.
  cbn [widget checkbox btn_size btn_x sz_width imageRadius checkSelectWidth
       Checkbox_setColorOverride cb_colorOverride].
  rewrite Hcw', Hleft', Hleft, Hcw. fold columnWidth.
  rewrite (Z.quot_div_nonneg (columnWidth - imageRadius row * 2) 2) by lia.
  fold x. split; [ reflexivity | ].
  assert (Hx : 0 <= x) by (apply Z.div_pos; lia).
  pose proof (Z.div_mod (columnWidth - imageRadius row * 2) 2 ltac:(lia))
    as Hdm.
  pose proof (Z.mod_pos_bound (columnWidth - imageRadius row * 2) 2
                ltac:(lia)) as Hmod.
  fold x in Hdm.
  split; [ | lia ].
  rewrite Photo.photoLeft_floor; unfold CInt.int_max; try lia.
  replace (columnWidth - (imageRadius row + checkSelectWidth row) * 2)
    with (columnWidth - imageRadius row * 2
          + (- checkSelectWidth row) * 2) by lia.
  rewrite Z.div_add by lia. fold x.
  f_equal. f_equal. f_equal; lia.
Qed.

Lemma photo_gradient_surrounds_photo_witness :
  let row := AddAccountsRow Sample.parent sampleAccountsArgs in
  let size := {| sz_width := 320; sz_height := 105 |} in
  let cont := {| content_width := 320; content_parent_width := 364 |} in
  exists (row' : AccountsRow) (a' : Account) (rest : list AccountPaintOp),
    onContainerSize Sample.style size row = Some row'
    /\ accounts row' !! 2%nat = Some a'
    /\ paintAccount Sample.style 8 QSize_scale row' a'
       = ApPaintCheckbox (checkbox a') ((320 / 3 - 27 * 2) / 2) 2 (320 / 3)
         :: rest
    /\ cb_colorOverride (checkbox a')
       = Some (GradientBrush
                 (ComputeGradient cont
                    (btn_x (widget a') + (320 / 3 - 27 * 2) / 2 - 2)
                    (2 + 27 * 2 + 2)))
    /\ 0 <= 320 / 3
            - ((320 / 3 - 27 * 2) / 2 + 27 * 2 + (320 / 3 - 27 * 2) / 2)
       <= 1.
Proof.
  apply (photo_gradient_surrounds_photo Sample.style 8 QSize_scale
           (AddAccountsRow Sample.parent sampleAccountsArgs)
           {| sz_width := 320; sz_height := 105 |} 2
           {| widget := {| btn_x := 0; btn_y := 0;
                           btn_size := {| sz_width := 0; sz_height := 0 |};
                           btn_clicked := Some 2 |};
              checkbox := {| cb_checked := false;
                             cb_colorOverride := None |};
              name := "third";
              badge := QPixmap_null |}).
  - vm_compute. split; discriminate.
  - reflexivity.
  - vm_compute. discriminate.
  - vm_compute. discriminate.
  - vm_compute. discriminate.
  - vm_compute. discriminate.
Defined.

(** ** What every run of a bubble widget paints *)

Module Painted.

Section Runs.

Context {F : Type} `{Float64 F} (st : Style).

(** A property of the state that every handler keeps, with a property of
    the commands that every handler paints in such a state, holds along
    every run. *)
Lemma run_Forall (G : Event F -> Prop) (P : BubbleWidget F -> Prop)
    (Q : PaintOp F -> Prop) :
  (forall (ev : Event F) (bw : BubbleWidget F),
     G ev -> P bw ->
     P (fst (handle st ev bw)) /\ Forall Q (snd (handle st ev bw))) ->
  forall (evs : list (Event F)) (bw : BubbleWidget F),
    Forall G evs -> P bw ->
    P (fst (run st evs bw)) /\ Forall Q (snd (run st evs bw)).
Proof.
  intros Hstep evs. induction evs as [ | ev evs IH ]; intros bw HG HP.
  - split; [ exact HP | constructor ].
  - cbn [run]. apply Forall_cons in HG. destruct HG as [Hev HG].
    destruct (Hstep ev bw Hev HP) as [HP1 HQ1].
    destruct (handle st ev bw) as [bw1 ops1]. cbn [fst snd] in HP1, HQ1.
    destruct (IH bw1 HG HP1) as [HP2 HQ2].
    destruct (run st evs bw1) as [bw2 ops2]. cbn [fst snd] in *.
    split; [ exact HP2 | apply Forall_app; split; assumption ].
Qed.

Lemma Forall_any (evs : list (Event F)) : Forall (fun _ => True) evs.
Proof. apply Forall_forall. intros ev _. exact I. Qed.

(** [setCounter] and [setTailEdge] keep what the constructor fixed. *)
Lemma setCounter_fixed (value : Z) (b : Bubble F) :
  _premiumPossible (setCounter value b) = _premiumPossible b
  /\ _textFactory (setCounter value b) = _textFactory b.
Proof.
  unfold setCounter. destruct (negb (_counter b =? value)); split; reflexivity.
Qed.

Lemma handle_premium (p : bool) (ev : Event F) (bw : BubbleWidget F) :
  premium_is p bw ->
  premium_is p (fst (handle st ev bw))
  /\ Forall (premium_op p) (snd (handle st ev bw)).
Proof.
  intros [Hw Hb]. destruct ev as [ | v | | ]; cbn [handle fst snd].
  - split; [ | constructor ].
    unfold onShowFinishes. destruct (w_showFinishesLeft bw); split; assumption.
  - split; [ | constructor ].
    unfold onAnimationTick. destruct (_appearanceAnimation bw);
      [ | split; assumption ].
    split; [ exact Hw | ].
    cbn. destruct (setCounter_fixed (counterAt bw v) (_bubble bw)) as [-> _].
    exact Hb.
  - split; [ | constructor ].
    unfold onAnimationFinished. destruct (_appearanceAnimation bw) as [ a | ];
      [ | split; assumption ].
    split; [ exact Hw | ].
    cbn. destruct (setCounter_fixed (counterAt bw (anim_to a)) (_bubble bw))
      as [-> _].
    exact Hb.
  - unfold paintEvent. destruct (counter (_bubble bw) <=? 0) eqn:Ec.
    + cbn [fst snd]. split; [ split; assumption | constructor ].
    + assert (Hpaint : forall (r : QRect),
                 Forall (premium_op p)
                   (paintBubble st (_bubble bw) r
                      (if p then GradientBrush (_cachedGradient bw)
                       else SolidBrush (StyleColor "windowBgActive")))).
      { intros r. unfold paintBubble.
        destruct (_counter (_bubble bw) <? 0); [ constructor | ].
        rewrite Hb. repeat constructor; cbn [premium_op].
        - destruct p; [ eexists; reflexivity | reflexivity ].
        - destruct p; reflexivity. }
      destruct (_appearanceAnimation bw) as [ a | ]; cbn [fst snd].
      * split; [ split; assumption | ].
        cbn [with_animation w_premiumPossible _bubble _cachedGradient].
        rewrite Hw. apply Forall_app. split.
        -- apply Forall_app. split; [ repeat constructor | ].
           apply Forall_app. split; [ | repeat constructor ].
           destruct (_ignoreDeflection bw); repeat constructor.
        -- destruct p.
           ++ unfold paintBubble.
              destruct (_counter (_bubble bw) <? 0); [ constructor | ].
              rewrite Hb. repeat constructor; cbn [premium_op].
              eexists; reflexivity.
           ++ apply Hpaint.
      * split; [ split; assumption | ].
        cbn [app]. rewrite Hw. apply Hpaint.
Qed.

End Runs.

End Painted.

(** X12.  [premiumPossible] decides the tail and the brush of everything a
    bubble widget ever paints: with it the bubble path has the tail of six
    path commands and is filled with a gradient brush, without it the path
    has no tail and is filled with the plain colour [windowBgActive]; this
    holds for every painter command of every run of the widget. *)
Theorem premium_decides_tail_and_brush
    {F : Type} `{Float64 F}
    (st : Style) (parent : Content) (textFactory : Z -> string)
    (current maxCounter : Z) (premiumPossible : bool) (icon : Icon)
    (evs : list (Event F)) :
  Forall (premium_op premiumPossible)
    (snd (run st evs
            (BubbleWidget_new st parent textFactory current maxCounter
               premiumPossible icon))).
Proof.
  apply (Painted.run_Forall st (fun _ => True) (premium_is premiumPossible)).
  - intros ev bw _. apply Painted.handle_premium.
  - apply Painted.Forall_any.
  - split; reflexivity.
Qed.

(** ** The deflection of the bubble *)

Module Deflect.

Section Runs.

Context {F : Type} `{Float64 F} (st : Style).

Lemma handle_deflection (ev : Event F) (bw : BubbleWidget F) :
  deflection_state bw ->
  deflection_state (fst (handle st ev bw))
  /\ Forall rotate_op (snd (handle st ev bw)).
Proof.
  intros (Hs & Hd & Hone). destruct ev as [ | v | | ]; cbn [handle fst snd].
  - split; [ | constructor ].
    unfold onShowFinishes.
    destruct (w_showFinishesLeft bw) as [ | n ] eqn:El;
      [ repeat split; try assumption; rewrite El; lia | ].
    assert (Hn : n = O) by lia. subst n.
    split; [ | split; [ exact Hd | cbn; lia ] ].
    destruct Hs as [ (Hi & Hb & Ha) | (_ & _ & _ & Hl) ]; [ | congruence ].
    unfold steps_state. cbn.
    destruct (to_bool (checkBubbleEdges st bw)).
    + right. repeat split.
    + left. repeat split; assumption.
  - split; [ | constructor ].
    unfold onAnimationTick. destruct (_appearanceAnimation bw);
      repeat split; assumption.
  - split; [ | constructor ].
    unfold onAnimationFinished. destruct (_appearanceAnimation bw);
      repeat split; assumption.
  - unfold paintEvent. destruct (counter (_bubble bw) <=? 0).
    + cbn [fst snd]. split; [ repeat split; assumption | constructor ].
    + assert (Hb : forall b r brush,
                 Forall rotate_op (paintBubble st b r brush)).
      { intros b r brush. unfold paintBubble.
        destruct (_counter b <? 0); repeat constructor. }
      destruct (_appearanceAnimation bw) as [ a | ]; cbn [fst snd].
      * split; [ repeat split; assumption | ].
        apply Forall_app. split; [ | apply Hb ].
        apply Forall_app. split; [ repeat constructor | ].
        apply Forall_app. split; [ | repeat constructor ].
        destruct (_ignoreDeflection bw) eqn:Ei; [ constructor | ].
        destruct Hs as [ (_ & Hbefore & Hafter) | (Hi & _) ]; [ | congruence ].
        repeat constructor. cbn [rotate_op].
        exists (anim_value a), (_deflection bw). split; [ exact Hd | ].
        rewrite Hbefore, Hafter. reflexivity.
      * split; [ repeat split; assumption | apply Hb ].
Qed.

End Runs.

End Deflect.

(** X13.  The two steps of a bubble widget are the constants [0.75] and
    [0.875] as long as [_ignoreDeflection] is false, and both [1.] once the
    handler of [showFinishes] has set it; they never change otherwise.
    Every rotation a run of the widget paints is by the angle of the two
    constants, and by a deflection of [30.] or [20.]: with the steps at
    [1.], where the divisors [1. - step] of the angle are zero, nothing is
    rotated. *)
Theorem rotation_uses_constant_steps
    {F : Type} `{Float64 F}
    (st : Style) (parent : Content) (textFactory : Z -> string)
    (current maxCounter : Z) (premiumPossible : bool) (icon : Icon)
    (evs : list (Event F)) :
  let r := run st evs
             (BubbleWidget_new st parent textFactory current maxCounter
                premiumPossible icon) in
  steps_state (fst r) /\ Forall rotate_op (snd r).
Proof.
  intros r.
  destruct (Painted.run_Forall st (fun _ => True) deflection_state rotate_op
              (fun ev bw _ => Deflect.handle_deflection st ev bw) evs
              (BubbleWidget_new st parent textFactory current maxCounter
                 premiumPossible icon)) as [(Hs & _) Hq].
  - apply Painted.Forall_any.
  - split; [ left; repeat split | ]. split; [ | cbn; lia ].
    cbn. destruct (premiumBubbleWidthLimit st <? _); auto.
  - split; assumption.
Qed.

(** ** The progress values on binary64 *)

Module Unit64.

Lemma kStepBeforeDeflection_binary64 :
  (kStepBeforeDeflection : spec_float)
  = S754_finite false 6755399441055744 (-53).
Proof. vm_compute. reflexivity. Qed.

Lemma kStepBeforeDeflection_B2Q :
  (B2Q (S754_finite false 6755399441055744 (-53)) == 3 # 4)%Q.
Proof. vm_compute. reflexivity. Qed.

(** The values the two steps take. *)
Lemma steps_facts (s : IEEE.float64) :
  s = kStepBeforeDeflection \/ s = kStepAfterDeflection \/ s = fone ->
  nonneg s = true /\ valid64 s = true
  /\ (1 # 2 <= B2Q s)%Q /\ (0 < B2Q s)%Q /\ (B2Q s <= 1)%Q.
Proof.
  intros [ -> | Hs ]; [ | apply Steps.step_facts, Hs ].
  change (@kStepBeforeDeflection IEEE.float64 IEEE.binary64)
    with (@kStepBeforeDeflection spec_float IEEE.binary64).
  rewrite kStepBeforeDeflection_binary64, kStepBeforeDeflection_B2Q.
  repeat split; discriminate.
Qed.

Lemma round64_one : (round64 1 == 1)%Q.
Proof.
  apply (CounterProgress.rnd_int round64 Binary64.round64_valid 1).
  reflexivity.
Qed.

(** [std::clamp(v / step, 0., 1.)] of a value of [[0, 1]] is a value of
    [[0, 1]]. *)
Lemma unit_quotient (v step : IEEE.float64) :
  nonneg step = true -> valid64 step = true -> (1 # 2 <= B2Q step)%Q ->
  unit_value v ->
  unit_value (clamp SFltb (SFdiv 53 1024 v step) fzero fone).
Proof.
  intros Ns Vs Hs [Vv Rv].
  pose proof (Binary64.in_unit_range_nonneg v Rv) as Nv.
  pose proof (Binary64.in_unit_range_value v Rv Vv) as [Hv0 Hv1].
  assert (Hq : (B2Q v / B2Q step <= 2)%Q).
  { apply Qle_shift_div_r; lra. }
  destruct (Ops.SFdiv_correct v step Nv Ns Vv Vs ltac:(lra)) as (Nq & Vq & Eq).
  { apply Simulation.small_lt_pow2. apply (Qle_trans _ _ _ Hq).
    change 2%Q with (inject_Z 2). rewrite <- Zle_Qle. lia. }
  destruct (Binary64.clamp_unit _ Nq Vq) as (Np & Vp & Ep).
  change (@fzero spec_float IEEE.binary64)
    with (@fzero IEEE.float64 IEEE.binary64) in *.
  change (@fone spec_float IEEE.binary64)
    with (@fone IEEE.float64 IEEE.binary64) in *.
  set (p := clamp SFltb (SFdiv 53 1024 v step) fzero fone) in *.
  split; [ exact Vp | ].
  assert (Hle : (round64 0 <= round64 1)%Q)
    by (apply Round.round64_mono; discriminate).
  pose proof (CounterProgress.clamp_Q_between
                (B2Q (SFdiv 53 1024 v step)) (round64 0) (round64 1) Hle)
    as [_ Hhi].
  pose proof round64_one as H1.
  unfold IEEE.in_unit_range. apply andb_true_intro. split.
  - change (@fzero spec_float IEEE.binary64) with (S754_zero false).
    rewrite Order.SFleb_correct by (reflexivity || assumption).
    apply Qle_bool_iff. apply Ops.B2Q_nonneg, Np.
  - rewrite Binary64.fone_value.
    rewrite Order.SFleb_correct by (reflexivity || assumption).
    apply Qle_bool_iff. rewrite Binary64.fone_B2Q.
    apply (Qle_trans _ (round64 1)); [ | rewrite H1; apply Qle_refl ].
    apply (Qle_trans _ (clamp Rounded.Qltb (B2Q (SFdiv 53 1024 v step))
                          (round64 0) (round64 1)));
      [ | exact Hhi ].
    apply Qle_lteq. right. exact Ep.
Qed.

Lemma handle_anim_unit (st : Style) (ev : Event IEEE.float64)
    (bw : BubbleWidget IEEE.float64) :
  unit_tick ev -> anim_unit bw -> anim_unit (fst (handle st ev bw)).
Proof.
  intros Hev Hbw. destruct ev as [ | v | | ]; cbn [handle fst].
  - unfold onShowFinishes. destruct (w_showFinishesLeft bw); [ exact Hbw | ].
    intros a. cbn. intros [= <-]. cbn. split; vm_compute; reflexivity.
  - unfold onAnimationTick.
    destruct (_appearanceAnimation bw) as [ a0 | ] eqn:Ea; [ | exact Hbw ].
    intros a. cbn. rewrite Ea. intros [= <-]. exact Hev.
  - unfold onAnimationFinished.
    destruct (_appearanceAnimation bw) as [ a0 | ] eqn:Ea; [ | exact Hbw ].
    intros a. cbn. discriminate.
  - unfold paintEvent. destruct (counter (_bubble bw) <=? 0); [ exact Hbw | ].
    destruct (_appearanceAnimation bw) as [ a0 | ] eqn:Ea; cbn [fst].
    + intros a. cbn. intros [= <-]. apply Hbw, Ea.
    + exact Hbw.
Qed.

Lemma paintEvent_scale (st : Style) (bw : BubbleWidget IEEE.float64) :
  steps_state bw -> anim_unit bw ->
  Forall scale_op (snd (paintEvent st bw)).
Proof.
  intros Hs Ha. unfold paintEvent.
  destruct (counter (_bubble bw) <=? 0); [ constructor | ].
  assert (Hb : forall b r brush,
             Forall scale_op (paintBubble st b r brush)).
  { intros b r brush. unfold paintBubble.
    destruct (_counter b <? 0); repeat constructor. }
  destruct (_appearanceAnimation bw) as [ a | ] eqn:Ea; cbn [fst snd];
    [ | apply Hb ].
  apply Forall_app. split; [ | apply Hb ].
  apply Forall_app. split.
  - constructor; [ exact I | ]. constructor; [ | constructor ].
    cbn [scale_op]. split; [ reflexivity | ].
    assert (Hstep : _stepBeforeDeflection bw = kStepBeforeDeflection
                    \/ _stepBeforeDeflection bw = kStepAfterDeflection
                    \/ _stepBeforeDeflection bw = fone).
    { destruct Hs as [ (_ & -> & _) | (_ & -> & _) ]; auto. }
    destruct (steps_facts _ Hstep) as (Ns & Vs & Hh & _).
    apply (unit_quotient (anim_value a) (_stepBeforeDeflection bw) Ns Vs Hh).
    apply Ha, Ea.
  - apply Forall_app. split; [ | repeat constructor ].
    destruct (_ignoreDeflection bw); repeat constructor.
Qed.

End Unit64.

(** X14.  On binary64, when the animation delivers values of [[0, 1]],
    every scaling a run of a bubble widget paints is by one factor of
    [[0, 1]] in both directions: the bubble is never painted larger than
    its size, mirrored, or scaled by a NaN. *)
Theorem paint_scale_in_unit_range
    (st : Style) (parent : Content) (textFactory : Z -> string)
    (current maxCounter : Z) (premiumPossible : bool) (icon : Icon)
    (evs : list (Event IEEE.float64))
    (Hev : Forall unit_tick evs) :
  Forall scale_op
    (snd (run st evs
            (BubbleWidget_new st parent textFactory current maxCounter
               premiumPossible icon))).
Proof.
  apply (Painted.run_Forall st unit_tick
           (fun bw => deflection_state bw /\ anim_unit bw) scale_op).
  - intros ev bw Hg [Hd Ha].
    destruct (Deflect.handle_deflection st ev bw Hd) as [Hd' _].
    split; [ split; [ exact Hd' | apply Unit64.handle_anim_unit; assumption ] | ].
    destruct ev as [ | v | | ]; cbn [handle snd]; try constructor.
    apply Unit64.paintEvent_scale; [ apply Hd | exact Ha ].
  - exact Hev.
  - split.
    + split; [ left; repeat split | ]. split; [ | cbn; lia ].
      cbn. destruct (premiumBubbleWidthLimit st <? _); auto.
    + intros a. cbn. discriminate.
Qed.

Lemma paint_scale_in_unit_range_witness :
  Forall scale_op
    (snd (run Sample.style
            [ ShowFinished; AnimationTick (flit (1 # 4)); Paint;
              AnimationTick (flit (3 # 4)); Paint; AnimationFinished; Paint ]
            (Sample.bubbleWidget 57 100))).
Proof.
  apply (paint_scale_in_unit_range Sample.style Sample.parent QString_number
           57 100 true Sample.icon).
  repeat constructor; vm_compute; reflexivity.
Defined.

(** ** The number a bubble widget paints *)

Module Numbers.






End Numbers.



(** ** Where the counter starts and where it is full *)

Module Full.

Section Rounding.

Variable rnd : Q -> Q.
Hypothesis Hrnd : Rounded.valid_rounding rnd.

(** At the value [0.] the float the callback truncates is [0.]. *)
Lemma scaled_zero (step v : Q) (current : Z) :
  (0 < step)%Q -> (v == 0)%Q -> 0 <= current <= CInt.int_max ->
  (Rounded.scaled rnd step v current == 0)%Q.
Proof.
  intros Hs Hv Hc.
  pose proof (CounterProgress.scaled_between rnd Hrnd step current Hc v)
    as [Hlo _].
  apply Qle_antisym; [ | exact Hlo ].
  pose proof (CounterProgress.rnd_int rnd Hrnd 0 eq_refl) as H0.
  change (inject_Z 0) with 0%Q in H0.
  pose proof (CounterProgress.rnd_int rnd Hrnd current
                (CounterProgress.in_int_current current Hc)) as Hcur.
  assert (Hq : (rnd (v / step) == 0)%Q).
  { rewrite <- H0. apply (CounterProgress.rnd_proper rnd Hrnd).
    rewrite Hv. unfold Qdiv. ring. }
  assert (Hp : (Rounded.progress rnd step v <= 0)%Q).
  { unfold Rounded.progress, clamp.
    destruct (Rounded.Qltb (rnd (v / step)) (rnd 0)) eqn:E1;
      [ rewrite H0; apply Qle_refl | ].
    destruct (Rounded.Qltb (rnd 1) (rnd (v / step))) eqn:E2;
      [ | rewrite Hq; apply Qle_refl ].
    apply CounterProgress.Qltb_true in E2.
    pose proof (CounterProgress.rnd_int rnd Hrnd 1 eq_refl) as H1.
    change (inject_Z 1) with 1%Q in H1. lra. }
  pose proof (CounterProgress.progress_between rnd Hrnd step v) as [Hp0 _].
  assert (Hp' : (Rounded.progress rnd step v == 0)%Q)
    by (apply Qle_antisym; assumption).
  unfold Rounded.scaled. change (inject_Z 0) with 0%Q.
  assert (Hm : (rnd (Rounded.progress rnd step v * rnd (inject_Z current))
                == 0)%Q).
  { rewrite <- H0. apply (CounterProgress.rnd_proper rnd Hrnd).
    rewrite Hp'. ring. }
  apply (Qle_trans _ (rnd 0)); [ | rewrite H0; apply Qle_refl ].
  apply Qle_lteq. right.
  apply (CounterProgress.rnd_proper rnd Hrnd). rewrite Hm, H0. ring.
Qed.

End Rounding.

Lemma fzero_unit : unit_value fzero.
Proof. split; vm_compute; reflexivity. Qed.

End Full.

(** X16.  On binary64, in every state a bubble widget reaches, with a
    target of the [int] range that is not negative: the callback of the
    animation computes the counter [0] for the value [0.], so the first
    frame paints nothing, and the target itself for every value of [[0, 1]]
    from [_stepAfterDeflection] on, which is [0.875], or [1.] once a bubble
    edge was found. *)
Theorem counter_full_from_step_after
    (st : Style) (parent : Content) (textFactory : Z -> string)
    (current maxCounter : Z) (premiumPossible : bool) (icon : Icon)
    (evs : list (Event IEEE.float64)) (v : IEEE.float64)
    (Hcur : 0 <= current <= CInt.int_max)
    (Hv : unit_value v)
    (Hle : SFleb (_stepAfterDeflection
                    (fst (run st evs
                            (BubbleWidget_new st parent textFactory current
                               maxCounter premiumPossible icon)))) v
           = true) :
  let bw := fst (run st evs
                   (BubbleWidget_new st parent textFactory current
                      maxCounter premiumPossible icon)) in
  (_stepAfterDeflection bw = kStepAfterDeflection
   \/ _stepAfterDeflection bw = fone)
  /\ counterAt bw fzero = 0
  /\ counterAt bw v = current.
Proof.
  intros bw. destruct Hv as [Vv Rv].
  set (bw0 := BubbleWidget_new st parent textFactory current maxCounter
                premiumPossible icon) in *.
  fold bw in Hle.
  destruct (CounterProgress.run_fields st evs bw0) as [Hc Hs].
  fold bw in Hc, Hs. change (_currentCounter bw0) with current in Hc.
  change (_stepAfterDeflection bw0)
    with (kStepAfterDeflection : IEEE.float64) in Hs.
  destruct (Steps.step_facts _ Hs) as (Ns & Vs & Hh & Hs0 & Hs1).
  assert (Hcur' : 0 <= _currentCounter bw <= CInt.int_max)
    by (rewrite Hc; exact Hcur).
  split; [ exact Hs | ]. split.
  - destruct Full.fzero_unit as [V0 R0].
    rewrite (Simulation.counterAt_binary64 bw fzero Ns Vs Hh Hcur' R0 V0).
    destruct (CounterProgress.to_Z_scaled round64 Binary64.round64_valid
                (B2Q (_stepAfterDeflection bw)) _ Hcur'
                (B2Q (fzero : IEEE.float64))) as [-> _].
    apply CounterProgress.Qtrunc_inject; [ lia | ].
    apply (Full.scaled_zero round64 Binary64.round64_valid);
      [ exact Hs0 | reflexivity | exact Hcur' ].
  - pose proof (Binary64.in_unit_range_nonneg v Rv) as Nv.
    rewrite Order.SFleb_correct in Hle by assumption.
    apply Qle_bool_iff in Hle.
    rewrite (Simulation.counterAt_binary64 bw v Ns Vs Hh Hcur' Rv Vv).
    destruct (CounterProgress.to_Z_scaled round64 Binary64.round64_valid
                (B2Q (_stepAfterDeflection bw)) _ Hcur' (B2Q v)) as [-> _].
    rewrite <- Hc. apply CounterProgress.Qtrunc_inject; [ lia | ].
    apply (CounterProgress.scaled_saturates round64 Binary64.round64_valid);
      assumption.
Qed.

Lemma counter_full_from_step_after_witness :
  let bw := fst (run Sample.style [ ShowFinished; AnimationTick (flit (1 # 4)) ]
                   (Sample.bubbleWidget 57 100)) in
  (_stepAfterDeflection bw = kStepAfterDeflection
   \/ _stepAfterDeflection bw = fone)
  /\ counterAt bw fzero = 0
  /\ counterAt bw (flit (9 # 10)) = 57.
Proof.
  apply (counter_full_from_step_after Sample.style Sample.parent
           QString_number 57 100 true Sample.icon
           [ ShowFinished; AnimationTick (flit (1 # 4)) ] (flit (9 # 10))).
  - vm_compute. split; discriminate.
  - split; vm_compute; reflexivity.
  - vm_compute. reflexivity.
Defined.

(** ** Where the bubble is painted *)

(** X17.  A bubble widget is as large as its bubble plus
    [premiumBubbleSkip] in both directions, from the constructor on and
    after every change of the width of the bubble.  A paint event then
    paints the bubble in the rectangle of the size of the bubble at the
    bottom left of the widget, the skip staying free above and to the
    right; while the animation runs, the painter is scaled and rotated
    around the middle of the bottom edge of that rectangle, and moved back
    afterwards. *)
Theorem bubble_painted_in_own_rect
    {F : Type} `{Float64 F}
    (st : Style) (bw : BubbleWidget F)
    (Hc : 0 < counter (_bubble bw)) :
  let bw1 := onWidthChanges st bw in
  let skip := premiumBubbleSkip st in
  let w := width st (_bubble bw) in
  let h := height (_bubble bw) in
  let rect := {| r_x := 0; r_y := skip; r_width := w; r_height := h |} in
  (forall (parent : Content) (textFactory : Z -> string)
          (current maxCounter : Z) (premiumPossible : bool) (icon : Icon),
     onWidthChanges st
       (BubbleWidget_new st parent textFactory current maxCounter
          premiumPossible icon)
     = BubbleWidget_new st parent textFactory current maxCounter
         premiumPossible icon)
  /\ w_size bw1 = {| sz_width := w + skip; sz_height := h + skip |}
  /\ exists (transform : list (PaintOp F)) (brush : QBrush),
       snd (paintEvent st bw1)
       = transform ++ paintBubble st (_bubble bw) rect brush
       /\ match _appearanceAnimation bw with
          | None => transform = []
          | Some _ =>
              exists middle : list (PaintOp F),
                transform
                = OpTranslate (Z.quot w 2) (skip + h)
                  :: middle
                  ++ [ OpTranslate (- Z.quot w 2) (- (skip + h)) ]
          end.
Proof.
  intros bw1 skip w h rect. split; [ reflexivity | ].
  split; [ reflexivity | ].
  unfold paintEvent.
  change (counter (_bubble bw1)) with (counter (_bubble bw)).
  destruct (counter (_bubble bw) <=? 0) eqn:E;
    [ apply Z.leb_le in E; lia | ].
  change (_appearanceAnimation bw1) with (_appearanceAnimation bw).
  assert (Hrect : QRect_shrink
                    {| r_x := 0; r_y := 0;
                       r_width := sz_width (w_size bw1);
                       r_height := sz_height (w_size bw1) |}
                    {| m_left := 0;
                       m_top := sz_height (_spaceForDeflection bw1);
                       m_right := sz_width (_spaceForDeflection bw1);
                       m_bottom := 0 |} = rect).
  { unfold QRect_shrink, rect. cbn. fold skip w h. f_equal; lia. }
  rewrite Hrect.
  destruct (_appearanceAnimation bw) as [ a | ]; cbn [fst snd].
  - eexists. eexists. split; [ reflexivity | ].
    cbn [rect r_x r_y r_width r_height].
    rewrite !Z.add_0_l. cbn [app].
    eexists (_ :: _). cbn [app]. reflexivity.
  - exists [], (if w_premiumPossible bw1
                then GradientBrush (_cachedGradient bw1)
                else SolidBrush (StyleColor "windowBgActive")).
    split; reflexivity.
Qed.

Lemma bubble_painted_in_own_rect_witness :
  let bw := fst (run Sample.style
                   [ ShowFinished; AnimationTick (flit (1 # 4)) ]
                   (Sample.bubbleWidget 57 100)) in
  let bw1 := onWidthChanges Sample.style bw in
  let skip := premiumBubbleSkip Sample.style in
  let w := width Sample.style (_bubble bw) in
  let h := height (_bubble bw) in
  let rect := {| r_x := 0; r_y := skip; r_width := w; r_height := h |} in
  (forall (parent : Content) (textFactory : Z -> string)
          (current maxCounter : Z) (premiumPossible : bool) (icon : Icon),
     onWidthChanges Sample.style
       (BubbleWidget_new (F := IEEE.float64) Sample.style parent textFactory
          current maxCounter premiumPossible icon)
     = BubbleWidget_new Sample.style parent textFactory current maxCounter
         premiumPossible icon)
  /\ w_size bw1 = {| sz_width := w + skip; sz_height := h + skip |}
  /\ exists (transform : list (PaintOp IEEE.float64)) (brush : QBrush),
       snd (paintEvent Sample.style bw1)
       = transform ++ paintBubble Sample.style (_bubble bw) rect brush
       /\ match _appearanceAnimation bw with
          | None => transform = []
          | Some _ =>
              exists middle : list (PaintOp IEEE.float64),
                transform
                = OpTranslate (Z.quot w 2) (skip + h)
                  :: middle
                  ++ [ OpTranslate (- Z.quot w 2) (- (skip + h)) ]
          end.
Proof.
  apply (bubble_painted_in_own_rect Sample.style
           (fst (run Sample.style
                   [ ShowFinished; AnimationTick (flit (1 # 4)) ]
                   (Sample.bubbleWidget 57 100)))).
  vm_compute. reflexivity.
Defined.

(** ** The height of the bubble row *)

Module RowHeight.

Section Runs.

Context {F : Type} `{Float64 F} (st : Style).

Lemma setCounter_height (value : Z) (b : Bubble F) :
  _height (setCounter value b) = _height b.
Proof.
  unfold setCounter. destruct (negb (_counter b =? value)); reflexivity.
Qed.

Lemma handle_height (ev : Event F) (bw : BubbleWidget F) :
  height (_bubble (fst (handle st ev bw))) = height (_bubble bw).
Proof.
  unfold height. destruct ev as [ | v | | ]; cbn [handle fst].
  - unfold onShowFinishes. destruct (w_showFinishesLeft bw); reflexivity.
  - unfold onAnimationTick. destruct (_appearanceAnimation bw);
      [ | reflexivity ].
    cbn. apply setCounter_height.
  - unfold onAnimationFinished. destruct (_appearanceAnimation bw);
      [ | reflexivity ].
    cbn. apply setCounter_height.
  - unfold paintEvent. destruct (counter (_bubble bw) <=? 0); [ reflexivity | ].
    destruct (_appearanceAnimation bw); reflexivity.
Qed.

Lemma run_height (evs : list (Event F)) :
  forall bw : BubbleWidget F,
    height (_bubble (fst (run st evs bw))) = height (_bubble bw).
Proof.
  induction evs as [ | ev evs IH ]; intros bw; [ reflexivity | ].
  cbn [run]. pose proof (handle_height ev bw) as H1.
  destruct (handle st ev bw) as [bw1 ops1]. cbn [fst] in H1.
  specialize (IH bw1). destruct (run st evs bw1) as [bw2 ops2].
  cbn [fst] in *. congruence.
Qed.

End Runs.

End RowHeight.

(** X18.  [AddBubbleRow] gives the container of the row the height of the
    bubble widget, [premiumBubbleHeight] plus the height of the tail plus
    [premiumBubbleSkip], and leaves its width alone; the argument [min] is
    not used.  The height of the bubble widget never changes, whatever
    events the widget handles and whenever the width of the bubble changes,
    so the subscriber of the two sizes finds the container as it left it:
    the row has its height from the start. *)
Theorem bubble_row_height_is_fixed
    {F : Type} `{Float64 F}
    (st : Style) (layoutWidth containerWidth min min' current max : Z)
    (premiumPossible : bool) (phrase : option (Z -> string)) (icon : Icon)
    (evs : list (Event F)) :
  let row := AddBubbleRow st layoutWidth containerWidth min current max
               premiumPossible phrase icon in
  let bw := onWidthChanges st (fst (run st evs (br_bubble row))) in
  br_container row
  = {| sz_width := containerWidth;
       sz_height := premiumBubbleHeight st
                    + sz_height (premiumBubbleTailSize st)
                    + premiumBubbleSkip st |}
  /\ row = AddBubbleRow st layoutWidth containerWidth min' current max
             premiumPossible phrase icon
  /\ sz_height (w_size bw) = sz_height (br_container row)
  /\ onSizes (br_container row) (w_size bw) = br_container row.
Proof.
  intros row bw.
  assert (Hh : sz_height (w_size bw)
               = premiumBubbleHeight st
                 + sz_height (premiumBubbleTailSize st)
                 + premiumBubbleSkip st).
  { unfold bw, onWidthChanges. cbn [resizeTo w_size QSize_add sz_height].
    rewrite RowHeight.run_height. reflexivity. }
  split; [ reflexivity | ]. split; [ reflexivity | ].
  split; [ rewrite Hh; reflexivity | ].
  unfold onSizes. rewrite Hh. reflexivity.
Qed.

(** ** The shapes and the texts of a line *)

(** X19.  [Line::recache] paints each pixmap as a rounded rectangle of
    the whole pixmap joined with a plain rectangle over one half: in the
    left pixmap the plain rectangle runs from the middle column to the
    right edge, in the right pixmap from the left edge to the middle
    column, each over the full height.  So the corners at the seam of the
    two halves are square and only the outer corners are round. *)
Theorem line_halves_square_at_seam
    (st : Style) (l : Line) (s : QSize)
    (Hs : QSize_isEmpty s = false)
    (Hw : 2 <= sz_width s) :
  let l' := Line_resize st s l in
  let lw := sz_width s / 2 in
  let h := sz_height s in
  let r := {| r_x := 0; r_y := 0; r_width := lw; r_height := h |} in
  let middle := (lw - 1) / 2 in
  map fill_shapes (pm_painted (_leftPixmap l'))
  = [ [ RoundedRect r (buttonRadius st) (buttonRadius st);
        PlainRect {| r_x := middle; r_y := 0;
                     r_width := lw - middle; r_height := h |} ] ]
  /\ map fill_shapes (pm_painted (_rightPixmap l'))
     = [ [ RoundedRect r (buttonRadius st) (buttonRadius st);
           PlainRect {| r_x := 0; r_y := 0;
                        r_width := middle + 1; r_height := h |} ] ]
  /\ 0 <= middle < lw.
Proof.
  intros l' lw h r middle.
  pose proof (Halves.Line_resize_not_empty st s l Hs) as Hl.
  fold l' lw in Hl. rewrite Hl.
  assert (Hlw : 1 <= lw) by (apply Z.div_le_lower_bound; lia).
  assert (Hm : 0 <= middle < lw).
  { unfold middle. split; [ apply Z.div_pos; lia | ].
    apply Z.div_lt_upper_bound; lia. }
  assert (Hc : QRect_center_x r = middle).
  { unfold QRect_center_x, r, middle. cbn [r_x r_width].
    rewrite Z.add_0_l. apply Z.quot_div_nonneg; lia. }
  cbn [Line_update recache _leftPixmap _rightPixmap with_widths _leftWidth].
  unfold recacheLeft, recacheRight. cbn [pm_painted map fill_shapes].
  cbn [_leftWidth with_widths with_size]. fold h. fold r. rewrite Hc.
  unfold QRect_setLeft, QRect_setRight, r. cbn [r_x r_y r_width r_height].
  split; [ | split; [ | exact Hm ] ].
  - repeat f_equal.
  - repeat f_equal; lia.
Qed.

Lemma line_halves_square_at_seam_witness :
  let l' := Line_resize Sample.style {| sz_width := 301; sz_height := 32 |}
              (Line_new Sample.style 364 320 "100" "50") in
  let r := {| r_x := 0; r_y := 0; r_width := 301 / 2; r_height := 32 |} in
  let middle := (301 / 2 - 1) / 2 in
  map fill_shapes (pm_painted (_leftPixmap l'))
  = [ [ RoundedRect r 4 4;
        PlainRect {| r_x := middle; r_y := 0;
                     r_width := 301 / 2 - middle; r_height := 32 |} ] ]
  /\ map fill_shapes (pm_painted (_rightPixmap l'))
     = [ [ RoundedRect r 4 4;
           PlainRect {| r_x := 0; r_y := 0;
                        r_width := middle + 1; r_height := 32 |} ] ]
  /\ 0 <= middle < 301 / 2.
Proof.
  apply (line_halves_square_at_seam Sample.style
           (Line_new Sample.style 364 320 "100" "50")
           {| sz_width := 301; sz_height := 32 |}).
  - reflexivity.
  - vm_compute. discriminate.
Defined.

(** X20.  In the right half of a [Line] the text gets the room the label
    leaves.  After a resize to a size of width [w] that is not empty,
    [paintEvent] draws the right label from the right edge, one text skip
    inside the widget, and last the right text, elided, from one text skip
    after the seam; the width it allows the text ends exactly where the
    label begins, one text skip short of the right edge by the width of
    the label. *)
Theorem line_right_text_meets_label
    {F : Type} (st : Style) (l : Line) (s : QSize)
    (Hs : QSize_isEmpty s = false) :
  let l' := Line_resize st s l in
  let w := sz_width s in
  let skip := premiumLineTextSkip st in
  let labelW := labelWidth st (_rightLabel l) (w - w / 2) in
  exists (before : list (PaintOp F)) (top available : Z),
    Line_paintEvent (F := F) st l'
    = before
      ++ [ OpDrawText (_rightLabel l) FromRight false
             skip top (w - w / 2 - skip) w;
           OpDrawText (_rightText l) FromLeft true
             (w / 2 + skip) top available (w - w / 2) ]
    /\ w / 2 + skip + available = w - skip - labelW.
Proof.
  intros l' w skip labelW.
  pose proof (Halves.Line_resize_not_empty st s l Hs) as Hl.
  fold l' w in Hl.
  destruct (LinePaint.resize_keeps_texts st s l) as (Hr & _ & Ht & _).
  fold l' in Hr, Ht.
  assert (Hlw : _leftWidth l' = w / 2) by (rewrite Hl; reflexivity).
  assert (Hrw : _rightWidth l' = w - w / 2) by (rewrite Hl; reflexivity).
  assert (Hsz : l_size l' = s) by (rewrite Hl; reflexivity).
  unfold Line_paintEvent. rewrite Hr, Ht, Hlw, Hrw, Hsz. fold w skip labelW.
  eexists [ _; _; _; _; _; _ ]. eexists. eexists.
  split; [ reflexivity | ]. lia.
Qed.

Lemma line_right_text_meets_label_witness :
  let l := Line_new Sample.style 364 320 "100" "50" in
  let l' := Line_resize Sample.style {| sz_width := 301; sz_height := 32 |} l in
  let labelW := labelWidth Sample.style (_rightLabel l) (301 - 301 / 2) in
  exists (before : list (PaintOp IEEE.float64)) (top available : Z),
    Line_paintEvent (F := IEEE.float64) Sample.style l'
    = before
      ++ [ OpDrawText (_rightLabel l) FromRight false
             11 top (301 - 301 / 2 - 11) 301;
           OpDrawText (_rightText l) FromLeft true
             (301 / 2 + 11) top available (301 - 301 / 2) ]
    /\ 301 / 2 + 11 + available = 301 - 11 - labelW.
Proof.
  apply (line_right_text_meets_label (F := IEEE.float64) Sample.style
           (Line_new Sample.style 364 320 "100" "50")
           {| sz_width := 301; sz_height := 32 |}).
  reflexivity.
Defined.

(** ** The slices of the button gradient *)

(** X21.  [ComputeGradient] makes the gradient of a slice out of the
    button gradient that spans the parent of the content: its two colours
    are sampled at the ends of the slice, taken from where the content,
    centred in its parent, begins.  For a parent of positive width, a
    content no wider than it and a slice inside the content, the divisor
    of the two ratios is not zero and both ratios are within [[0, 1]], the
    first no larger than the second. *)
Theorem gradient_slice_within_parent
    (content : Content) (left width : Z)
    (Hp : 0 < content_parent_width content)
    (Hc : 0 <= content_width content <= content_parent_width content)
    (Hl : 0 <= left) (Hw : 0 <= width)
    (Hin : left + width <= content_width content) :
  let full := content_parent_width content in
  let offset := (full - content_width content) / 2 in
  ComputeGradient content left width
  = {| lg_dx := width; lg_dy := 0;
       lg_stops :=
         [ (0 # 1, GradientColorAt ButtonGradientStops full
                     {| ratio_num := left + offset; ratio_den := full |});
           (1 # 1, GradientColorAt ButtonGradientStops full
                     {| ratio_num := left + offset + width;
                        ratio_den := full |}) ]%Q |}
  /\ 0 <= left + offset
  /\ left + offset <= left + offset + width
  /\ left + offset + width <= full.
Proof.
  intros full offset.
  assert (Ho : Z.quot (full - content_width content) 2 = offset)
    by (apply Z.quot_div_nonneg; unfold full; lia).
  assert (Hoff : 0 <= offset /\ 2 * offset <= full - content_width content).
  { unfold offset. split; [ apply Z.div_pos; unfold full; lia | ].
    apply Z.mul_div_le. lia. }
  unfold ComputeGradient. fold full. rewrite Ho.
  split; [ reflexivity | ]. unfold full in *. lia.
Qed.

Lemma gradient_slice_within_parent_witness :
  ComputeGradient Sample.parent 150 150
  = {| lg_dx := 150; lg_dy := 0;
       lg_stops :=
         [ (0 # 1, GradientColorAt ButtonGradientStops 364
                     {| ratio_num := 150 + (364 - 320) / 2;
                        ratio_den := 364 |});
           (1 # 1, GradientColorAt ButtonGradientStops 364
                     {| ratio_num := 150 + (364 - 320) / 2 + 150;
                        ratio_den := 364 |}) ]%Q |}
  /\ 0 <= 150 + (364 - 320) / 2
  /\ 150 + (364 - 320) / 2 <= 150 + (364 - 320) / 2 + 150
  /\ 150 + (364 - 320) / 2 + 150 <= 364.
Proof.
  apply (gradient_slice_within_parent Sample.parent 150 150).
  - reflexivity.
  - vm_compute. split; discriminate.
  - lia.
  - lia.
  - vm_compute. discriminate.
Defined.

(** ** binary64 arithmetic on both signs *)

Module Signed.

Lemma B2Q_opp (f : spec_float) : (B2Q (SFopp f) == - B2Q f)%Q.
Proof.
  destruct f as [ s | s | | s m e ]; cbn [SFopp B2Q]; try reflexivity.
  destruct s; cbn [negb]; ring.
Qed.

Lemma valid64_opp (f : spec_float) : valid64 (SFopp f) = valid64 f.
Proof. destruct f; reflexivity. Qed.

Lemma finite64_opp (f : spec_float) : finite64 (SFopp f) = finite64 f.
Proof. destruct f; reflexivity. Qed.

Lemma nonneg_finite64 (f : spec_float) :
  nonneg f = true -> valid64 f = true -> finite64 f = true.
Proof.
  intros N V. unfold finite64. rewrite V.
  destruct f as [ s | s | | s m e ]; try discriminate; reflexivity.
Qed.

Lemma finite64_valid (f : spec_float) : finite64 f = true -> valid64 f = true.
Proof. unfold finite64. intros H. apply andb_prop in H. tauto. Qed.

(** A finite float is a float that is not negative, or the opposite of
    one. *)
Lemma finite64_cases (f : spec_float) :
  finite64 f = true ->
  (nonneg f = true /\ valid64 f = true)
  \/ (nonneg (SFopp f) = true /\ valid64 (SFopp f) = true
      /\ (B2Q f < 0)%Q).
Proof.
  intros H. pose proof (finite64_valid f H) as V.
  destruct f as [ s | s | | s m e ]; try discriminate.
  - left. split; [ reflexivity | exact V ].
  - destruct s.
    + right. split; [ reflexivity | ]. split; [ exact V | ].
      pose proof (Ops.B2Q_finite_pos m e) as P. cbn [B2Q] in *. lra.
    + left. split; [ reflexivity | exact V ].
Qed.

(** A float of the format is its own rounding. *)
Lemma round64_exact_signed (f : spec_float) :
  finite64 f = true -> (round64 (B2Q f) == B2Q f)%Q.
Proof.
  intros H. destruct (finite64_cases f H) as [ [N V] | (N & V & _) ].
  - apply Exact.round64_exact; assumption.
  - pose proof (Exact.round64_exact (SFopp f) N V) as E.
    rewrite (Exact.round64_eq _ _ (B2Q_opp f)) in E.
    rewrite Exact.round64_opp, B2Q_opp in E. lra.
Qed.

(** The sign given to [binary_round_aux] is the sign of its result and
    nothing else. *)
Lemma binary_round_aux_sign (m e : Z) (l : location) :
  binary_round_aux 53 1024 true m e l
  = SFopp (binary_round_aux 53 1024 false m e l).
Proof.
  unfold binary_round_aux.
  destruct (shr_fexp 53 1024 m e l) as [mrs' e'].
  destruct (shr_fexp 53 1024 _ e' loc_Exact) as [mrs'' e''].
  destruct (shr_m mrs''); try reflexivity.
  destruct (e'' <=? 1024 - 53); reflexivity.
Qed.

Lemma binary_round_sign (m : positive) (e : Z) :
  binary_round 53 1024 true m e = SFopp (binary_round 53 1024 false m e).
Proof.
  unfold binary_round.
  destruct (shl_align m e _) as [mz ez]. apply binary_round_aux_sign.
Qed.

Lemma cexp_small (x : Q) : (0 < x)%Q -> (x < pow2 1000)%Q -> cexp x <= 970.
Proof.
  intros Hx Hs. destruct (Mag.mag_spec x Hx) as [M1 _].
  assert (A : mag x - 1 < 1000) by (apply Pow2.pow2_lt_inv; lra).
  unfold cexp. rewrite Round.fexp64_eq. lia.
Qed.

(** [binary_round] of a positive mantissa rounds its value. *)
Lemma binary_round_correct (m : positive) (e : Z) :
  (inject_Z (Zpos m) * pow2 e < pow2 1000)%Q ->
  let z := binary_round 53 1024 false m e in
  nonneg z = true /\ valid64 z = true
  /\ (B2Q z == round64 (inject_Z (Zpos m) * pow2 e))%Q.
Proof.
  intros Hs z. unfold z, binary_round.
  change (SpecFloat.fexp 53 1024) with fexp64.
  change (Zpos (digits2_pos m)) with (Zdigits2 (Zpos m)).
  pose proof (Shift.Zdigits2_pos (Zpos m) eq_refl) as Dp.
  destruct (Convert.shl_align_spec m e (fexp64 (Zdigits2 (Zpos m) + e)))
    as [He Hm].
  destruct (shl_align m e (fexp64 (Zdigits2 (Zpos m) + e))) as [mz ez].
  cbn [fst snd] in He, Hm.
  assert (Hez : ez <= e) by lia.
  set (t := inject_Z (Zpos mz)).
  assert (Ht : (0 < t)%Q) by reflexivity.
  assert (Hx : (t * pow2 ez == inject_Z (Zpos m) * pow2 e)%Q).
  { unfold t. rewrite Hm, inject_Z_mult, <- Pow2.pow2_Z by lia.
    rewrite <- Qmult_assoc, <- !Pow2.pow2_add.
    replace (e - ez + ez) with e by ring. reflexivity. }
  assert (Hpos : (0 < t * pow2 ez)%Q).
  { pose proof (Pow2.pow2_pos ez). apply Qmult_lt_0_compat; assumption. }
  assert (Hmag : mag (t * pow2 ez) = Zdigits2 (Zpos m) + e).
  { rewrite (Mag.mag_eq _ _ Hpos Hx).
    rewrite <- (Qfloor_Z (Zpos m)) at 2. apply Shift.mag_located.
    change 1%Q with (inject_Z 1). rewrite <- Zle_Qle. lia. }
  assert (Hex : ez <= cexp (t * pow2 ez))
    by (unfold cexp; rewrite Hmag; lia).
  assert (Hmax : cexp (t * pow2 ez) <= 970)
    by (apply cexp_small; [ exact Hpos | rewrite Hx; exact Hs ]).
  pose proof (RoundAux.binary_round_aux_correct t ez Ht Hex Hmax) as H.
  cbv zeta in H. unfold t in H. rewrite Qfloor_Z, Shift.loc_of_Z in H.
  fold t in H. destruct H as (H1 & H2 & H3).
  split; [ exact H1 | ]. split; [ exact H2 | ].
  rewrite H3, <- (Ops.round64_pos _ Hpos).
  apply Exact.round64_eq, Hx.
Qed.

(** [binary_normalize] rounds the value of an integer mantissa of either
    sign. *)
Lemma binary_normalize_correct (m e : Z) :
  (- pow2 1000 < inject_Z m * pow2 e)%Q ->
  (inject_Z m * pow2 e < pow2 1000)%Q ->
  let z := binary_normalize 53 1024 m e false in
  finite64 z = true /\ (B2Q z == round64 (inject_Z m * pow2 e))%Q.
Proof.
  intros Hlo Hhi z. unfold z, binary_normalize.
  destruct m as [ | p | p ].
  - split; [ reflexivity | ]. cbn [B2Q].
    rewrite Ops.round64_zero; [ reflexivity | ring ].
  - destruct (binary_round_correct p e Hhi) as (N & V & E).
    split; [ apply nonneg_finite64; assumption | exact E ].
  - assert (Hx : (inject_Z (Zneg p) * pow2 e
                  == - (inject_Z (Zpos p) * pow2 e))%Q).
    { change (Zneg p) with (- Zpos p). rewrite inject_Z_opp. ring. }
    assert (Hs : (inject_Z (Zpos p) * pow2 e < pow2 1000)%Q)
      by (rewrite Hx in Hlo; lra).
    destruct (binary_round_correct p e Hs) as (N & V & E).
    rewrite binary_round_sign. split.
    + rewrite finite64_opp. apply nonneg_finite64; assumption.
    + rewrite B2Q_opp, E, (Exact.round64_eq _ _ Hx), Exact.round64_opp.
      reflexivity.
Qed.

(** The mantissa [shl_align] makes for a smaller exponent keeps the
    value. *)
Lemma aligned_value (s : bool) (m : positive) (e ez : Z) :
  ez <= e ->
  (inject_Z (cond_Zopp s (Zpos (fst (shl_align m e ez)))) * pow2 ez
   == B2Q (S754_finite s m e))%Q.
Proof.
  intros Hez. destruct (Convert.shl_align_spec m e ez) as [He Hm].
  rewrite Hm, He. replace (Z.min e ez) with ez by lia.
  assert (Hp : (inject_Z (Zpos m * 2 ^ (e - ez)) * pow2 ez
                == inject_Z (Zpos m) * pow2 e)%Q).
  { rewrite inject_Z_mult, <- Pow2.pow2_Z by lia.
    rewrite <- Qmult_assoc, <- Pow2.pow2_add.
    replace (e - ez + ez) with e by ring. reflexivity. }
  cbn [B2Q]. destruct s; cbn [cond_Zopp].
  - rewrite inject_Z_opp.
    apply (Qeq_trans _ (- (inject_Z (Zpos m * 2 ^ (e - ez)) * pow2 ez)));
      [ ring | ].
    rewrite Hp. ring.
  - rewrite Hp. ring.
Qed.

Lemma finite64_zero (s : bool) : finite64 (S754_zero s) = true.
Proof. reflexivity. Qed.

(** The sum of two finite floats is the rounding of the sum of their
    values. *)
Lemma SFadd_correct (x y : spec_float) :
  finite64 x = true -> finite64 y = true ->
  (- pow2 1000 < B2Q x + B2Q y)%Q -> (B2Q x + B2Q y < pow2 1000)%Q ->
  finite64 (SFadd 53 1024 x y) = true
  /\ (B2Q (SFadd 53 1024 x y) == round64 (B2Q x + B2Q y))%Q.
Proof.
  intros Fx Fy Hlo Hhi.
  pose proof (round64_exact_signed x Fx) as Ex.
  pose proof (round64_exact_signed y Fy) as Ey.
  destruct x as [ sx | sx | | sx mx ex ]; try discriminate;
    destruct y as [ sy | sy | | sy my ey ]; try discriminate.
  - split; [ destruct sx, sy; reflexivity | ].
    rewrite Ops.round64_zero by (cbn [B2Q]; ring).
    destruct sx, sy; reflexivity.
  - cbn [SFadd]. split; [ exact Fy | ].
    rewrite <- Ey at 1. apply Exact.round64_eq. cbn [B2Q]. ring.
  - cbn [SFadd]. split; [ exact Fx | ].
    rewrite <- Ex at 1. apply Exact.round64_eq. cbn [B2Q]. ring.
  - cbn [SFadd].
    set (ez := Z.min ex ey).
    pose proof (aligned_value sx mx ex ez ltac:(lia)) as Ax.
    pose proof (aligned_value sy my ey ez ltac:(lia)) as Ay.
    set (a := cond_Zopp sx (Zpos (fst (shl_align mx ex ez)))) in *.
    set (b := cond_Zopp sy (Zpos (fst (shl_align my ey ez)))) in *.
    assert (Hv : (inject_Z (a + b) * pow2 ez
                  == B2Q (S754_finite sx mx ex) + B2Q (S754_finite sy my ey))%Q).
    { rewrite inject_Z_plus, <- Ax, <- Ay. ring. }
    destruct (binary_normalize_correct (a + b) ez) as [F E].
    + rewrite Hv. exact Hlo.
    + rewrite Hv. exact Hhi.
    + split; [ exact F | ]. rewrite E. apply Exact.round64_eq, Hv.
Qed.

(** The difference of two finite floats is the rounding of the
    difference of their values. *)
Lemma SFsub_correct (x y : spec_float) :
  finite64 x = true -> finite64 y = true ->
  (- pow2 1000 < B2Q x - B2Q y)%Q -> (B2Q x - B2Q y < pow2 1000)%Q ->
  finite64 (SFsub 53 1024 x y) = true
  /\ (B2Q (SFsub 53 1024 x y) == round64 (B2Q x - B2Q y))%Q.
Proof.
  intros Fx Fy Hlo Hhi.
  pose proof (round64_exact_signed x Fx) as Ex.
  pose proof (round64_exact_signed (SFopp y)
                ltac:(rewrite finite64_opp; exact Fy)) as Ey.
  destruct x as [ sx | sx | | sx mx ex ]; try discriminate;
    destruct y as [ sy | sy | | sy my ey ]; try discriminate.
  - split; [ destruct sx, sy; reflexivity | ].
    rewrite Ops.round64_zero by (cbn [B2Q]; ring).
    destruct sx, sy; reflexivity.
  - cbn [SFsub]. split; [ exact Fy | ].
    change (S754_finite (negb sy) my ey) with (SFopp (S754_finite sy my ey)).
    rewrite <- Ey at 1. apply Exact.round64_eq.
    rewrite B2Q_opp. cbn [B2Q]. ring.
  - cbn [SFsub]. split; [ exact Fx | ].
    rewrite <- Ex at 1. apply Exact.round64_eq. cbn [B2Q]. ring.
  - cbn [SFsub].
    set (ez := Z.min ex ey).
    pose proof (aligned_value sx mx ex ez ltac:(lia)) as Ax.
    pose proof (aligned_value sy my ey ez ltac:(lia)) as Ay.
    set (a := cond_Zopp sx (Zpos (fst (shl_align mx ex ez)))) in *.
    set (b := cond_Zopp sy (Zpos (fst (shl_align my ey ez)))) in *.
    assert (Hv : (inject_Z (a - b) * pow2 ez
                  == B2Q (S754_finite sx mx ex) - B2Q (S754_finite sy my ey))%Q).
    { unfold Z.sub. rewrite inject_Z_plus, inject_Z_opp, <- Ax, <- Ay. ring. }
    destruct (binary_normalize_correct (a - b) ez) as [F E].
    + rewrite Hv. exact Hlo.
    + rewrite Hv. exact Hhi.
    + split; [ exact F | ]. rewrite E. apply Exact.round64_eq, Hv.
Qed.

Lemma B2Q_sign (s : bool) (m : positive) (e : Z) :
  (B2Q (S754_finite s m e)
   == (if s then - B2Q (S754_finite false m e)
       else B2Q (S754_finite false m e)))%Q.
Proof. cbn [B2Q]. destruct s; ring. Qed.

(** The product of two finite floats is the rounding of the product of
    their values. *)
Lemma SFmul_signed (x y : spec_float) :
  finite64 x = true -> finite64 y = true ->
  (- pow2 1000 < B2Q x * B2Q y)%Q -> (B2Q x * B2Q y < pow2 1000)%Q ->
  finite64 (SFmul 53 1024 x y) = true
  /\ (B2Q (SFmul 53 1024 x y) == round64 (B2Q x * B2Q y))%Q.
Proof.
  intros Fx Fy Hlo Hhi.
  destruct x as [ sx | sx | | sx mx ex ]; try discriminate;
    destruct y as [ sy | sy | | sy my ey ]; try discriminate;
    try (cbn [SFmul]; split; [ reflexivity | ];
         rewrite Ops.round64_zero by (cbn [B2Q]; ring); reflexivity).
  pose proof (finite64_valid _ Fx) as Vx. pose proof (finite64_valid _ Fy) as Vy.
  pose proof (B2Q_sign sx mx ex) as Sx. pose proof (B2Q_sign sy my ey) as Sy.
  pose proof (Ops.B2Q_finite_pos mx ex) as Px.
  pose proof (Ops.B2Q_finite_pos my ey) as Py.
  set (ax := S754_finite false mx ex) in *.
  set (ay := S754_finite false my ey) in *.
  assert (Hp : (0 < B2Q ax * B2Q ay)%Q) by (apply Qmult_lt_0_compat; assumption).
  assert (Hs : (B2Q ax * B2Q ay < pow2 1000)%Q).
  { rewrite Sx, Sy in Hlo, Hhi. destruct sx, sy; lra. }
  destruct (Ops.SFmul_correct ax ay eq_refl eq_refl Vx Vy Hs) as (N & V & E).
  assert (Hm : SFmul 53 1024 (S754_finite sx mx ex) (S754_finite sy my ey)
               = if xorb sx sy then SFopp (SFmul 53 1024 ax ay)
                 else SFmul 53 1024 ax ay).
  { unfold ax, ay. cbn [SFmul]. destruct (xorb sx sy); cbn [xorb];
      [ apply binary_round_aux_sign | reflexivity ]. }
  rewrite Hm. destruct (xorb sx sy) eqn:Ex.
  - split; [ rewrite finite64_opp; apply nonneg_finite64; assumption | ].
    rewrite B2Q_opp, E, <- Exact.round64_opp. apply Exact.round64_eq.
    rewrite Sx, Sy. destruct sx, sy; try discriminate; ring.
  - split; [ apply nonneg_finite64; assumption | ].
    rewrite E. apply Exact.round64_eq.
    rewrite Sx, Sy. destruct sx, sy; try discriminate; ring.
Qed.

Lemma Qcompare_opp (p q : Q) : (- p ?= - q)%Q = (q ?= p)%Q.
Proof.
  destruct (Qcompare_spec q p) as [ E | L | G ].
  - apply (proj1 (Qeq_alt _ _)). lra.
  - apply (proj1 (Qlt_alt _ _)). lra.
  - apply (proj1 (Qgt_alt _ _)). lra.
Qed.

Lemma Qcompare_eq_l (p p' q : Q) : (p == p')%Q -> (p ?= q)%Q = (p' ?= q)%Q.
Proof. intros E. rewrite E. reflexivity. Qed.

(** The comparison of two finite floats is the comparison of their
    values. *)
Lemma SFcompare_signed (a b : spec_float) :
  finite64 a = true -> finite64 b = true ->
  SFcompare a b = Some (B2Q a ?= B2Q b)%Q.
Proof.
  intros Fa Fb.
  pose proof (finite64_valid _ Fa) as Va. pose proof (finite64_valid _ Fb) as Vb.
  destruct a as [ sa | sa | | sa ma ea ]; try discriminate;
    destruct b as [ sb | sb | | sb mb eb ]; try discriminate.
  - reflexivity.
  - pose proof (Ops.B2Q_finite_pos mb eb) as P. cbn [SFcompare]. f_equal.
    symmetry. destruct sb.
    + apply (proj1 (Qgt_alt _ _)). cbn [B2Q] in *. lra.
    + apply (proj1 (Qlt_alt _ _)). cbn [B2Q] in *. lra.
  - pose proof (Ops.B2Q_finite_pos ma ea) as P. cbn [SFcompare]. f_equal.
    symmetry. destruct sa.
    + apply (proj1 (Qlt_alt _ _)). cbn [B2Q] in *. lra.
    + apply (proj1 (Qgt_alt _ _)). cbn [B2Q] in *. lra.
  - pose proof (Ops.B2Q_finite_pos ma ea) as Pa.
    pose proof (Ops.B2Q_finite_pos mb eb) as Pb.
    pose proof (Order.SFcompare_correct (S754_finite false ma ea)
                  (S754_finite false mb eb) eq_refl eq_refl Va Vb) as C.
    cbn [SFcompare] in C. injection C as C.
    destruct sa, sb; cbn [SFcompare]; f_equal.
    + assert (E : (B2Q (S754_finite true ma ea) ?= B2Q (S754_finite true mb eb))%Q
                  = (B2Q (S754_finite false mb eb)
                     ?= B2Q (S754_finite false ma ea))%Q).
      { destruct (Qcompare_spec (B2Q (S754_finite false mb eb))
                    (B2Q (S754_finite false ma ea))) as [ E | L | G ];
          [ apply (proj1 (Qeq_alt _ _)) | apply (proj1 (Qlt_alt _ _))
          | apply (proj1 (Qgt_alt _ _)) ]; cbn [B2Q] in *; lra. }
      rewrite E, <- Qcompare_antisym. cbn [B2Q]. rewrite <- C.
      destruct (ea ?= eb); reflexivity.
    + symmetry. apply (proj1 (Qlt_alt _ _)). cbn [B2Q] in *. lra.
    + symmetry. apply (proj1 (Qgt_alt _ _)). cbn [B2Q] in *. lra.
    + exact C.
Qed.

Lemma SFleb_signed (a b : spec_float) :
  finite64 a = true -> finite64 b = true ->
  SFleb a b = Qle_bool (B2Q a) (B2Q b).
Proof.
  intros Fa Fb. unfold SFleb. rewrite (SFcompare_signed a b Fa Fb).
  destruct (Qcompare_spec (B2Q a) (B2Q b)) as [ E | L | G ];
    symmetry.
  - apply Qle_bool_iff. lra.
  - apply Qle_bool_iff. lra.
  - apply not_true_is_false. rewrite Qle_bool_iff. lra.
Qed.

Lemma SFltb_signed (a b : spec_float) :
  finite64 a = true -> finite64 b = true ->
  SFltb a b = Rounded.Qltb (B2Q a) (B2Q b).
Proof.
  intros Fa Fb. unfold SFltb, Rounded.Qltb.
  rewrite (SFcompare_signed a b Fa Fb).
  destruct (Qcompare_spec (B2Q a) (B2Q b)) as [ E | L | G ];
    symmetry.
  - apply negb_false_iff, Qle_bool_iff. lra.
  - apply negb_true_iff, not_true_is_false. rewrite Qle_bool_iff. lra.
  - apply negb_false_iff, Qle_bool_iff. lra.
Qed.

(** The conversion of an integer of at most 53 bits, of either sign. *)
Lemma of_Z_signed (n : Z) :
  - 2 ^ 53 < n < 2 ^ 53 ->
  finite64 (IEEE.of_Z n) = true /\ (B2Q (IEEE.of_Z n) == inject_Z n)%Q.
Proof.
  intros Hn. unfold IEEE.of_Z.
  change IEEE.prec with 53. change IEEE.emax with 1024.
  assert (Hv : (inject_Z n * pow2 0 == inject_Z n / inject_Z (2 ^ 0))%Q).
  { rewrite Pow2.pow2_0. change (inject_Z (2 ^ 0)) with 1%Q. field. }
  assert (Hb : (- pow2 1000 < inject_Z n * pow2 0)%Q
               /\ (inject_Z n * pow2 0 < pow2 1000)%Q).
  { rewrite Pow2.pow2_0, Qmult_1_r.
    assert (H53 : (pow2 53 < pow2 1000)%Q) by (apply Pow2.pow2_lt; lia).
    rewrite (Pow2.pow2_Z 53) in H53 by lia.
    assert (A : (- inject_Z (2 ^ 53) < inject_Z n)%Q).
    { rewrite <- inject_Z_opp, <- Zlt_Qlt. lia. }
    assert (B : (inject_Z n < inject_Z (2 ^ 53))%Q).
    { rewrite <- Zlt_Qlt. lia. }
    split; lra. }
  destruct (binary_normalize_correct n 0 (proj1 Hb) (proj2 Hb)) as [F E].
  split; [ exact F | ].
  rewrite E, (Exact.round64_eq _ _ Hv), Exact.round64_dyadic by lia.
  change (inject_Z (2 ^ 0)) with 1%Q. field.
Qed.

Lemma int_below_pow2 (n : Z) : n < 2 ^ 53 -> (inject_Z n < pow2 1000)%Q.
Proof.
  intros Hn. apply (Qlt_trans _ (pow2 53)); [ | apply Pow2.pow2_lt; lia ].
  rewrite (Pow2.pow2_Z 53) by lia. rewrite <- Zlt_Qlt. exact Hn.
Qed.

Lemma round64_int (n : Z) :
  - 2 ^ 53 < n < 2 ^ 53 -> (round64 (inject_Z n) == inject_Z n)%Q.
Proof.
  intros Hn.
  assert (E : (inject_Z n == inject_Z n / inject_Z (2 ^ 0))%Q).
  { change (inject_Z (2 ^ 0)) with 1%Q. field. }
  rewrite (Exact.round64_eq _ _ E), Exact.round64_dyadic by lia.
  symmetry. exact E.
Qed.

Lemma round64_within (x : Q) (b : Z) :
  0 <= b < 2 ^ 53 ->
  (- inject_Z b <= x)%Q -> (x <= inject_Z b)%Q ->
  (- inject_Z b <= round64 x)%Q /\ (round64 x <= inject_Z b)%Q.
Proof.
  intros Hb Hlo Hhi. split.
  - rewrite <- (round64_int b) by lia. rewrite <- Exact.round64_opp.
    apply Round.round64_mono, Hlo.
  - rewrite <- (round64_int b) by lia. apply Round.round64_mono, Hhi.
Qed.

Lemma within_finite (b : Z) (f : spec_float) :
  within b f -> finite64 f = true.
Proof. intros H. apply H. Qed.

Lemma within_of_int (n b : Z) :
  - b <= n <= b -> b < 2 ^ 53 ->
  within b (IEEE.of_Z n) /\ (B2Q (IEEE.of_Z n) == inject_Z n)%Q.
Proof.
  intros Hn Hb. destruct (of_Z_signed n) as [F E]; [ lia | ].
  split; [ | exact E ]. split; [ exact F | ].
  rewrite E, <- inject_Z_opp, <- !Zle_Qle. lia.
Qed.

Lemma within_bounds (a : Z) (x : spec_float) :
  within a x -> a < 2 ^ 53 ->
  (- pow2 1000 < B2Q x)%Q /\ (B2Q x < pow2 1000)%Q.
Proof.
  intros (_ & L & U) Ha. pose proof (int_below_pow2 a Ha). split; lra.
Qed.

Lemma add_within (a b : Z) (x y : spec_float) :
  within a x -> within b y -> 0 <= a -> 0 <= b -> a + b < 2 ^ 53 ->
  within (a + b) (SFadd 53 1024 x y)
  /\ (B2Q (SFadd 53 1024 x y) == round64 (B2Q x + B2Q y))%Q.
Proof.
  intros (Fx & Lx & Ux) (Fy & Ly & Uy) Ha Hb Hab.
  pose proof (int_below_pow2 (a + b) Hab) as P.
  rewrite inject_Z_plus in P.
  destruct (SFadd_correct x y Fx Fy) as [F E]; try lra.
  split; [ | exact E ]. split; [ exact F | ].
  rewrite E. apply round64_within; [ lia | | ];
    rewrite inject_Z_plus; lra.
Qed.

Lemma sub_within (a b : Z) (x y : spec_float) :
  within a x -> within b y -> 0 <= a -> 0 <= b -> a + b < 2 ^ 53 ->
  within (a + b) (SFsub 53 1024 x y)
  /\ (B2Q (SFsub 53 1024 x y) == round64 (B2Q x - B2Q y))%Q.
Proof.
  intros (Fx & Lx & Ux) (Fy & Ly & Uy) Ha Hb Hab.
  pose proof (int_below_pow2 (a + b) Hab) as P.
  rewrite inject_Z_plus in P.
  destruct (SFsub_correct x y Fx Fy) as [F E]; try lra.
  split; [ | exact E ]. split; [ exact F | ].
  rewrite E. apply round64_within; [ lia | | ];
    rewrite inject_Z_plus; lra.
Qed.

Lemma mul_within (a b : Z) (x y : spec_float) :
  within a x -> within b y -> 0 <= a -> 0 <= b -> a * b < 2 ^ 53 ->
  within (a * b) (SFmul 53 1024 x y)
  /\ (B2Q (SFmul 53 1024 x y) == round64 (B2Q x * B2Q y))%Q.
Proof.
  intros (Fx & Lx & Ux) (Fy & Ly & Uy) Ha Hb Hab.
  pose proof (int_below_pow2 (a * b) Hab) as P.
  rewrite inject_Z_mult in P.
  assert (Qa : (0 <= inject_Z a)%Q)
    by (change 0%Q with (inject_Z 0); rewrite <- Zle_Qle; lia).
  assert (Qb : (0 <= inject_Z b)%Q)
    by (change 0%Q with (inject_Z 0); rewrite <- Zle_Qle; lia).
  assert (B : (- (inject_Z a * inject_Z b) <= B2Q x * B2Q y)%Q
              /\ (B2Q x * B2Q y <= inject_Z a * inject_Z b)%Q).
  { split; nra. }
  destruct (SFmul_signed x y Fx Fy) as [F E]; try lra.
  split; [ | exact E ]. split; [ exact F | ].
  rewrite E. apply round64_within; [ nia | | ];
    rewrite inject_Z_mult; lra.
Qed.

(** The quotient of two finite floats, the divisor not zero, is the
    rounding of the quotient of their values. *)
Lemma SFdiv_signed (x y : spec_float) :
  finite64 x = true -> finite64 y = true -> ~ (B2Q y == 0)%Q ->
  (- pow2 1000 < B2Q x / B2Q y)%Q -> (B2Q x / B2Q y < pow2 1000)%Q ->
  finite64 (SFdiv 53 1024 x y) = true
  /\ (B2Q (SFdiv 53 1024 x y) == round64 (B2Q x / B2Q y))%Q.
Proof.
  intros Fx Fy Hy Hlo Hhi.
  destruct y as [ sy | sy | | sy my ey ]; try discriminate;
    [ exfalso; apply Hy; reflexivity | ].
  destruct x as [ sx | sx | | sx mx ex ]; try discriminate.
  { cbn [SFdiv]. split; [ reflexivity | ].
    rewrite Ops.round64_zero; [ reflexivity | ].
    cbn [B2Q]. unfold Qdiv. ring. }
  pose proof (finite64_valid _ Fx) as Vx. pose proof (finite64_valid _ Fy) as Vy.
  pose proof (B2Q_sign sx mx ex) as Sx. pose proof (B2Q_sign sy my ey) as Sy.
  pose proof (Ops.B2Q_finite_pos mx ex) as Px.
  pose proof (Ops.B2Q_finite_pos my ey) as Py.
  set (ax := S754_finite false mx ex) in *.
  set (ay := S754_finite false my ey) in *.
  assert (Hq : (B2Q (S754_finite sx mx ex) / B2Q (S754_finite sy my ey)
                == (if xorb sx sy then - (B2Q ax / B2Q ay)
                    else B2Q ax / B2Q ay))%Q).
  { rewrite Sx, Sy. destruct sx, sy; cbn [xorb]; field; lra. }
  assert (Hp : (0 < B2Q ax / B2Q ay)%Q).
  { apply Qlt_shift_div_l; lra. }
  assert (Hs : (B2Q ax / B2Q ay < pow2 1000)%Q).
  { rewrite Hq in Hlo, Hhi. destruct (xorb sx sy); lra. }
  destruct (Ops.SFdiv_correct ax ay eq_refl eq_refl Vx Vy Py Hs)
    as (N & V & E).
  assert (Hm : SFdiv 53 1024 (S754_finite sx mx ex) (S754_finite sy my ey)
               = if xorb sx sy then SFopp (SFdiv 53 1024 ax ay)
                 else SFdiv 53 1024 ax ay).
  { unfold ax, ay. cbn [SFdiv].
    destruct (SFdiv_core_binary 53 1024 (Zpos mx) ex (Zpos my) ey)
      as [[mz ez] lz].
    destruct (xorb sx sy); cbn [xorb];
      [ apply binary_round_aux_sign | reflexivity ]. }
  rewrite Hm. destruct (xorb sx sy) eqn:Ex.
  - split; [ rewrite finite64_opp; apply nonneg_finite64; assumption | ].
    rewrite B2Q_opp, E, <- Exact.round64_opp. apply Exact.round64_eq.
    symmetry. exact Hq.
  - split; [ apply nonneg_finite64; assumption | ].
    rewrite E. apply Exact.round64_eq. symmetry. exact Hq.
Qed.

Lemma Qtrunc_opp (x : Q) : Rounded.Qtrunc (- x) = - Rounded.Qtrunc x.
Proof.
  destruct x as [n d]. unfold Rounded.Qtrunc. cbn. apply Z.quot_opp_l. lia.
Qed.

Lemma Qtrunc_neg (x : Q) : Rounded.Qtrunc x = - Rounded.Qtrunc (- x).
Proof. rewrite Qtrunc_opp. lia. Qed.

Lemma Qtrunc_eq (x y : Q) :
  (x == y)%Q -> Rounded.Qtrunc x = Rounded.Qtrunc y.
Proof.
  intros E. destruct (Qlt_le_dec x 0) as [ L | L ].
  - rewrite (Qtrunc_neg x), (Qtrunc_neg y).
    rewrite !CounterProgress.Qtrunc_floor by lra.
    f_equal. apply Qfloor_comp. rewrite E. reflexivity.
  - rewrite !CounterProgress.Qtrunc_floor by lra. apply Qfloor_comp, E.
Qed.

Lemma Qtrunc_le (x y : Q) :
  (x <= y)%Q -> Rounded.Qtrunc x <= Rounded.Qtrunc y.
Proof.
  intros H. destruct (Qlt_le_dec x 0) as [ Lx | Lx ].
  - destruct (Qlt_le_dec y 0) as [ Ly | Ly ].
    + rewrite (Qtrunc_neg x), (Qtrunc_neg y).
      rewrite !CounterProgress.Qtrunc_floor by lra.
      apply Z.opp_le_mono. rewrite !Z.opp_involutive.
      apply Qfloor_resp_le. lra.
    + rewrite (Qtrunc_neg x).
      rewrite !CounterProgress.Qtrunc_floor by lra.
      assert (0 <= Qfloor (- x)).
      { rewrite <- (Qfloor_Z 0). apply Qfloor_resp_le.
        change (inject_Z 0) with 0%Q. lra. }
      assert (0 <= Qfloor y).
      { rewrite <- (Qfloor_Z 0). apply Qfloor_resp_le.
        change (inject_Z 0) with 0%Q. lra. }
      lia.
  - apply CounterProgress.Qtrunc_mono; assumption.
Qed.

Lemma Qtrunc_int (n : Z) : Rounded.Qtrunc (inject_Z n) = n.
Proof. unfold Rounded.Qtrunc. cbn. apply Z.quot_1_r. Qed.

Lemma Qtrunc_within (x : Q) (b : Z) :
  (- inject_Z b <= x)%Q -> (x <= inject_Z b)%Q ->
  - b <= Rounded.Qtrunc x <= b.
Proof.
  intros L U. rewrite <- inject_Z_opp in L.
  pose proof (Qtrunc_le _ _ L) as L'. pose proof (Qtrunc_le _ _ U) as U'.
  rewrite Qtrunc_int in L', U'. lia.
Qed.

(** The integer part of a positive finite float, as the shifts of the
    conversion compute it. *)
Lemma shift_floor (m : positive) (e : Z) :
  match e with
  | Z.neg p => Z.shiftr (Z.pos m) (Z.pos p)
  | _ => Z.shiftl (Z.pos m) e
  end = Qfloor (inject_Z (Z.pos m) * pow2 e).
Proof.
  destruct e as [ | p | p ].
  - rewrite Z.shiftl_0_r. symmetry.
    rewrite (Qfloor_comp _ (inject_Z (Zpos m))); [ apply Qfloor_Z | ].
    rewrite Pow2.pow2_0. ring.
  - rewrite Z.shiftl_mul_pow2 by lia. symmetry.
    rewrite (Qfloor_comp _ (inject_Z (Zpos m * 2 ^ Zpos p)));
      [ apply Qfloor_Z | ].
    rewrite inject_Z_mult, <- Pow2.pow2_Z by lia. ring.
  - rewrite Z.shiftr_div_pow2 by lia. rewrite Zdiv_Qdiv.
    apply Qfloor_comp. rewrite <- Pow2.pow2_Z by lia.
    change (Zneg p) with (0 - Zpos p). rewrite Pow2.pow2_sub, Pow2.pow2_0.
    field. apply Pow2.pow2_nonzero.
Qed.

(** The conversion to [int] of a finite float truncates its value. *)
Lemma to_Z_signed (f : spec_float) :
  finite64 f = true -> IEEE.to_Z f = Rounded.to_Z (B2Q f).
Proof.
  intros Ff. destruct f as [ s | s | | s m e ]; try discriminate.
  - reflexivity.
  - destruct s; [ | apply Convert.to_Z_correct; reflexivity ].
    pose proof (Ops.B2Q_finite_pos m e) as P.
    unfold IEEE.to_Z, Rounded.to_Z. cbn [cond_Zopp].
    rewrite shift_floor.
    assert (Hn : Rounded.Qtrunc (B2Q (S754_finite true m e))
                 = - Qfloor (inject_Z (Z.pos m) * pow2 e)).
    { rewrite <- CounterProgress.Qtrunc_floor, <- Qtrunc_opp.
      - apply Qtrunc_eq. cbn [B2Q]. ring.
      - cbn [B2Q] in P. lra. }
    rewrite Hn. reflexivity.
Qed.

End Signed.

(** ** The tail of the bubble *)

Module Tail.

Import Signed.

Lemma ftwo_value :
  (ftwo : spec_float) = S754_finite false 4503599627370496 (-51).
Proof. vm_compute. reflexivity. Qed.

Lemma ftwo_B2Q : (B2Q (S754_finite false 4503599627370496 (-51)) == 2)%Q.
Proof. vm_compute. reflexivity. Qed.

Lemma fhalf_value :
  (flit (1 # 2) : spec_float) = S754_finite false 4503599627370496 (-53).
Proof. vm_compute. reflexivity. Qed.

Lemma fhalf_B2Q :
  (B2Q (S754_finite false 4503599627370496 (-53)) == 1 # 2)%Q.
Proof. vm_compute. reflexivity. Qed.

Lemma fhalf_within : within 1 (S754_finite false 4503599627370496 (-53)).
Proof.
  split; [ reflexivity | ]. rewrite fhalf_B2Q. split; vm_compute; discriminate.
Qed.

Lemma fone_within : within 1 (S754_finite false 4503599627370496 (-52)).
Proof.
  split; [ reflexivity | ]. rewrite Binary64.fone_B2Q.
  split; vm_compute; discriminate.
Qed.

Lemma round64_two : (round64 2 == 2)%Q.
Proof. apply (round64_int 2). lia. Qed.

Lemma round64_halves (n : Z) :
  - 2 ^ 53 < n < 2 ^ 53 ->
  (round64 (inject_Z n * (1 # 2)) == inject_Z n * (1 # 2))%Q.
Proof.
  intros Hn.
  assert (E : (inject_Z n * (1 # 2) == inject_Z n / inject_Z (2 ^ 1))%Q).
  { change (inject_Z (2 ^ 1)) with 2%Q. field. }
  rewrite (Exact.round64_eq _ _ E), Exact.round64_dyadic by lia.
  symmetry. exact E.
Qed.

(** Half of a non-negative [int], as the division by [2.] computes it. *)
Lemma half_of_int (n : Z) :
  0 <= n <= 2 ^ 31 ->
  within (2 ^ 31) (SFdiv 53 1024 (IEEE.of_Z n) ftwo)
  /\ (B2Q (SFdiv 53 1024 (IEEE.of_Z n) ftwo) == inject_Z n * (1 # 2))%Q.
Proof.
  intros Hn. rewrite ftwo_value.
  destruct (Convert.of_Z_correct n) as (Nn & Vn & En); [ lia | ].
  assert (Qn : (0 <= inject_Z n)%Q /\ (inject_Z n <= inject_Z (2 ^ 31))%Q).
  { change 0%Q with (inject_Z 0). rewrite <- !Zle_Qle. lia. }
  pose proof (int_below_pow2 (2 ^ 31) ltac:(lia)) as P.
  assert (B : (inject_Z n * (1 # 2) < pow2 1000)%Q
              /\ (- inject_Z (2 ^ 31) <= inject_Z n * (1 # 2))%Q
              /\ (inject_Z n * (1 # 2) <= inject_Z (2 ^ 31))%Q).
  { revert Qn P. generalize (inject_Z (2 ^ 31)) (pow2 1000) (inject_Z n).
    intros M T q Qn P. repeat split; lra. }
  destruct B as (B1 & B2 & B3).
  destruct (Ops.SFdiv_correct (IEEE.of_Z n)
              (S754_finite false 4503599627370496 (-51))
              Nn eq_refl Vn eq_refl) as (N & V & E).
  - rewrite ftwo_B2Q. reflexivity.
  - rewrite ftwo_B2Q, En.
    apply (Qle_lt_trans _ (inject_Z n * (1 # 2))); [ | exact B1 ].
    apply Qle_lteq. right. field.
  - assert (E' : (B2Q (SFdiv 53 1024 (IEEE.of_Z n)
                         (S754_finite false 4503599627370496 (-51)))
                  == inject_Z n * (1 # 2))%Q).
    { rewrite E. rewrite <- (round64_halves n) by lia.
      apply Exact.round64_eq. rewrite ftwo_B2Q, En. field. }
    split; [ | exact E' ].
    split; [ apply nonneg_finite64; assumption | ]. rewrite E'.
    split; assumption.
Qed.

(** Half of an [int], as the product with [0.5] computes it. *)
Lemma int_times_half (n : Z) :
  - 2 ^ 31 <= n <= 2 ^ 31 ->
  within (2 ^ 31) (SFmul 53 1024 (IEEE.of_Z n) (IEEE.of_Q (1 # 2)))
  /\ (B2Q (SFmul 53 1024 (IEEE.of_Z n) (IEEE.of_Q (1 # 2)))
      == inject_Z n * (1 # 2))%Q.
Proof.
  intros Hn. change (IEEE.of_Q (1 # 2)) with (flit (1 # 2) : spec_float).
  rewrite fhalf_value.
  destruct (within_of_int n (2 ^ 31)) as [Wn En]; [ lia | lia | ].
  destruct (mul_within (2 ^ 31) 1 _ _ Wn fhalf_within) as [W E]; try lia.
  assert (E' : (B2Q (SFmul 53 1024 (IEEE.of_Z n)
                       (S754_finite false 4503599627370496 (-53)))
                == inject_Z n * (1 # 2))%Q).
  { rewrite E. rewrite <- (round64_halves n) by lia.
    apply Exact.round64_eq. rewrite fhalf_B2Q, En. field. }
  split; [ | exact E' ].
  destruct Wn as (_ & L & U). split; [ apply W | ]. rewrite E'.
  assert (P : (0 <= inject_Z (2 ^ 31))%Q) by (vm_compute; discriminate).
  revert L U P. rewrite En.
  generalize (inject_Z (2 ^ 31)) (inject_Z n). intros M q L U P. lra.
Qed.

Lemma fone_within' : within 1 (fone : spec_float).
Proof. rewrite Binary64.fone_value. exact fone_within. Qed.

Lemma fone_B2Q' : (B2Q (fone : spec_float) == 1)%Q.
Proof. rewrite Binary64.fone_value. exact Binary64.fone_B2Q. Qed.

Lemma inject_Z_bounds (n a b : Z) :
  a <= n <= b -> (inject_Z a <= inject_Z n)%Q /\ (inject_Z n <= inject_Z b)%Q.
Proof. intros H. rewrite <- !Zle_Qle. exact H. Qed.

Lemma round64_half_value (n : Z) (q : Q) :
  - 2 ^ 53 < n < 2 ^ 53 -> (q == inject_Z n * (1 # 2))%Q ->
  (round64 q == q)%Q.
Proof.
  intros Hn E.
  apply (Qeq_trans _ (round64 (inject_Z n * (1 # 2))));
    [ apply Exact.round64_eq, E | ].
  rewrite round64_halves by lia. symmetry. exact E.
Qed.

Lemma round64_to (q v : Q) :
  (q == v)%Q -> (round64 v == v)%Q -> (round64 q == v)%Q.
Proof.
  intros E R. apply (Qeq_trans _ (round64 v)); [ apply Exact.round64_eq, E | exact R ].
Qed.

(** The horizontal coordinates of the tail of a bubble whose rectangle
    starts at [x] and is [w] wide, for a tail [tw] wide, the tail edge
    [p] and the limit [bm] of the right foot. *)
Lemma tail_floats (x w tw bm : Z) (p : spec_float) :
  - 2 ^ 31 <= x <= 2 ^ 31 -> 0 <= w <= 2 ^ 31 -> 0 <= tw <= 2 ^ 31 ->
  - 2 ^ 33 <= bm <= 2 ^ 33 ->
  finite64 p = true -> (0 <= B2Q p)%Q -> (B2Q p <= 1)%Q ->
  let halfW := SFmul 53 1024 (IEEE.of_Z w) (IEEE.of_Q (1 # 2)) in
  let tWH := SFdiv 53 1024 (IEEE.of_Z tw) ftwo in
  let tlf := SFsub 53 1024 (SFadd 53 1024 (IEEE.of_Z x) halfW) tWH in
  let tl :=
    SFsub 53 1024
      (SFadd 53 1024 (IEEE.of_Z x)
         (SFmul 53 1024 halfW (SFadd 53 1024 p fone))) tWH in
  let tc := SFadd 53 1024 tl tWH in
  let right := SFadd 53 1024 tl (IEEE.of_Z tw) in
  let tr := if SFltb (IEEE.of_Z bm) right
            then (if SFltb tc (IEEE.of_Z bm) then IEEE.of_Z bm else tc)
            else right in
  let X := inject_Z x in
  let W := inject_Z w in
  let T2 := (inject_Z tw * (1 # 2))%Q in
  (finite64 tlf = true /\ finite64 tl = true
   /\ finite64 tc = true /\ finite64 tr = true)
  /\ (B2Q tlf == X + W * (1 # 2) - T2)%Q
  /\ ((B2Q tlf <= B2Q tl)%Q /\ (B2Q tl <= B2Q tc)%Q
      /\ (B2Q tc <= B2Q tr)%Q)
  /\ ((B2Q tr <= B2Q tc)%Q \/ (B2Q tr <= inject_Z bm)%Q)
  /\ ((B2Q p == 0)%Q ->
      (B2Q tl == X + W * (1 # 2) - T2)%Q
      /\ (B2Q tc == X + W * (1 # 2))%Q)
  /\ ((B2Q p == 1)%Q ->
      (B2Q tl == X + W - T2)%Q /\ (B2Q tc == X + W)%Q
      /\ (bm <= x + w -> (B2Q tr == X + W)%Q)).
Proof.
  intros Hx Hw Htw Hbm Fp Hp0 Hp1 halfW tWH tlf tl tc right tr X W T2.
  destruct (within_of_int x (2 ^ 31)) as [Wx Ex]; [ lia | lia | ].
  destruct (int_times_half w) as [Wh Eh]; [ lia | ].
  destruct (half_of_int tw Htw) as [Wt Et].
  destruct (within_of_int tw (2 ^ 31)) as [Wtw Etw]; [ lia | lia | ].
  destruct (within_of_int bm (2 ^ 33)) as [Wbm Ebm]; [ lia | lia | ].
  fold halfW in Wh, Eh. fold tWH in Wt, Et. fold X in Ex. fold W in Eh.
  fold T2 in Et.
  assert (Wp : within 1 p).
  { split; [ exact Fp | ]. change (inject_Z 1) with 1%Q. split; lra. }
  destruct (add_within 1 1 p fone Wp fone_within') as [Wp1 Ep1]; try lia.
  set (p1 := SFadd 53 1024 p fone) in *.
  destruct (mul_within (2 ^ 31) (1 + 1) halfW p1 Wh Wp1) as [Whp Ehp];
    try lia.
  set (hp := SFmul 53 1024 halfW p1) in *.
  destruct (add_within (2 ^ 31) (2 ^ 31) _ halfW Wx Wh) as [Ws0 Es0];
    try lia.
  set (s0 := SFadd 53 1024 (IEEE.of_Z x) halfW) in *.
  destruct (add_within (2 ^ 31) (2 ^ 31 * (1 + 1)) _ hp Wx Whp) as [Ws1 Es1];
    try lia.
  set (s1 := SFadd 53 1024 (IEEE.of_Z x) hp) in *.
  destruct (sub_within _ (2 ^ 31) s0 tWH Ws0 Wt) as [Wtlf Etlf]; try lia.
  destruct (sub_within _ (2 ^ 31) s1 tWH Ws1 Wt) as [Wtl Etl]; try lia.
  fold tlf in Wtlf, Etlf. fold tl in Wtl, Etl.
  destruct (add_within _ (2 ^ 31) tl tWH Wtl Wt) as [Wtc Etc]; try lia.
  destruct (add_within _ (2 ^ 31) tl _ Wtl Wtw) as [Wr Er]; try lia.
  fold tc in Wtc, Etc. fold right in Wr, Er.
  pose proof (within_finite _ _ Wtlf) as Ftlf.
  pose proof (within_finite _ _ Wtl) as Ftl.
  pose proof (within_finite _ _ Wtc) as Ftc.
  pose proof (within_finite _ _ Wr) as Fr.
  pose proof (within_finite _ _ Wbm) as Fbm.
  assert (Qw : (0 <= W)%Q /\ (0 <= T2)%Q /\ (0 <= inject_Z tw)%Q).
  { unfold W, T2.
    destruct (inject_Z_bounds w 0 (2 ^ 31) Hw) as [A _].
    destruct (inject_Z_bounds tw 0 (2 ^ 31) Htw) as [B _].
    change (inject_Z 0) with 0%Q in A, B. repeat split; lra. }
  destruct Qw as (Qw & Qt & Qtw).
  (* the sum [p + 1.] lies between 1 and 2 *)
  assert (P1 : (1 <= B2Q p1)%Q /\ (B2Q p1 <= 2)%Q).
  { rewrite Ep1. split.
    - apply (Qle_trans _ (round64 1));
        [ rewrite Unit64.round64_one; lra | ].
      apply Round.round64_mono. rewrite fone_B2Q'. lra.
    - apply (Qle_trans _ (round64 2));
        [ | rewrite round64_two; lra ].
      apply Round.round64_mono. rewrite fone_B2Q'. lra. }
  (* the exact values *)
  assert (Vs0 : (B2Q s0 == X + W * (1 # 2))%Q).
  { assert (I : (inject_Z (2 * x + w) * (1 # 2) == X + W * (1 # 2))%Q).
    { rewrite inject_Z_plus, inject_Z_mult. fold X W.
      change (inject_Z 2) with 2%Q. ring. }
    rewrite Es0.
    apply (Qeq_trans _ (round64 (inject_Z (2 * x + w) * (1 # 2))));
      [ apply Exact.round64_eq; rewrite Ex, Eh, I; reflexivity | ].
    rewrite round64_halves by lia. exact I. }
  assert (Vtlf : (B2Q tlf == X + W * (1 # 2) - T2)%Q).
  { assert (I : (inject_Z (2 * x + w - tw) * (1 # 2)
                  == X + W * (1 # 2) - T2)%Q).
    { unfold Z.sub.
      rewrite !inject_Z_plus, inject_Z_opp, inject_Z_mult. fold X W.
      unfold T2. change (inject_Z 2) with 2%Q. ring. }
    rewrite Etlf.
    apply (Qeq_trans _ (round64 (inject_Z (2 * x + w - tw) * (1 # 2))));
      [ apply Exact.round64_eq; rewrite Vs0, Et, I; reflexivity | ].
    rewrite round64_halves by lia. exact I. }
  (* monotonicity *)
  assert (Mhp : (W * (1 # 2) <= B2Q hp)%Q).
  { rewrite Ehp. apply (Qle_trans _ (round64 (W * (1 # 2))));
      [ unfold W; rewrite (round64_halves w) by lia; lra | ].
    apply Round.round64_mono. rewrite Eh. nra. }
  assert (Ms : (B2Q s0 <= B2Q s1)%Q).
  { rewrite Es0, Es1. apply Round.round64_mono. rewrite Eh. lra. }
  assert (Mtl : (B2Q tlf <= B2Q tl)%Q).
  { rewrite Etlf, Etl. apply Round.round64_mono. lra. }
  assert (Mtc : (B2Q tl <= B2Q tc)%Q).
  { rewrite Etc. apply (Qle_trans _ (round64 (B2Q tl)));
      [ rewrite (round64_exact_signed tl Ftl); lra | ].
    apply Round.round64_mono. rewrite Et. lra. }
  assert (Mr : (B2Q tc <= B2Q right)%Q).
  { rewrite Etc, Er. apply Round.round64_mono. rewrite Et, Etw.
    unfold T2. lra. }
  assert (Tr : ((Rounded.Qltb (inject_Z bm) (B2Q right) = true
                 /\ ((Rounded.Qltb (B2Q tc) (inject_Z bm) = true
                      /\ tr = IEEE.of_Z bm)
                     \/ (Rounded.Qltb (B2Q tc) (inject_Z bm) = false
                         /\ tr = tc)))
                \/ (Rounded.Qltb (inject_Z bm) (B2Q right) = false
                    /\ tr = right))).
  { unfold tr. rewrite (SFltb_signed _ _ Fbm Fr), (SFltb_signed _ _ Ftc Fbm).
    unfold Rounded.Qltb.
    rewrite !Ebm.
    destruct (negb (Qle_bool (B2Q right) (inject_Z bm)));
      [ left; split; [ reflexivity | ] | right; split; reflexivity ].
    destruct (negb (Qle_bool (inject_Z bm) (B2Q tc)));
      [ left | right ]; split; reflexivity. }
  assert (Ftr : finite64 tr = true).
  { destruct Tr as [ (_ & [ (_ & ->) | (_ & ->) ]) | (_ & ->) ]; assumption. }
  assert (Mtr : (B2Q tc <= B2Q tr)%Q).
  { destruct Tr as [ (_ & [ (L & ->) | (_ & ->) ]) | (_ & ->) ].
    - apply CounterProgress.Qltb_true in L. rewrite Ebm. lra.
    - lra.
    - exact Mr. }
  assert (Ctr : (B2Q tr <= B2Q tc)%Q \/ (B2Q tr <= inject_Z bm)%Q).
  { destruct Tr as [ (_ & [ (_ & ->) | (_ & ->) ]) | (L & ->) ].
    - right. rewrite Ebm. lra.
    - left. lra.
    - right. apply CounterProgress.Qltb_false, L. }
  assert (R0 : (round64 (X + W * (1 # 2)) == X + W * (1 # 2))%Q).
  { apply (round64_half_value (2 * x + w)); [ lia | ].
    rewrite inject_Z_plus, inject_Z_mult. fold X W.
    change (inject_Z 2) with 2%Q. ring. }
  split; [ repeat split; assumption | ].
  split; [ exact Vtlf | ].
  split; [ repeat split; assumption | ].
  split; [ exact Ctr | ].
  split.
  - (* the tail edge is 0 *)
    intros Z0.
    assert (V1 : (B2Q p1 == 1)%Q).
    { rewrite Ep1. apply round64_to; [ rewrite Z0, fone_B2Q'; ring | ].
      exact Unit64.round64_one. }
    assert (Vhp : (B2Q hp == W * (1 # 2))%Q).
    { rewrite Ehp. apply round64_to; [ rewrite Eh, V1; ring | ].
      unfold W. apply round64_halves. lia. }
    assert (Vs1 : (B2Q s1 == X + W * (1 # 2))%Q).
    { rewrite Es1. apply round64_to; [ rewrite Ex, Vhp; reflexivity | ].
      exact R0. }
    assert (Vtl : (B2Q tl == X + W * (1 # 2) - T2)%Q).
    { rewrite Etl, <- Vtlf, Etlf. apply Exact.round64_eq.
      rewrite Vs0, Vs1. reflexivity. }
    split; [ exact Vtl | ].
    rewrite Etc. apply round64_to; [ rewrite Vtl, Et; ring | exact R0 ].
  - (* the tail edge is 1 *)
    intros Z1.
    assert (V1 : (B2Q p1 == 2)%Q).
    { rewrite Ep1. apply round64_to; [ rewrite Z1, fone_B2Q'; ring | ].
      exact round64_two. }
    assert (Vhp : (B2Q hp == W)%Q).
    { rewrite Ehp. apply round64_to; [ rewrite Eh, V1; ring | ].
      unfold W. apply round64_int. lia. }
    assert (R1 : (round64 (X + W) == X + W)%Q).
    { unfold X, W. rewrite <- inject_Z_plus. apply round64_int. lia. }
    assert (Vs1 : (B2Q s1 == X + W)%Q).
    { rewrite Es1. apply round64_to; [ rewrite Ex, Vhp; reflexivity | ].
      exact R1. }
    assert (Vtl : (B2Q tl == X + W - T2)%Q).
    { rewrite Etl. apply round64_to; [ rewrite Vs1, Et; reflexivity | ].
      apply (round64_half_value (2 * x + 2 * w - tw)); [ lia | ].
      unfold Z.sub.
      rewrite !inject_Z_plus, inject_Z_opp, !inject_Z_mult. fold X W.
      unfold T2. change (inject_Z 2) with 2%Q. ring. }
    assert (Vtc : (B2Q tc == X + W)%Q).
    { rewrite Etc. apply round64_to; [ rewrite Vtl, Et; ring | exact R1 ]. }
    assert (Vr : (B2Q right == X + W + T2)%Q).
    { rewrite Er. apply round64_to; [ rewrite Vtl, Etw; unfold T2; ring | ].
      apply (round64_half_value (2 * x + 2 * w + tw)); [ lia | ].
      rewrite !inject_Z_plus, !inject_Z_mult. fold X W.
      unfold T2. change (inject_Z 2) with 2%Q. ring. }
    split; [ exact Vtl | ]. split; [ exact Vtc | ].
    intros Hle.
    assert (Qle' : (inject_Z bm <= X + W)%Q).
    { unfold X, W. rewrite <- inject_Z_plus, <- Zle_Qle. exact Hle. }
    destruct Tr as [ (_ & [ (L & ->) | (_ & ->) ]) | (L & ->) ].
    + apply CounterProgress.Qltb_true in L. lra.
    + exact Vtc.
    + apply CounterProgress.Qltb_false in L. apply Qle_antisym; lra.
Qed.


Lemma unit_range_finite (p : spec_float) :
  valid64 p = true -> IEEE.in_unit_range p = true ->
  finite64 p = true /\ (0 <= B2Q p)%Q /\ (B2Q p <= 1)%Q.
Proof.
  intros Vp Hp. unfold IEEE.in_unit_range in Hp.
  apply andb_prop in Hp. destruct Hp as [H0 H1].
  assert (Fp : finite64 p = true).
  { unfold finite64. rewrite Vp.
    destruct p as [ s | [ | ] | | s m e ]; try reflexivity;
      try discriminate. }
  split; [ exact Fp | ].
  change (@fzero spec_float IEEE.binary64) with (S754_zero false) in H0.
  rewrite (SFleb_signed (S754_zero false) p eq_refl Fp) in H0.
  rewrite Binary64.fone_value in H1.
  rewrite (SFleb_signed p (S754_finite false 4503599627370496 (-52))
             Fp eq_refl) in H1.
  apply Qle_bool_iff in H0, H1. rewrite Binary64.fone_B2Q in H1.
  split; [ exact H0 | exact H1 ].
Qed.

(** The tail of a painted bubble: the path of the tail goes with the
    rounded rectangle [body], and its horizontal coordinates are those of
    [tail_floats] for that rectangle. *)
Lemma tail_of_paint (st : Style) (b : Bubble IEEE.float64) (r : QRect)
    (brush : QBrush) :
  0 <= _counter b -> _premiumPossible b = true ->
  valid64 (_tailEdge b) = true -> IEEE.in_unit_range (_tailEdge b) = true ->
  - 2 ^ 30 <= r_x r <= 2 ^ 30 ->
  0 <= premiumBubblePenWidth st <= 2 ^ 30 ->
  2 * (premiumBubblePenWidth st `quot` 2) <= r_width r <= 2 ^ 31 ->
  0 <= sz_width (_tailSize b) <= 2 ^ 31 ->
  - 2 ^ 31 <= bubbleRadius b <= 2 ^ 31 ->
  exists tail body tlf tl tc tr,
    paintBubble st b r brush !! 2%nat
    = Some (OpDrawPath tail body (bubbleRadius b))
    /\ map cmd_x tail = [tlf; tl; tc; tr; tr; tlf]
    /\ 0 <= r_width body
    /\ (finite64 tlf = true /\ finite64 tl = true
        /\ finite64 tc = true /\ finite64 tr = true)
    /\ (B2Q tlf == inject_Z (r_x body) + inject_Z (r_width body) * (1 # 2)
                   - inject_Z (sz_width (_tailSize b)) * (1 # 2))%Q
    /\ ((B2Q tlf <= B2Q tl)%Q /\ (B2Q tl <= B2Q tc)%Q
        /\ (B2Q tc <= B2Q tr)%Q)
    /\ ((B2Q tr <= B2Q tc)%Q
        \/ (B2Q tr
            <= inject_Z (r_x body + r_width body - bubbleRadius b))%Q)
    /\ ((B2Q (_tailEdge b) == 0)%Q ->
        (B2Q tl == B2Q tlf)%Q
        /\ (B2Q tc == inject_Z (r_x body)
                      + inject_Z (r_width body) * (1 # 2))%Q)
    /\ ((B2Q (_tailEdge b) == 1)%Q ->
        (B2Q tc == inject_Z (r_x body) + inject_Z (r_width body))%Q
        /\ (0 <= bubbleRadius b -> (B2Q tr == B2Q tc)%Q)).
Proof.
  intros Hc Hp Vp Up Hx Hpen Hw Htw Hrad.
  destruct (unit_range_finite _ Vp Up) as (Fp & P0 & P1).
  assert (Hq : 0 <= premiumBubblePenWidth st `quot` 2 <= 2 ^ 29).
  { split; [ apply Z.quot_pos; lia | ].
    apply Z.quot_le_upper_bound; lia. }
  set (body := QRect_shrink r
         {| m_left := premiumBubblePenWidth st `quot` 2;
            m_top := premiumBubblePenWidth st `quot` 2;
            m_right := premiumBubblePenWidth st `quot` 2;
            m_bottom := sz_height (_tailSize b)
                        + premiumBubblePenWidth st `quot` 2 |}).
  assert (Bx : - 2 ^ 31 <= r_x body <= 2 ^ 31) by (cbn; lia).
  assert (Bw : 0 <= r_width body <= 2 ^ 31) by (cbn; lia).
  assert (Bm : - 2 ^ 33 <= r_x body + r_width body - bubbleRadius b
               <= 2 ^ 33) by (cbn; lia).
  pose proof (tail_floats (r_x body) (r_width body)
                (sz_width (_tailSize b))
                (r_x body + r_width body - bubbleRadius b) (_tailEdge b)
                Bx Bw Htw Bm Fp P0 P1) as T.
  cbv zeta in T.
  destruct T as (Ff & Vf & Mo & Ct & Z0 & Z1).
  unfold paintBubble.
  destruct (_counter b <? 0) eqn:E; [ apply Z.ltb_lt in E; lia | ].
  rewrite Hp. cbv zeta. fold body. cbn [lookup list_lookup].
  do 6 eexists. split; [ reflexivity | ].
  cbn [map cmd_x]. split; [ reflexivity | ].
  split; [ apply Bw | ].
  split; [ exact Ff | ]. split; [ exact Vf | ]. split; [ exact Mo | ].
  split; [ exact Ct | ]. split.
  - intros Zp. destruct (Z0 Zp) as [A B]. split; [ | exact B ].
    rewrite A. symmetry. exact Vf.
  - intros Zp. destruct (Z1 Zp) as (A & B & C). split; [ exact B | ].
    intros Hr. rewrite B. apply C. lia.
Qed.

Lemma fzero_unit_range :
  valid64 (fzero : spec_float) = true
  /\ IEEE.in_unit_range (fzero : spec_float) = true
  /\ (B2Q (fzero : spec_float) == 0)%Q.
Proof. repeat split. Qed.

Lemma fone_unit_range :
  valid64 (fone : spec_float) = true
  /\ IEEE.in_unit_range (fone : spec_float) = true
  /\ (B2Q (fone : spec_float) == 1)%Q.
Proof.
  split; [ exact Steps.fone_valid | ].
  split; [ exact Steps.fone_in_unit_range | exact fone_B2Q' ].
Qed.

End Tail.

(** X22: In the path of a painted bubble the tail runs from left to
    right: its left end, its left foot, its apex and its right foot are
    finite and in this order, and the right foot is either at the apex or
    not beyond the start of the rounded corner of the rectangle.  *)
Theorem tail_runs_left_to_right (st : Style) (b : Bubble IEEE.float64)
    (r : QRect) (brush : QBrush) :
  0 <= _counter b -> _premiumPossible b = true ->
  valid64 (_tailEdge b) = true -> IEEE.in_unit_range (_tailEdge b) = true ->
  - 2 ^ 30 <= r_x r <= 2 ^ 30 ->
  0 <= premiumBubblePenWidth st <= 2 ^ 30 ->
  2 * (premiumBubblePenWidth st `quot` 2) <= r_width r <= 2 ^ 31 ->
  0 <= sz_width (_tailSize b) <= 2 ^ 31 ->
  - 2 ^ 31 <= bubbleRadius b <= 2 ^ 31 ->
  exists tail body radius tlf tl tc tr,
    paintBubble st b r brush !! 2%nat = Some (OpDrawPath tail body radius)
    /\ map cmd_x tail = [tlf; tl; tc; tr; tr; tlf]
    /\ Forall (fun f => finite64 f = true) [tlf; tl; tc; tr]
    /\ (B2Q tlf <= B2Q tl)%Q /\ (B2Q tl <= B2Q tc)%Q
    /\ (B2Q tc <= B2Q tr)%Q
    /\ ((B2Q tr <= B2Q tc)%Q
        \/ (B2Q tr <= inject_Z (r_x body + r_width body - radius))%Q).
Proof.
  intros Hc Hp Vp Up Hx Hpen Hw Htw Hrad.
  destruct (Tail.tail_of_paint st b r brush Hc Hp Vp Up Hx Hpen Hw Htw Hrad)
    as (tail & body & tlf & tl & tc & tr & L & M & _ & F & _ & O & C & _).
  exists tail, body, (bubbleRadius b), tlf, tl, tc, tr.
  destruct F as (F1 & F2 & F3 & F4). destruct O as (O1 & O2 & O3).
  repeat split; try assumption.
  repeat constructor; assumption.
Qed.

Lemma tail_runs_left_to_right_witness :
  exists tail body radius tlf tl tc tr,
    paintBubble Sample.style
      (setTailEdge (flit (1 # 4)) (setCounter 3 Sample.bubble))
      {| r_x := 0; r_y := 0; r_width := 64; r_height := 47 |}
      (SolidBrush (StyleColor "windowBgActive")) !! 2%nat
    = Some (OpDrawPath tail body radius)
    /\ map cmd_x tail = [tlf; tl; tc; tr; tr; tlf]
    /\ Forall (fun f => finite64 f = true) [tlf; tl; tc; tr]
    /\ (B2Q tlf <= B2Q tl)%Q /\ (B2Q tl <= B2Q tc)%Q
    /\ (B2Q tc <= B2Q tr)%Q
    /\ ((B2Q tr <= B2Q tc)%Q
        \/ (B2Q tr <= inject_Z (r_x body + r_width body - radius))%Q).
Proof.
  apply tail_runs_left_to_right; try (vm_compute; reflexivity);
    vm_compute; repeat split; discriminate.
Defined.

(** X23: While the tail edge is 0 the tail of a painted bubble is
    centred: its left foot is at its left end, and its apex is at the
    horizontal centre of the rounded rectangle. *)
Theorem tail_centred_at_edge_zero (st : Style) (b : Bubble IEEE.float64)
    (r : QRect) (brush : QBrush) :
  0 <= _counter b -> _premiumPossible b = true ->
  _tailEdge b = fzero ->
  - 2 ^ 30 <= r_x r <= 2 ^ 30 ->
  0 <= premiumBubblePenWidth st <= 2 ^ 30 ->
  2 * (premiumBubblePenWidth st `quot` 2) <= r_width r <= 2 ^ 31 ->
  0 <= sz_width (_tailSize b) <= 2 ^ 31 ->
  - 2 ^ 31 <= bubbleRadius b <= 2 ^ 31 ->
  exists tail body radius tlf tl tc tr,
    paintBubble st b r brush !! 2%nat = Some (OpDrawPath tail body radius)
    /\ map cmd_x tail = [tlf; tl; tc; tr; tr; tlf]
    /\ Forall (fun f => finite64 f = true) [tlf; tl; tc]
    /\ (B2Q tl == B2Q tlf)%Q
    /\ (B2Q tc == inject_Z (r_x body) + inject_Z (r_width body) * (1 # 2))%Q
    /\ (B2Q tc - B2Q tl
        == inject_Z (sz_width (_tailSize b)) * (1 # 2))%Q.
Proof.
  intros Hc Hp Ep Hx Hpen Hw Htw Hrad.
  assert (Vz : valid64 (_tailEdge b) = true)
    by (rewrite Ep; apply Tail.fzero_unit_range).
  assert (Uz : IEEE.in_unit_range (_tailEdge b) = true)
    by (rewrite Ep; apply Tail.fzero_unit_range).
  assert (Bz : (B2Q (_tailEdge b) == 0)%Q)
    by (rewrite Ep; apply Tail.fzero_unit_range).
  destruct (Tail.tail_of_paint st b r brush Hc Hp Vz Uz Hx Hpen Hw Htw Hrad)
    as (tail & body & tlf & tl & tc & tr & L & M & _ & F & V & _ & _ & Z0 & _).
  destruct (Z0 Bz) as [A B].
  exists tail, body, (bubbleRadius b), tlf, tl, tc, tr.
  destruct F as (F1 & F2 & F3 & F4).
  split; [ exact L | ]. split; [ exact M | ].
  split; [ repeat constructor; assumption | ].
  split; [ exact A | ]. split; [ exact B | ].
  rewrite A, B, V. ring.
Qed.

Lemma tail_centred_at_edge_zero_witness :
  exists tail body radius tlf tl tc tr,
    paintBubble Sample.style (setCounter 3 Sample.bubble)
      {| r_x := 0; r_y := 0; r_width := 64; r_height := 47 |}
      (SolidBrush (StyleColor "windowBgActive")) !! 2%nat
    = Some (OpDrawPath tail body radius)
    /\ map cmd_x tail = [tlf; tl; tc; tr; tr; tlf]
    /\ Forall (fun f => finite64 f = true) [tlf; tl; tc]
    /\ (B2Q tl == B2Q tlf)%Q
    /\ (B2Q tc == inject_Z (r_x body) + inject_Z (r_width body) * (1 # 2))%Q
    /\ (B2Q tc - B2Q tl
        == inject_Z (sz_width (_tailSize (setCounter 3 Sample.bubble)))
           * (1 # 2))%Q.
Proof.
  apply tail_centred_at_edge_zero; try (vm_compute; reflexivity);
    vm_compute; repeat split; discriminate.
Defined.

(** X24: While the tail edge is 1 the apex of the tail of a painted
    bubble is at the right edge of the rounded rectangle, and with a
    radius that is not negative the right foot is at the apex. *)
Theorem tail_at_right_edge_at_edge_one (st : Style)
    (b : Bubble IEEE.float64) (r : QRect) (brush : QBrush) :
  0 <= _counter b -> _premiumPossible b = true ->
  _tailEdge b = fone ->
  - 2 ^ 30 <= r_x r <= 2 ^ 30 ->
  0 <= premiumBubblePenWidth st <= 2 ^ 30 ->
  2 * (premiumBubblePenWidth st `quot` 2) <= r_width r <= 2 ^ 31 ->
  0 <= sz_width (_tailSize b) <= 2 ^ 31 ->
  0 <= bubbleRadius b <= 2 ^ 31 ->
  exists tail body radius tlf tl tc tr,
    paintBubble st b r brush !! 2%nat = Some (OpDrawPath tail body radius)
    /\ map cmd_x tail = [tlf; tl; tc; tr; tr; tlf]
    /\ Forall (fun f => finite64 f = true) [tlf; tl; tc; tr]
    /\ (B2Q tc == inject_Z (r_x body) + inject_Z (r_width body))%Q
    /\ (B2Q tr == B2Q tc)%Q.
Proof.
  intros Hc Hp Ep Hx Hpen Hw Htw Hrad.
  assert (Vz : valid64 (_tailEdge b) = true)
    by (rewrite Ep; apply Tail.fone_unit_range).
  assert (Uz : IEEE.in_unit_range (_tailEdge b) = true)
    by (rewrite Ep; apply Tail.fone_unit_range).
  assert (Bz : (B2Q (_tailEdge b) == 1)%Q)
    by (rewrite Ep; apply Tail.fone_unit_range).
  destruct (Tail.tail_of_paint st b r brush Hc Hp Vz Uz Hx Hpen Hw Htw
              ltac:(lia))
    as (tail & body & tlf & tl & tc & tr & L & M & _ & F & _ & _ & _ & _ & Z1).
  destruct (Z1 Bz) as [A B].
  exists tail, body, (bubbleRadius b), tlf, tl, tc, tr.
  destruct F as (F1 & F2 & F3 & F4).
  split; [ exact L | ]. split; [ exact M | ].
  split; [ repeat constructor; assumption | ].
  split; [ exact A | ]. apply B. lia.
Qed.

Lemma tail_at_right_edge_at_edge_one_witness :
  exists tail body radius tlf tl tc tr,
    paintBubble Sample.style
      (setTailEdge fone (setCounter 3 Sample.bubble))
      {| r_x := 0; r_y := 0; r_width := 64; r_height := 47 |}
      (SolidBrush (StyleColor "windowBgActive")) !! 2%nat
    = Some (OpDrawPath tail body radius)
    /\ map cmd_x tail = [tlf; tl; tc; tr; tr; tlf]
    /\ Forall (fun f => finite64 f = true) [tlf; tl; tc; tr]
    /\ (B2Q tc == inject_Z (r_x body) + inject_Z (r_width body))%Q
    /\ (B2Q tr == B2Q tc)%Q.
Proof.
  apply tail_at_right_edge_at_edge_one; try (vm_compute; reflexivity);
    vm_compute; repeat split; discriminate.
Defined.

(** ** The slide of the bubble widget *)

Module Slide.

Import Signed.

Lemma within_le (a b : Z) (f : spec_float) :
  within a f -> a <= b -> within b f.
Proof.
  intros (F & L & U) H. split; [ exact F | ].
  destruct (Tail.inject_Z_bounds a a b ltac:(lia)) as [_ I]. split; lra.
Qed.

Lemma within_value (b : Z) (f : spec_float) (q : Q) :
  finite64 f = true -> (B2Q f == q)%Q ->
  (- inject_Z b <= q)%Q -> (q <= inject_Z b)%Q -> within b f.
Proof. intros F E L U. split; [ exact F | ]. rewrite E. split; assumption. Qed.

Lemma in_int_within (z : Z) : - 2 ^ 30 <= z <= 2 ^ 30 -> CInt.in_int z = true.
Proof.
  intros H. unfold CInt.in_int. apply andb_true_intro.
  split; apply Z.leb_le; unfold CInt.int_min, CInt.int_max; lia.
Qed.

(** The truncation of a finite float of small magnitude is the
    truncation of its value. *)
Lemma to_Z_within (f : spec_float) :
  within (2 ^ 30) f -> IEEE.to_Z f = Rounded.Qtrunc (B2Q f).
Proof.
  intros (F & L & U). rewrite (to_Z_signed f F). unfold Rounded.to_Z.
  rewrite in_int_within; [ reflexivity | ].
  apply Qtrunc_within; assumption.
Qed.

(** The ratio of the current counter to the greatest one. *)
Lemma ratio_unit (c m : Z) :
  0 <= c <= m -> 0 < m < 2 ^ 53 ->
  within 1 (SFdiv 53 1024 (IEEE.of_Z c) (IEEE.of_Z m))
  /\ (0 <= B2Q (SFdiv 53 1024 (IEEE.of_Z c) (IEEE.of_Z m)))%Q.
Proof.
  intros Hc Hm.
  destruct (Convert.of_Z_correct c) as (Nc & Vc & Ec); [ lia | ].
  destruct (Convert.of_Z_correct m) as (Nm & Vm & Em); [ lia | ].
  assert (Qm : (0 < inject_Z m)%Q).
  { change 0%Q with (inject_Z 0). rewrite <- Zlt_Qlt. lia. }
  destruct (Tail.inject_Z_bounds c 0 m Hc) as [Qc0 Qc1].
  change (inject_Z 0) with 0%Q in Qc0.
  assert (Hq : (0 <= inject_Z c / inject_Z m)%Q
               /\ (inject_Z c / inject_Z m <= 1)%Q).
  { split; [ apply Qle_shift_div_l; lra | apply Qle_shift_div_r; lra ]. }
  destruct (Ops.SFdiv_correct _ _ Nc Nm Vc Vm) as (N & V & E).
  - rewrite Em. exact Qm.
  - rewrite Ec, Em. apply (Qle_lt_trans _ 1); [ apply Hq | ].
    apply (int_below_pow2 1). lia.
  - assert (B : (0 <= round64 (inject_Z c / inject_Z m))%Q
                /\ (round64 (inject_Z c / inject_Z m) <= 1)%Q).
    { split.
      - apply (Qle_trans _ (round64 0));
          [ rewrite Ops.round64_zero by reflexivity; lra | ].
        apply Round.round64_mono, Hq.
      - apply (Qle_trans _ (round64 1));
          [ | rewrite Unit64.round64_one; lra ].
        apply Round.round64_mono, Hq. }
    assert (E' : (B2Q (SFdiv 53 1024 (IEEE.of_Z c) (IEEE.of_Z m))
                  == round64 (inject_Z c / inject_Z m))%Q).
    { rewrite E. apply Exact.round64_eq. rewrite Ec, Em. reflexivity. }
    split; [ | rewrite E'; apply B ].
    apply (within_value 1 _ _ (nonneg_finite64 _ N V) E');
      change (inject_Z 1) with 1%Q; lra.
Qed.

Lemma clamp_Q_unit (x : Q) :
  (clamp Rounded.Qltb x (round64 0) (round64 1)
   == clamp Rounded.Qltb x 0 1)%Q.
Proof.
  assert (E0 : (round64 0 == 0)%Q)
    by (rewrite Ops.round64_zero; reflexivity).
  pose proof Unit64.round64_one as E1.
  unfold clamp, Rounded.Qltb. rewrite !E0, !E1.
  destruct (negb (Qle_bool 0 x)); [ exact E0 | ].
  destruct (negb (Qle_bool x 1)); [ exact E1 | reflexivity ].
Qed.

(** The progress of the move: the clamped quotient of the value and the
    step, as a value of [[0, 1]] that grows with the value. *)
Lemma move_progress (v s : spec_float) :
  unit_value v ->
  nonneg s = true -> valid64 s = true -> (1 # 2 <= B2Q s)%Q ->
  let mp := clamp SFltb (SFdiv 53 1024 v s) (fzero : spec_float) fone in
  within 1 mp /\ (0 <= B2Q mp)%Q
  /\ (B2Q mp == clamp Rounded.Qltb (round64 (B2Q v / B2Q s)) 0 1)%Q.
Proof.
  intros Uv Ns Vs Hs mp.
  pose proof (Unit64.unit_quotient v s Ns Vs Hs Uv) as Um. fold mp in Um.
  destruct Um as [Vm Rm].
  destruct (Tail.unit_range_finite mp Vm Rm) as (Fm & M0 & M1).
  destruct Uv as [Vv Rv].
  pose proof (Binary64.in_unit_range_nonneg v Rv) as Nv.
  pose proof (Binary64.in_unit_range_value v Rv Vv) as [Hv0 Hv1].
  assert (Hq : (B2Q v / B2Q s <= 2)%Q).
  { apply Qle_shift_div_r; lra. }
  destruct (Ops.SFdiv_correct v s Nv Ns Vv Vs ltac:(lra)) as (Nq & Vq & Eq).
  { apply (Qle_lt_trans _ _ _ Hq). apply (int_below_pow2 2). lia. }
  destruct (Binary64.clamp_unit _ Nq Vq) as (_ & _ & Ep). fold mp in Ep.
  split; [ | split; [ exact M0 | ] ].
  - split; [ exact Fm | ]. change (inject_Z 1) with 1%Q. split; lra.
  - rewrite Ep.
    apply (Qeq_trans _ (clamp Rounded.Qltb (round64 (B2Q v / B2Q s))
                          (round64 0) (round64 1))).
    + apply Simulation.clamp_Q_eq; [ | exact Eq ].
      rewrite Ops.round64_zero by reflexivity.
      rewrite Unit64.round64_one. discriminate.
    + apply clamp_Q_unit.
Qed.

(** The left edge the animation callback computes, for a parent [wd]
    wide between its paddings, the half width [hw], the left padding
    [l], the greatest width [mw], the ratio of the counters, the progress
    of the move and the bubble edge. *)
Lemma left_floats (wd hw l mw : Z) (ratio mp e : spec_float) :
  0 <= wd <= 2 ^ 20 -> - 2 ^ 20 <= hw <= 2 ^ 20 ->
  - 2 ^ 20 <= l <= 2 ^ 20 -> 0 <= mw <= 2 ^ 20 ->
  within 1 ratio -> (0 <= B2Q ratio)%Q -> within 1 mp -> within 2 e ->
  let A := SFmul 53 1024 (IEEE.of_Z wd) ratio in
  let cl :=
    SFadd 53 1024
      (SFsub 53 1024 (SFmul 53 1024 A mp) (IEEE.of_Z hw)) (IEEE.of_Z l) in
  let E := SFmul 53 1024 (SFdiv 53 1024 (IEEE.of_Z mw) ftwo) e in
  let left := SFsub 53 1024 cl E in
  within (2 ^ 23) left /\ within (2 ^ 22) cl
  /\ (0 <= B2Q A)%Q /\ (B2Q A <= inject_Z wd)%Q
  /\ finite64 A = true
  /\ (B2Q cl
      == round64 (round64 (round64 (B2Q A * B2Q mp) - inject_Z hw)
                  + inject_Z l))%Q
  /\ (B2Q E == round64 (inject_Z mw * (1 # 2) * B2Q e))%Q
  /\ (B2Q left == round64 (B2Q cl - B2Q E))%Q.
Proof.
  intros Hwd Hhw Hl Hmw Wr R0 Wm We A cl E left.
  destruct (within_of_int wd (2 ^ 20)) as [Wwd Ewd]; [ lia | lia | ].
  destruct (within_of_int hw (2 ^ 20)) as [Whw Ehw]; [ lia | lia | ].
  destruct (within_of_int l (2 ^ 20)) as [Wl El]; [ lia | lia | ].
  destruct (Tail.half_of_int mw) as [Wh0 Eh]; [ lia | ].
  destruct (Tail.inject_Z_bounds mw 0 (2 ^ 20) Hmw) as [Qm0 Qm1].
  destruct (Tail.inject_Z_bounds wd 0 (2 ^ 20) Hwd) as [Qw0 Qw1].
  change (inject_Z 0) with 0%Q in Qm0, Qw0.
  assert (Wh : within (2 ^ 20) (SFdiv 53 1024 (IEEE.of_Z mw) ftwo)).
  { apply (within_value _ _ _ (within_finite _ _ Wh0) Eh).
    - revert Qm0 Qm1. generalize (inject_Z (2 ^ 20)) (inject_Z mw).
      intros M q ? ?. lra.
    - revert Qm0 Qm1. generalize (inject_Z (2 ^ 20)) (inject_Z mw).
      intros M q ? ?. lra. }
  destruct (mul_within _ 1 _ ratio Wwd Wr) as [WA EA]; try lia.
  fold A in WA, EA.
  destruct (mul_within _ 1 A mp WA Wm) as [WB EB]; try lia.
  destruct (sub_within _ _ _ _ WB Whw) as [WC EC]; try lia.
  destruct (add_within _ _ _ _ WC Wl) as [WD ED]; try lia.
  fold cl in WD, ED.
  destruct (mul_within _ 2 _ e Wh We) as [WE EE]; try lia.
  fold E in WE, EE.
  destruct (sub_within _ _ cl E WD WE) as [WL EL]; try lia.
  fold left in WL, EL.
  assert (A0 : (0 <= B2Q A)%Q /\ (B2Q A <= inject_Z wd)%Q).
  { destruct Wr as (_ & _ & R1). change (inject_Z 1) with 1%Q in R1.
    split; rewrite EA.
    - apply (Qle_trans _ (round64 0));
        [ rewrite Ops.round64_zero by reflexivity; lra | ].
      apply Round.round64_mono. rewrite Ewd. nra.
    - apply (Qle_trans _ (round64 (inject_Z wd)));
        [ | rewrite round64_int by lia; lra ].
      apply Round.round64_mono. rewrite Ewd. nra. }
  split; [ apply (within_le _ _ _ WL); lia | ].
  split; [ apply (within_le _ _ _ WD); lia | ].
  split; [ apply A0 | ]. split; [ apply A0 | ].
  split; [ apply WA | ].
  split; [ | split; [ | exact EL ] ].
  - rewrite ED. apply Exact.round64_eq. rewrite El.
    apply Qplus_comp; [ | reflexivity ].
    rewrite EC. apply Exact.round64_eq. rewrite Ehw.
    apply Qplus_comp; [ | reflexivity ]. exact EB.
  - rewrite EE. apply Exact.round64_eq. rewrite Eh. reflexivity.
Qed.

(** The left edge grows with the progress of the move. *)
Lemma left_mono (wd hw l mw : Z) (ratio mp mp' e : spec_float) :
  0 <= wd <= 2 ^ 20 -> - 2 ^ 20 <= hw <= 2 ^ 20 ->
  - 2 ^ 20 <= l <= 2 ^ 20 -> 0 <= mw <= 2 ^ 20 ->
  within 1 ratio -> (0 <= B2Q ratio)%Q ->
  within 1 mp -> within 1 mp' -> within 2 e ->
  (B2Q mp <= B2Q mp')%Q ->
  let left := fun p =>
    SFsub 53 1024
      (SFadd 53 1024
         (SFsub 53 1024
            (SFmul 53 1024 (SFmul 53 1024 (IEEE.of_Z wd) ratio) p)
            (IEEE.of_Z hw)) (IEEE.of_Z l))
      (SFmul 53 1024 (SFdiv 53 1024 (IEEE.of_Z mw) ftwo) e) in
  IEEE.to_Z (left mp) <= IEEE.to_Z (left mp')
  /\ ((B2Q mp == B2Q mp')%Q -> IEEE.to_Z (left mp) = IEEE.to_Z (left mp')).
Proof.
  intros Hwd Hhw Hl Hmw Wr R0 Wm Wm' We Hle left.
  destruct (left_floats wd hw l mw ratio mp e Hwd Hhw Hl Hmw Wr R0 Wm We)
    as (WL & _ & A0 & _ & _ & Ec & _ & El).
  destruct (left_floats wd hw l mw ratio mp' e Hwd Hhw Hl Hmw Wr R0 Wm' We)
    as (WL' & _ & _ & _ & _ & Ec' & _ & El').
  cbv zeta in *. fold (left mp) in WL, El. fold (left mp') in WL', El'.
  rewrite (to_Z_within (left mp)) by (apply (within_le _ _ _ WL); lia).
  rewrite (to_Z_within (left mp')) by (apply (within_le _ _ _ WL'); lia).
  split.
  - apply Qtrunc_le. rewrite El, El'. apply Round.round64_mono.
    apply Qplus_le_compat; [ | lra ].
    rewrite Ec, Ec'. apply Round.round64_mono.
    apply Qplus_le_compat; [ | lra ].
    apply Round.round64_mono. apply Qplus_le_compat; [ | lra ].
    apply Round.round64_mono. nra.
  - intros Heq. apply Qtrunc_eq. rewrite El, El'. apply Exact.round64_eq.
    apply Qplus_comp; [ | reflexivity ].
    rewrite Ec, Ec'. apply Exact.round64_eq.
    apply Qplus_comp; [ | reflexivity ].
    apply Exact.round64_eq. apply Qplus_comp; [ | reflexivity ].
    apply Exact.round64_eq. rewrite Heq. reflexivity.
Qed.

Lemma fone_within1 : within 1 (fone : spec_float).
Proof. exact Tail.fone_within'. Qed.

Lemma fzero_within2 : within 2 (S754_zero false).
Proof. split; [ reflexivity | ]. split; vm_compute; discriminate. Qed.

(** The bubble edge: finite, at least 0 and at most 2. *)
Lemma check_edges_range (cw l r mw : Z) (ratio : spec_float) :
  0 <= l -> 0 <= r -> l + r <= cw <= 2 ^ 20 -> 1 <= mw <= 2 ^ 20 ->
  within 1 ratio -> (0 <= B2Q ratio)%Q ->
  let finish :=
    SFadd 53 1024
      (SFsub 53 1024
         (SFmul 53 1024 (SFmul 53 1024 (IEEE.of_Z (cw - l - r)) ratio) fone)
         (IEEE.of_Z (mw `quot` 2))) (IEEE.of_Z l) in
  let edge := IEEE.of_Z (cw - r - mw) in
  let e := if SFleb edge finish
           then SFdiv 53 1024 (SFsub 53 1024 finish edge)
                  (SFdiv 53 1024 (IEEE.of_Z mw) ftwo)
           else S754_zero false in
  finite64 e = true /\ (0 <= B2Q e)%Q /\ (B2Q e <= 2)%Q.
Proof.
  intros Hl Hr Hcw Hmw Wr R0 finish edge e.
  assert (Hq : 0 <= mw `quot` 2 <= mw).
  { split; [ apply Z.quot_pos; lia | ].
    apply Z.quot_le_upper_bound; lia. }
  destruct (left_floats (cw - l - r) (mw `quot` 2) l mw ratio fone
              (S754_zero false)) as (_ & Wf & A0 & A1 & FA & Ef & _ & _);
    try lia; try assumption;
    [ exact fone_within1 | exact fzero_within2 | ].
  cbv zeta in Wf, A0, A1, FA, Ef. fold finish in Wf, Ef.
  set (A := SFmul 53 1024 (IEEE.of_Z (cw - l - r)) ratio) in *.
  destruct (within_of_int (cw - r - mw) (2 ^ 21)) as [We Ee];
    [ lia | lia | ]. fold edge in We, Ee.
  destruct (Tail.half_of_int mw) as [Wh Eh]; [ lia | ].
  set (h2 := SFdiv 53 1024 (IEEE.of_Z mw) ftwo) in *.
  destruct (sub_within _ _ finish edge Wf We) as [WN EN]; try lia.
  set (N := SFsub 53 1024 finish edge) in *.
  assert (Qm : (1 <= inject_Z mw)%Q).
  { change 1%Q with (inject_Z 1). rewrite <- Zle_Qle. lia. }
  (* the end of the move is at most the exact end for the ratio 1 *)
  assert (Uf : (B2Q finish
                <= inject_Z (cw - l - r - mw `quot` 2 + l))%Q).
  { rewrite Ef.
    apply (Qle_trans _ (round64 (inject_Z (cw - l - r - mw `quot` 2 + l))));
      [ | rewrite round64_int by lia; lra ].
    apply Round.round64_mono. rewrite (inject_Z_plus _ l).
    apply Qplus_le_compat; [ | lra ].
    apply (Qle_trans _ (round64 (inject_Z (cw - l - r - mw `quot` 2))));
      [ | rewrite round64_int by lia; lra ].
    apply Round.round64_mono.
    unfold Z.sub at 1. rewrite inject_Z_plus, inject_Z_opp.
    apply Qplus_le_compat; [ | lra ].
    apply (Qle_trans _ (round64 (B2Q A)));
      [ | rewrite (round64_exact_signed A FA); exact A1 ].
    apply Round.round64_mono. rewrite Tail.fone_B2Q'. lra. }
  unfold e.
  rewrite (SFleb_signed edge finish (within_finite _ _ We)
             (within_finite _ _ Wf)).
  destruct (Qle_bool (B2Q edge) (B2Q finish)) eqn:Le;
    [ | repeat split; vm_compute; discriminate ].
  apply Qle_bool_iff in Le.
  assert (N0 : (0 <= B2Q N)%Q).
  { rewrite EN. apply (Qle_trans _ (round64 0));
      [ rewrite Ops.round64_zero by reflexivity; lra | ].
    apply Round.round64_mono. lra. }
  assert (N1 : (B2Q N <= inject_Z mw)%Q).
  { rewrite EN. apply (Qle_trans _ (round64 (inject_Z mw)));
      [ | rewrite round64_int by lia; lra ].
    apply Round.round64_mono. rewrite Ee.
    apply (Qle_trans _ (inject_Z (cw - l - r - mw `quot` 2 + l)
                        - inject_Z (cw - r - mw))); [ lra | ].
    unfold Qminus. rewrite <- inject_Z_opp, <- inject_Z_plus, <- Zle_Qle.
    lia. }
  assert (Hd : (0 <= B2Q N / B2Q h2)%Q /\ (B2Q N / B2Q h2 <= 2)%Q).
  { rewrite Eh. split.
    - apply Qle_shift_div_l; lra.
    - apply Qle_shift_div_r; lra. }
  destruct (SFdiv_signed N h2 (within_finite _ _ WN) (within_finite _ _ Wh))
    as [F E].
  - rewrite Eh. lra.
  - apply (Qlt_le_trans _ 0); [ | apply Hd ].
    pose proof (Pow2.pow2_pos 1000). lra.
  - apply (Qle_lt_trans _ 2); [ apply Hd | ].
    apply (int_below_pow2 2). lia.
  - split; [ exact F | ]. rewrite E. split.
    + apply (Qle_trans _ (round64 0));
        [ rewrite Ops.round64_zero by reflexivity; lra | ].
      apply Round.round64_mono, Hd.
    + apply (Qle_trans _ (round64 2));
        [ | rewrite Tail.round64_two; lra ].
      apply Round.round64_mono, Hd.
Qed.

End Slide.

Module Ticks.

Import Signed.

(** The step of the move that the handler of [showFinishes] leaves. *)
Lemma step_after_show (st : Style) (bw0 : BubbleWidget IEEE.float64) :
  steps_state bw0 -> w_showFinishesLeft bw0 = 1%nat ->
  let s := _stepBeforeDeflection (onShowFinishes st bw0) in
  nonneg s = true /\ valid64 s = true
  /\ (1 # 2 <= B2Q s)%Q /\ (0 < B2Q s)%Q /\ (B2Q s <= 1)%Q.
Proof.
  intros Hs H1 s. apply Unit64.steps_facts. unfold s, onShowFinishes.
  rewrite H1. cbn [with_showFinishesLeft startAppearance
                   _stepBeforeDeflection].
  destruct (to_bool (checkBubbleEdges st bw0)); [ right; right; reflexivity | ].
  destruct Hs as [ (_ & E & _) | (_ & _ & _ & E) ];
    [ left; exact E | rewrite H1 in E; discriminate ].
Qed.

(** The bubble edge, as the handler of [showFinishes] computes it. *)
Lemma edge_range (st : Style) (bw : BubbleWidget IEEE.float64) :
  0 <= _currentCounter bw <= _maxCounter bw ->
  0 < _maxCounter bw < 2 ^ 53 ->
  0 <= m_left (boxRowPadding st) -> 0 <= m_right (boxRowPadding st) ->
  m_left (boxRowPadding st) + m_right (boxRowPadding st)
    <= content_width (w_parent bw) <= 2 ^ 20 ->
  1 <= _maxBubbleWidth bw <= 2 ^ 20 ->
  finite64 (checkBubbleEdges st bw) = true
  /\ (0 <= B2Q (checkBubbleEdges st bw))%Q
  /\ (B2Q (checkBubbleEdges st bw) <= 2)%Q.
Proof.
  intros Hc Hm Hl Hr Hw Hmw.
  destruct (Slide.ratio_unit _ _ Hc Hm) as [Wr R0].
  exact (Slide.check_edges_range (content_width (w_parent bw))
           (m_left (boxRowPadding st)) (m_right (boxRowPadding st))
           (_maxBubbleWidth bw) _ Hl Hr Hw Hmw Wr R0).
Qed.

(** The positions the ticks of the animation give the widget after the
    handler of [showFinishes] ran: they depend on the value alone, grow
    with it, and are the same for all values from the step on. *)
Lemma positions (st : Style) (bw0 : BubbleWidget IEEE.float64) :
  steps_state bw0 -> w_showFinishesLeft bw0 = 1%nat ->
  0 <= _currentCounter bw0 <= _maxCounter bw0 ->
  0 < _maxCounter bw0 < 2 ^ 53 ->
  0 <= m_left (boxRowPadding st) -> 0 <= m_right (boxRowPadding st) ->
  m_left (boxRowPadding st) + m_right (boxRowPadding st)
    <= content_width (w_parent bw0) <= 2 ^ 20 ->
  1 <= _maxBubbleWidth bw0 <= 2 ^ 20 ->
  let bw := onShowFinishes st bw0 in
  exists pos : IEEE.float64 -> Z,
    (forall v, w_x (onAnimationTick st v bw) = pos v)
    /\ (forall v v',
          w_x (onAnimationTick st v' (onAnimationTick st v bw)) = pos v')
    /\ (forall v v', unit_value v -> unit_value v' ->
          (B2Q v <= B2Q v')%Q -> pos v <= pos v')
    /\ (forall v v', unit_value v -> unit_value v' ->
          (B2Q (_stepBeforeDeflection bw) <= B2Q v)%Q ->
          (B2Q (_stepBeforeDeflection bw) <= B2Q v')%Q -> pos v = pos v').
Proof.
  intros Hs H1 Hc Hm Hl Hr Hw Hmw bw.
  destruct (step_after_show st bw0 Hs H1) as (Ns & Vs & S2 & S0 & S1).
  assert (Ebw : bw = with_showFinishesLeft 0 (startAppearance st bw0)).
  { unfold bw, onShowFinishes. rewrite H1. reflexivity. }
  fold bw in Ns, Vs, S2, S0, S1. clearbody bw. subst bw.
  set (bw := with_showFinishesLeft 0 (startAppearance st bw0)) in *.
  destruct (edge_range st bw0 Hc Hm Hl Hr Hw Hmw) as (Fe & E0 & E1).
  destruct (Slide.ratio_unit _ _ Hc Hm) as [Wr R0].
  set (ratio := SFdiv 53 1024 (IEEE.of_Z (_currentCounter bw0))
                  (IEEE.of_Z (_maxCounter bw0))) in *.
  set (e := checkBubbleEdges st bw0) in *.
  set (s := _stepBeforeDeflection bw) in *.
  assert (We : within 2 e).
  { split; [ exact Fe | ]. change (inject_Z 2) with 2%Q. split; lra. }
  assert (Hq : - 2 ^ 20 <= _maxBubbleWidth bw0 `quot` 2 <= 2 ^ 20).
  { split; [ apply (Z.le_trans _ 0); [ lia | apply Z.quot_pos; lia ] | ].
    apply Z.quot_le_upper_bound; lia. }
  set (left := fun p : spec_float =>
    SFsub 53 1024
      (SFadd 53 1024
         (SFsub 53 1024
            (SFmul 53 1024
               (SFmul 53 1024
                  (IEEE.of_Z (content_width (w_parent bw0)
                              - m_left (boxRowPadding st)
                              - m_right (boxRowPadding st))) ratio) p)
            (IEEE.of_Z (_maxBubbleWidth bw0 `quot` 2)))
         (IEEE.of_Z (m_left (boxRowPadding st))))
      (SFmul 53 1024
         (SFdiv 53 1024 (IEEE.of_Z (_maxBubbleWidth bw0)) ftwo) e)).
  set (mp := fun v : spec_float =>
    clamp SFltb (SFdiv 53 1024 v s) (fzero : spec_float) fone).
  exists (fun v => IEEE.to_Z (left (mp v))).
  split; [ | split; [ | split ] ].
  - intros v. reflexivity.
  - intros v v'. reflexivity.
  - intros v v' Uv Uv' Hle.
    destruct (Slide.move_progress v s Uv Ns Vs S2) as (Wm & _ & Em).
    destruct (Slide.move_progress v' s Uv' Ns Vs S2) as (Wm' & _ & Em').
    fold (mp v) in Wm, Em. fold (mp v') in Wm', Em'.
    apply (Slide.left_mono _ _ _ _ ratio (mp v) (mp v') e);
      try lia; try assumption.
    rewrite Em, Em'. apply CounterProgress.clamp_Q_mono; [ lra | ].
    apply Round.round64_mono. apply Qmult_le_compat_r; [ exact Hle | ].
    apply Qinv_le_0_compat. lra.
  - intros v v' Uv Uv' Hv Hv'.
    destruct (Slide.move_progress v s Uv Ns Vs S2) as (Wm & _ & Em).
    destruct (Slide.move_progress v' s Uv' Ns Vs S2) as (Wm' & _ & Em').
    fold (mp v) in Wm, Em. fold (mp v') in Wm', Em'.
    assert (T : forall u : spec_float, (B2Q s <= B2Q u)%Q ->
              (clamp Rounded.Qltb (round64 (B2Q u / B2Q s)) 0 1 == 1)%Q).
    { intros u Hu. apply CounterProgress.clamp_Q_top; [ lra | ].
      apply (Qle_trans _ (round64 1));
        [ rewrite Unit64.round64_one; lra | ].
      apply Round.round64_mono. apply Qle_shift_div_l; lra. }
    apply (Slide.left_mono _ _ _ _ ratio (mp v) (mp v') e);
      try lia; try assumption.
    + rewrite Em, Em', (T v Hv), (T v' Hv'). lra.
    + rewrite Em, Em', (T v Hv), (T v' Hv'). reflexivity.
Qed.

End Ticks.

(** X25: The bubble edge that the handler of the first [showFinishes]
    event computes and hands to the animation is a finite number, at
    least 0 and at most 2: it is never negative, infinite or NaN. *)
Theorem bubble_edge_in_range (st : Style) (bw : BubbleWidget IEEE.float64) :
  w_showFinishesLeft bw = 1%nat ->
  0 <= _currentCounter bw <= _maxCounter bw ->
  0 < _maxCounter bw < 2 ^ 53 ->
  0 <= m_left (boxRowPadding st) -> 0 <= m_right (boxRowPadding st) ->
  m_left (boxRowPadding st) + m_right (boxRowPadding st)
    <= content_width (w_parent bw) <= 2 ^ 20 ->
  1 <= _maxBubbleWidth bw <= 2 ^ 20 ->
  exists a,
    _appearanceAnimation (onShowFinishes st bw) = Some a
    /\ anim_bubbleEdge a = checkBubbleEdges st bw
    /\ finite64 (anim_bubbleEdge a) = true
    /\ (0 <= B2Q (anim_bubbleEdge a))%Q
    /\ (B2Q (anim_bubbleEdge a) <= 2)%Q.
Proof.
  intros H1 Hc Hm Hl Hr Hw Hmw.
  destruct (Ticks.edge_range st bw Hc Hm Hl Hr Hw Hmw) as (Fe & E0 & E1).
  unfold onShowFinishes. rewrite H1.
  cbn [with_showFinishesLeft startAppearance _appearanceAnimation].
  eexists. split; [ reflexivity | ].
  cbn [anim_bubbleEdge]. split; [ reflexivity | ].
  split; [ exact Fe | ]. split; [ exact E0 | exact E1 ].
Qed.

Lemma bubble_edge_in_range_witness :
  exists a,
    _appearanceAnimation
      (onShowFinishes Sample.style (Sample.bubbleWidget 9 10)) = Some a
    /\ anim_bubbleEdge a
       = checkBubbleEdges Sample.style (Sample.bubbleWidget 9 10)
    /\ finite64 (anim_bubbleEdge a) = true
    /\ (0 <= B2Q (anim_bubbleEdge a))%Q
    /\ (B2Q (anim_bubbleEdge a) <= 2)%Q.
Proof.
  apply bubble_edge_in_range;
    try (vm_compute; reflexivity);
    vm_compute; repeat split; discriminate.
Defined.



(** X27: After the handler of [showFinishes] ran, the widget is at the
    same place after every tick whose value has reached the step before
    the deflection: the move is over, whatever the animation does
    afterwards. *)
Theorem bubble_rests_after_move (st : Style)
    (bw0 : BubbleWidget IEEE.float64) (v1 v2 : IEEE.float64) :
  steps_state bw0 -> w_showFinishesLeft bw0 = 1%nat ->
  0 <= _currentCounter bw0 <= _maxCounter bw0 ->
  0 < _maxCounter bw0 < 2 ^ 53 ->
  0 <= m_left (boxRowPadding st) -> 0 <= m_right (boxRowPadding st) ->
  m_left (boxRowPadding st) + m_right (boxRowPadding st)
    <= content_width (w_parent bw0) <= 2 ^ 20 ->
  1 <= _maxBubbleWidth bw0 <= 2 ^ 20 ->
  unit_value v1 -> unit_value v2 ->
  SFleb (_stepBeforeDeflection (onShowFinishes st bw0)) v1 = true ->
  SFleb (_stepBeforeDeflection (onShowFinishes st bw0)) v2 = true ->
  w_x (onAnimationTick st v2
         (onAnimationTick st v1 (onShowFinishes st bw0)))
  = w_x (onAnimationTick st v1 (onShowFinishes st bw0)).
Proof.
  intros Hs H1 Hc Hm Hl Hr Hw Hmw U1 U2 L1 L2.
  destruct (Ticks.positions st bw0 Hs H1 Hc Hm Hl Hr Hw Hmw)
    as (pos & P1 & P2 & _ & Rest).
  destruct (Ticks.step_after_show st bw0 Hs H1) as (Ns & Vs & _).
  pose proof (Signed.nonneg_finite64 _ Ns Vs) as Fs.
  rewrite P1, P2. apply Rest; try assumption.
  - destruct U2 as [V2 R2].
    destruct (Tail.unit_range_finite v2 V2 R2) as (F2 & _).
    rewrite (Signed.SFleb_signed _ v2 Fs F2) in L2.
    apply Qle_bool_iff, L2.
  - destruct U1 as [V1 R1].
    destruct (Tail.unit_range_finite v1 V1 R1) as (F1 & _).
    rewrite (Signed.SFleb_signed _ v1 Fs F1) in L1.
    apply Qle_bool_iff, L1.
Qed.

Lemma bubble_rests_after_move_witness :
  w_x (onAnimationTick Sample.style fone
         (onAnimationTick Sample.style (flit (3 # 4))
            (onShowFinishes Sample.style (Sample.bubbleWidget 3 10))))
  = w_x (onAnimationTick Sample.style (flit (3 # 4))
           (onShowFinishes Sample.style (Sample.bubbleWidget 3 10))).
Proof.
  apply bubble_rests_after_move;
    try (left; repeat split; reflexivity);
    try (vm_compute; reflexivity);
    try (split; vm_compute; reflexivity);
    vm_compute; repeat split; discriminate.
Defined.


